(** * Corporate hierarchy extraction: section location, pattern extractors,
      pipeline, metrics and upload route of [src/app.py], the validation
      helpers of [src/utils.py] and the text steps of
      [src/pdf_extractor.py]

    The development embeds the text-processing core of [app.py]:
    [find_section], [parse_exhibit21], [parse_def14a_directors],
    [parse_def14a_beneficial_owners], [extract_from_filings], the metric
    functions, [allowed_file], [pdf_to_text], the decisions of [upload] and
    the data of [sample_data]; the four functions of [utils.py]; and, of
    [pdf_extractor.py], [clean_text], [extract_text_from_pdf] and
    [parse_json_response].

    Modelling choices.
    - A Python [str] is a list of Unicode code points ([N]).  White space is
      the table of [str.isspace] (which is also [\s] of [re] on [str]
      patterns).  [re.IGNORECASE] is modelled for patterns whose letters are
      ASCII letters, as all patterns of the program are: it equates the two
      letters of an ASCII pair and the four letters U+0130, U+0131, U+017F
      and U+212A with [i], [s] and [k].  [str.lower] covers ASCII, Latin-1
      and these letters, which is every character that the extractors hand
      to it (names and jurisdictions are ASCII and white space, roles are
      matched by the title keywords); [allowed_file] only compares its
      result with two ASCII words.  [\d] and [float] cover the ASCII
      digits: a text with decimal digits of other scripts is outside the
      model.
    - The [re] module is a backtracking matcher over a regular-expression
      syntax tree, with Python's priorities: alternatives left to right,
      greedy repetition tries one more iteration first, lazy repetition
      tries to stop first.  Every pattern of the program is written as such
      a tree next to its Python source text.
    - A Python [float] is an IEEE-754 binary64 value ([spec_float] with
      precision 53 and maximal exponent 1024); [float(s)], [int / int] and
      [round(x, 1)] are correctly rounded.
    - Python exceptions are values: [Raise] of [result] for the extractors,
      [Raises] of [Utils.outcome] with the message of a [ValueError] for
      [utils.py], an error of [PdfExtractor.pdf_error], and [Uncaught] of
      [PdfExtractor.parsed] for what [parse_json_response] lets through.
    - The extractors are given twice: as functions of the text, with the
      state of their loops passed along, and in [Store] as calls that make
      and change objects of a store, which is what one call leaves to the
      next.  [StoreFacts] proves that the calls compute the functions.
    - What lies outside the program is an input of the model: a PDF is the
      list of the texts that [pdfplumber] extracts from its pages, an
      uploaded file is its name and its document, [json.loads] is a
      function from a text to a dictionary or an exception.  JSON data is a
      tree of [Utils.value]; a dictionary keeps its entries in insertion
      order, with strings for keys. *)

From Stdlib Require Import String Ascii.
From Stdlib Require Import ZArith NArith Lia Bool Arith PeanoNat List Sorted Permutation.
From Stdlib Require Import Floats.SpecFloat.
Import ListNotations.

Set Implicit Arguments.

(* ================================================================== *)
(** * Python strings *)

Module Py.

Definition str := list N.

(** A string literal of the source, as code points. *)
Definition lit (x : string) : str := map N_of_ascii (list_ascii_of_string x).

Definition in_range (lo hi c : N) : bool := ((lo <=? c) && (c <=? hi))%N.

(** [str.isspace] on one character, and [\s]. *)
Definition is_space (c : N) : bool :=
  in_range 9 13 c || in_range 28 32 c || (c =? 133)%N || (c =? 160)%N
  || (c =? 5760)%N || in_range 8192 8202 c || (c =? 8232)%N || (c =? 8233)%N
  || (c =? 8239)%N || (c =? 8287)%N || (c =? 12288)%N.

(** [\d]. *)
Definition is_digit (c : N) : bool := in_range 48 57 c.

Definition is_ascii_upper (c : N) : bool := in_range 65 90 c.
Definition is_ascii_lower (c : N) : bool := in_range 97 122 c.

(** The lower case of one character: the ASCII and Latin-1 capitals, the
    Kelvin sign U+212A (to [k]) and the dotted capital I U+0130 (to [i] and
    a combining dot, U+0307). *)
Definition lower_char (c : N) : list N :=
  if is_ascii_upper c || (in_range 192 222 c && negb (c =? 215)%N)
  then [(c + 32)%N]
  else if (c =? 8490)%N then [107%N]
  else if (c =? 304)%N then [105%N; 775%N]
  else [c].

(** [s.lower()]. *)
Definition lower (s : str) : str := flat_map lower_char s.

(** The ASCII letters that [re.IGNORECASE] holds equal to [c], without [c]
    itself: the other letter of an ASCII pair and, for the four letters
    outside ASCII that it equates with [i], [s] and [k] (U+0130, U+0131,
    U+017F, U+212A), that pair.  The letters of every pattern of the
    program are ASCII letters. *)
Definition case_class (c : N) : list N :=
  if is_ascii_upper c then [(c + 32)%N]
  else if is_ascii_lower c then [(c - 32)%N]
  else if (c =? 304)%N || (c =? 305)%N then [73%N; 105%N]
  else if (c =? 383)%N then [83%N; 115%N]
  else if (c =? 8490)%N then [75%N; 107%N]
  else [].

Fixpoint lstrip_by (drop : N -> bool) (s : str) : str :=
  match s with
  | c :: s' => if drop c then lstrip_by drop s' else s
  | [] => []
  end.

Definition rstrip_by (drop : N -> bool) (s : str) : str :=
  rev (lstrip_by drop (rev s)).

(** [s.strip()]. *)
Definition strip (s : str) : str := rstrip_by is_space (lstrip_by is_space s).

(** [s.rstrip(chars)]. *)
Definition rstrip_chars (chars : str) (s : str) : str :=
  rstrip_by (fun c => existsb (N.eqb c) chars) s.

(** [s.split()]: the maximal runs of non-space characters. *)
Fixpoint split_ws_aux (cur : str) (s : str) : list str :=
  match s with
  | [] => match cur with [] => [] | _ => [rev cur] end
  | c :: s' =>
      if is_space c
      then match cur with
           | [] => split_ws_aux [] s'
           | _ => rev cur :: split_ws_aux [] s'
           end
      else split_ws_aux (c :: cur) s'
  end.

Definition split (s : str) : list str := split_ws_aux [] s.

Fixpoint str_eqb (a b : str) : bool :=
  match a, b with
  | [], [] => true
  | x :: a', y :: b' => (x =? y)%N && str_eqb a' b'
  | _, _ => false
  end.

(** [x in seen] for a set (or list) of strings. *)
Definition mem (x : str) (xs : list str) : bool := existsb (str_eqb x) xs.

(** Index normalisation of a slice bound: negative bounds count from the
    end, and every bound is clipped to [0 .. len]. *)
Definition clip (len : nat) (i : Z) : nat :=
  let j := if (i <? 0)%Z then (Z.of_nat len + i)%Z else i in
  Nat.min len (Z.to_nat j).

(** [s[a:b]]. *)
Definition slice (s : str) (a b : Z) : str :=
  let a' := clip (length s) a in
  let b' := clip (length s) b in
  firstn (b' - a') (skipn a' s).

(** [s[a:]]. *)
Definition slice_from (s : str) (a : Z) : str :=
  skipn (clip (length s) a) s.

(** [s[a:b]] for indices that are match offsets (natural numbers). *)
Definition substr (s : str) (a b : nat) : str := firstn (b - a) (skipn a s).

(** Exceptions of the built-ins that the extractors call. *)
Inductive exn := ValueError | AttributeError.

Inductive result (A : Type) : Type :=
| Ok (a : A)
| Raise (e : exn).
Arguments Ok {A} a.
Arguments Raise {A} e.

Definition bind {A B} (x : result A) (f : A -> result B) : result B :=
  match x with
  | Ok a => f a
  | Raise e => Raise e
  end.

(** [for x in xs: st = body(st, x)], stopping at the first exception. *)
Fixpoint for_each {S X} (body : S -> X -> result S) (st : S) (xs : list X)
  : result S :=
  match xs with
  | [] => Ok st
  | x :: xs' => bind (body st x) (fun st' => for_each body st' xs')
  end.

(* ------------------------------------------------------------------ *)
(** ** Numbers: [int] and [float] *)

Definition float := spec_float.
Definition prec : Z := 53.
Definition emax : Z := 1024.

Definition fadd : float -> float -> float := SFadd prec emax.
Definition fltb : float -> float -> bool := SFltb.

(** The integer [z] as an exact, not yet rounded, binary value. *)
Definition exact_Z (z : Z) : float :=
  match z with
  | Z0 => S754_zero false
  | Zpos p => S754_finite false p 0
  | Zneg p => S754_finite true p 0
  end.

(** [float(z)] for an [int] [z]: rounded to nearest, ties to even. *)
Definition float_of_Z (z : Z) : float := binary_normalize prec emax z 0 false.

(** The quotient [a / b] of two integers, rounded once, to nearest even:
    the value of [a / b] on [int]s and of a decimal literal [a / 10^k]. *)
Definition fdiv_Z (a : Z) (b : positive) : float :=
  SFdiv prec emax (exact_Z a) (exact_Z (Zpos b)).

Definition digit_val (c : N) : Z := Z.of_N (c - 48).

Fixpoint digits_val (acc : Z) (ds : str) : Z :=
  match ds with
  | [] => acc
  | d :: ds' => digits_val (10 * acc + digit_val d) ds'
  end.

Fixpoint pow10 (n : nat) : positive :=
  match n with
  | O => 1
  | S n' => 10 * pow10 n'
  end.

Fixpoint take_digits (s : str) : str * str :=
  match s with
  | c :: s' =>
      if is_digit c
      then let (ds, rest) := take_digits s' in (c :: ds, rest)
      else ([], s)
  | [] => ([], [])
  end.

(** [float(s)] on the plain decimal notation [digits], [digits.digits],
    [digits.] and [.digits], which covers every capture of
    [\d+(?:\.\d+)?].  The further notations of Python (sign, exponent,
    [inf], [nan], underscores, surrounding white space) are not modelled:
    they raise [ValueError] here. *)
Definition py_float (s : str) : result float :=
  let (ip, rest) := take_digits s in
  match rest with
  | [] =>
      match ip with
      | [] => Raise ValueError
      | _ => Ok (fdiv_Z (digits_val 0 ip) 1)
      end
  | c :: rest' =>
      if (c =? 46)%N then
        let (fp, rest'') := take_digits rest' in
        match rest'', ip ++ fp with
        | [], _ :: _ =>
            Ok (fdiv_Z (digits_val 0 (ip ++ fp)) (pow10 (length fp)))
        | _, _ => Raise ValueError
        end
      else Raise ValueError
  end.

(** A Python number. *)
Inductive num :=
| PInt (z : Z)
| PFloat (f : float).

Definition to_float (x : num) : float :=
  match x with
  | PInt z => float_of_Z z
  | PFloat f => f
  end.

(** [x + y]. *)
Definition num_add (x y : num) : num :=
  match x, y with
  | PInt a, PInt b => PInt (a + b)
  | _, _ => PFloat (fadd (to_float x) (to_float y))
  end.

(** [x < y].  An [int] operand of a mixed comparison is converted; the
    conversion is exact for the integers below [2^53], and the program
    compares floats with small literals only. *)
Definition num_ltb (x y : num) : bool :=
  match x, y with
  | PInt a, PInt b => (a <? b)%Z
  | _, _ => fltb (to_float x) (to_float y)
  end.

(** [min(x, y)]: the first argument unless the second is smaller. *)
Definition num_min (x y : num) : num := if num_ltb y x then y else x.

(** [a / b] for [int]s and a positive literal [b]. *)
Definition truediv (a : Z) (b : positive) : num := PFloat (fdiv_Z a b).

(** [sum(xs)]: a left fold of [+] from the [int] 0 (CPython 3.12 and later
    compensate the rounding of float sums, which changes no sum whose
    partial sums are exactly representable). *)
Definition sum (xs : list num) : num := fold_left num_add xs (PInt 0).

(** The integer nearest to [m * 2^e * 10] for [e < 0], ties to even. *)
Definition tenths (m : positive) (e : Z) : Z :=
  let d := Z.pow 2 (- e) in
  let q := (10 * Zpos m / d)%Z in
  let r := (10 * Zpos m mod d)%Z in
  match (2 * r ?= d)%Z with
  | Lt => q
  | Gt => (q + 1)%Z
  | Eq => if Z.even q then q else (q + 1)%Z
  end.

(** [round(x, 1)]: an [int] is returned as it is; a [float] is rounded to
    one decimal, half to even on its exact value, and the decimal result is
    converted back with one rounding. *)
Definition round1 (x : num) : num :=
  match x with
  | PInt z => PInt z
  | PFloat (S754_finite s m e) =>
      if (0 <=? e)%Z then x
      else
        match tenths m e with
        | Zpos n => PFloat (SFdiv prec emax (S754_finite s n 0)
                                  (S754_finite false 10 0))
        | _ => PFloat (S754_zero s)
        end
  | PFloat f => PFloat f
  end.

(** The place of a float in the order of [<]: the sign class first, then
    the exponent, then the mantissa (zeros of both signs are equal).  It
    serves to state that [<] is a strict weak order away from NaN. *)
Definition rank (f : float) : Z * Z * Z :=
  match f with
  | S754_infinity true => (-2, 0, 0)
  | S754_finite true m e => (-1, - e, - Zpos m)
  | S754_zero _ => (0, 0, 0)
  | S754_finite false m e => (1, e, Zpos m)
  | S754_infinity false => (2, 0, 0)
  | S754_nan => (3, 0, 0)
  end%Z.

Definition lt3 (a b : Z * Z * Z) : Prop :=
  let '(a1, a2, a3) := a in
  let '(b1, b2, b3) := b in
  (a1 < b1 \/ (a1 = b1 /\ (a2 < b2 \/ (a2 = b2 /\ a3 < b3))))%Z.

Definition is_ascii_letter (c : N) : bool := is_ascii_upper c || is_ascii_lower c.

(** The characters [x] that a literal [y] of a pattern accepts. *)
Definition accepts (ic : bool) (y x : N) : Prop :=
  x = y \/ (ic = true /\ In y (case_class x)).

(** [s] is [k] up to what [re.IGNORECASE] holds equal. *)
Definition same_letters (s k : str) : Prop :=
  Forall2 (fun x y => accepts true y x) s k.

(** A letter that has a case for [re.IGNORECASE]: an ASCII letter or one of
    the four letters that it equates with one. *)
Definition is_cased (c : N) : bool :=
  match case_class c with
  | [] => false
  | _ => true
  end.

(** A keyword starts and ends on a letter. *)
Definition lettered (k : str) : bool :=
  match k, rev k with
  | x :: _, y :: _ => is_ascii_letter x && is_ascii_letter y
  | _, _ => false
  end.

(** [str.find]: the offset of the first occurrence of [sub] in [s]. *)
Fixpoint starts_with (sub s : str) : bool :=
  match sub, s with
  | [], _ => true
  | x :: sub', y :: s' => (x =? y)%N && starts_with sub' s'
  | _ :: _, [] => false
  end.

Fixpoint find_from (sub s : str) (i : nat) : option nat :=
  if starts_with sub s then Some i
  else match s with
       | [] => None
       | _ :: s' => find_from sub s' (S i)
       end.

Definition find (s sub : str) : option nat := find_from sub s 0.

End Py.

Declare Scope py_scope.
Delimit Scope py_scope with py.
Notation "x <- c1 ;; c2" := (Py.bind c1 (fun x => c2))
  (at level 100, c1 at next level, right associativity) : py_scope.
Open Scope py_scope.

(* ================================================================== *)
(** * The [re] module *)

Module Re.
Import Py.

(** An item of a character set [[...]]. *)
Inductive citem :=
| CChar (c : N)
| CRange (lo hi : N)
| CSpace
| CDigit.

Inductive regex :=
| Eps
| Any                                  (* [.]: any character but a newline *)
| Cls (items : list citem)             (* [[...]], a literal, [\s], [\d] *)
| Bol                                  (* [^] *)
| Seq (a b : regex)
| Alt (a b : regex)
| Rep (lo : nat) (hi : option nat) (greedy : bool) (a : regex)
| Grp (n : nat) (a : regex).           (* capturing group number [n] *)

Record flags := { ignorecase : bool; multiline : bool }.

Definition item_mem (it : citem) (c : N) : bool :=
  match it with
  | CChar x => (c =? x)%N
  | CRange lo hi => in_range lo hi c
  | CSpace => is_space c
  | CDigit => is_digit c
  end.

Definition cls_mem (ic : bool) (items : list citem) (c : N) : bool :=
  existsb (fun it => item_mem it c
                     || (ic && existsb (item_mem it) (case_class c)))
          items.

(** Group number to the offsets of its last participation. *)
Definition caps := list (nat * (nat * nat)).

Fixpoint lookup (n : nat) (c : caps) : option (nat * nat) :=
  match c with
  | [] => None
  | (m, se) :: c' => if Nat.eqb n m then Some se else lookup n c'
  end.

Record rmatch := { m_start : nat; m_end : nat; m_caps : caps }.

Definition below (count : nat) (hi : option nat) : bool :=
  match hi with
  | None => true
  | Some h => count <? h
  end.

Section Matcher.
Variable fl : flags.
Variable t : str.

Definition at_bol (i : nat) : bool :=
  match i with
  | O => true
  | S j => multiline fl &&
           match nth_error t j with Some c => (c =? 10)%N | None => false end
  end.

Section Run.
Variable A : Type.
Definition cont := nat -> caps -> option A.

(** The loop of a repetition: [count] iterations are done, the scan is
      at [i].  An iteration that consumes nothing is not taken; [fuel]
      bounds the iterations by the characters that are left. *)
Fixpoint rep_loop (body : nat -> caps -> cont -> option A)
           (lo : nat) (hi : option nat) (greedy : bool) (k : cont)
           (fuel count i : nat) (c : caps) {struct fuel} : option A :=
    match fuel with
    | O => None
    | S fuel' =>
        if greedy then
          match
            (if below count hi
             then body i c (fun j c' =>
                    if i <? j
                    then rep_loop body lo hi greedy k fuel' (S count) j c'
                    else None)
             else None)
          with
          | Some x => Some x
          | None => if lo <=? count then k i c else None
          end
        else
          match (if lo <=? count then k i c else None) with
          | Some x => Some x
          | None =>
              if below count hi
              then body i c (fun j c' =>
                     if i <? j
                     then rep_loop body lo hi greedy k fuel' (S count) j c'
                     else None)
              else None
          end
    end.

(** [run r i c k]: match [r] at offset [i] with captures [c], then
      continue with [k]; the first success in priority order wins. *)
Fixpoint run (r : regex) (i : nat) (c : caps) (k : cont) {struct r}
    : option A :=
    match r with
    | Eps => k i c
    | Any =>
        match nth_error t i with
        | Some x => if (x =? 10)%N then None else k (S i) c
        | None => None
        end
    | Cls items =>
        match nth_error t i with
        | Some x => if cls_mem (ignorecase fl) items x then k (S i) c else None
        | None => None
        end
    | Bol => if at_bol i then k i c else None
    | Seq a b => run a i c (fun j c' => run b j c' k)
    | Alt a b =>
        match run a i c k with
        | Some x => Some x
        | None => run b i c k
        end
    | Rep lo hi greedy a =>
        rep_loop (run a) lo hi greedy k (S (length t - i)) 0 i c
    | Grp n a => run a i c (fun j c' => k j ((n, (i, j)) :: c'))
    end.
End Run.

(** A match of [p] that starts exactly at offset [i]. *)
Definition match_at (p : regex) (i : nat) : option rmatch :=
  run p i [] (fun j c => Some {| m_start := i; m_end := j; m_caps := c |}).

Fixpoint search_at (p : regex) (fuel i : nat) : option rmatch :=
  match match_at p i with
  | Some m => Some m
  | None =>
      match fuel with
      | O => None
      | S fuel' => search_at p fuel' (S i)
      end
  end.

(** The leftmost match at or after offset [i]. *)
Definition search_from (p : regex) (i : nat) : option rmatch :=
  if i <=? length t then search_at p (length t - i) i else None.

(** The successive non-overlapping matches from offset [i] on.  No pattern
    of the program matches the empty string; after an empty match the scan
    moves one character on. *)
Fixpoint finditer_from (p : regex) (fuel i : nat) : list rmatch :=
  match fuel with
  | O => []
  | S fuel' =>
      match search_from p i with
      | None => []
      | Some m =>
          m :: finditer_from p fuel'
                 (if m_start m <? m_end m then m_end m else S (m_end m))
      end
  end.
End Matcher.

(** [re.search(p, t, flags)]. *)
Definition search (fl : flags) (p : regex) (t : str) : option rmatch :=
  search_from fl t p 0.

(** [re.finditer(p, t, flags)], as the list of its matches. *)
Definition finditer (fl : flags) (p : regex) (t : str) : list rmatch :=
  finditer_from fl t p (S (S (length t))) 0.

(** [m.group(n)] for [n >= 1]: [None] when the group did not take part. *)
Definition group (t : str) (m : rmatch) (n : nat) : option str :=
  match lookup n (m_caps m) with
  | Some (a, b) => Some (substr t a b)
  | None => None
  end.

(** [re.sub(p, repl, t)] for a constant replacement. *)
Fixpoint sub_pieces (t repl : str) (last : nat) (ms : list rmatch) : str :=
  match ms with
  | [] => skipn last t
  | m :: ms' =>
      substr t last (m_start m) ++ repl ++ sub_pieces t repl (m_end m) ms'
  end.

Definition sub (fl : flags) (p : regex) (repl : str) (t : str) : str :=
  sub_pieces t repl 0 (finditer fl p t).

(** ** What a successful match means

    [matches r i c j c']: the pattern [r] matches the text from offset [i]
    to offset [j] and turns the captures [c] into [c'].  The matcher [run]
    only returns matches of this relation ([ReFacts.run_sound]). *)

Section Meaning.
Variable fl : flags.
Variable t : str.

Fixpoint iter (R : nat -> caps -> nat -> caps -> Prop) (n : nat)
         (i : nat) (c : caps) (j : nat) (c' : caps) : Prop :=
  match n with
  | O => j = i /\ c' = c
  | S n' => exists l c1, R i c l c1 /\ i < l /\ iter R n' l c1 j c'
  end.

Definition within (n : nat) (hi : option nat) : Prop :=
  match hi with
  | None => True
  | Some h => n <= h
  end.

Fixpoint matches (r : regex) (i : nat) (c : caps) (j : nat) (c' : caps)
  : Prop :=
  match r with
  | Eps => j = i /\ c' = c
  | Any =>
      exists x, nth_error t i = Some x /\ (x =? 10)%N = false
                /\ j = S i /\ c' = c
  | Cls items =>
      exists x, nth_error t i = Some x
                /\ cls_mem (ignorecase fl) items x = true
                /\ j = S i /\ c' = c
  | Bol => at_bol fl t i = true /\ j = i /\ c' = c
  | Seq a b => exists l c1, matches a i c l c1 /\ matches b l c1 j c'
  | Alt a b => matches a i c j c' \/ matches b i c j c'
  | Rep lo hi _ a =>
      exists n, lo <= n /\ within n hi /\ iter (matches a) n i c j c'
  | Grp n a => exists c1, matches a i c j c1 /\ c' = (n, (i, j)) :: c1
  end.
End Meaning.

(** Two continuations that agree from offset [i] to the end of the text. *)
Definition agree (t : str) {A} (i : nat) (k1 k2 : cont A) : Prop :=
  forall j c, i <= j -> j <= Nat.max i (length t) -> k1 j c = k2 j c.

(** [r] has no capturing group. *)
Fixpoint groupless (r : regex) : bool :=
  match r with
  | Seq a b | Alt a b => groupless a && groupless b
  | Rep _ _ _ a => groupless a
  | Grp _ _ => false
  | _ => true
  end.

(** The group numbers that every match of [r] records, in the order in
    which they are recorded; [None] when a group sits under an alternative
    or a repetition, where that order depends on the match. *)
Fixpoint pushes (r : regex) : option (list nat) :=
  match r with
  | Seq a b =>
      match pushes a, pushes b with
      | Some x, Some y => Some (x ++ y)
      | _, _ => None
      end
  | Alt a b => if groupless a && groupless b then Some [] else None
  | Rep _ _ _ a => if groupless a then Some [] else None
  | Grp n a =>
      match pushes a with
      | Some x => Some (x ++ [n])
      | None => None
      end
  | _ => Some []
  end.

(** [m.group(n)], with the empty string for a group that did not take
    part (for the patterns of the program every group takes part,
    [AppFacts.group_of_pushes]). *)
Definition group_text (t : str) (m : rmatch) (n : nat) : str :=
  match group t m n with
  | Some g => g
  | None => []
  end.

(** Pattern syntax. *)
Definition chr (c : N) : regex := Cls [CChar c].
Fixpoint seqs (rs : list regex) : regex :=
  match rs with
  | [] => Eps
  | [r] => r
  | r :: rs' => Seq r (seqs rs')
  end.
Fixpoint alts (rs : list regex) : regex :=
  match rs with
  | [] => Cls []
  | [r] => r
  | r :: rs' => Alt r (alts rs')
  end.
Definition word (x : string) : regex := seqs (map chr (lit x)).
Definition space : regex := Cls [CSpace].
Definition digit : regex := Cls [CDigit].
Definition star (a : regex) : regex := Rep 0 None true a.
Definition plus (a : regex) : regex := Rep 1 None true a.
Definition opt (a : regex) : regex := Rep 0 (Some 1) true a.
Definition lazy_star (a : regex) : regex := Rep 0 None false a.
Definition lazy_range (lo hi : nat) (a : regex) : regex := Rep lo (Some hi) false a.

Definition no_flags : flags := {| ignorecase := false; multiline := false |}.
Definition I : flags := {| ignorecase := true; multiline := false |}.
Definition M : flags := {| ignorecase := false; multiline := true |}.
Definition MI : flags := {| ignorecase := true; multiline := true |}.

End Re.

(* ================================================================== *)
(** * [src/app.py] *)

Module App.
Import Py Re.

(** ** Records *)

Record subsidiary := { s_name : str; s_jurisdiction : str; s_type : str }.
Record director := { d_name : str; d_role : str; d_type : str }.
Record owner := { o_name : str; o_ownership : float; o_type : str }.

(** The dictionary that [extract_from_filings] returns. *)
Record extraction := {
  subsidiaries : list subsidiary;
  directors : list director;
  owners : list owner
}.

(** ** [find_section] *)

(** The loop over [end_markers] inside [find_section]: the section bounded
    by the first end marker, in list order, that matches in [text[start:]];
    [None] when the loop ends without a [return]. *)
Fixpoint find_section_end (text : str) (start : nat) (end_markers : list regex)
  : option str :=
  match end_markers with
  | [] => None
  | end_marker :: rest =>
      match search I end_marker (slice_from text (Z.of_nat start)) with
      | Some end_match =>
          Some (slice text (Z.of_nat start)
                      (Z.of_nat start + Z.of_nat (m_start end_match)))
      | None => find_section_end text start rest
      end
  end.

(** [find_section(text, start_markers, end_markers=None, max_chars=20000)];
    [end_markers] is [None] for the Python default [None]. *)
Fixpoint find_section (text : str) (start_markers : list regex)
         (end_markers : option (list regex)) (max_chars : Z) : str :=
  match start_markers with
  | [] => []
  | marker :: rest =>
      match search I marker text with
      | Some mt =>
          let start := m_start mt in
          match
            match end_markers with
            | Some ems => find_section_end text start ems
            | None => None
            end
          with
          | Some section => section
          | None => slice text (Z.of_nat start) (Z.of_nat start + max_chars)
          end
      | None => find_section text rest end_markers max_chars
      end
  end.

Definition default_max_chars : Z := 20000.

(** The marker [p] matches nowhere in [text]. *)
Definition unmatched (text : str) (p : regex) : Prop := search I p text = None.

(** ** Patterns *)

Definition upper : regex := Cls [CRange 65 90].            (* [A-Z] *)
Definition lower_ : regex := Cls [CRange 97 122].          (* [a-z] *)

(** [[A-Za-z0-9\-,&\.\s]] *)
Definition name_char : regex :=
  Cls [CRange 65 90; CRange 97 122; CRange 48 57;
       CChar 45; CChar 44; CChar 38; CChar 46; CSpace].

(** [[A-Z][a-z]+(?:\s+[A-Z]{2})?] *)
Definition jurisdiction_re : regex :=
  seqs [upper; plus lower_;
        opt (seqs [plus space; Rep 2 (Some 2) true upper])].

(** [^\s*([A-Z][A-Za-z0-9\-,&\.\s]{2,90}?)\s*[\(\-\u2013\u2014]\s*([A-Z][a-z]+(?:\s+[A-Z]{2})?)\s*\)?] *)
Definition exhibit21_paren : regex :=
  seqs [Bol; star space;
        Grp 1 (seqs [upper; lazy_range 2 90 name_char]);
        star space;
        Cls [CChar 40; CChar 45; CChar 8211; CChar 8212];
        star space;
        Grp 2 jurisdiction_re;
        star space; opt (chr 41)].

(** [^\s*([A-Z][A-Za-z0-9\-,&\.\s]{2,90}?),\s+([A-Z][a-z]+(?:\s+[A-Z]{2})?)] *)
Definition exhibit21_comma : regex :=
  seqs [Bol; star space;
        Grp 1 (seqs [upper; lazy_range 2 90 name_char]);
        chr 44; plus space;
        Grp 2 jurisdiction_re].

Definition exhibit21_patterns : list regex := [exhibit21_paren; exhibit21_comma].

Definition title_keywords : list string :=
  ["Director"; "CEO"; "President"; "Chairman"; "CFO"; "CTO";
   "Chief Financial Officer"; "Chief Executive Officer";
   "General Counsel"; "Chief Legal Officer"; "Officer";
   "Vice President"; "Senior Vice President"; "SVP"]%string.

(** ["|".join(title_keywords)] *)
Definition title_pattern : regex := alts (map word title_keywords).

(** [[A-Z][a-z]+(?:\s+[A-Z]\.?)?(?:\s+[A-Z][a-z]+)+] *)
Definition name_shape : regex :=
  seqs [upper; plus lower_;
        opt (seqs [plus space; upper; opt (chr 46)]);
        plus (seqs [plus space; upper; plus lower_])].

(** [^[A-Z][a-z]+(?:\s+[A-Z]\.?)?(?:\s+[A-Z][a-z]+)+.*?({title_pattern})] *)
Definition director_pattern : regex :=
  seqs [Bol; name_shape; lazy_star Any; Grp 1 title_pattern].

(** [([A-Z][a-z]+(?:\s+[A-Z]\.?)?(?:\s+[A-Z][a-z]+)+)] *)
Definition director_name_pattern : regex := Grp 1 name_shape.

(** [\d+(?:\.\d+)?] *)
Definition number_re : regex :=
  seqs [plus digit; opt (seqs [chr 46; plus digit])].

(** [([A-Z][A-Za-z0-9\-,&\.\s]{2,80}?)\s+(?:\u2014|\u2013|-|:)?\s*(\d+(?:\.\d+)?)\s*%] *)
Definition owner_dash : regex :=
  seqs [Grp 1 (seqs [upper; lazy_range 2 80 name_char]);
        plus space;
        opt (alts [chr 8212; chr 8211; chr 45; chr 58]);
        star space;
        Grp 2 number_re;
        star space; chr 37].

(** [([A-Z][A-Za-z0-9\-,&\.\s]{2,80}?)\s+(\d+(?:\.\d+)?)\s*(?:percent|%)] *)
Definition owner_percent : regex :=
  seqs [Grp 1 (seqs [upper; lazy_range 2 80 name_char]);
        plus space;
        Grp 2 number_re;
        star space;
        alts [word "percent"; chr 37]].

Definition owner_patterns : list regex := [owner_dash; owner_percent].

(** [m.group(n).strip()]: [None] has no [strip]. *)
Definition group_strip (t : str) (m : rmatch) (n : nat) : result str :=
  match group t m n with
  | Some g => Ok (strip g)
  | None => Raise AttributeError
  end.

(** [re.sub(r'\s+', ' ', name)] *)
Definition collapse_spaces (name : str) : str :=
  sub no_flags (plus space) (lit " ") name.

(** ** [parse_exhibit21] *)

(** The body of the inner loop, on the state [(seen, subsidiaries)]. *)
Definition exhibit21_body (text : str) (st : list str * list subsidiary)
           (m : rmatch) : result (list str * list subsidiary) :=
  let (seen, subs) := st in
  name <- group_strip text m 1 ;;
  jurisdiction <- group_strip text m 2 ;;
  let name := collapse_spaces name in
  if (2 <? length name) && negb (mem (lower name) seen)
  then Ok (lower name :: seen,
           subs ++ [ {| s_name := name; s_jurisdiction := jurisdiction;
                        s_type := lit "subsidiary" |} ])
  else Ok st.

Definition parse_exhibit21 (text : str) : result (list subsidiary) :=
  st <- for_each (fun st pattern =>
                    for_each (exhibit21_body text) st (finditer M pattern text))
                 ([], []) exhibit21_patterns ;;
  Ok (snd st).

(** ** [parse_def14a_directors] *)

Definition director_body (text : str) (st : list str * list director)
           (m : rmatch) : result (list str * list director) :=
  let (seen, dirs) := st in
  let line_start := Z.max 0 (Z.of_nat (m_start m) - 100) in
  let line_text := slice text line_start (Z.of_nat (m_end m)) in
  match search no_flags director_name_pattern line_text with
  | Some name_match =>
      name <- group_strip line_text name_match 1 ;;
      role <- group_strip text m 1 ;;
      if negb (mem (lower name) seen) && (2 <=? length (split name))
      then Ok (lower name :: seen,
               dirs ++ [ {| d_name := name; d_role := role;
                            d_type := lit "director" |} ])
      else Ok st
  | None => Ok st
  end.

Definition parse_def14a_directors (text : str) : result (list director) :=
  st <- for_each (director_body text) ([], [])
                 (finditer MI director_pattern text) ;;
  Ok (snd st).

(** ** [parse_def14a_beneficial_owners] *)

(** [0.1] and [100] of the filter. *)
Definition one_tenth : float := fdiv_Z 1 10.

Definition owner_body (text : str) (st : list str * list owner)
           (m : rmatch) : result (list str * list owner) :=
  let (seen, owns) := st in
  name <- group_strip text m 1 ;;
  ownership_str <- group_strip text m 2 ;;
  let name := collapse_spaces name in
  let name := rstrip_chars (lit ".,") name in
  match py_float ownership_str with
  | Ok ownership =>
      if fltb one_tenth ownership && num_ltb (PFloat ownership) (PInt 100)
         && (3 <? length name) && negb (mem (lower name) seen)
      then Ok (lower name :: seen,
               owns ++ [ {| o_name := name; o_ownership := ownership;
                            o_type := lit "owner" |} ])
      else Ok st
  | Raise ValueError => Ok st                       (* except ValueError: continue *)
  | Raise e => Raise e
  end.

Definition parse_def14a_beneficial_owners (text : str) : result (list owner) :=
  st <- for_each (fun st pattern =>
                    for_each (owner_body text) st (finditer M pattern text))
                 ([], []) owner_patterns ;;
  Ok (snd st).

(** ** The extractors as first-wins filters

    Each extractor walks a sequence of candidates and keeps a candidate when
    it passes the extractor's own test and its key (the lower-case name) is
    new.  These definitions say so directly; [AppFacts] proves that the
    loops above compute them. *)

Fixpoint dedup_by {C} (key : C -> str) (ok : C -> bool) (seen : list str)
         (cs : list C) : list C :=
  match cs with
  | [] => []
  | c :: cs' =>
      if ok c && negb (mem (key c) seen)
      then c :: dedup_by key ok (key c :: seen) cs'
      else dedup_by key ok seen cs'
  end.

(** One pass of a loop body over the state [(seen, records)]. *)
Definition keep_step {C R} (key : C -> str) (ok : C -> bool) (mk : C -> R)
           (st : list str * list R) (c : C) : list str * list R :=
  if ok c && negb (mem (key c) (fst st))
  then (key c :: fst st, snd st ++ [mk c])
  else st.

Inductive subseq {X} : list X -> list X -> Prop :=
| subseq_nil : subseq [] []
| subseq_skip x l1 l2 : subseq l1 l2 -> subseq l1 (x :: l2)
| subseq_take x l1 l2 : subseq l1 l2 -> subseq (x :: l1) (x :: l2).

(** [c] is the first candidate of [cs], in processing order, that passes
    [ok] with the key of [c]. *)
Definition first_with_key {C} (key : C -> str) (ok : C -> bool)
           (cs : list C) (c : C) : Prop :=
  exists pre post,
    cs = pre ++ c :: post
    /\ ok c = true
    /\ forall x, In x pre -> ok x = true -> key x <> key c.

(** Two representations of the same set of seen names. *)
Definition same_set (s1 s2 : list str) : Prop :=
  forall x, mem x s1 = mem x s2.

(** Two loop states with the same records and the same seen names, in
    whatever order the set holds them. *)
Definition state_equiv {R} (st1 st2 : list str * list R) : Prop :=
  same_set (fst st1) (fst st2) /\ snd st1 = snd st2.

Definition outcome_equiv {R} (r1 r2 : result (list str * list R)) : Prop :=
  match r1, r2 with
  | Ok st1, Ok st2 => state_equiv st1 st2
  | Raise e1, Raise e2 => e1 = e2
  | _, _ => False
  end.

Definition name_key {V} (c : str * V) : str := lower (fst c).

(** Subsidiaries: a candidate is the normalised name and the jurisdiction
    of one match. *)
Definition exhibit21_candidate (text : str) (m : rmatch) : str * str :=
  (collapse_spaces (strip (group_text text m 1)), strip (group_text text m 2)).

Definition exhibit21_candidates (text : str) : list (str * str) :=
  flat_map (fun p => map (exhibit21_candidate text) (finditer M p text))
           exhibit21_patterns.

Definition exhibit21_ok (c : str * str) : bool := 2 <? length (fst c).

Definition subsidiary_of (c : str * str) : subsidiary :=
  {| s_name := fst c; s_jurisdiction := snd c; s_type := lit "subsidiary" |}.

(** Directors: a candidate is the name found in the window before the end
    of one match, and the title of that match. *)
Definition director_window (text : str) (m : rmatch) : str :=
  slice text (Z.max 0 (Z.of_nat (m_start m) - 100)) (Z.of_nat (m_end m)).

Definition director_candidate (text : str) (m : rmatch) : list (str * str) :=
  match search no_flags director_name_pattern (director_window text m) with
  | Some name_match =>
      [(strip (group_text (director_window text m) name_match 1),
        strip (group_text text m 1))]
  | None => []
  end.

Definition director_candidates (text : str) : list (str * str) :=
  flat_map (director_candidate text) (finditer MI director_pattern text).

Definition director_ok (c : str * str) : bool := 2 <=? length (split (fst c)).

Definition director_of (c : str * str) : director :=
  {| d_name := fst c; d_role := snd c; d_type := lit "director" |}.

(** Owners: a candidate is the normalised name and the parsed percentage of
    one match; a match whose percentage does not parse gives none. *)
Definition owner_name (text : str) (m : rmatch) : str :=
  rstrip_chars (lit ".,") (collapse_spaces (strip (group_text text m 1))).

Definition owner_candidate (text : str) (m : rmatch) : list (str * float) :=
  match py_float (strip (group_text text m 2)) with
  | Ok ownership => [(owner_name text m, ownership)]
  | Raise _ => []
  end.

Definition owner_candidates (text : str) : list (str * float) :=
  flat_map (fun p => flat_map (owner_candidate text) (finditer M p text))
           owner_patterns.

(** [0.1 < ownership < 100]. *)
Definition in_open_range (ownership : float) : bool :=
  fltb one_tenth ownership && num_ltb (PFloat ownership) (PInt 100).

Definition owner_ok (c : str * float) : bool :=
  in_open_range (snd c) && (3 <? length (fst c)).

Definition owner_of (c : str * float) : owner :=
  {| o_name := fst c; o_ownership := snd c; o_type := lit "owner" |}.

(** ** [extract_from_filings] *)

(** [r"EXHIBIT\s+21"] and the like: words separated by [\s+]. *)
Definition marker (ws : list string) : regex :=
  match ws with
  | [] => Eps
  | w :: ws' => fold_left (fun r w' => Seq r (Seq (plus space) (word w'))) ws' (word w)
  end.

Definition exhibit21_start : list regex :=
  [marker ["EXHIBIT"; "21"]; marker ["exhibit"; "21"]]%string.
Definition exhibit21_end : list regex :=
  [marker ["EXHIBIT"; "22"]; marker ["SIGNATURES"]; marker ["ITEM"; "16"]]%string.
Definition directors_start : list regex :=
  [marker ["DIRECTORS"]; marker ["EXECUTIVE"; "OFFICERS"];
   marker ["BOARD"; "MEMBERS"]]%string.
Definition directors_end : list regex :=
  [marker ["EXECUTIVE"; "COMPENSATION"]; marker ["COMPENSATION"; "DISCUSSION"];
   marker ["CD&A"]]%string.
Definition owners_start : list regex :=
  [marker ["BENEFICIAL"; "OWNER"]; marker ["SECURITY"; "OWNERSHIP"];
   marker ["PRINCIPAL"; "SHAREHOLDERS"]]%string.
Definition owners_end : list regex :=
  [marker ["EXECUTIVE"; "OFFICERS"]; marker ["DIRECTORS"];
   marker ["PROPOSAL"]]%string.

(** [f(text) if text else []] *)
Definition if_text {A} (f : str -> result (list A)) (text : str)
  : result (list A) :=
  match text with
  | [] => Ok []
  | _ => f text
  end.

Definition extract_from_filings (pdf_10k_text pdf_14a_text : str)
  : result extraction :=
  let exhibit21_text :=
    find_section pdf_10k_text exhibit21_start (Some exhibit21_end)
                 default_max_chars in
  subs <- if_text parse_exhibit21 exhibit21_text ;;
  let directors_text :=
    find_section pdf_14a_text directors_start (Some directors_end)
                 default_max_chars in
  dirs <- if_text parse_def14a_directors directors_text ;;
  let owners_text :=
    find_section pdf_14a_text owners_start (Some owners_end)
                 default_max_chars in
  owns <- if_text parse_def14a_beneficial_owners owners_text ;;
  Ok {| subsidiaries := subs; directors := dirs; owners := owns |}.

(** ** Metrics *)

(** [len(set(xs))] for strings. *)
Definition distinct (xs : list str) : nat :=
  length (fold_left (fun acc x => if mem x acc then acc else x :: acc) xs []).

(** [calculate_complexity_score] *)
Definition calculate_complexity_score (data : extraction) : num :=
  let score := PInt 0 in
  let num_subs := Z.of_nat (length (subsidiaries data)) in
  let score := num_add score (num_min (truediv num_subs 2) (PInt 4)) in
  let countries :=
    Z.of_nat (distinct (map s_jurisdiction (subsidiaries data))) in
  let score := num_add score (num_min (truediv countries 2) (PInt 3)) in
  let offshore_count :=
    Z.of_nat (length (filter
      (fun s => negb (mem (lower (s_jurisdiction s)) [lit "us"; lit "usa"]))
      (subsidiaries data))) in
  let score := num_add score (num_min (truediv offshore_count 2) (PInt 3)) in
  round1 (num_min score (PInt 10)).

(** [calculate_governance_score] *)
Definition calculate_governance_score (data : extraction) : num :=
  let score := PInt 5 in
  let num_directors := Z.of_nat (length (directors data)) in
  let score := num_add score (num_min (truediv num_directors 3) (PInt 3)) in
  let roles := Z.of_nat (distinct (map (fun d => lower (d_role d)) (directors data))) in
  let score := num_add score (num_min (truediv roles 4) (PInt 2)) in
  round1 (num_min score (PInt 10)).

(** [sorted(owners, key=lambda x: x.get("ownership", 0), reverse=True)]: a
    stable sort by descending key, as an insertion sort.  On keys without
    NaN the comparison is a total preorder, for which every stable sort
    returns this list. *)
Fixpoint insert_desc (x : owner) (l : list owner) : list owner :=
  match l with
  | [] => [x]
  | y :: l' =>
      if fltb (o_ownership x) (o_ownership y)
      then y :: insert_desc x l'
      else x :: l
  end.

Definition sorted_desc (l : list owner) : list owner :=
  fold_right insert_desc [] l.

(** [a] is not below [b]: the order of a list sorted by descending
    ownership. *)
Definition not_below (a b : owner) : Prop :=
  fltb (o_ownership a) (o_ownership b) = false.

Definition ownership_values (l : list owner) : list num :=
  map (fun o => PFloat (o_ownership o)) l.

(** [calculate_risk_level] *)
Definition calculate_risk_level (data : extraction) : str :=
  match owners data with
  | [] => lit "MEDIUM"
  | _ =>
      let top_ownership :=
        sum (ownership_values (firstn 3 (sorted_desc (owners data)))) in
      if num_ltb (PInt 25) top_ownership then lit "HIGH"
      else if num_ltb (PInt 15) top_ownership then lit "MEDIUM"
      else lit "LOW"
  end.

Record metrics := {
  total_subsidiaries : nat;
  total_directors : nat;
  total_owners : nat;
  ownership_concentration : num;
  countries : nat;
  complexity_score : num;
  governance_score : num;
  risk_level : str
}.

(** [calculate_metrics] *)
Definition calculate_metrics (data : extraction) : metrics :=
  {| total_subsidiaries := length (subsidiaries data);
     total_directors := length (directors data);
     total_owners := length (owners data);
     ownership_concentration :=
       sum (ownership_values (firstn 3 (owners data)));
     countries := distinct (map s_jurisdiction (subsidiaries data));
     complexity_score := calculate_complexity_score data;
     governance_score := calculate_governance_score data;
     risk_level := calculate_risk_level data |}.

(** ** The analysis of [upload] *)

(** [extract_from_filings] followed by the fallback of [upload]: when the
    10-K gave no subsidiary and its text is not empty, the subsidiaries are
    parsed from the whole DEF 14A text. *)
Definition upload_extract (ten_k_text def14a_text : str) : result extraction :=
  result <- extract_from_filings ten_k_text def14a_text ;;
  match subsidiaries result, ten_k_text with
  | [], _ :: _ =>
      subs <- parse_exhibit21 def14a_text ;;
      Ok {| subsidiaries := subs;
            directors := directors result;
            owners := owners result |}
  | _, _ => Ok result
  end.

Inductive response :=
| BadRequest (error : string)                       (* status 400 *)
| ServerError                                       (* status 500 *)
| Analysis (result : extraction) (m : metrics).     (* status 200 *)

(** [upload] from the two extracted texts on: the guard on the DEF 14A
    text, the extraction with its fallback, the metrics, and the
    [except Exception] around them. *)
Definition upload_texts (ten_k_text def14a_text : str) : response :=
  match def14a_text with
  | [] => BadRequest "Could not extract text from DEF 14A"
  | _ =>
      match upload_extract ten_k_text def14a_text with
      | Ok result => Analysis result (calculate_metrics result)
      | Raise _ => ServerError
      end
  end.

End App.

(* ================================================================== *)
(** * Sample texts *)

Module Samples.
Import Py.

Definition newline : string := String (ascii_of_nat 10) EmptyString.

Definition officers_then_directors : str :=
  lit "EXECUTIVE OFFICERS. DIRECTORS. CD&A. EXECUTIVE COMPENSATION.".

(** A comma-form line followed by a parenthesis-form line; the [;] keeps a
    name from running on into the second line. *)
Definition comma_then_paren : str :=
  lit ("Acme Corp, Delaware;" ++ newline ++ "Beta Inc (Ireland)").

(** The same owner twice, in two spellings; the first percentage is below
    the range of the filter. *)
Definition two_spellings : str := lit "Acme Corp 0.05%; ACME CORP 5%".

(** A line that starts in lower case and names a director further on. *)
Definition lowercase_line : str := lit "ann lee met Bob Stone, director".

Definition shouted_title : str := lit "John Smith, DIRECTOR".

Definition no_exhibit : str := lit "Annual report".

Definition two_subsidiaries : str :=
  lit ("Acme Ireland Ltd (Ireland)" ++ newline ++ "Acme Japan KK (Japan)").

Definition empty_result : App.extraction :=
  {| App.subsidiaries := []; App.directors := []; App.owners := [] |}.

(** A match object whose second group spans the letters [abc] of the text
    [Acme abc]: a capture that [float] rejects. *)
Definition malformed_capture_text : str := lit "Acme abc".
Definition malformed_capture : Re.rmatch :=
  {| Re.m_start := 0; Re.m_end := 8; Re.m_caps := [(2, (5, 8)); (1, (0, 4))] |}.

(** A match object for [Vanguard Group 50.0%]. *)
Definition vanguard_text : str := lit "Vanguard Group 50.0%".
Definition vanguard_match : Re.rmatch :=
  {| Re.m_start := 0; Re.m_end := 20;
     Re.m_caps := [(2, (15, 19)); (1, (0, 14))] |}.

End Samples.

(* ================================================================== *)
(** * [src/app.py]: the upload route and its helpers *)

Module Web.
Import Py Re App.

(** [ALLOWED_EXTENSIONS] *)
Definition ALLOWED_EXTENSIONS : list str := [lit "pdf"; lit "txt"].

(** [c in s] for a one-character string [c]. *)
Definition contains (c : N) (s : str) : bool := existsb (N.eqb c) s.

(** The parts of [s] before and after the last [c]; [None] when [c] does
    not occur in [s]. *)
Fixpoint rpartition (c : N) (s : str) : option (str * str) :=
  match s with
  | [] => None
  | x :: s' =>
      match rpartition c s' with
      | Some (before, after) => Some (x :: before, after)
      | None => if (x =? c)%N then Some ([], s') else None
      end
  end.

(** [s.rsplit(c, 1)] for a one-character separator. *)
Definition rsplit1 (c : N) (s : str) : list str :=
  match rpartition c s with
  | Some (before, after) => [before; after]
  | None => [s]
  end.

(** [allowed_file(filename)]; [None] stands for the [IndexError] of the
    subscript [[1]].  Of [str.lower] only the comparison of its result with
    the two ASCII extensions is used, and a character outside the table of
    [lower_char] has no ASCII letter for its lower case. *)
Definition allowed_file (filename : str) : option bool :=
  if contains 46 filename then
    match nth_error (rsplit1 46 filename) 1 with
    | Some ext => Some (mem (lower ext) ALLOWED_EXTENSIONS)
    | None => None
    end
  else Some false.

(** An ASCII lower-case letter other than [i] and [k]: the lower case of
    itself and of its capital only. *)
Definition plain_letter (y : N) : bool :=
  is_ascii_lower y && negb (y =? 105)%N && negb (y =? 107)%N.

(** [ext] is [k] up to the case of its letters. *)
Definition same_extension (ext k : str) : Prop :=
  Forall2 (fun x y => x = y \/ (x + 32)%N = y) ext k.

(** What [pdfplumber] gives for a file: the value of [page.extract_text()]
    page by page, [None] for a page without text.  The document is [None]
    when opening or reading it raises. *)
Definition pdf := option (list (option str)).

(** [sep.join(xs)] *)
Fixpoint join (sep : str) (xs : list str) : str :=
  match xs with
  | [] => []
  | x :: xs' =>
      match xs' with
      | [] => x
      | _ => x ++ sep ++ join sep xs'
      end
  end.

(** [page.extract_text() or ""] *)
Definition text_or_empty (page : option str) : str :=
  match page with
  | Some t => t
  | None => []
  end.

(** [pdf_to_text]: the page texts joined by two newlines, and the empty
    string when anything raises. *)
Definition pdf_to_text (doc : pdf) : str :=
  match doc with
  | Some pages => join [10%N; 10%N] (map text_or_empty pages)
  | None => []
  end.

(** An uploaded file: its name and what the saved file holds. *)
Record file_storage := { filename : str; document : pdf }.

(** [request.files]: the first file of each field name. *)
Definition files := list (string * file_storage).

Fixpoint files_get (key : string) (fs : files) : option file_storage :=
  match fs with
  | [] => None
  | (k, f) :: fs' => if String.eqb key k then Some f else files_get key fs'
  end.

(** [key in request.files] *)
Definition files_has (key : string) (fs : files) : bool :=
  match files_get key fs with
  | Some _ => true
  | None => false
  end.

(** [bool(file)]: a [FileStorage] is true when its file name is not empty. *)
Definition has_name (f : file_storage) : bool :=
  match filename f with
  | [] => false
  | _ => true
  end.

(** [filename == ''] *)
Definition unnamed (f : file_storage) : bool :=
  match filename f with
  | [] => true
  | _ => false
  end.

(** The 10-K file whose path [upload] sets: [Some None] when [ten_k_path]
    stays [None], and [None] for an exception of [allowed_file]. *)
Definition ten_k_saved (ten_k_file : option file_storage)
  : option (option file_storage) :=
  match ten_k_file with
  | Some f =>
      if has_name f
      then match allowed_file (filename f) with
           | Some true => Some (Some f)
           | Some false => Some None
           | None => None
           end
      else Some None
  | None => Some None
  end.

(** [upload], from the files of the request to the response.  Saving and
    removing the files is taken to succeed; what [pdf_to_text] then reads
    from a saved file is the [document] of the upload.  Every exception
    ends in the [except Exception] of the route, which answers 500. *)
Definition upload (fs : files) : response :=
  if negb (files_has "def14a_file" fs)
  then BadRequest "DEF 14A file required"
  else if negb (files_has "def14a_file" fs)
  then BadRequest "10-K file required"
  else
    match files_get "def14a_file" fs with
    | None => ServerError
    | Some def14a_file =>
        let ten_k_file := files_get "10k_file" fs in
        if negb (has_name def14a_file) || unnamed def14a_file
        then BadRequest "Please select DEF 14A file"
        else
          let ten_k_file :=
            match ten_k_file with
            | Some f => if has_name f && unnamed f then None else Some f
            | None => None
            end in
          match ten_k_saved ten_k_file with
          | None => ServerError
          | Some ten_k_path =>
              let def14a_text := pdf_to_text (document def14a_file) in
              let ten_k_text :=
                match ten_k_path with
                | Some f => pdf_to_text (document f)
                | None => []
                end in
              upload_texts ten_k_text def14a_text
          end
    end.

(** A decimal literal of the source, as the float that Python reads. *)
Definition decimal (s : string) : float :=
  match py_float (lit s) with
  | Ok f => f
  | Raise _ => S754_nan
  end.

Definition sample_subsidiary (name jurisdiction type : string) : subsidiary :=
  {| s_name := lit name; s_jurisdiction := lit jurisdiction;
     s_type := lit type |}.

Definition sample_director (name role : string) : director :=
  {| d_name := lit name; d_role := lit role; d_type := lit "director" |}.

Definition sample_owner (name ownership : string) : owner :=
  {| o_name := lit name; o_ownership := decimal ownership;
     o_type := lit "owner" |}.

(** The three lists of [sample_data]. *)
Definition sample_data : extraction :=
  {| subsidiaries :=
       [sample_subsidiary "Apple Inc." "US" "parent";
        sample_subsidiary "Apple Ireland Limited" "Ireland" "subsidiary";
        sample_subsidiary "Apple Sales International" "Ireland" "subsidiary";
        sample_subsidiary "Apple Japan Limited" "Japan" "subsidiary";
        sample_subsidiary "Apple Operations Limited" "Ireland" "subsidiary";
        sample_subsidiary "Apple Canada Inc." "Canada" "subsidiary";
        sample_subsidiary "Apple Pty Ltd" "Australia" "subsidiary"];
     directors :=
       [sample_director "Luca Maestri" "CFO";
        sample_director "Craig Federighi" "SVP Software Engineering";
        sample_director "Katherine Adams" "SVP General Counsel";
        sample_director "Deirdre O'Brien" "SVP Retail"];
     owners :=
       [sample_owner "Berkshire Hathaway" "5.45";
        sample_owner "Vanguard Group" "7.32";
        sample_owner "BlackRock" "6.12"] |}.

(** The [metrics] entry of [sample_data], as it is written there. *)
Definition sample_metrics : metrics :=
  {| total_subsidiaries := 7;
     total_directors := 4;
     total_owners := 3;
     ownership_concentration := PFloat (decimal "18.89");
     countries := 6;
     complexity_score := PFloat (decimal "6.8");
     governance_score := PFloat (decimal "8.1");
     risk_level := lit "MEDIUM" |}.

End Web.

(* ================================================================== *)
(** * [src/utils.py] *)

Module Utils.
Import Py.

(** The values of JSON data, as Python holds them; a dictionary keeps its
    entries in insertion order and its keys are strings. *)
#[warnings="-register-all"]
Inductive value :=
| VNone
| VBool (b : bool)
| VInt (z : Z)
| VFloat (f : float)
| VStr (s : str)
| VList (items : list value)
| VDict (entries : list (str * value)).

Definition dict := list (str * value).

(** [d.get(key)] and [d[key]]: [None] for a missing key. *)
Fixpoint dict_get (key : str) (d : dict) : option value :=
  match d with
  | [] => None
  | (k, v) :: d' => if str_eqb key k then Some v else dict_get key d'
  end.

(** [key in d] *)
Definition dict_has (key : str) (d : dict) : bool :=
  match dict_get key d with
  | Some _ => true
  | None => false
  end.

(** [d[key] = v]: the entry is replaced in place, or added at the end. *)
Fixpoint dict_set (key : str) (v : value) (d : dict) : dict :=
  match d with
  | [] => [(key, v)]
  | (k, w) :: d' =>
      if str_eqb key k then (k, v) :: d' else (k, w) :: dict_set key v d'
  end.

(** [d.get(key, default)] *)
Definition dict_get_default (key : str) (default : value) (d : dict) : value :=
  match dict_get key d with
  | Some v => v
  | None => default
  end.

Inductive exception :=
| ValueError (message : str)
| KeyError (key : str)
| TypeError.

Inductive outcome (A : Type) : Type :=
| Returns (a : A)
| Raises (e : exception).
Arguments Returns {A} a.
Arguments Raises {A} e.

Definition and_then {A B} (x : outcome A) (f : A -> outcome B) : outcome B :=
  match x with
  | Returns a => f a
  | Raises e => Raises e
  end.

(** [str(type(v))], as an f-string shows it. *)
Definition type_repr (v : value) : str :=
  match v with
  | VNone => lit "<class 'NoneType'>"
  | VBool _ => lit "<class 'bool'>"
  | VInt _ => lit "<class 'int'>"
  | VFloat _ => lit "<class 'float'>"
  | VStr _ => lit "<class 'str'>"
  | VList _ => lit "<class 'list'>"
  | VDict _ => lit "<class 'dict'>"
  end.

(** What a [for] loop over [v] visits: the items of a list, the keys of a
    dictionary, the characters of a string; the other values are not
    iterable. *)
Definition iterate (v : value) : option (list value) :=
  match v with
  | VList items => Some items
  | VDict entries => Some (map (fun kv => VStr (fst kv)) entries)
  | VStr s => Some (map (fun c => VStr [c]) s)
  | _ => None
  end.

(** [bool(v)] *)
Definition truthy (v : value) : bool :=
  match v with
  | VNone => false
  | VBool b => b
  | VInt z => negb (z =? 0)%Z
  | VFloat (S754_zero _) => false
  | VFloat _ => true
  | VStr s => match s with [] => false | _ => true end
  | VList items => match items with [] => false | _ => true end
  | VDict entries => match entries with [] => false | _ => true end
  end.

Definition required_keys : list str :=
  [lit "subsidiaries"; lit "directors"; lit "owners"].

(** The first loop of [validate_extraction_data]. *)
Fixpoint check_required (data : dict) (keys : list str) : outcome unit :=
  match keys with
  | [] => Returns tt
  | key :: rest =>
      if negb (dict_has key data)
      then Raises (ValueError (lit "Missing required key: " ++ key))
      else
        match dict_get key data with
        | Some (VList _) => check_required data rest
        | Some v =>
            Raises (ValueError (key ++ lit " must be a list, got " ++ type_repr v))
        | None => Raises (KeyError key)
        end
  end.

(** [isinstance(item, dict) and k1 in item and k2 in item] *)
Definition has_fields (fields : list str) (item : value) : bool :=
  match item with
  | VDict d => forallb (fun k => dict_has k d) fields
  | _ => false
  end.

(** One of the three structure loops, over the items it visits. *)
Fixpoint check_records (message : str) (fields : list str) (items : list value)
  : outcome unit :=
  match items with
  | [] => Returns tt
  | item :: rest =>
      if has_fields fields item
      then check_records message fields rest
      else Raises (ValueError message)
  end.

(** [for item in data.get(key, []): ...] *)
Definition check_structure (data : dict) (key : str) (message : str)
           (fields : list str) : outcome unit :=
  match iterate (dict_get_default key (VList []) data) with
  | Some items => check_records message fields items
  | None => Raises TypeError
  end.

Definition subsidiary_fields : list str := [lit "name"; lit "jurisdiction"].
Definition director_fields : list str := [lit "name"; lit "role"].
Definition owner_fields : list str := [lit "name"; lit "ownership"].

(** [validate_extraction_data] *)
Definition validate_extraction_data (data : value) : outcome bool :=
  match data with
  | VDict entries =>
      and_then (check_required entries required_keys) (fun _ =>
      and_then (check_structure entries (lit "subsidiaries")
                  (lit "Invalid subsidiary structure") subsidiary_fields) (fun _ =>
      and_then (check_structure entries (lit "directors")
                  (lit "Invalid director structure") director_fields) (fun _ =>
      and_then (check_structure entries (lit "owners")
                  (lit "Invalid owner structure") owner_fields) (fun _ =>
      Returns true))))
  | _ => Raises (ValueError (lit "Data must be a dictionary"))
  end.

(** The value of [key] is a list of dictionaries that have [fields]. *)
Definition listed (fields : list str) (d : dict) (key : str) : Prop :=
  exists items,
    dict_get key d = Some (VList items)
    /\ Forall (fun item => has_fields fields item = true) items.

(** The data that [validate_extraction_data] accepts. *)
Definition well_formed (data : value) : Prop :=
  match data with
  | VDict d =>
      listed subsidiary_fields d (lit "subsidiaries")
      /\ listed director_fields d (lit "directors")
      /\ listed owner_fields d (lit "owners")
  | _ => False
  end.

(** The three messages of the structure loops. *)
Definition structure_messages : list str :=
  [lit "Invalid subsidiary structure"; lit "Invalid director structure";
   lit "Invalid owner structure"].

(** [ensure_list] *)
Definition ensure_list (items : value) : value :=
  match items with
  | VNone => VList []
  | VList l => VList l
  | _ => VList [items]
  end.

(** [format_json_response]; [metrics] is [VNone] for the default. *)
Definition format_json_response (subsidiaries directors owners metrics : value)
  : outcome value :=
  let data := [(lit "subsidiaries", ensure_list subsidiaries);
               (lit "directors", ensure_list directors);
               (lit "owners", ensure_list owners)] in
  let data := if truthy metrics then dict_set (lit "metrics") metrics data
              else data in
  and_then (validate_extraction_data (VDict data)) (fun _ =>
  Returns (VDict data)).

(** [s.replace(old, new)] for a one-character [old]. *)
Definition replace_char (old : N) (new : str) (s : str) : str :=
  flat_map (fun c => if (c =? old)%N then new else [c]) s.

(** [sanitize_json] *)
Fixpoint sanitize_json (data : value) : value :=
  match data with
  | VDict entries =>
      VDict (map (fun kv : str * value =>
                    let (k, v) := kv in (k, sanitize_json v)) entries)
  | VList items => VList (map sanitize_json items)
  | VStr s => VStr (replace_char 13 (lit " ") (replace_char 0 [] s))
  | _ => data
  end.

(** A string without the characters that [sanitize_json] removes. *)
Definition clean_str (s : str) : Prop := ~ In 0%N s /\ ~ In 13%N s.

(** Every string that is an item of a list or the value of an entry, at
    any depth, is clean; the keys of the dictionaries are not looked at. *)
Fixpoint clean (v : value) : Prop :=
  match v with
  | VStr s => clean_str s
  | VList items =>
      (fix all (l : list value) : Prop :=
         match l with
         | [] => True
         | x :: l' => clean x /\ all l'
         end) items
  | VDict entries =>
      (fix all (l : list (str * value)) : Prop :=
         match l with
         | [] => True
         | (_, x) :: l' => clean x /\ all l'
         end) entries
  | _ => True
  end.

(** ** The dictionaries that [app.py] builds *)

Definition num_value (x : num) : value :=
  match x with
  | PInt z => VInt z
  | PFloat f => VFloat f
  end.

Definition subsidiary_value (s : App.subsidiary) : value :=
  VDict [(lit "name", VStr (App.s_name s));
         (lit "jurisdiction", VStr (App.s_jurisdiction s));
         (lit "type", VStr (App.s_type s))].

Definition director_value (d : App.director) : value :=
  VDict [(lit "name", VStr (App.d_name d));
         (lit "role", VStr (App.d_role d));
         (lit "type", VStr (App.d_type d))].

Definition owner_value (o : App.owner) : value :=
  VDict [(lit "name", VStr (App.o_name o));
         (lit "ownership", VFloat (App.o_ownership o));
         (lit "type", VStr (App.o_type o))].

Definition metrics_value (m : App.metrics) : value :=
  VDict [(lit "total_subsidiaries", VInt (Z.of_nat (App.total_subsidiaries m)));
         (lit "total_directors", VInt (Z.of_nat (App.total_directors m)));
         (lit "total_owners", VInt (Z.of_nat (App.total_owners m)));
         (lit "ownership_concentration", num_value (App.ownership_concentration m));
         (lit "countries", VInt (Z.of_nat (App.countries m)));
         (lit "complexity_score", num_value (App.complexity_score m));
         (lit "governance_score", num_value (App.governance_score m));
         (lit "risk_level", VStr (App.risk_level m))].

Definition subsidiaries_value (r : App.extraction) : value :=
  VList (map subsidiary_value (App.subsidiaries r)).
Definition directors_value (r : App.extraction) : value :=
  VList (map director_value (App.directors r)).
Definition owners_value (r : App.extraction) : value :=
  VList (map owner_value (App.owners r)).

(** [response_data] of [upload]; [extracted_at] is the time stamp. *)
Definition response_data (r : App.extraction) (m : App.metrics)
           (extracted_at : str) : value :=
  VDict [(lit "subsidiaries", subsidiaries_value r);
         (lit "directors", directors_value r);
         (lit "owners", owners_value r);
         (lit "metrics", metrics_value m);
         (lit "extracted_at", VStr extracted_at)].

End Utils.

(* ================================================================== *)
(** * Scanning a text from left to right

    The matches of the two simplest kinds of patterns, and [re.sub] with
    them, as functions that walk the text once.  [ScanFacts] proves that
    the matcher computes them. *)

Module Scan.
Import Py Re.

(** The length of the longest prefix of [s] whose characters satisfy [P]. *)
Fixpoint run_length (P : N -> bool) (s : str) : nat :=
  match s with
  | x :: s' => if P x then S (run_length P s') else 0
  | [] => 0
  end.

(** A greedy repetition of a character class on the text [s] that is left
    at offset [i], after [count] iterations: one more character first, and
    the continuation [k] when that fails. *)
Fixpoint greedy {A} (P : N -> bool) (lo : nat) (k : cont A) (s : str)
         (count i : nat) (c : caps) : option A :=
  match s with
  | x :: s' =>
      if P x then
        match greedy P lo k s' (S count) (S i) c with
        | Some r => Some r
        | None => if lo <=? count then k i c else None
        end
      else if lo <=? count then k i c else None
  | [] => if lo <=? count then k i c else None
  end.

(** What a pattern matches at the head of a text: the length of the match,
    if there is one. *)
Definition head_match := str -> option nat.

(** [[...]+]: the longest run of characters of the class. *)
Definition run_head (P : N -> bool) : head_match :=
  fun s => match run_length P s with
           | O => None
           | n => Some n
           end.

(** The length of the longest prefix of [s] that is white space and ends
    with a newline. *)
Fixpoint blank_end (s : str) : option nat :=
  match s with
  | x :: s' =>
      if is_space x then
        match blank_end s' with
        | Some n => Some (S n)
        | None => if (x =? 10)%N then Some 1 else None
        end
      else None
  | [] => None
  end.

(** [\n\s*\n]: a newline, and the white space after it up to its last
    newline. *)
Definition blank_head : head_match :=
  fun s => match s with
           | x :: s' => if (x =? 10)%N then option_map S (blank_end s') else None
           | [] => None
           end.

(** The offsets of the leftmost match in [s], which starts at offset [i]
    of the whole text. *)
Fixpoint first_match (h : head_match) (s : str) (i : nat) : option (nat * nat) :=
  match h s with
  | Some n => Some (i, i + n)
  | None =>
      match s with
      | [] => None
      | _ :: s' => first_match h s' (S i)
      end
  end.

(** [re.sub] as one pass over the text: a match at the head is replaced by
    [repl] and its [skip] further characters are passed over. *)
Fixpoint scan_sub (h : head_match) (repl : str) (s : str) (skip : nat) : str :=
  match s with
  | [] => []
  | x :: s' =>
      match skip with
      | S k => scan_sub h repl s' k
      | O =>
          match h s with
          | Some (S n) => repl ++ scan_sub h repl s' n
          | _ => x :: scan_sub h repl s' 0
          end
      end
  end.

(** Every run of characters of [P] replaced by the one character [r]. *)
Definition squeeze (P : N -> bool) (r : N) (s : str) : str :=
  scan_sub (run_head P) [r] s 0.

(** The start and the end of a match. *)
Definition span (m : rmatch) : nat * nat := (m_start m, m_end m).

(** No two neighbours in [s] both satisfy [P]. *)
Fixpoint no_pair (P : N -> bool) (s : str) : Prop :=
  match s with
  | x :: s' =>
      match s' with
      | y :: _ => (P x && P y) = false /\ no_pair P s'
      | [] => True
      end
  | [] => True
  end.

(** The characters of [s] that are not white space, in their order. *)
Definition visible (s : str) : str := filter (fun x => negb (is_space x)) s.

(** Where a text stands in a run of white space, for the newlines of the
    run: none so far (or no run), one that is the last character, one that
    other white space has followed, two that were neighbours. *)
Inductive blank_state :=
| NoNewline
| OneNewline
| NewlineSpace
| TwoNewlines.

(** The state after the character [x]; [None] when [x] is a newline that
    comes too late: a third one, or one after other white space. *)
Definition blank_step (q : blank_state) (x : N) : option blank_state :=
  if negb (is_space x) then Some NoNewline
  else if (x =? 10)%N then
    match q with
    | NoNewline => Some OneNewline
    | OneNewline => Some TwoNewlines
    | NewlineSpace | TwoNewlines => None
    end
  else
    match q with
    | NoNewline => Some NoNewline
    | OneNewline | NewlineSpace => Some NewlineSpace
    | TwoNewlines => Some TwoNewlines
    end.

(** [q1] accepts whatever [q2] accepts. *)
Definition weaker (q1 q2 : blank_state) : bool :=
  match q1, q2 with
  | NoNewline, _ => true
  | _, NoNewline => false
  | OneNewline, _ => true
  | _, OneNewline => false
  | _, _ => true
  end.

(** No run of white space in [s] holds newlines other than one newline or
    two neighbours. *)
Fixpoint tidy (q : blank_state) (s : str) : bool :=
  match s with
  | [] => true
  | x :: s' =>
      match blank_step q x with
      | Some q' => tidy q' s'
      | None => false
      end
  end.

End Scan.

(* ================================================================== *)
(** * [src/pdf_extractor.py]: the text steps of [PDFUserExtractor] *)

Module PdfExtractor.
Import Py Re Utils.

(** [\n\s*\n] *)
Definition blank_lines : regex := seqs [chr 10; star space; chr 10].

(** [ +] *)
Definition spaces : regex := plus (chr 32).

(** [clean_text(text, max_length=1500)] *)
Definition clean_text (text : str) (max_length : Z) : str :=
  let text := sub no_flags blank_lines [10%N; 10%N] text in
  let text := sub no_flags spaces [32%N] text in
  let text := strip text in
  if (max_length <? Z.of_nat (length text))%Z
  then slice text 0 max_length
  else text.

Definition default_max_length : Z := 1500.

Inductive pdf_error :=
| FileNotFoundError          (* the path does not exist *)
| ReadFailed                 (* [Exception("Failed to read PDF: ...")] *)
| NoText.                    (* [ValueError("No text found in PDF")] *)

(** The loop of [extract_text_from_pdf]: the text of every page that has
    some, each followed by a newline. *)
Fixpoint page_texts (pages : list (option str)) : str :=
  match pages with
  | [] => []
  | Some (c :: page_text) :: rest => (c :: page_text) ++ [10%N] ++ page_texts rest
  | _ :: rest => page_texts rest
  end.

(** [extract_text_from_pdf]: [path_exists] is [pdf_path.exists()], and the
    document is what [pdfplumber] gives, as for [Web.pdf_to_text]. *)
Definition extract_text_from_pdf (path_exists : bool) (doc : Web.pdf)
  : pdf_error + str :=
  if negb path_exists then inl FileNotFoundError
  else
    match doc with
    | None => inl ReadFailed
    | Some pages =>
        let text := page_texts pages in
        match strip text with
        | [] => inl NoText
        | _ => inr text
        end
    end.

(** [\{[^{}]*\}] *)
Definition no_brace : regex :=
  Cls [CRange 0 122; CChar 124; CRange 126 1114111].
Definition json_object : regex := seqs [chr 123; star no_brace; chr 125].

(** A character other than a brace. *)
Definition not_brace (x : N) : bool := negb ((x =? 123)%N || (x =? 125)%N).

(** What [json_object] matches at the head of a text: an opening brace,
    the characters up to the next brace, and that brace when it is a
    closing one. *)
Definition json_head : Scan.head_match :=
  fun s => match s with
           | x :: s' =>
               if (x =? 123)%N then
                 let n := Scan.run_length not_brace s' in
                 match skipn n s' with
                 | y :: _ => if (y =? 125)%N then Some (n + 2) else None
                 | [] => None
                 end
               else None
           | [] => None
           end.

(** The characters of a Python string are code points. *)
Definition code_points (s : str) : Prop :=
  Forall (fun x => (x <= 1114111)%N) s.

(** [response] holds, after [pre], an opening brace, the text [body]
    without any brace, and a closing brace. *)
Definition object_at (response pre body post : str) : Prop :=
  response = pre ++ 123%N :: body ++ 125%N :: post
  /\ Forall (fun x => not_brace x = true) body.

Definition null_result : dict :=
  [(lit "name", VNone); (lit "designation", VNone)].

(** What [json.loads] does with a text that starts with a brace: it
    returns the dictionary of the object, raises [json.JSONDecodeError],
    or raises another exception (a plain [ValueError] for a number of more
    digits than [int] converts, [RecursionError] for arrays nested beyond
    the recursion limit), named by its class. *)
Inductive loaded :=
| Loaded (data : dict)
| JSONDecodeError
| OtherException (name : str).

(** What [parse_json_response] does: it returns a dictionary, or an
    exception that it does not catch leaves it. *)
Inductive parsed :=
| Parsed (fields : dict)
| Uncaught (name : str).

Section ParseJson.
Variable json_loads : str -> loaded.

(** The part of [parse_json_response] after the search: the two fields of
    the object that [json_str] holds, or the null result; only
    [json.JSONDecodeError] is caught. *)
Definition parsed_fields (json_str : str) : parsed :=
  match json_loads json_str with
  | Loaded data =>
      if dict_has (lit "name") data && dict_has (lit "designation") data
      then Parsed [(lit "name", dict_get_default (lit "name") VNone data);
                   (lit "designation",
                    dict_get_default (lit "designation") VNone data)]
      else Parsed null_result
  | JSONDecodeError => Parsed null_result
  | OtherException name => Uncaught name
  end.

(** [parse_json_response] *)
Definition parse_json_response (response : str) : parsed :=
  match search no_flags json_object response with
  | Some json_match =>
      parsed_fields (substr response (m_start json_match) (m_end json_match))
  | None => Parsed null_result
  end.
End ParseJson.

End PdfExtractor.

(* ================================================================== *)
(** * The shape of the records *)

Module Shape.
Import Py Re App.

(** A character of the class [[A-Za-z0-9\-,&\.\s]]. *)
Definition name_character (x : N) : bool :=
  is_ascii_letter x || is_digit x || (x =? 45)%N || (x =? 44)%N
  || (x =? 38)%N || (x =? 46)%N || is_space x.

(** A name as the extractors normalise it: it starts on an ASCII capital,
    holds characters of the name class only, and its white space is single
    spaces. *)
Definition normal_name (name : str) : Prop :=
  (exists x tl, name = x :: tl /\ is_ascii_upper x = true)
  /\ Forall (fun x => name_character x = true) name
  /\ (forall x, In x name -> is_space x = true -> x = 32%N)
  /\ Scan.no_pair is_space name.

(** A jurisdiction as the patterns capture it: a capital, lower-case
    letters, and then nothing or white space and two capitals. *)
Definition jurisdiction_shape (j : str) : Prop :=
  exists x lowers tail,
    j = x :: lowers ++ tail
    /\ is_ascii_upper x = true
    /\ lowers <> []
    /\ Forall (fun y => is_ascii_lower y = true) lowers
    /\ (tail = []
        \/ exists sp u1 u2,
             tail = sp ++ [u1; u2]
             /\ sp <> []
             /\ Forall (fun y => is_space y = true) sp
             /\ is_ascii_upper u1 = true /\ is_ascii_upper u2 = true).

End Shape.

(* ================================================================== *)
(** * Markers that cannot match at the same place *)

Module Markers.
Import Py Re App.

(** The literal [y] of a pattern accepts the character [x] under
    [re.IGNORECASE]: [accepts true y x] as a test. *)
Definition accepted (y x : N) : bool :=
  (x =? y)%N || existsb (N.eqb y) (case_class x).

(** The characters that have a case for [re.IGNORECASE]. *)
Definition cased : list N :=
  map N.of_nat (seq 65 26) ++ map N.of_nat (seq 97 26)
  ++ [304%N; 305%N; 383%N; 8490%N].

(** Some character is accepted by both literals. *)
Definition compatible (y1 y2 : N) : bool :=
  existsb (fun x => accepted y1 x && accepted y2 x) (y1 :: cased).

(** Some text can start with both words, as far as the shorter goes. *)
Fixpoint words_agree (w1 w2 : str) : bool :=
  match w1, w2 with
  | y1 :: w1', y2 :: w2' => compatible y1 y2 && words_agree w1' w2'
  | _, _ => true
  end.

(** The first character of a word is not white space. *)
Definition solid (w : str) : bool :=
  match w with
  | y :: _ => negb (is_space y)
  | [] => false
  end.

(** No text starts with a match of both markers: their first words differ,
    or these are as long as each other and the second words differ. *)
Definition clash (ws1 ws2 : list string) : bool :=
  match ws1, ws2 with
  | w1 :: r1, w2 :: r2 =>
      negb (words_agree (lit w1) (lit w2))
      || ((length (lit w1) =? length (lit w2))
          && match r1, r2 with
             | v1 :: _, v2 :: _ =>
                 solid (lit v1) && solid (lit v2)
                 && negb (words_agree (lit v1) (lit v2))
             | _, _ => false
             end)
  | _, _ => false
  end.

(** The words of the markers of [extract_from_filings]. *)
Definition exhibit21_start_words : list (list string) :=
  [["EXHIBIT"; "21"]; ["exhibit"; "21"]]%string.
Definition exhibit21_end_words : list (list string) :=
  [["EXHIBIT"; "22"]; ["SIGNATURES"]; ["ITEM"; "16"]]%string.
Definition directors_start_words : list (list string) :=
  [["DIRECTORS"]; ["EXECUTIVE"; "OFFICERS"]; ["BOARD"; "MEMBERS"]]%string.
Definition directors_end_words : list (list string) :=
  [["EXECUTIVE"; "COMPENSATION"]; ["COMPENSATION"; "DISCUSSION"];
   ["CD&A"]]%string.
Definition owners_start_words : list (list string) :=
  [["BENEFICIAL"; "OWNER"]; ["SECURITY"; "OWNERSHIP"];
   ["PRINCIPAL"; "SHAREHOLDERS"]]%string.
Definition owners_end_words : list (list string) :=
  [["EXECUTIVE"; "OFFICERS"]; ["DIRECTORS"]; ["PROPOSAL"]]%string.

(** The first word of the marker is not empty. *)
Definition worded (ws : list string) : bool :=
  match ws with
  | w :: _ => match lit w with [] => false | _ => true end
  | [] => false
  end.

(** Every start marker has a first word and clashes with every end
    marker. *)
Definition all_clash (starts ends : list (list string)) : bool :=
  forallb (fun s => worded s && forallb (clash s) ends) starts.

(** [r1] and [r2] are built alike, and their character classes hold the
    same characters when [ic] says whether case is ignored. *)
Fixpoint same_classes (ic : bool) (r1 r2 : regex) : Prop :=
  match r1, r2 with
  | Eps, Eps | Any, Any | Bol, Bol => True
  | Cls a, Cls b => forall x, cls_mem ic a x = cls_mem ic b x
  | Seq a b, Seq a' b' | Alt a b, Alt a' b' =>
      same_classes ic a a' /\ same_classes ic b b'
  | Rep lo hi g a, Rep lo' hi' g' a' =>
      lo = lo' /\ hi = hi' /\ g = g' /\ same_classes ic a a'
  | Grp n a, Grp n' a' => n = n' /\ same_classes ic a a'
  | _, _ => False
  end.

End Markers.

(* ================================================================== *)
(** * The place of a record in the sequence of candidates *)

Module Order.
Import Py Re App.

(** The candidate at place [i] of [cs] passes [ok], and no candidate
    before it passes [ok] with the same key. *)
Definition first_at {C} (key : C -> str) (ok : C -> bool) (cs : list C)
           (i : nat) : Prop :=
  exists c,
    nth_error cs i = Some c
    /\ ok c = true
    /\ forall j x, j < i -> nth_error cs j = Some x -> ok x = true ->
                   key x <> key c.

(** [kept] is what a first-wins filter leaves of [cs]: the candidates at
    the places of [first_at], each once, in the order of their places. *)
Definition first_accepted {C} (key : C -> str) (ok : C -> bool)
           (cs kept : list C) : Prop :=
  exists places,
    StronglySorted lt places
    /\ map (nth_error cs) places = map Some kept
    /\ forall i, In i places <-> first_at key ok cs i.

End Order.

(* ================================================================== *)
(** * The extractors as calls on the store of objects

    [parse_exhibit21], [parse_def14a_directors] and
    [parse_def14a_beneficial_owners] once more, with the objects that they
    create and change: each call binds [seen] to a new [set] and its result
    to a new [list], and the loop changes these two objects in place.  The
    store is what one call leaves to the next. *)

Module Store.
Import Py Re App.

(** The mutable objects of the extractors.  A [set] is kept as the list of
    its members, of which only membership is read. *)
Inductive object (R : Type) : Type :=
| SetObject (members : list str)
| ListObject (items : list R).
Arguments SetObject {R} members.
Arguments ListObject {R} items.

(** The objects made so far, by address.  An object keeps its address, and
    a new object gets the next one. *)
Definition store (R : Type) : Type := list (object R).
Definition address : Type := nat.

(** A piece of program: from the store to what it returns or raises, and
    the store it leaves. *)
Definition proc (R A : Type) : Type := store R -> result A * store R.

Definition ret {R A} (a : A) : proc R A := fun h => (Ok a, h).

(** A computation that does not touch the store. *)
Definition lift {R A} (r : result A) : proc R A := fun h => (r, h).

(** [p] and then [f]; an exception of [p] ends both. *)
Definition and_then {R A B} (p : proc R A) (f : A -> proc R B) : proc R B :=
  fun h =>
    match p h with
    | (Ok a, h') => f a h'
    | (Raise e, h') => (Raise e, h')
    end.

(** The object at [a] replaced. *)
Fixpoint put {X} (l : list X) (a : nat) (x : X) : list X :=
  match l, a with
  | [], _ => []
  | _ :: l', O => x :: l'
  | y :: l', S a' => y :: put l' a' x
  end.

(** [[]] and [set()]: a new object, and its address. *)
Definition new_list {R} : proc R address :=
  fun h => (Ok (length h), h ++ [ListObject []]).
Definition new_set {R} : proc R address :=
  fun h => (Ok (length h), h ++ [SetObject []]).

(** [x in seen], [seen.add(x)] and [records.append(r)].  A name of the
    program is bound to one object for the whole call, so the other cases
    are never reached; a [list] has no [add] and a [set] no [append]. *)
Definition contains {R} (seen : address) (x : str) : proc R bool :=
  fun h =>
    match nth_error h seen with
    | Some (SetObject members) => (Ok (mem x members), h)
    | _ => (Raise AttributeError, h)
    end.

Definition add {R} (seen : address) (x : str) : proc R unit :=
  fun h =>
    match nth_error h seen with
    | Some (SetObject members) =>
        (Ok tt, put h seen (SetObject (x :: members)))
    | _ => (Raise AttributeError, h)
    end.

Definition append {R} (records : address) (r : R) : proc R unit :=
  fun h =>
    match nth_error h records with
    | Some (ListObject items) =>
        (Ok tt, put h records (ListObject (items ++ [r])))
    | _ => (Raise AttributeError, h)
    end.

(** [for x in xs: body(x)] *)
Fixpoint for_each {R X} (body : X -> proc R unit) (xs : list X) : proc R unit :=
  match xs with
  | [] => ret tt
  | x :: xs' => and_then (body x) (fun _ => for_each body xs')
  end.

(** [parse_exhibit21]: the body of the inner loop, and the function. *)
Definition exhibit21_body (text : str) (seen subsidiaries : address)
           (m : rmatch) : proc subsidiary unit :=
  and_then (lift (group_strip text m 1)) (fun name =>
  and_then (lift (group_strip text m 2)) (fun jurisdiction =>
  let name := collapse_spaces name in
  if 2 <? length name then
    and_then (contains seen (lower name)) (fun known =>
    if negb known then
      and_then (add seen (lower name)) (fun _ =>
      append subsidiaries {| s_name := name; s_jurisdiction := jurisdiction;
                             s_type := lit "subsidiary" |})
    else ret tt)
  else ret tt)).

Definition parse_exhibit21 (text : str) : proc subsidiary address :=
  and_then new_list (fun subsidiaries =>
  and_then new_set (fun seen =>
  and_then
    (for_each (fun pattern =>
                 for_each (exhibit21_body text seen subsidiaries)
                          (finditer M pattern text))
              exhibit21_patterns) (fun _ =>
  ret subsidiaries))).

(** [parse_def14a_directors] *)
Definition director_body (text : str) (seen directors : address)
           (m : rmatch) : proc director unit :=
  let line_start := Z.max 0 (Z.of_nat (m_start m) - 100) in
  let line_text := slice text line_start (Z.of_nat (m_end m)) in
  match search no_flags director_name_pattern line_text with
  | Some name_match =>
      and_then (lift (group_strip line_text name_match 1)) (fun name =>
      and_then (lift (group_strip text m 1)) (fun role =>
      and_then (contains seen (lower name)) (fun known =>
      if negb known && (2 <=? length (split name)) then
        and_then (add seen (lower name)) (fun _ =>
        append directors {| d_name := name; d_role := role;
                            d_type := lit "director" |})
      else ret tt)))
  | None => ret tt
  end.

Definition parse_def14a_directors (text : str) : proc director address :=
  and_then new_list (fun directors =>
  and_then new_set (fun seen =>
  and_then
    (for_each (director_body text seen directors)
              (finditer MI director_pattern text)) (fun _ =>
  ret directors))).

(** [parse_def14a_beneficial_owners] *)
Definition owner_body (text : str) (seen owners : address)
           (m : rmatch) : proc owner unit :=
  and_then (lift (group_strip text m 1)) (fun name =>
  and_then (lift (group_strip text m 2)) (fun ownership_str =>
  let name := collapse_spaces name in
  let name := rstrip_chars (lit ".,") name in
  match py_float ownership_str with
  | Ok ownership =>
      if fltb one_tenth ownership && num_ltb (PFloat ownership) (PInt 100)
         && (3 <? length name)
      then
        and_then (contains seen (lower name)) (fun known =>
        if negb known then
          and_then (add seen (lower name)) (fun _ =>
          append owners {| o_name := name; o_ownership := ownership;
                           o_type := lit "owner" |})
        else ret tt)
      else ret tt
  | Raise ValueError => ret tt             (* except ValueError: continue *)
  | Raise e => lift (Raise e)
  end)).

Definition parse_def14a_beneficial_owners (text : str) : proc owner address :=
  and_then new_list (fun owners =>
  and_then new_set (fun seen =>
  and_then
    (for_each (fun pattern =>
                 for_each (owner_body text seen owners)
                          (finditer M pattern text))
              owner_patterns) (fun _ =>
  ret owners))).

(** Two calls of an extractor on the same text, one after the other: the
    second call starts in the store that the first one leaves. *)
Definition twice {R} (extractor : str -> proc R address) (text : str)
  : proc R (address * address) :=
  and_then (extractor text) (fun first =>
  and_then (extractor text) (fun second =>
  ret (first, second))).

(** The outcome [out] of a call in the store [h]: it returns a list object
    that [h] did not have, with the items [records], and the objects of [h]
    are as they were. *)
Definition returns_new_list {R} (h : store R)
           (out : result address * store R) (records : list R) : Prop :=
  exists a h',
    out = (Ok a, h')
    /\ length h <= a
    /\ nth_error h' a = Some (ListObject records)
    /\ forall b, b < length h -> nth_error h' b = nth_error h b.

(** The outcome [out] of two calls in a row, started in the store [h]: two
    list objects, one for each call, both with the items [records], and
    the objects of [h] are as they were. *)
Definition returns_two_lists {R} (h : store R)
           (out : result (address * address) * store R)
           (records : list R) : Prop :=
  exists first second h',
    out = (Ok (first, second), h')
    /\ first <> second
    /\ nth_error h' first = Some (ListObject records)
    /\ nth_error h' second = Some (ListObject records)
    /\ forall b, b < length h -> nth_error h' b = nth_error h b.

(** The store [h] holds the loop state [st] in the objects [seen] and
    [records]. *)
Definition holds {R} (h : store R) (seen records : address)
           (st : list str * list R) : Prop :=
  nth_error h seen = Some (SetObject (fst st))
  /\ nth_error h records = Some (ListObject (snd st)).

(** The call [p] does in the store what [f] does to the loop state: it
    changes the two objects of the loop and no other, and raises when [f]
    does. *)
Definition simulates {R} (seen records : address)
           (p : proc R unit)
           (f : list str * list R -> result (list str * list R)) : Prop :=
  forall h st,
    holds h seen records st ->
    exists h',
      length h' = length h
      /\ (forall b, b <> seen -> b <> records ->
                    nth_error h' b = nth_error h b)
      /\ match f st with
         | Ok st' => p h = (Ok tt, h') /\ holds h' seen records st'
         | Raise e => p h = (Raise e, h')
         end.

End Store.

(* ================================================================== *)
(** * Sample requests, documents and parsers *)

Module Fixtures.
Import Py Utils PdfExtractor.

(** A JSON parser that knows one text: it reads [{b}] as an object with
    the two fields, and fails on every other text. *)
Definition one_object_parser (json_str : str) : loaded :=
  if str_eqb json_str (lit "{b}")
  then Loaded [(lit "name", VStr (lit "Ann Lee"));
               (lit "designation", VStr (lit "CFO"))]
  else JSONDecodeError.

(** A request with a DEF 14A file of two pages without text, and no 10-K
    file. *)
Definition two_blank_pages : Web.files :=
  [("def14a_file"%string,
    {| Web.filename := lit "proxy.pdf";
       Web.document := Some [None; Some []] |})].

(** A response that holds an object within an object. *)
Definition nested_response : str := lit "x {a {b} c} y".

End Fixtures.

(** Case analysis on the comparisons of a goal about character ranges. *)
Ltac split_ranges :=
  repeat (match goal with
          | |- context [(?a <=? ?b)%N] => destruct (N.leb_spec a b)
          | |- context [(?a =? ?b)%N] => destruct (N.eqb_spec a b)
          end; simpl in *; try lia);
  try reflexivity.

(* ================================================================== *)
(** * Facts about the matcher *)

Module ReFacts.
Import Py Re.

Section Soundness.
Variable fl : flags.
Variable t : str.

Lemma within_below count hi :
  below count hi = true -> within (S count) hi.
Proof.
  destruct hi as [h|]; simpl; [|trivial].
  intros H. apply Nat.ltb_lt in H. lia.
Qed.

Lemma rep_loop_sound (A : Type) (body : nat -> caps -> cont A -> option A)
      (R : nat -> caps -> nat -> caps -> Prop) lo hi greedy (k : cont A) :
  (forall i c k' res, body i c k' = Some res ->
                      exists j c', R i c j c' /\ k' j c' = Some res) ->
  forall fuel count i c res,
    within count hi ->
    rep_loop body lo hi greedy k fuel count i c = Some res ->
    exists n j c', iter R n i c j c' /\ lo <= count + n
                   /\ within (count + n) hi /\ k j c' = Some res.
Proof.
  intros Hbody. induction fuel as [|fuel IH]; intros count i c res Hw H.
  - discriminate.
  - assert (Hstop : (if lo <=? count then k i c else None) = Some res ->
                    exists n j c', iter R n i c j c' /\ lo <= count + n
                                   /\ within (count + n) hi /\ k j c' = Some res).
    { destruct (lo <=? count) eqn:E; [|discriminate]. intros Hk.
      apply Nat.leb_le in E. exists 0, i, c. rewrite Nat.add_0_r.
      simpl. auto. }
    assert (Hmore :
      (if below count hi
       then body i c (fun j c' =>
              if i <? j then rep_loop body lo hi greedy k fuel (S count) j c'
              else None)
       else None) = Some res ->
      exists n j c', iter R n i c j c' /\ lo <= count + n
                     /\ within (count + n) hi /\ k j c' = Some res).
    { destruct (below count hi) eqn:E; [|discriminate]. intros Hb.
      apply Hbody in Hb. destruct Hb as (l & c1 & HR & Hk).
      destruct (i <? l) eqn:El; [|discriminate]. apply Nat.ltb_lt in El.
      apply IH in Hk; [|now apply within_below].
      destruct Hk as (n & j & c' & Hit & Hlo & Hhi & Hk).
      exists (S n), j, c'. rewrite Nat.add_succ_r. simpl.
      repeat split; try assumption. exists l, c1. auto. }
    simpl in H. destruct greedy.
    + match type of H with
      | match ?m with _ => _ end = _ => destruct m eqn:Em
      end.
      * inversion H; subst. apply Hmore. reflexivity.
      * apply Hstop. exact H.
    + match type of H with
      | match ?m with _ => _ end = _ => destruct m eqn:Em
      end.
      * inversion H; subst. apply Hstop. reflexivity.
      * apply Hmore. exact H.
Qed.

(** Every match that [run] hands to its continuation is a match of the
    pattern. *)
Lemma run_sound (A : Type) (r : regex) :
  forall i c (k : cont A) res,
    run fl t r i c k = Some res ->
    exists j c', matches fl t r i c j c' /\ k j c' = Some res.
Proof.
  induction r as [| | items | | a IHa b IHb | a IHa b IHb
                  | lo hi greedy a IHa | n a IHa];
    intros i c k res H; cbn [run] in H.
  - exists i, c. simpl. auto.
  - destruct (nth_error t i) as [x|] eqn:E; [|discriminate].
    destruct (x =? 10)%N eqn:E10; [discriminate|].
    exists (S i), c. simpl. split; [exists x; auto | assumption].
  - destruct (nth_error t i) as [x|] eqn:E; [|discriminate].
    destruct (cls_mem (ignorecase fl) items x) eqn:Em; [|discriminate].
    exists (S i), c. simpl. split; [exists x; auto | assumption].
  - destruct (at_bol fl t i) eqn:E; [|discriminate].
    exists i, c. simpl. auto.
  - apply IHa in H. destruct H as (l & c1 & Ha & H).
    apply IHb in H. destruct H as (j & c' & Hb & H).
    exists j, c'. split; [|assumption]. simpl. exists l, c1. auto.
  - destruct (run fl t a i c k) eqn:Ea.
    + inversion H; subst. apply IHa in Ea. destruct Ea as (j & c' & Ha & Hk).
      exists j, c'. simpl. auto.
    + apply IHb in H. destruct H as (j & c' & Hb & Hk).
      exists j, c'. simpl. auto.
  - apply rep_loop_sound with (R := matches fl t a) in H.
    + destruct H as (n & j & c' & Hit & Hlo & Hhi & Hk).
      exists j, c'. split; [|assumption]. simpl. exists n. auto.
    + intros i0 c0 k' res0 H0. apply IHa in H0. exact H0.
    + destruct hi; simpl; [lia | trivial].
  - apply IHa in H. destruct H as (j & c1 & Ha & Hk).
    exists j, ((n, (i, j)) :: c1). split; [|assumption].
    simpl. exists c1. auto.
Qed.

Lemma iter_le (R : nat -> caps -> nat -> caps -> Prop) n :
  forall i c j c', iter R n i c j c' -> i <= j.
Proof.
  induction n as [|n IH]; simpl; intros i c j c' H.
  - destruct H; subst; lia.
  - destruct H as (l & c1 & _ & Hlt & H). apply IH in H. lia.
Qed.

(** A match never moves backwards. *)
Lemma matches_le r : forall i c j c', matches fl t r i c j c' -> i <= j.
Proof.
  induction r as [| | items | | a IHa b IHb | a IHa b IHb
                  | lo hi greedy a IHa | n a IHa];
    simpl; intros i c j c' H.
  - destruct H; subst; lia.
  - destruct H as (x & _ & _ & -> & _). lia.
  - destruct H as (x & _ & _ & -> & _). lia.
  - destruct H as (_ & -> & _). lia.
  - destruct H as (l & c1 & Ha & Hb). apply IHa in Ha. apply IHb in Hb. lia.
  - destruct H as [H|H]; [apply IHa in H | apply IHb in H]; lia.
  - destruct H as (n & _ & _ & H). apply iter_le in H. exact H.
  - destruct H as (c1 & H & _). apply IHa in H. exact H.
Qed.

Lemma iter_caps (R : nat -> caps -> nat -> caps -> Prop) :
  (forall i c j c', R i c j c' -> c' = c) ->
  forall n i c j c', iter R n i c j c' -> c' = c.
Proof.
  intros HR. induction n as [|n IH]; simpl; intros i c j c' H.
  - destruct H; assumption.
  - destruct H as (l & c1 & H1 & _ & H). apply IH in H. apply HR in H1.
    congruence.
Qed.

(** A pattern without groups leaves the captures as they are. *)
Lemma matches_groupless r :
  groupless r = true ->
  forall i c j c', matches fl t r i c j c' -> c' = c.
Proof.
  induction r as [| | items | | a IHa b IHb | a IHa b IHb
                  | lo hi greedy a IHa | n a IHa];
    simpl; intros G i c j c' H.
  - destruct H; assumption.
  - destruct H as (x & _ & _ & _ & ->). reflexivity.
  - destruct H as (x & _ & _ & _ & ->). reflexivity.
  - destruct H as (_ & _ & ->). reflexivity.
  - apply andb_prop in G. destruct G as [Ga Gb].
    destruct H as (l & c1 & Ha & Hb).
    apply (IHa Ga) in Ha. apply (IHb Gb) in Hb. congruence.
  - apply andb_prop in G. destruct G as [Ga Gb].
    destruct H as [H|H]; [apply (IHa Ga) in H | apply (IHb Gb) in H];
      assumption.
  - destruct H as (n & _ & _ & H).
    apply iter_caps with (R := matches fl t a) in H; [assumption|].
    intros. eapply IHa; eassumption.
  - discriminate.
Qed.

Lemma matches_pushes r :
  forall ns i c j c',
    pushes r = Some ns -> matches fl t r i c j c' ->
    exists l, map fst l = rev ns /\ c' = l ++ c.
Proof.
  induction r as [| | items | | a IHa b IHb | a IHa b IHb
                  | lo hi greedy a IHa | n a IHa];
    intros ns i c j c' P H;
    try (apply matches_groupless in H; [|reflexivity]; subst c';
         inversion P; subst; exists []; auto).
  - simpl in P. destruct (pushes a) as [x|]; [|discriminate].
    destruct (pushes b) as [y|]; [|discriminate]. inversion P; subst.
    destruct H as (l & c1 & Ha & Hb).
    destruct (IHa _ _ _ _ _ eq_refl Ha) as (la & Hla & ->).
    destruct (IHb _ _ _ _ _ eq_refl Hb) as (lb & Hlb & ->).
    exists (lb ++ la). rewrite map_app, rev_app_distr, app_assoc.
    split; congruence.
  - simpl in P. destruct (groupless a && groupless b) eqn:G; [|discriminate].
    inversion P; subst. apply matches_groupless in H; [|simpl; exact G].
    subst. exists []. auto.
  - simpl in P. destruct (groupless a) eqn:G; [|discriminate].
    inversion P; subst. apply matches_groupless in H; [|simpl; exact G].
    subst. exists []. auto.
  - simpl in P. destruct (pushes a) as [x|]; [|discriminate].
    inversion P; subst. destruct H as (c1 & Ha & ->).
    destruct (IHa _ _ _ _ _ eq_refl Ha) as (la & Hla & ->).
    exists ((n, (i, j)) :: la). simpl. rewrite rev_app_distr. simpl.
    split; congruence.
Qed.

Lemma lookup_app_in n (l c : caps) :
  In n (map fst l) -> exists se, lookup n (l ++ c) = Some se.
Proof.
  induction l as [|[m se] l IH]; simpl; [tauto|].
  intros [->|H].
  - rewrite Nat.eqb_refl. eauto.
  - destruct (n =? m); eauto.
Qed.

(** A group that the pattern always records has a value in every match. *)
Lemma group_of_pushes p ns n i j m :
  pushes p = Some ns -> In n ns ->
  matches fl t p i [] j (m_caps m) ->
  exists g, group t m n = Some g.
Proof.
  intros P Hn H. destruct (matches_pushes _ _ _ _ _ P H) as (l & Hl & Hc).
  unfold group. rewrite Hc.
  destruct (lookup_app_in n l []) as ([a b] & E).
  - rewrite Hl. apply in_rev. rewrite rev_involutive. exact Hn.
  - rewrite E. eauto.
Qed.

Lemma match_at_sound p i m :
  match_at fl t p i = Some m ->
  m_start m = i /\ matches fl t p i [] (m_end m) (m_caps m).
Proof.
  unfold match_at. intros H. apply run_sound in H.
  destruct H as (j & c' & Hm & Hk). inversion Hk; subst. simpl. auto.
Qed.

Lemma search_at_sound p fuel :
  forall i m, search_at fl t p fuel i = Some m ->
              i <= m_start m <= i + fuel
              /\ match_at fl t p (m_start m) = Some m.
Proof.
  induction fuel as [|fuel IH]; intros i m H; simpl in H.
  - destruct (match_at fl t p i) eqn:E; [|discriminate].
    inversion H; subst. destruct (match_at_sound _ _ E) as [Hs _].
    rewrite Hs. split; [lia | assumption].
  - destruct (match_at fl t p i) eqn:E.
    + inversion H; subst. destruct (match_at_sound _ _ E) as [Hs _].
      rewrite Hs. split; [lia | assumption].
    + apply IH in H. destruct H as [Hr Hm]. split; [lia | assumption].
Qed.

(** [search_from p i] returns a match of [p] that starts at or after [i],
    inside the text, and does not end before it starts. *)
Lemma search_from_sound p i m :
  search_from fl t p i = Some m ->
  i <= m_start m <= length t /\ m_start m <= m_end m
  /\ matches fl t p (m_start m) [] (m_end m) (m_caps m).
Proof.
  unfold search_from. destruct (i <=? length t) eqn:E; [|discriminate].
  apply Nat.leb_le in E. intros H. apply search_at_sound in H.
  destruct H as [Hr Hm]. apply match_at_sound in Hm. destruct Hm as [_ Hm].
  split; [lia|]. split; [|assumption]. eapply matches_le; eassumption.
Qed.

Lemma finditer_from_sound p fuel :
  forall i, Forall (fun m => i <= m_start m /\ m_start m <= m_end m
                             /\ matches fl t p (m_start m) [] (m_end m) (m_caps m))
                   (finditer_from fl t p fuel i).
Proof.
  induction fuel as [|fuel IH]; intros i; simpl; [constructor|].
  destruct (search_from fl t p i) as [m|] eqn:E; [|constructor].
  pose proof (search_from_sound _ _ E) as (Hr & Hle & Hm).
  constructor.
  - split; [lia|]. auto.
  - eapply Forall_impl; [|apply IH]. simpl. intros m' (H1 & H2 & H3).
    split; [|auto]. destruct (m_start m <? m_end m) eqn:El.
    + lia.
    + lia.
Qed.

(** The matches of [finditer] come in text order and do not overlap. *)
Lemma finditer_from_sorted p fuel :
  forall i, StronglySorted (fun m1 m2 => m_end m1 <= m_start m2)
                           (finditer_from fl t p fuel i).
Proof.
  induction fuel as [|fuel IH]; intros i; simpl; [constructor|].
  destruct (search_from fl t p i) as [m|] eqn:E; [|constructor].
  constructor; [apply IH|].
  eapply Forall_impl; [|apply finditer_from_sound]. simpl.
  intros m' (H1 & _). destruct (m_start m <? m_end m); lia.
Qed.

(** ** The fuel of the loops is never used up *)

Lemma iter_bounded (R : nat -> caps -> nat -> caps -> Prop) :
  (forall i c j c', R i c j c' -> j <= Nat.max i (length t)) ->
  forall n i c j c', iter R n i c j c' -> j <= Nat.max i (length t).
Proof.
  intros HR. induction n as [|n IH]; simpl; intros i c j c' H.
  - destruct H; subst. lia.
  - destruct H as (l & c1 & H1 & Hlt & H). apply IH in H. apply HR in H1. lia.
Qed.

(** A match ends inside the text (or where it started, past the end). *)
Lemma matches_bounded r :
  forall i c j c', matches fl t r i c j c' -> j <= Nat.max i (length t).
Proof.
  induction r as [| | items | | a IHa b IHb | a IHa b IHb
                  | lo hi greedy a IHa | n a IHa];
    simpl; intros i c j c' H.
  - destruct H; subst; lia.
  - destruct H as (x & Hn & _ & -> & _).
    assert (i < length t) by (apply nth_error_Some; congruence). lia.
  - destruct H as (x & Hn & _ & -> & _).
    assert (i < length t) by (apply nth_error_Some; congruence). lia.
  - destruct H as (_ & -> & _). lia.
  - destruct H as (l & c1 & Ha & Hb). apply IHa in Ha. apply IHb in Hb. lia.
  - destruct H as [H|H]; [apply IHa in H | apply IHb in H]; lia.
  - destruct H as (n & _ & _ & H).
    eapply iter_bounded in H; [exact H|]. exact IHa.
  - destruct H as (c1 & H & _). apply IHa in H. exact H.
Qed.

Section Fuel.
Variable A : Type.

Lemma agree_from i j (k1 k2 : cont A) :
  agree t i k1 k2 -> i <= j -> j <= Nat.max i (length t) -> agree t j k1 k2.
Proof. intros H Hij Hj l c Hl Hb. apply H; lia. Qed.

Lemma rep_loop_ext (body : nat -> caps -> cont A -> option A) lo hi greedy :
  (forall i c (k1 k2 : cont A),
      agree t i k1 k2 -> body i c k1 = body i c k2) ->
  forall fuel count i c (k1 k2 : cont A),
    agree t i k1 k2 ->
    rep_loop body lo hi greedy k1 fuel count i c
    = rep_loop body lo hi greedy k2 fuel count i c.
Proof.
  intros Hbody. induction fuel as [|fuel IH]; intros count i c k1 k2 Hk;
    [reflexivity|].
  assert (Hin : body i c (fun j c' =>
                  if i <? j
                  then rep_loop body lo hi greedy k1 fuel (S count) j c'
                  else None)
                = body i c (fun j c' =>
                  if i <? j
                  then rep_loop body lo hi greedy k2 fuel (S count) j c'
                  else None)).
  { apply Hbody. intros j c' Hj Hb. destruct (i <? j); [|reflexivity].
    apply IH. eapply agree_from; eassumption. }
  simpl. rewrite Hin. rewrite (Hk i c) by lia. reflexivity.
Qed.

(** [run] looks at its continuation from the current offset to the end of
    the text only. *)
Lemma run_ext r :
  forall i c (k1 k2 : cont A),
    agree t i k1 k2 -> run fl t r i c k1 = run fl t r i c k2.
Proof.
  induction r as [| | items | | a IHa b IHb | a IHa b IHb
                  | lo hi greedy a IHa | n a IHa];
    intros i c k1 k2 Hk; cbn [run].
  - apply Hk; lia.
  - destruct (nth_error t i) as [x|] eqn:E; [|reflexivity].
    destruct (x =? 10)%N; [reflexivity|].
    assert (i < length t) by (apply nth_error_Some; congruence).
    apply Hk; lia.
  - destruct (nth_error t i) as [x|] eqn:E; [|reflexivity].
    destruct (cls_mem (ignorecase fl) items x); [|reflexivity].
    assert (i < length t) by (apply nth_error_Some; congruence).
    apply Hk; lia.
  - destruct (at_bol fl t i); [apply Hk; lia | reflexivity].
  - apply IHa. intros j c' Hj Hb. apply IHb.
    eapply agree_from; eassumption.
  - rewrite (IHa i c k1 k2 Hk), (IHb i c k1 k2 Hk). reflexivity.
  - apply rep_loop_ext; [exact IHa | exact Hk].
  - apply IHa. intros j c' Hj Hb. apply Hk; assumption.
Qed.

(** With more fuel than characters left, the loop of a repetition does not
    depend on its fuel: the bound in [run] never cuts a match short. *)
Lemma rep_loop_fuel a lo hi greedy (k : cont A) :
  forall fuel1 fuel2 count i c,
    length t - i < fuel1 -> length t - i < fuel2 ->
    rep_loop (run fl t a) lo hi greedy k fuel1 count i c
    = rep_loop (run fl t a) lo hi greedy k fuel2 count i c.
Proof.
  induction fuel1 as [|fuel1 IH]; intros fuel2 count i c H1 H2; [lia|].
  destruct fuel2 as [|fuel2]; [lia|].
  assert (Hin : run fl t a i c (fun j c' =>
                  if i <? j
                  then rep_loop (run fl t a) lo hi greedy k fuel1 (S count) j c'
                  else None)
                = run fl t a i c (fun j c' =>
                  if i <? j
                  then rep_loop (run fl t a) lo hi greedy k fuel2 (S count) j c'
                  else None)).
  { apply run_ext. intros j c' Hj Hb.
    destruct (i <? j) eqn:E; [|reflexivity]. apply Nat.ltb_lt in E.
    apply IH; lia. }
  simpl. rewrite Hin. reflexivity.
Qed.

End Fuel.

Lemma search_from_bounded p i m :
  search_from fl t p i = Some m -> m_end m <= length t.
Proof.
  intros H. apply search_from_sound in H. destruct H as (Hr & _ & Hm).
  apply matches_bounded in Hm. lia.
Qed.

(** With enough fuel, [finditer_from] does not depend on its fuel: the
    bound in [finditer] never cuts the list of matches short. *)
Lemma finditer_from_fuel p :
  forall fuel1 fuel2 i,
    length t + 2 - i <= fuel1 -> length t + 2 - i <= fuel2 ->
    finditer_from fl t p fuel1 i = finditer_from fl t p fuel2 i.
Proof.
  induction fuel1 as [|fuel1 IH]; intros fuel2 i H1 H2.
  - assert (Hi : length t < i) by lia.
    destruct fuel2; simpl; [reflexivity|].
    unfold search_from. destruct (i <=? length t) eqn:E; [|reflexivity].
    apply Nat.leb_le in E. lia.
  - destruct fuel2 as [|fuel2].
    + assert (Hi : length t < i) by lia. simpl.
      unfold search_from. destruct (i <=? length t) eqn:E; [|reflexivity].
      apply Nat.leb_le in E. lia.
    + cbn [finditer_from].
      destruct (search_from fl t p i) as [m|] eqn:E; [|reflexivity].
      f_equal. pose proof (search_from_sound _ _ E) as (Hr & Hle & _).
      apply IH; destruct (Nat.ltb_spec (m_start m) (m_end m)); lia.
Qed.

(** ** The matcher finds a match when there is one *)

Section Completeness.
Variable A : Type.

Lemma rep_loop_complete a lo hi greedy (k : cont A) :
  (forall i c j c' (k' : cont A),
      matches fl t a i c j c' -> k' j c' <> None ->
      run fl t a i c k' <> None) ->
  forall n fuel count i c j c',
    length t - i < fuel ->
    iter (matches fl t a) n i c j c' ->
    lo <= count + n -> within (count + n) hi ->
    k j c' <> None ->
    rep_loop (run fl t a) lo hi greedy k fuel count i c <> None.
Proof.
  intros Ha. induction n as [|n IH];
    intros fuel count i c j c' Hfuel Hit Hlo Hhi Hk;
    (destruct fuel as [|fuel]; [lia|]); simpl in Hit.
  - destruct Hit as [-> ->]. rewrite Nat.add_0_r in Hlo.
    apply Nat.leb_le in Hlo. simpl. rewrite Hlo.
    destruct greedy.
    + destruct (if below count hi then _ else None); [discriminate|exact Hk].
    + destruct (k i c); [discriminate | congruence].
  - destruct Hit as (l & c1 & Hm & Hlt & Hit).
    assert (Hb : below count hi = true).
    { destruct hi as [h|]; simpl in *; [apply Nat.ltb_lt; lia | reflexivity]. }
    assert (Hl : l <= length t).
    { apply matches_bounded in Hm. lia. }
    assert (Hmore :
      run fl t a i c (fun j0 c0 =>
        if i <? j0
        then rep_loop (run fl t a) lo hi greedy k fuel (S count) j0 c0
        else None) <> None).
    { apply (Ha _ _ _ _ _ Hm). apply Nat.ltb_lt in Hlt. rewrite Hlt.
      apply Nat.ltb_lt in Hlt.
      apply (IH fuel (S count) l c1 j c');
        [lia | exact Hit | lia | | exact Hk].
      replace (S count + n) with (count + S n) by lia. exact Hhi. }
    simpl. rewrite Hb. destruct greedy.
    + destruct (run fl t a i c _); [discriminate | congruence].
    + destruct (if lo <=? count then k i c else None); [discriminate|].
      exact Hmore.
Qed.

(** When [r] has a match from [i] on which the continuation succeeds,
    [run] succeeds (with that match or with one of higher priority). *)
Lemma run_complete r :
  forall i c j c' (k : cont A),
    matches fl t r i c j c' -> k j c' <> None -> run fl t r i c k <> None.
Proof.
  induction r as [| | items | | a IHa b IHb | a IHa b IHb
                  | lo hi greedy a IHa | n a IHa];
    intros i c j c' k H Hk; cbn [run].
  - destruct H as [-> ->]. exact Hk.
  - destruct H as (x & -> & -> & -> & ->). exact Hk.
  - destruct H as (x & -> & -> & -> & ->). exact Hk.
  - destruct H as (-> & -> & ->). exact Hk.
  - destruct H as (l & c1 & Ha & Hb).
    apply (IHa _ _ _ _ _ Ha). apply (IHb _ _ _ _ _ Hb). exact Hk.
  - destruct H as [H|H].
    + pose proof (IHa _ _ _ _ _ H Hk) as Hr.
      destruct (run fl t a i c k); [discriminate | congruence].
    + destruct (run fl t a i c k); [discriminate|].
      apply (IHb _ _ _ _ _ H Hk).
  - destruct H as (n & Hlo & Hhi & Hit).
    eapply rep_loop_complete with (n := n) (j := j) (c' := c');
      try eassumption; try lia.
  - destruct H as (c1 & Ha & ->). apply (IHa _ _ _ _ _ Ha). exact Hk.
Qed.

End Completeness.

Lemma match_at_complete p i j c' :
  matches fl t p i [] j c' -> match_at fl t p i <> None.
Proof.
  intros H. unfold match_at. eapply run_complete; [exact H | discriminate].
Qed.

Lemma search_at_none p fuel :
  forall i, search_at fl t p fuel i = None ->
            forall l, i <= l <= i + fuel -> match_at fl t p l = None.
Proof.
  induction fuel as [|fuel IH]; intros i H l Hl; simpl in H.
  - destruct (match_at fl t p i) eqn:E; [discriminate|].
    replace l with i by lia. exact E.
  - destruct (match_at fl t p i) eqn:E; [discriminate|].
    destruct (Nat.eq_dec l i) as [->|Hne]; [exact E|].
    apply (IH (S i) H). lia.
Qed.

Lemma search_at_first p fuel :
  forall i m, search_at fl t p fuel i = Some m ->
              forall l, i <= l < m_start m -> match_at fl t p l = None.
Proof.
  induction fuel as [|fuel IH]; intros i m H l Hl; simpl in H.
  - destruct (match_at fl t p i) eqn:E; [|discriminate].
    inversion H; subst. apply match_at_sound in E. lia.
  - destruct (match_at fl t p i) eqn:E.
    + inversion H; subst. apply match_at_sound in E. lia.
    + destruct (Nat.eq_dec l i) as [->|Hne]; [exact E|].
      apply (IH (S i) m H). lia.
Qed.

(** [search] fails exactly when the pattern matches at no offset of the
    text, and the match it returns is the leftmost one. *)
Lemma search_from_none p i :
  search_from fl t p i = None ->
  forall l j c', i <= l <= length t -> ~ matches fl t p l [] j c'.
Proof.
  unfold search_from. intros H l j c' Hl Hm.
  destruct (i <=? length t) eqn:E; [|apply Nat.leb_gt in E; lia].
  eapply match_at_complete; [exact Hm|].
  eapply search_at_none; [exact H | lia].
Qed.

Lemma search_from_leftmost p i m :
  search_from fl t p i = Some m ->
  forall l j c', i <= l < m_start m -> ~ matches fl t p l [] j c'.
Proof.
  unfold search_from. intros H l j c' Hl Hm.
  destruct (i <=? length t) eqn:E; [|discriminate].
  eapply match_at_complete; [exact Hm|].
  eapply search_at_first; [exact H | exact Hl].
Qed.

End Soundness.

Lemma finditer_sound fl p t :
  Forall (fun m => m_start m <= m_end m
                   /\ matches fl t p (m_start m) [] (m_end m) (m_caps m))
         (finditer fl p t).
Proof.
  unfold finditer. eapply Forall_impl; [|apply finditer_from_sound].
  simpl. intros m (_ & H). exact H.
Qed.

Lemma finditer_sorted fl p t :
  StronglySorted (fun m1 m2 => m_end m1 <= m_start m2) (finditer fl p t).
Proof. apply finditer_from_sorted. Qed.

Lemma search_sound fl p t m :
  search fl p t = Some m ->
  m_start m <= length t /\ m_start m <= m_end m
  /\ matches fl t p (m_start m) [] (m_end m) (m_caps m).
Proof.
  unfold search. intros H. apply search_from_sound in H.
  destruct H as (Hr & Hle & Hm). split; [lia|]. auto.
Qed.

End ReFacts.

(* ================================================================== *)
(** * Facts about the built-ins *)

Module PyFacts.
Import Py.

Lemma str_eqb_eq a : forall b, str_eqb a b = true <-> a = b.
Proof.
  induction a as [|x a IH]; intros [|y b]; simpl; split; intros H;
    try discriminate; try reflexivity.
  - apply andb_prop in H. destruct H as [Hx Hab].
    apply N.eqb_eq in Hx. apply IH in Hab. congruence.
  - inversion H; subst. rewrite N.eqb_refl. simpl. apply IH. reflexivity.
Qed.

Lemma mem_In x xs : mem x xs = true <-> In x xs.
Proof.
  unfold mem. rewrite existsb_exists. split.
  - intros (y & Hy & E). apply str_eqb_eq in E. subst. exact Hy.
  - intros H. exists x. split; [exact H | apply str_eqb_eq; reflexivity].
Qed.

Lemma mem_false_not_In x xs : mem x xs = false <-> ~ In x xs.
Proof.
  rewrite <- mem_In. destruct (mem x xs); split; intros H;
    try discriminate; try reflexivity; try (intros E; discriminate).
  exfalso. apply H. reflexivity.
Qed.

Lemma for_each_app {S X} (body : S -> X -> result S) xs ys :
  forall st, for_each body st (xs ++ ys)
             = bind (for_each body st xs) (fun st' => for_each body st' ys).
Proof.
  induction xs as [|x xs IH]; intros st; simpl; [reflexivity|].
  destruct (body st x); simpl; [apply IH | reflexivity].
Qed.

(** Nested loops are one loop over the concatenated sequences. *)
Lemma for_each_flat_map {S X Y} (body : S -> Y -> result S) (f : X -> list Y) xs :
  forall st, for_each (fun st x => for_each body st (f x)) st xs
             = for_each body st (flat_map f xs).
Proof.
  induction xs as [|x xs IH]; intros st; simpl; [reflexivity|].
  rewrite for_each_app. destruct (for_each body st (f x)); simpl;
    [apply IH | reflexivity].
Qed.

(** A loop whose body never raises on the elements it meets is a fold. *)
Lemma for_each_pure {S X} (body : S -> X -> result S) (g : S -> X -> S) xs :
  (forall st x, In x xs -> body st x = Ok (g st x)) ->
  forall st, for_each body st xs = Ok (fold_left g xs st).
Proof.
  induction xs as [|x xs IH]; intros Hb st; simpl; [reflexivity|].
  rewrite Hb by (left; reflexivity). simpl. apply IH.
  intros st' y Hy. apply Hb. right. exact Hy.
Qed.

Lemma fold_left_flat_map {S X Y} (g : S -> Y -> S) (f : X -> list Y) xs :
  forall st, fold_left (fun st x => fold_left g (f x) st) xs st
             = fold_left g (flat_map f xs) st.
Proof.
  induction xs as [|x xs IH]; intros st; simpl; [reflexivity|].
  rewrite fold_left_app. apply IH.
Qed.

Lemma fold_left_through_map {S X Y} (g : S -> Y -> S) (f : X -> Y) xs :
  forall st, fold_left (fun st x => g st (f x)) xs st
             = fold_left g (map f xs) st.
Proof.
  induction xs as [|x xs IH]; intros st; simpl; [reflexivity | apply IH].
Qed.

Lemma map_flat_map {X Y Z} (f : Y -> Z) (h : X -> list Y) xs :
  map f (flat_map h xs) = flat_map (fun x => map f (h x)) xs.
Proof.
  induction xs as [|x xs IH]; simpl; [reflexivity|].
  rewrite map_app, IH. reflexivity.
Qed.

Lemma flat_map_flat_map {X Y Z} (f : Y -> list Z) (h : X -> list Y) xs :
  flat_map f (flat_map h xs) = flat_map (fun x => flat_map f (h x)) xs.
Proof.
  induction xs as [|x xs IH]; simpl; [reflexivity|].
  rewrite flat_map_app, IH. reflexivity.
Qed.

(** [float] raises nothing but [ValueError]. *)
Lemma py_float_raises s e : py_float s = Raise e -> e = ValueError.
Proof.
  unfold py_float. destruct (take_digits s) as [ip rest].
  destruct rest as [|c rest'].
  - destruct ip; intros H; inversion H; reflexivity.
  - destruct (c =? 46)%N.
    + destruct (take_digits rest') as [fp rest''].
      destruct rest''; [destruct (ip ++ fp)|]; intros H; inversion H;
        reflexivity.
    + intros H; inversion H; reflexivity.
Qed.

End PyFacts.

(* ================================================================== *)
(** * Facts about the extractors *)

Module AppFacts.
Import Py Re App PyFacts ReFacts.

(** ** The loops compute the first-wins filters *)

Lemma fold_keep_step {C R} (key : C -> str) ok (mk : C -> R) cs :
  forall seen out,
    exists seen',
      fold_left (keep_step key ok mk) cs (seen, out)
      = (seen', out ++ map mk (dedup_by key ok seen cs)).
Proof.
  induction cs as [|c cs IH]; intros seen out; simpl.
  - exists seen. rewrite app_nil_r. reflexivity.
  - unfold keep_step at 2. simpl.
    destruct (ok c && negb (mem (key c) seen)).
    + destruct (IH (key c :: seen) (out ++ [mk c])) as (seen' & E).
      exists seen'. rewrite E. simpl. rewrite <- app_assoc. reflexivity.
    + apply IH.
Qed.

Lemma snd_fold_keep_step {C R} (key : C -> str) ok (mk : C -> R) cs :
  snd (fold_left (keep_step key ok mk) cs ([], []))
  = map mk (dedup_by key ok [] cs).
Proof.
  destruct (fold_keep_step key ok mk cs [] []) as (seen' & E).
  rewrite E. reflexivity.
Qed.

(** ** The first-wins filter *)

Section Dedup.
Variable C : Type.
Variable key : C -> str.
Variable ok : C -> bool.

Lemma dedup_by_subseq cs : forall seen, subseq (dedup_by key ok seen cs) cs.
Proof.
  induction cs as [|c cs IH]; intros seen; simpl; [constructor|].
  destruct (ok c && negb (mem (key c) seen)); constructor; apply IH.
Qed.

Lemma dedup_by_in cs :
  forall seen c, In c (dedup_by key ok seen cs) ->
                 In c cs /\ ok c = true /\ ~ In (key c) seen.
Proof.
  induction cs as [|c0 cs IH]; intros seen c H; simpl in H; [contradiction|].
  destruct (ok c0 && negb (mem (key c0) seen)) eqn:E.
  - destruct H as [<-|H].
    + apply andb_prop in E. destruct E as [Hok Hm].
      apply negb_true_iff, mem_false_not_In in Hm. simpl. auto.
    + apply IH in H. destruct H as (Hin & Hok & Hs). simpl in *.
      split; [auto|]. split; [assumption|]. tauto.
  - apply IH in H. simpl. tauto.
Qed.

Lemma dedup_by_NoDup cs :
  forall seen, NoDup (map key (dedup_by key ok seen cs)).
Proof.
  induction cs as [|c cs IH]; intros seen; simpl; [constructor|].
  destruct (ok c && negb (mem (key c) seen)); [|apply IH].
  simpl. constructor; [|apply IH].
  intros Hin. apply in_map_iff in Hin. destruct Hin as (x & Hk & Hx).
  apply dedup_by_in in Hx. destruct Hx as (_ & _ & Hs).
  apply Hs. left. symmetry. exact Hk.
Qed.

Lemma dedup_by_first cs :
  forall seen c, In c (dedup_by key ok seen cs) ->
                 exists pre post,
                   cs = pre ++ c :: post
                   /\ ok c = true /\ ~ In (key c) seen
                   /\ forall x, In x pre -> ok x = true -> key x <> key c.
Proof.
  induction cs as [|c0 cs IH]; intros seen c H; simpl in H; [contradiction|].
  destruct (ok c0 && negb (mem (key c0) seen)) eqn:E.
  - apply andb_prop in E. destruct E as [Hok Hm].
    apply negb_true_iff, mem_false_not_In in Hm.
    destruct H as [<-|H].
    + exists [], cs. simpl. repeat split; auto; intros x [].
    + apply IH in H. destruct H as (pre & post & -> & Hokc & Hs & Hpre).
      exists (c0 :: pre), post. simpl in *.
      split; [reflexivity|]. split; [assumption|]. split; [tauto|].
      intros x [<-|Hx] Hx'; [intro; apply Hs; auto | auto].
  - apply IH in H. destruct H as (pre & post & -> & Hokc & Hs & Hpre).
    exists (c0 :: pre), post. simpl.
    split; [reflexivity|]. split; [assumption|]. split; [assumption|].
    intros x [<-|Hx] Hx'; [|auto]. intros Hk. rewrite Hx' in E. simpl in E.
    apply negb_false_iff, mem_In in E. rewrite Hk in E. contradiction.
Qed.

Lemma dedup_by_keeps_first pre :
  forall seen c post,
    ok c = true -> ~ In (key c) seen ->
    (forall x, In x pre -> ok x = true -> key x <> key c) ->
    In c (dedup_by key ok seen (pre ++ c :: post)).
Proof.
  induction pre as [|x pre IH]; intros seen c post Hok Hs Hpre; simpl.
  - rewrite Hok. apply mem_false_not_In in Hs. rewrite Hs. simpl. auto.
  - destruct (ok x && negb (mem (key x) seen)) eqn:E.
    + right. apply andb_prop in E. destruct E as [Hx _].
      apply IH; auto.
      * simpl. intros [Hk|Hin]; [|contradiction].
        apply (Hpre x); simpl; auto.
      * intros y Hy. apply Hpre. simpl. auto.
    + apply IH; auto. intros y Hy. apply Hpre. simpl. auto.
Qed.

(** The survivors from an empty seen-set are the first valid candidates
    of their keys. *)
Lemma dedup_by_first_iff cs c :
  In c (dedup_by key ok [] cs) <-> first_with_key key ok cs c.
Proof.
  split.
  - intros H. apply dedup_by_first in H.
    destruct H as (pre & post & E & Hok & _ & Hpre). exists pre, post. auto.
  - intros (pre & post & -> & Hok & Hpre).
    apply dedup_by_keeps_first; auto.
Qed.

(** Every valid candidate has a first valid candidate of its key. *)
Lemma first_with_key_exists cs :
  forall c, In c cs -> ok c = true ->
            exists c', key c' = key c /\ first_with_key key ok cs c'.
Proof.
  induction cs as [|c0 cs IH]; intros c Hin Hok; [contradiction|].
  destruct (ok c0 && str_eqb (key c0) (key c)) eqn:E.
  - apply andb_prop in E. destruct E as [Hok0 Hk]. apply str_eqb_eq in Hk.
    exists c0. split; [exact Hk|]. exists [], cs. simpl.
    repeat split; auto; intros x [].
  - assert (Hne : ok c0 = true -> key c0 <> key c).
    { intros H0 Hk. rewrite H0 in E. simpl in E.
      assert (str_eqb (key c0) (key c) = true) by (apply str_eqb_eq; exact Hk).
      congruence. }
    destruct Hin as [<-|Hin].
    + exfalso. apply Hne; auto.
    + destruct (IH c Hin Hok) as (c' & Hk & pre & post & -> & Hok' & Hpre).
      exists c'. split; [exact Hk|]. exists (c0 :: pre), post. simpl.
      split; [reflexivity|]. split; [assumption|].
      intros x [<-|Hx] Hx'; [|auto].
      rewrite Hk. auto.
Qed.

(** The filter sees its seen-set through membership only. *)
Lemma dedup_by_same_set cs :
  forall s1 s2, same_set s1 s2 ->
                dedup_by key ok s1 cs = dedup_by key ok s2 cs.
Proof.
  induction cs as [|c cs IH]; intros s1 s2 H; simpl; [reflexivity|].
  rewrite (H (key c)). destruct (ok c && negb (mem (key c) s2)).
  - f_equal. apply IH. intros x. simpl. rewrite (H x). reflexivity.
  - apply IH. exact H.
Qed.

End Dedup.

Lemma NoDup_map_same {X Y} (f : X -> Y) (l : list X) :
  NoDup (map f l) ->
  forall a b, In a l -> In b l -> f a = f b -> a = b.
Proof.
  induction l as [|x l IH]; intros H a b Ha Hb E; [contradiction|].
  simpl in H. inversion H as [|? ? Hnot Hnd]; subst.
  destruct Ha as [<-|Ha], Hb as [<-|Hb]; try reflexivity.
  - exfalso. apply Hnot. rewrite E. apply in_map. exact Hb.
  - exfalso. apply Hnot. rewrite <- E. apply in_map. exact Ha.
  - apply IH; assumption.
Qed.

(** ** The loops see their seen-set through membership only *)

Lemma same_set_cons x s1 s2 : same_set s1 s2 -> same_set (x :: s1) (x :: s2).
Proof. intros H y. simpl. rewrite (H y). reflexivity. Qed.

Lemma for_each_equiv {R X} (body : list str * list R -> X -> result (list str * list R)) :
  (forall st1 st2 x, state_equiv st1 st2 ->
                     outcome_equiv (body st1 x) (body st2 x)) ->
  forall xs st1 st2,
    state_equiv st1 st2 ->
    outcome_equiv (for_each body st1 xs) (for_each body st2 xs).
Proof.
  intros Hb. induction xs as [|x xs IH]; intros st1 st2 H; simpl.
  - exact H.
  - pose proof (Hb st1 st2 x H) as Hx.
    destruct (body st1 x) as [a|e1], (body st2 x) as [b|e2]; simpl in *;
      try contradiction; [apply IH; exact Hx | exact Hx].
Qed.

Lemma exhibit21_body_equiv text st1 st2 m :
  state_equiv st1 st2 ->
  outcome_equiv (exhibit21_body text st1 m) (exhibit21_body text st2 m).
Proof.
  destruct st1 as [s1 o1], st2 as [s2 o2]. intros [Hs Ho].
  simpl in Hs, Ho. subst o2. unfold exhibit21_body.
  destruct (group_strip text m 1) as [name|e]; simpl; [|reflexivity].
  destruct (group_strip text m 2) as [jur|e]; simpl; [|reflexivity].
  rewrite (Hs (lower (collapse_spaces name))).
  destruct (_ && _); simpl; split; simpl; auto.
  apply same_set_cons. exact Hs.
Qed.

Lemma director_body_equiv text st1 st2 m :
  state_equiv st1 st2 ->
  outcome_equiv (director_body text st1 m) (director_body text st2 m).
Proof.
  destruct st1 as [s1 o1], st2 as [s2 o2]. intros [Hs Ho].
  simpl in Hs, Ho. subst o2. unfold director_body.
  destruct (search no_flags director_name_pattern _) as [nm|];
    [|split; auto].
  destruct (group_strip _ nm 1) as [name|e]; simpl; [|reflexivity].
  destruct (group_strip text m 1) as [role|e]; simpl; [|reflexivity].
  rewrite (Hs (lower name)).
  destruct (_ && _); simpl; split; simpl; auto.
  apply same_set_cons. exact Hs.
Qed.

Lemma owner_body_equiv text st1 st2 m :
  state_equiv st1 st2 ->
  outcome_equiv (owner_body text st1 m) (owner_body text st2 m).
Proof.
  destruct st1 as [s1 o1], st2 as [s2 o2]. intros [Hs Ho].
  simpl in Hs, Ho. subst o2. unfold owner_body.
  destruct (group_strip text m 1) as [name|e]; simpl; [|reflexivity].
  destruct (group_strip text m 2) as [pct|e]; simpl; [|reflexivity].
  destruct (py_float pct) as [f|[|]]; simpl; try reflexivity;
    [|split; auto].
  rewrite (Hs (lower (rstrip_chars (lit ".,") (collapse_spaces name)))).
  destruct (_ && _); simpl; split; simpl; auto.
  apply same_set_cons. exact Hs.
Qed.

Lemma pattern_groups fl p text m n :
  pushes p = Some [1; 2] -> (n = 1 \/ n = 2) ->
  In m (finditer fl p text) ->
  group text m n = Some (group_text text m n).
Proof.
  intros P Hn Hin.
  pose proof (finditer_sound fl p text) as F.
  rewrite Forall_forall in F. destruct (F _ Hin) as (_ & Hm).
  assert (Hin' : In n [1; 2]) by (simpl; destruct Hn; auto).
  destruct (@group_of_pushes fl text p [1; 2] n _ _ m P Hin' Hm) as (g & E).
  unfold group_text. rewrite E. reflexivity.
Qed.

Lemma exhibit21_body_step text st m p :
  In p exhibit21_patterns -> In m (finditer M p text) ->
  exhibit21_body text st m
  = Ok (keep_step name_key exhibit21_ok subsidiary_of st
                  (exhibit21_candidate text m)).
Proof.
  intros Hp Hm.
  assert (P : pushes p = Some [1; 2]).
  { destruct Hp as [<-|[<-|[]]]; reflexivity. }
  unfold exhibit21_body, group_strip. destruct st as [seen subs].
  rewrite (@pattern_groups M p text m 1 P (or_introl eq_refl) Hm).
  rewrite (@pattern_groups M p text m 2 P (or_intror eq_refl) Hm).
  simpl. unfold keep_step, exhibit21_ok, name_key, exhibit21_candidate.
  simpl. destruct (_ && _); reflexivity.
Qed.

Lemma owner_body_step text st m p :
  In p owner_patterns -> In m (finditer M p text) ->
  owner_body text st m
  = Ok (fold_left (keep_step name_key owner_ok owner_of)
                  (owner_candidate text m) st).
Proof.
  intros Hp Hm.
  assert (P : pushes p = Some [1; 2]).
  { destruct Hp as [<-|[<-|[]]]; reflexivity. }
  unfold owner_body, group_strip. destruct st as [seen owns].
  rewrite (@pattern_groups M p text m 1 P (or_introl eq_refl) Hm).
  rewrite (@pattern_groups M p text m 2 P (or_intror eq_refl) Hm).
  simpl. unfold owner_candidate.
  destruct (py_float (strip (group_text text m 2))) as [f|e] eqn:E.
  - simpl. unfold keep_step, owner_ok, in_open_range, name_key, owner_name.
    simpl. rewrite <- !andb_assoc.
    destruct (fltb one_tenth f && _); reflexivity.
  - apply py_float_raises in E. subst. reflexivity.
Qed.

Lemma director_body_step text st m :
  In m (finditer MI director_pattern text) ->
  director_body text st m
  = Ok (fold_left (keep_step name_key director_ok director_of)
                  (director_candidate text m) st).
Proof.
  intros Hm.
  pose proof (finditer_sound MI director_pattern text) as F.
  rewrite Forall_forall in F. destruct (F _ Hm) as (_ & Hmm).
  destruct (@group_of_pushes MI text director_pattern [1] 1 _ _ m eq_refl
              (or_introl eq_refl) Hmm) as (role & Er).
  unfold director_body, director_candidate, group_strip.
  destruct st as [seen dirs]. fold (director_window text m).
  destruct (search no_flags director_name_pattern (director_window text m))
    as [nm|] eqn:En; [|reflexivity].
  apply search_sound in En. destruct En as (_ & _ & Hn).
  destruct (@group_of_pushes no_flags (director_window text m)
              director_name_pattern [1] 1 _ _ nm eq_refl
              (or_introl eq_refl) Hn) as (name & Ename).
  unfold group_text. rewrite Ename, Er. simpl.
  unfold keep_step, director_ok, name_key. simpl.
  rewrite andb_comm. destruct (_ && _); reflexivity.
Qed.

(** [parse_exhibit21] returns the first-wins filter of its candidates. *)
Lemma parse_exhibit21_spec text :
  parse_exhibit21 text
  = Ok (map subsidiary_of
            (dedup_by name_key exhibit21_ok [] (exhibit21_candidates text))).
Proof.
  unfold parse_exhibit21. rewrite for_each_flat_map.
  rewrite for_each_pure
    with (g := fun st m => keep_step name_key exhibit21_ok subsidiary_of st
                                     (exhibit21_candidate text m)).
  - cbn [bind]. f_equal. unfold exhibit21_candidates.
    rewrite <- snd_fold_keep_step. f_equal.
    rewrite <- map_flat_map. apply fold_left_through_map.
  - intros st m Hin. apply in_flat_map in Hin. destruct Hin as (p & Hp & Hm).
    eapply exhibit21_body_step; eassumption.
Qed.

Lemma parse_def14a_beneficial_owners_spec text :
  parse_def14a_beneficial_owners text
  = Ok (map owner_of
            (dedup_by name_key owner_ok [] (owner_candidates text))).
Proof.
  unfold parse_def14a_beneficial_owners. rewrite for_each_flat_map.
  rewrite for_each_pure
    with (g := fun st m => fold_left (keep_step name_key owner_ok owner_of)
                                     (owner_candidate text m) st).
  - cbn [bind]. f_equal. unfold owner_candidates.
    rewrite <- snd_fold_keep_step. f_equal.
    rewrite fold_left_flat_map. f_equal. apply flat_map_flat_map.
  - intros st m Hin. apply in_flat_map in Hin. destruct Hin as (p & Hp & Hm).
    eapply owner_body_step; eassumption.
Qed.

Lemma parse_def14a_directors_spec text :
  parse_def14a_directors text
  = Ok (map director_of
            (dedup_by name_key director_ok [] (director_candidates text))).
Proof.
  unfold parse_def14a_directors.
  rewrite for_each_pure
    with (g := fun st m => fold_left (keep_step name_key director_ok director_of)
                                     (director_candidate text m) st).
  - cbn [bind]. f_equal. unfold director_candidates.
    rewrite <- snd_fold_keep_step. f_equal.
    apply fold_left_flat_map.
  - intros st m Hin. apply director_body_step. exact Hin.
Qed.

End AppFacts.

(* ================================================================== *)
(** * Facts about slices and [find_section] *)

Module SectionFacts.
Import Py Re App.

Lemma clip_nat len n : clip len (Z.of_nat n) = Nat.min len n.
Proof.
  unfold clip. destruct (Z.of_nat n <? 0)%Z eqn:E.
  - apply Z.ltb_lt in E. lia.
  - rewrite Nat2Z.id. reflexivity.
Qed.

Lemma skipn_min {X} (l : list X) n : skipn (Nat.min (length l) n) l = skipn n l.
Proof.
  destruct (Nat.le_gt_cases n (length l)) as [H|H].
  - rewrite Nat.min_r by exact H. reflexivity.
  - rewrite Nat.min_l by lia. rewrite !skipn_all2 by lia. reflexivity.
Qed.

Lemma slice_from_nat text n : slice_from text (Z.of_nat n) = skipn n text.
Proof. unfold slice_from. rewrite clip_nat. apply skipn_min. Qed.

Lemma firstn_clip {X} (l : list X) a k :
  firstn (Nat.min (length l) (a + k) - Nat.min (length l) a) (skipn a l)
  = firstn k (skipn a l).
Proof.
  destruct (Nat.le_gt_cases (a + k) (length l)) as [H|H].
  - rewrite !Nat.min_r by lia. f_equal. lia.
  - destruct (Nat.le_gt_cases a (length l)) as [Ha|Ha].
    + rewrite Nat.min_l, Nat.min_r by lia.
      rewrite !firstn_all2; try reflexivity; rewrite length_skipn; lia.
    + rewrite !skipn_all2 by lia. rewrite !firstn_nil. reflexivity.
Qed.

(** [text[a : a + k]] for offsets [a] and [k] that are not negative. *)
Lemma slice_nat text a k :
  slice text (Z.of_nat a) (Z.of_nat a + Z.of_nat k) = firstn k (skipn a text).
Proof.
  unfold slice. rewrite <- Nat2Z.inj_add, !clip_nat.
  rewrite skipn_min. apply firstn_clip.
Qed.

Lemma slice_nat_Z text a k :
  (0 <= k)%Z ->
  slice text (Z.of_nat a) (Z.of_nat a + k)
  = firstn (Z.to_nat k) (skipn a text).
Proof.
  intros H. rewrite <- (Z2Nat.id k) at 1 by exact H. apply slice_nat.
Qed.

(** A slice that starts at an offset is a prefix of the text from there,
    whatever its end is. *)
Lemma slice_prefix text a b :
  exists tail, skipn a text = slice text (Z.of_nat a) b ++ tail.
Proof.
  unfold slice. rewrite clip_nat, skipn_min.
  eexists. symmetry. apply firstn_skipn.
Qed.

(** A marker is unmatched exactly when it matches at no offset. *)
Lemma unmatched_iff text p :
  unmatched text p <->
  forall i j c', i <= length text -> ~ matches I text p i [] j c'.
Proof.
  unfold unmatched, search. split.
  - intros H i j c' Hi. eapply ReFacts.search_from_none; [exact H | lia].
  - intros H. destruct (search_from I text p 0) as [m|] eqn:E; [|reflexivity].
    apply ReFacts.search_from_sound in E. destruct E as (Hr & _ & Hm).
    exfalso. apply (H _ _ _ (proj2 Hr) Hm).
Qed.

(** The match that [search] returns is a match of the marker, and the
    leftmost one. *)
Lemma search_leftmost text p mt :
  search I p text = Some mt ->
  matches I text p (m_start mt) [] (m_end mt) (m_caps mt)
  /\ forall l j c', l < m_start mt -> ~ matches I text p l [] j c'.
Proof.
  unfold search. intros H. split.
  - apply ReFacts.search_from_sound in H. tauto.
  - intros l j c' Hl. eapply ReFacts.search_from_leftmost; [exact H | lia].
Qed.

Lemma find_section_end_skip text start pre rest :
  Forall (unmatched (skipn start text)) pre ->
  find_section_end text start (pre ++ rest) = find_section_end text start rest.
Proof.
  induction 1 as [|p pre Hp _ IH]; simpl; [reflexivity|].
  rewrite slice_from_nat. unfold unmatched in Hp. rewrite Hp. exact IH.
Qed.

Lemma find_section_end_none text start ems :
  Forall (unmatched (skipn start text)) ems ->
  find_section_end text start ems = None.
Proof.
  intros H. rewrite <- (app_nil_r ems). rewrite find_section_end_skip by exact H.
  reflexivity.
Qed.

Lemma find_section_end_hit text start em rest emt :
  search I em (skipn start text) = Some emt ->
  find_section_end text start (em :: rest)
  = Some (firstn (m_start emt) (skipn start text)).
Proof.
  intros H. simpl. rewrite slice_from_nat, H, slice_nat. reflexivity.
Qed.

(** What the end-marker loop returns, whatever the markers are. *)
Lemma find_section_end_cases text start ems :
  (find_section_end text start ems = None
   /\ Forall (unmatched (skipn start text)) ems)
  \/ (exists epre em epost emt,
        ems = epre ++ em :: epost
        /\ Forall (unmatched (skipn start text)) epre
        /\ search I em (skipn start text) = Some emt
        /\ find_section_end text start ems
           = Some (firstn (m_start emt) (skipn start text))).
Proof.
  induction ems as [|em ems IH].
  - left. split; [reflexivity | constructor].
  - destruct (search I em (skipn start text)) as [emt|] eqn:E.
    + right. exists [], em, ems, emt.
      split; [reflexivity|]. split; [constructor|]. split; [assumption|].
      apply find_section_end_hit. exact E.
    + destruct IH as [[Hn Hall]|(epre & em' & epost & emt & -> & Hall & Hs & Hr)].
      * left. split; [|constructor; assumption].
        simpl. rewrite slice_from_nat, E. exact Hn.
      * right. exists (em :: epre), em', epost, emt.
        split; [reflexivity|]. split; [constructor; assumption|].
        split; [assumption|].
        simpl. rewrite slice_from_nat, E. exact Hr.
Qed.

Lemma find_section_skip text pre rest ems mc :
  Forall (unmatched text) pre ->
  find_section text (pre ++ rest) ems mc = find_section text rest ems mc.
Proof.
  induction 1 as [|p pre Hp _ IH]; simpl; [reflexivity|].
  unfold unmatched in Hp. rewrite Hp. exact IH.
Qed.

(** What [find_section] returns, whatever the markers are: nothing when no
    start marker matches, and otherwise the section of the first start
    marker that matches. *)
Lemma find_section_cases text sms ems mc :
  (find_section text sms ems mc = [] /\ Forall (unmatched text) sms)
  \/ (exists pre marker post mt,
        sms = pre ++ marker :: post
        /\ Forall (unmatched text) pre
        /\ search I marker text = Some mt
        /\ find_section text sms ems mc
           = match
               match ems with
               | Some l => find_section_end text (m_start mt) l
               | None => None
               end
             with
             | Some section => section
             | None => slice text (Z.of_nat (m_start mt))
                             (Z.of_nat (m_start mt) + mc)
             end).
Proof.
  induction sms as [|marker sms IH].
  - left. split; [reflexivity | constructor].
  - destruct (search I marker text) as [mt|] eqn:E.
    + right. exists [], marker, sms, mt.
      split; [reflexivity|]. split; [constructor|]. split; [assumption|].
      simpl. rewrite E. reflexivity.
    + destruct IH as [[Hn Hall]|(pre & mk & post & mt & -> & Hall & Hs & Hr)].
      * left. split; [|constructor; assumption]. simpl. rewrite E. exact Hn.
      * right. exists (marker :: pre), mk, post, mt.
        split; [reflexivity|]. split; [constructor; assumption|].
        split; [assumption|].
        simpl. rewrite E. exact Hr.
Qed.

End SectionFacts.

(* ================================================================== *)
(** * The section locator *)

Module Locator.
Import Py Re App Samples SectionFacts.

(** C5. [find_section] uses the first start marker, in list order, that
    matches anywhere in the text (the markers after it are not looked at,
    wherever they match), and starts the section at the leftmost match of
    that marker; with end markers, the section runs from the start offset to
    the match of the first end marker, in list order, that matches in the
    text from the start offset on; without end markers, or when none
    matches, the section is the [max_chars] characters from the start
    offset; when no start marker matches, the result is the empty string. *)
Theorem find_section_marker_priority :
  forall text start_markers end_markers max_chars,
    (forall p, unmatched text p <->
               forall i j c', i <= length text ->
                              ~ matches I text p i [] j c')
    /\ (Forall (unmatched text) start_markers ->
        find_section text start_markers end_markers max_chars = [])
    /\ (forall pre marker post mt,
          start_markers = pre ++ marker :: post ->
          Forall (unmatched text) pre ->
          search I marker text = Some mt ->
          let rest := skipn (m_start mt) text in
          (matches I text marker (m_start mt) [] (m_end mt) (m_caps mt)
           /\ forall l j c', l < m_start mt ->
                             ~ matches I text marker l [] j c')
          /\ (forall ems epre em epost emt,
              end_markers = Some ems ->
              ems = epre ++ em :: epost ->
              Forall (unmatched rest) epre ->
              search I em rest = Some emt ->
              find_section text start_markers end_markers max_chars
              = firstn (m_start emt) rest)
          /\ (end_markers = None
              \/ (exists ems, end_markers = Some ems
                              /\ Forall (unmatched rest) ems) ->
              (0 <= max_chars)%Z ->
              find_section text start_markers end_markers max_chars
              = firstn (Z.to_nat max_chars) rest)).
Proof.
  intros text sms ems mc. split; [|split].
  - intros p. apply unmatched_iff.
  - intros H. rewrite <- (app_nil_r sms). rewrite find_section_skip by exact H.
    reflexivity.
  - intros pre marker post mt -> Hpre Hs rest.
    split; [apply search_leftmost; exact Hs|].
    rewrite find_section_skip by exact Hpre. simpl. rewrite Hs. split.
    + intros l epre em epost emt -> -> Hepre He.
      rewrite find_section_end_skip by exact Hepre.
      erewrite find_section_end_hit by exact He. reflexivity.
    + intros [->|(l & -> & Hall)] Hmc.
      * apply slice_nat_Z. exact Hmc.
      * rewrite find_section_end_none by exact Hall.
        apply slice_nat_Z. exact Hmc.
Qed.

(** In [officers_then_directors] the marker [DIRECTORS], first in the list,
    gives the start although [EXECUTIVE OFFICERS] matches before it, and
    [EXECUTIVE COMPENSATION], first in the list of end markers, gives the
    end although [CD&A] matches before it. *)
Lemma find_section_marker_priority_witness :
  find_section officers_then_directors directors_start (Some directors_end)
               default_max_chars
  = lit "DIRECTORS. CD&A. "
  /\ find_section officers_then_directors directors_start None 4 = lit "DIRE"
  /\ find_section (lit "no heading") directors_start (Some directors_end)
                  default_max_chars = [].
Proof.
  split; [|split].
  - destruct (find_section_marker_priority officers_then_directors
                directors_start (Some directors_end) default_max_chars)
      as (_ & _ & H).
    specialize (H [] (marker ["DIRECTORS"%string])
                  [marker ["EXECUTIVE"; "OFFICERS"]%string;
                   marker ["BOARD"; "MEMBERS"]%string]
                  {| m_start := 20; m_end := 29; m_caps := [] |}
                  eq_refl (Forall_nil _)).
    destruct H as (_ & H & _); [vm_compute; reflexivity|].
    rewrite (H directors_end [] (marker ["EXECUTIVE"; "COMPENSATION"]%string)
               [marker ["COMPENSATION"; "DISCUSSION"]%string;
                marker ["CD&A"]%string]
               {| m_start := 17; m_end := 39; m_caps := [] |}
               eq_refl eq_refl (Forall_nil _)).
    + vm_compute. reflexivity.
    + vm_compute. reflexivity.
  - destruct (find_section_marker_priority officers_then_directors
                directors_start None 4) as (_ & _ & H).
    specialize (H [] (marker ["DIRECTORS"%string])
                  [marker ["EXECUTIVE"; "OFFICERS"]%string;
                   marker ["BOARD"; "MEMBERS"]%string]
                  {| m_start := 20; m_end := 29; m_caps := [] |}
                  eq_refl (Forall_nil _)).
    destruct H as (_ & _ & H); [vm_compute; reflexivity|].
    rewrite H.
    + vm_compute. reflexivity.
    + left. reflexivity.
    + lia.
  - destruct (find_section_marker_priority (lit "no heading")
                directors_start (Some directors_end) default_max_chars)
      as (_ & H & _).
    apply H. repeat constructor.
Defined.

(** C10. A non-empty result of [find_section] is a contiguous part of the
    text that begins exactly at the offset of the match of the first
    matching start marker.  When an end marker matches, the result runs to
    that match whatever [max_chars] is; the bound [max_chars] holds on the
    branch where no end marker matches.  A section that ends at an end
    marker can be longer than [max_chars]. *)
Theorem find_section_substring :
  (forall text start_markers end_markers max_chars section,
      find_section text start_markers end_markers max_chars = section ->
      section <> [] ->
      exists pre marker post mt,
        start_markers = pre ++ marker :: post
        /\ Forall (unmatched text) pre
        /\ search I marker text = Some mt
        /\ (exists before tail,
               text = before ++ section ++ tail
               /\ length before = m_start mt)
        /\ ((exists ems epre em epost emt,
                end_markers = Some ems
                /\ ems = epre ++ em :: epost
                /\ Forall (unmatched (skipn (m_start mt) text)) epre
                /\ search I em (skipn (m_start mt) text) = Some emt
                /\ section = firstn (m_start emt) (skipn (m_start mt) text)
                /\ forall other_max,
                     find_section text start_markers end_markers other_max
                     = section)
            \/ ((end_markers = None
                 \/ exists ems, end_markers = Some ems
                      /\ Forall (unmatched (skipn (m_start mt) text)) ems)
                /\ ((0 <= max_chars)%Z ->
                    (Z.of_nat (length section) <= max_chars)%Z))))
  /\ (exists text max_chars,
         (Z.of_nat (length (find_section text exhibit21_start
                                         (Some exhibit21_end) max_chars))
          > max_chars)%Z
         /\ (0 <= max_chars)%Z).
Proof.
  split.
  - intros text sms ems mc section Hf Hne.
    destruct (find_section_cases text sms ems mc)
      as [[Hn _]|(pre & marker & post & mt & Hsms & Hpre & Hs & Hr)].
    + congruence.
    + exists pre, marker, post, mt.
      split; [assumption|]. split; [assumption|]. split; [assumption|].
      assert (Hstart : m_start mt <= length text).
      { apply ReFacts.search_sound in Hs. tauto. }
      assert (Hsub : forall tail, skipn (m_start mt) text = section ++ tail ->
                exists before tail0,
                  text = before ++ section ++ tail0
                  /\ length before = m_start mt).
      { intros tail E. exists (firstn (m_start mt) text), tail. split.
        - rewrite <- E. symmetry. apply firstn_skipn.
        - rewrite length_firstn. lia. }
      destruct ems as [l|].
      * destruct (find_section_end_cases text (m_start mt) l)
          as [[Hn Hall]|(epre & em & epost & emt & Hl & Hall & He & Hend)].
        -- rewrite Hn in Hr. rewrite Hr in Hf. split.
           ++ destruct (slice_prefix text (m_start mt)
                          (Z.of_nat (m_start mt) + mc)) as (tail & E).
              rewrite Hf in E. eapply Hsub. exact E.
           ++ right. split; [right; exists l; auto|].
              intros Hmc. rewrite <- Hf, slice_nat_Z by exact Hmc.
              rewrite length_firstn. lia.
        -- rewrite Hend in Hr. rewrite Hr in Hf. split.
           ++ eapply Hsub. rewrite <- Hf. symmetry. apply firstn_skipn.
           ++ left. exists l, epre, em, epost, emt.
              split; [reflexivity|]. split; [assumption|].
              split; [assumption|]. split; [assumption|].
              split; [symmetry; assumption|].
              intros mc'. rewrite <- Hf, Hsms.
              rewrite find_section_skip by exact Hpre. simpl.
              rewrite Hs, Hend. reflexivity.
      * rewrite Hr in Hf. split.
        -- destruct (slice_prefix text (m_start mt)
                       (Z.of_nat (m_start mt) + mc)) as (tail & E).
           rewrite Hf in E. eapply Hsub. exact E.
        -- right. split; [left; reflexivity|].
           intros Hmc. rewrite <- Hf, slice_nat_Z by exact Hmc.
           rewrite length_firstn. lia.
  - exists (lit "EXHIBIT 21 Acme Corp SIGNATURES"), 5%Z.
    vm_compute. split; [reflexivity | discriminate].
Qed.

(** With [max_chars = 5] the section of this text still runs to the end
    marker [SIGNATURES], 21 characters away. *)
Lemma find_section_substring_witness :
  exists before tail,
    lit "see EXHIBIT 21 Acme Corp SIGNATURES"
    = before ++ lit "EXHIBIT 21 Acme Corp " ++ tail
    /\ length before = 4.
Proof.
  destruct find_section_substring as [H _].
  destruct (H (lit "see EXHIBIT 21 Acme Corp SIGNATURES") exhibit21_start
              (Some exhibit21_end) 5%Z (lit "EXHIBIT 21 Acme Corp "))
    as (pre & marker & post & mt & Hsms & Hpre & Hs & Hsub & _).
  - vm_compute. reflexivity.
  - discriminate.
  - destruct Hsub as (before & tail & E & Hlen).
    exists before, tail. split; [exact E|].
    rewrite Hlen. clear - Hsms Hpre Hs.
    destruct pre as [|p pre].
    + simpl in Hsms. injection Hsms as <- _.
      vm_compute in Hs. injection Hs as <-. reflexivity.
    + exfalso. injection Hsms as <- _. inversion Hpre as [|? ? Hp _]; subst.
      vm_compute in Hp. discriminate.
Defined.

End Locator.

(* ================================================================== *)
(** * Metrics *)

Module Metrics.
Import Py Re App Samples.

Lemma fltb_rank x y :
  x <> S754_nan -> y <> S754_nan ->
  (fltb x y = true <-> lt3 (rank x) (rank y)).
Proof.
  intros Hx Hy. unfold fltb, SFltb, SFcompare.
  destruct x as [sx|sx| |sx mx ex]; try congruence;
    destruct y as [sy|sy| |sy my ey]; try congruence;
    try destruct sx; try destruct sy; simpl;
    try (split; [discriminate | lia]);
    try (split; [lia | reflexivity]);
    try (split; [intros; lia | intros; reflexivity]).
  - change (Pos.compare_cont Eq mx my) with (Pos.compare mx my).
    destruct (Z.compare_spec ex ey); simpl;
      [destruct (Pos.compare_spec mx my); simpl| |];
      split; intros; try discriminate; try reflexivity; lia.
  - change (Pos.compare_cont Eq mx my) with (Pos.compare mx my).
    destruct (Z.compare_spec ex ey); simpl;
      [destruct (Pos.compare_spec mx my); simpl| |];
      split; intros; try discriminate; try reflexivity; lia.
Qed.

Lemma lt3_asym a b : lt3 a b -> ~ lt3 b a.
Proof. destruct a as [[a1 a2] a3], b as [[b1 b2] b3]. simpl. lia. Qed.

Lemma lt3_cotrans a b c : lt3 a c -> lt3 a b \/ lt3 b c.
Proof.
  destruct a as [[a1 a2] a3], b as [[b1 b2] b3], c as [[c1 c2] c3].
  simpl. lia.
Qed.

Lemma fltb_false_rank x y :
  x <> S754_nan -> y <> S754_nan ->
  (fltb x y = false <-> ~ lt3 (rank x) (rank y)).
Proof.
  intros Hx Hy. rewrite <- (fltb_rank Hx Hy).
  destruct (fltb x y); split; intros H; try reflexivity; try discriminate;
    try (intros E; discriminate); exfalso; apply H; reflexivity.
Qed.

Lemma insert_desc_perm x l : Permutation (insert_desc x l) (x :: l).
Proof.
  induction l as [|y l IH]; simpl; [reflexivity|].
  destruct (fltb (o_ownership x) (o_ownership y)); [|reflexivity].
  rewrite IH. apply perm_swap.
Qed.

Lemma sorted_desc_perm l : Permutation (sorted_desc l) l.
Proof.
  induction l as [|x l IH]; simpl; [reflexivity|].
  rewrite insert_desc_perm. constructor. exact IH.
Qed.

Lemma insert_desc_sorted x l :
  o_ownership x <> S754_nan ->
  Forall (fun o => o_ownership o <> S754_nan) l ->
  StronglySorted not_below l ->
  StronglySorted not_below (insert_desc x l).
Proof.
  intros Hx Hl Hs. induction Hs as [|y l Hs IH Hy]; simpl.
  - repeat constructor.
  - inversion Hl as [|? ? Hyn Hln]; subst.
    destruct (fltb (o_ownership x) (o_ownership y)) eqn:E.
    + constructor; [apply IH; assumption|].
      rewrite insert_desc_perm. constructor; [|assumption].
      unfold not_below. apply fltb_false_rank; try assumption.
      apply lt3_asym. apply fltb_rank; assumption.
    + constructor; [constructor; assumption|].
      constructor; [exact E|].
      rewrite Forall_forall in *. intros z Hz.
      specialize (Hy z Hz). specialize (Hln z Hz). unfold not_below in *.
      apply fltb_false_rank; try assumption.
      apply fltb_false_rank in E; try assumption.
      apply fltb_false_rank in Hy; try assumption.
      intros Hxz.
      destruct (@lt3_cotrans _ (rank (o_ownership y)) _ Hxz); tauto.
Qed.

Lemma insert_desc_ordered x l :
  o_ownership x <> S754_nan ->
  Forall (fun o => o_ownership o <> S754_nan) l ->
  Forall (fun o => o_ownership o <> S754_nan) (insert_desc x l).
Proof.
  intros Hx Hl. rewrite insert_desc_perm. constructor; assumption.
Qed.

Lemma sorted_desc_sorted l :
  Forall (fun o => o_ownership o <> S754_nan) l ->
  StronglySorted not_below (sorted_desc l).
Proof.
  induction 1 as [|x l Hx Hl IH]; simpl; [constructor|].
  apply insert_desc_sorted; try assumption.
  rewrite sorted_desc_perm. exact Hl.
Qed.

(** C1. [ownership_concentration] is the sum of the ownership of the first
    three owners in result order.  [risk_level] comes from the sum of the
    first three owners of the list sorted by descending ownership (a
    rearrangement of the owners in which no owner is below a later one):
    above 25 it is HIGH, above 15 MEDIUM, else LOW.  For ownerships 10, 8,
    4, 20 in this order the concentration is 22 and the risk level HIGH. *)
Theorem top_three_asymmetry :
  forall data,
    ownership_concentration (calculate_metrics data)
    = sum (ownership_values (firstn 3 (owners data)))
    /\ Permutation (sorted_desc (owners data)) (owners data)
    /\ (Forall (fun o => o_ownership o <> S754_nan) (owners data) ->
        StronglySorted not_below (sorted_desc (owners data)))
    /\ (owners data <> [] ->
        let top_ownership :=
          sum (ownership_values (firstn 3 (sorted_desc (owners data)))) in
        risk_level (calculate_metrics data)
        = if num_ltb (PInt 25) top_ownership then lit "HIGH"
          else if num_ltb (PInt 15) top_ownership then lit "MEDIUM"
          else lit "LOW")
    /\ (forall a b c d,
           owners data = [a; b; c; d] ->
           o_ownership a = float_of_Z 10 -> o_ownership b = float_of_Z 8 ->
           o_ownership c = float_of_Z 4 -> o_ownership d = float_of_Z 20 ->
           ownership_concentration (calculate_metrics data)
           = PFloat (float_of_Z 22)
           /\ sorted_desc (owners data) = [d; a; b; c]
           /\ risk_level (calculate_metrics data) = lit "HIGH").
Proof.
  intros data. split; [reflexivity|]. split; [apply sorted_desc_perm|].
  split; [apply sorted_desc_sorted|]. split.
  - intros Hne. simpl. unfold calculate_risk_level.
    destruct (owners data); [congruence | reflexivity].
  - intros [an av aty] [bn bv bty] [cn cv cty] [dn dv dty] Ho Ha Hb Hc Hd.
    simpl in Ha, Hb, Hc, Hd. subst av bv cv dv.
    unfold calculate_metrics, calculate_risk_level. simpl.
    rewrite Ho. vm_compute. repeat split.
Qed.

(** The scenario of the claim, with every hypothesis of the theorem
    checked on it. *)
Lemma top_three_asymmetry_witness :
  let data := {| subsidiaries := []; directors := [];
                 owners := map (fun v => {| o_name := lit "Holder";
                                            o_ownership := float_of_Z v;
                                            o_type := lit "owner" |})
                               [10; 8; 4; 20]%Z |} in
  ownership_concentration (calculate_metrics data) = PFloat (float_of_Z 22)
  /\ risk_level (calculate_metrics data) = lit "HIGH"
  /\ StronglySorted not_below (sorted_desc (owners data)).
Proof.
  intros data.
  destruct (top_three_asymmetry data) as (_ & _ & Hsorted & Hrisk & Hscen).
  destruct (Hscen _ _ _ _ eq_refl eq_refl eq_refl eq_refl eq_refl)
    as (Hc & _ & Hr).
  split; [exact Hc|]. split; [exact Hr|].
  apply Hsorted. repeat constructor; discriminate.
Defined.

End Metrics.

(* ================================================================== *)
(** * The first accepted candidates, by their places *)

Module OrderFacts.
Import Py Re App PyFacts AppFacts Order.

Lemma sorted_shift places :
  StronglySorted lt places -> StronglySorted lt (map S places).
Proof.
  induction 1 as [|i l _ IH Hi]; cbn [map]; constructor; [exact IH|].
  rewrite Forall_map. eapply Forall_impl; [|exact Hi].
  intros j Hj. cbv beta. lia.
Qed.

Lemma in_shift i places : In (S i) (map S places) <-> In i places.
Proof.
  rewrite in_map_iff. split.
  - intros (j & E & H). injection E as ->. exact H.
  - intros H. eauto.
Qed.

(** The places of the candidates that [dedup_by] keeps, for a start with
    the names [seen]. *)
Lemma dedup_by_places {C} (key : C -> str) (ok : C -> bool) cs :
  forall seen,
    exists places,
      StronglySorted lt places
      /\ map (nth_error cs) places = map Some (dedup_by key ok seen cs)
      /\ forall i,
           In i places <->
           exists c,
             nth_error cs i = Some c /\ ok c = true
             /\ mem (key c) seen = false
             /\ forall j x, j < i -> nth_error cs j = Some x ->
                            ok x = true -> key x <> key c.
Proof.
  induction cs as [|c cs IH]; intros seen.
  - exists []. split; [constructor|]. split; [reflexivity|].
    intros i. split; [intros []|]. intros (x & H & _).
    destruct i; discriminate.
  - cbn [dedup_by].
    destruct (ok c && negb (mem (key c) seen)) eqn:E.
    + apply andb_prop in E. destruct E as (Hok & Hm).
      apply negb_true_iff in Hm.
      destruct (IH (key c :: seen)) as (places & Hs & Hn & Hi).
      exists (0 :: map S places). split.
      { constructor; [apply sorted_shift; exact Hs|].
        rewrite Forall_map. apply Forall_forall. intros j _. cbv beta. lia. }
      split.
      { cbn [map nth_error]. f_equal. rewrite map_map. exact Hn. }
      intros [|i].
      * split; [|intros _; left; reflexivity]. intros _. exists c.
        split; [reflexivity|]. split; [exact Hok|]. split; [exact Hm|].
        intros j x Hj. lia.
      * cbn [In]. rewrite in_shift, Hi. cbn [nth_error]. split.
        -- intros [H|(x & Hx & Hokx & Hmx & Hfirst)]; [discriminate|].
           cbn [mem existsb] in Hmx. apply orb_false_elim in Hmx.
           destruct Hmx as (Hne & Hmx). exists x.
           split; [exact Hx|]. split; [exact Hokx|]. split; [exact Hmx|].
           intros [|j] y Hj Hy Hoky.
           ++ cbn [nth_error] in Hy. injection Hy as <-. intros Ek.
              rewrite Ek in Hne.
              assert (T : str_eqb (key x) (key x) = true)
                by (apply str_eqb_eq; reflexivity).
              congruence.
           ++ cbn [nth_error] in Hy.
              apply (Hfirst j y); [lia|exact Hy|exact Hoky].
        -- intros (x & Hx & Hokx & Hmx & Hfirst). right. exists x.
           split; [exact Hx|]. split; [exact Hokx|]. split.
           ++ cbn [mem existsb]. apply orb_false_intro; [|exact Hmx].
              apply not_true_is_false. intros T. apply str_eqb_eq in T.
              apply (Hfirst 0 c); [lia|reflexivity|exact Hok|].
              symmetry. exact T.
           ++ intros j y Hj Hy. apply (Hfirst (S j) y); [lia|exact Hy].
    + destruct (IH seen) as (places & Hs & Hn & Hi).
      exists (map S places). split; [apply sorted_shift; exact Hs|].
      split; [rewrite map_map; exact Hn|].
      intros [|i].
      * split.
        -- intros H. apply in_map_iff in H. destruct H as (j & Ej & _).
           discriminate.
        -- intros (x & Hx & Hokx & Hmx & _). cbn [nth_error] in Hx.
           injection Hx as <-. rewrite Hokx, Hmx in E. discriminate.
      * rewrite in_shift, Hi. cbn [nth_error]. split.
        -- intros (x & Hx & Hokx & Hmx & Hfirst). exists x.
           split; [exact Hx|]. split; [exact Hokx|]. split; [exact Hmx|].
           intros [|j] y Hj Hy Hoky.
           ++ cbn [nth_error] in Hy. injection Hy as <-. intros Ek.
              rewrite Hoky, Ek, Hmx in E. discriminate.
           ++ cbn [nth_error] in Hy.
              apply (Hfirst j y); [lia|exact Hy|exact Hoky].
        -- intros (x & Hx & Hokx & Hmx & Hfirst). exists x.
           split; [exact Hx|]. split; [exact Hokx|]. split; [exact Hmx|].
           intros j y Hj Hy. apply (Hfirst (S j) y); [lia|exact Hy].
Qed.

(** The records of a second list of candidates come after those of the
    first. *)
Lemma dedup_by_app {C} (key : C -> str) (ok : C -> bool) l1 l2 :
  forall seen,
    exists seen',
      dedup_by key ok seen (l1 ++ l2)
      = dedup_by key ok seen l1 ++ dedup_by key ok seen' l2.
Proof.
  induction l1 as [|c l1 IH]; intros seen; cbn [app dedup_by].
  - exists seen. reflexivity.
  - destruct (ok c && negb (mem (key c) seen)).
    + destruct (IH (key c :: seen)) as (seen' & ->). exists seen'.
      reflexivity.
    + apply IH.
Qed.

(** [dedup_by] from the empty set keeps the first accepted candidates, in
    their order. *)
Lemma dedup_by_first_accepted {C} (key : C -> str) (ok : C -> bool) cs :
  first_accepted key ok cs (dedup_by key ok [] cs).
Proof.
  destruct (dedup_by_places key ok cs []) as (places & Hs & Hn & Hi).
  exists places. split; [exact Hs|]. split; [exact Hn|].
  intros i. rewrite Hi. unfold first_at. split.
  - intros (c & H1 & H2 & _ & H3). eauto.
  - intros (c & H1 & H2 & H3). exists c. auto.
Qed.

Lemma sorted_places_unique l1 :
  forall l2,
    StronglySorted lt l1 -> StronglySorted lt l2 ->
    (forall i, In i l1 <-> In i l2) -> l1 = l2.
Proof.
  induction l1 as [|a l1 IH]; intros l2 H1 H2 Hi.
  - destruct l2 as [|b l2]; [reflexivity|].
    exfalso. apply (proj2 (Hi b)). left. reflexivity.
  - destruct l2 as [|b l2].
    + exfalso. apply (proj1 (Hi a)). left. reflexivity.
    + inversion H1 as [|? ? H1' Ha]; subst.
      inversion H2 as [|? ? H2' Hb]; subst.
      rewrite Forall_forall in Ha, Hb.
      assert (a = b).
      { destruct (proj1 (Hi a) (or_introl eq_refl)) as [E|Hin];
          [symmetry; exact E|].
        destruct (proj2 (Hi b) (or_introl eq_refl)) as [E|Hin'];
          [exact E|].
        apply Hb in Hin. apply Ha in Hin'. lia. }
      subst b. f_equal. apply IH; [exact H1' | exact H2'|].
      intros i. split; intros Hin.
      * destruct (proj1 (Hi i) (or_intror Hin)) as [E|H]; [|exact H].
        apply Ha in Hin. lia.
      * destruct (proj2 (Hi i) (or_intror Hin)) as [E|H]; [|exact H].
        apply Hb in Hin. lia.
Qed.

(** The candidates determine what [first_accepted] leaves of them. *)
Lemma first_accepted_unique {C} (key : C -> str) (ok : C -> bool) cs k1 k2 :
  first_accepted key ok cs k1 -> first_accepted key ok cs k2 -> k1 = k2.
Proof.
  intros (p1 & Hs1 & Hn1 & Hi1) (p2 & Hs2 & Hn2 & Hi2).
  assert (p1 = p2).
  { apply sorted_places_unique; [exact Hs1 | exact Hs2|].
    intros i. rewrite Hi1, Hi2. reflexivity. }
  subst p2. rewrite Hn1 in Hn2. clear - Hn2.
  revert k2 Hn2. induction k1 as [|x k1 IH]; intros [|y k2] H;
    try discriminate; [reflexivity|].
  cbn [map] in H. injection H as -> H. f_equal. apply IH. exact H.
Qed.

(** Of two lists of candidates that are processed one after the other, the
    records of the first come first, and they are the first accepted
    candidates of that list. *)
Lemma dedup_by_two {C} (key : C -> str) (ok : C -> bool) l1 l2 :
  exists kept1 kept2,
    dedup_by key ok [] (l1 ++ l2) = kept1 ++ kept2
    /\ first_accepted key ok l1 kept1
    /\ forall c, In c kept2 -> In c l2.
Proof.
  destruct (dedup_by_app key ok l1 l2 []) as (seen' & E).
  exists (dedup_by key ok [] l1), (dedup_by key ok seen' l2).
  split; [exact E|]. split; [apply dedup_by_first_accepted|].
  intros c H. apply dedup_by_in in H. tauto.
Qed.

End OrderFacts.

(* ================================================================== *)
(** * The calls on the store compute the extractors *)

Module StoreFacts.
Import Py Re App PyFacts AppFacts.

Lemma length_put {X} (l : list X) :
  forall a x, length (Store.put l a x) = length l.
Proof.
  induction l as [|y l IH]; intros [|a] x; cbn [Store.put length];
    try reflexivity.
  rewrite IH. reflexivity.
Qed.

Lemma nth_error_put_same {X} (l : list X) :
  forall a x, a < length l -> nth_error (Store.put l a x) a = Some x.
Proof.
  induction l as [|y l IH]; intros [|a] x H; cbn [length] in H;
    try lia; cbn [Store.put nth_error]; [reflexivity|].
  apply IH. lia.
Qed.

Lemma nth_error_put_other {X} (l : list X) :
  forall a b x, a <> b -> nth_error (Store.put l a x) b = nth_error l b.
Proof.
  induction l as [|y l IH]; intros [|a] [|b] x H;
    cbn [Store.put nth_error]; try reflexivity; try congruence.
  apply IH. congruence.
Qed.

Lemma simulates_skip {R} seen records :
  @Store.simulates R seen records (Store.ret tt) (fun st => Ok st).
Proof.
  intros h st H. exists h. split; [reflexivity|]. split; [reflexivity|].
  split; [reflexivity | exact H].
Qed.

(** A new name goes into the set and a new record to the end of the
    list. *)
Lemma simulates_keep {R} seen records x (r : R) :
  seen <> records ->
  Store.simulates seen records
            (Store.and_then (Store.add seen x)
                            (fun _ => Store.append records r))
            (fun st => Ok (x :: fst st, snd st ++ [r])).
Proof.
  intros Hne h [s l] (Hs & Hl). cbn [fst snd] in *.
  assert (Hs' : seen < length h) by (apply nth_error_Some; congruence).
  assert (Hl' : records < length h) by (apply nth_error_Some; congruence).
  exists (Store.put (Store.put h seen (Store.SetObject (x :: s))) records
                    (Store.ListObject (l ++ [r]))).
  split; [rewrite !length_put; reflexivity|]. split.
  - intros b Hb1 Hb2. rewrite !nth_error_put_other by congruence.
    reflexivity.
  - split.
    + unfold Store.and_then, Store.add, Store.append. rewrite Hs.
      rewrite nth_error_put_other by exact Hne. rewrite Hl. reflexivity.
    + split; cbn [fst snd].
      * rewrite nth_error_put_other by congruence.
        apply nth_error_put_same. exact Hs'.
      * apply nth_error_put_same. rewrite length_put. exact Hl'.
Qed.

Lemma contains_holds {R} (h : Store.store R) seen records st x :
  Store.holds h seen records st ->
  Store.contains seen x h = (Ok (mem x (fst st)), h).
Proof. intros (Hs & _). unfold Store.contains. rewrite Hs. reflexivity. Qed.

(** A loop in the store computes the loop on the state. *)
Lemma for_each_simulates {R X} seen records
      (body : X -> Store.proc R unit)
      (f : list str * list R -> X -> result (list str * list R)) xs :
  (forall x, In x xs ->
             Store.simulates seen records (body x) (fun st => f st x)) ->
  Store.simulates seen records (Store.for_each body xs)
            (fun st => for_each f st xs).
Proof.
  induction xs as [|x xs IH]; intros Hb.
  - apply simulates_skip.
  - intros h st H. cbn [Store.for_each for_each].
    destruct (Hb x (or_introl eq_refl) h st H) as (h1 & Hlen1 & Hfr1 & H1).
    unfold Store.and_then, bind.
    destruct (f st x) as [st1|e].
    + destruct H1 as (E1 & Hh1). rewrite E1.
      destruct (IH (fun y Hy => Hb y (or_intror Hy)) h1 st1 Hh1)
        as (h2 & Hlen2 & Hfr2 & H2).
      exists h2. split; [lia|]. split.
      * intros b Hb1 Hb2. rewrite Hfr2, Hfr1 by assumption. reflexivity.
      * exact H2.
    + rewrite H1. exists h1. split; [exact Hlen1|]. split; [exact Hfr1|].
      reflexivity.
Qed.

Lemma exhibit21_body_simulates text seen records m :
  seen <> records ->
  Store.simulates seen records (Store.exhibit21_body text seen records m)
            (fun st => exhibit21_body text st m).
Proof.
  intros Hne h [s l] H.
  unfold Store.exhibit21_body, exhibit21_body, Store.and_then, Store.lift,
    bind.
  destruct (group_strip text m 1) as [name|e];
    [|exists h; repeat split; reflexivity].
  destruct (group_strip text m 2) as [jurisdiction|e];
    [|exists h; repeat split; reflexivity].
  cbv zeta. destruct (2 <? length (collapse_spaces name)); cbn [andb].
  - rewrite (contains_holds _ H). cbn [fst].
    destruct (mem (lower (collapse_spaces name)) s); cbn [negb].
    + apply (@simulates_skip _ seen records h (s, l) H).
    + apply (@simulates_keep _ seen records _ _ Hne h (s, l) H).
  - apply (@simulates_skip _ seen records h (s, l) H).
Qed.

Lemma director_body_simulates text seen records m :
  seen <> records ->
  Store.simulates seen records (Store.director_body text seen records m)
            (fun st => director_body text st m).
Proof.
  intros Hne h [s l] H.
  unfold Store.director_body, director_body. cbv zeta.
  destruct (search no_flags director_name_pattern _) as [nm|];
    [|apply (@simulates_skip _ seen records h (s, l) H)].
  unfold Store.and_then, Store.lift, bind.
  destruct (group_strip _ nm 1) as [name|e];
    [|exists h; repeat split; reflexivity].
  destruct (group_strip text m 1) as [role|e];
    [|exists h; repeat split; reflexivity].
  rewrite (contains_holds _ H). cbn [fst].
  destruct (negb (mem (lower name) s) && (2 <=? length (split name))).
  - apply (@simulates_keep _ seen records _ _ Hne h (s, l) H).
  - apply (@simulates_skip _ seen records h (s, l) H).
Qed.

Lemma owner_body_simulates text seen records m :
  seen <> records ->
  Store.simulates seen records (Store.owner_body text seen records m)
            (fun st => owner_body text st m).
Proof.
  intros Hne h [s l] H.
  unfold Store.owner_body, owner_body, Store.and_then, Store.lift, bind.
  destruct (group_strip text m 1) as [name|e];
    [|exists h; repeat split; reflexivity].
  destruct (group_strip text m 2) as [ownership_str|e];
    [|exists h; repeat split; reflexivity].
  cbv zeta. destruct (py_float ownership_str) as [ownership|[|]].
  - destruct (fltb one_tenth ownership
              && num_ltb (PFloat ownership) (PInt 100)
              && (3 <? length (rstrip_chars (lit ".,") (collapse_spaces name))));
      cbn [andb].
    + rewrite (contains_holds _ H). cbn [fst].
      destruct (mem (lower (rstrip_chars (lit ".,") (collapse_spaces name))) s);
        cbn [negb].
      * apply (@simulates_skip _ seen records h (s, l) H).
      * apply (@simulates_keep _ seen records _ _ Hne h (s, l) H).
    + apply (@simulates_skip _ seen records h (s, l) H).
  - apply (@simulates_skip _ seen records h (s, l) H).
  - exists h. repeat split; reflexivity.
Qed.

(** A call that makes its list and its set, runs a loop on them and returns
    the list: it returns a new list object with the records of the loop on
    the state, whatever the store holds. *)
Lemma call_returns_new_list {R} (loop : Store.address -> Store.address ->
                                       Store.proc R unit)
      (f : list str * list R -> result (list str * list R)) st
      (h : Store.store R) :
  (forall seen records, seen <> records -> Store.simulates seen records
                                             (loop seen records) f) ->
  f ([], []) = Ok st ->
  Store.returns_new_list h
    (Store.and_then Store.new_list (fun records =>
     Store.and_then Store.new_set (fun seen =>
     Store.and_then (loop seen records) (fun _ => Store.ret records))) h)
    (snd st).
Proof.
  intros Hsim Hf.
  set (h2 := (h ++ [Store.ListObject []]) ++ [Store.SetObject []]).
  assert (H2 : Store.holds h2 (S (length h)) (length h) ([], [])).
  { unfold Store.holds, h2. cbn [fst snd]. split.
    - rewrite nth_error_app2; rewrite length_app; cbn [length]; [|lia].
      replace (S (length h) - (length h + 1)) with 0 by lia. reflexivity.
    - rewrite nth_error_app1 by (rewrite length_app; cbn [length]; lia).
      rewrite nth_error_app2 by lia. rewrite Nat.sub_diag. reflexivity. }
  destruct (Hsim (S (length h)) (length h) (Nat.neq_succ_diag_l _) h2 _ H2)
    as (h3 & Hlen & Hfr & H3).
  rewrite Hf in H3. destruct H3 as (E3 & _ & Hl).
  exists (length h), h3. split.
  - unfold Store.and_then at 1. unfold Store.new_list.
    unfold Store.and_then at 1. unfold Store.new_set.
    rewrite length_app. cbn [length].
    replace (length h + 1) with (S (length h)) by lia.
    unfold Store.and_then. fold h2. rewrite E3. reflexivity.
  - split; [apply Nat.le_refl|]. split; [exact Hl|].
    intros b Hb. rewrite Hfr by lia. unfold h2.
    rewrite nth_error_app1 by (rewrite length_app; cbn [length]; lia).
    apply nth_error_app1. exact Hb.
Qed.

(** Two calls in a row of a call that returns a new list with the same
    records in every store: two list objects, one for each call, with the
    same items. *)
Lemma twice_returns {R} (extractor : str -> Store.proc R Store.address)
      text records :
  (forall h, Store.returns_new_list h (extractor text h) records) ->
  forall h,
    Store.returns_two_lists h (Store.twice extractor text h) records.
Proof.
  intros H h.
  destruct (H h) as (a1 & h1 & E1 & Hf1 & Hl1 & Hfr1).
  destruct (H h1) as (a2 & h2 & E2 & Hf2 & Hl2 & Hfr2).
  assert (Ha1 : a1 < length h1) by (apply nth_error_Some; congruence).
  exists a1, a2, h2. split.
  - unfold Store.twice, Store.and_then. rewrite E1, E2. reflexivity.
  - split; [lia|]. split; [rewrite Hfr2 by exact Ha1; exact Hl1|].
    split; [exact Hl2|]. intros b Hb.
    assert (length h <= length h1) by lia.
    rewrite Hfr2 by lia. apply Hfr1. exact Hb.
Qed.

Lemma parse_exhibit21_store text subs (h : Store.store subsidiary) :
  parse_exhibit21 text = Ok subs ->
  Store.returns_new_list h (Store.parse_exhibit21 text h) subs.
Proof.
  intros E. unfold parse_exhibit21 in E.
  destruct (for_each _ ([], []) exhibit21_patterns) as [st|e] eqn:Ef;
    [|discriminate].
  cbn [bind] in E. injection E as <-.
  apply (@call_returns_new_list _
           (fun seen records =>
              Store.for_each
                (fun pattern =>
                   Store.for_each (Store.exhibit21_body text seen records)
                                  (finditer M pattern text))
                exhibit21_patterns)
           (fun st0 =>
              for_each (fun st1 pattern =>
                          for_each (exhibit21_body text) st1
                                   (finditer M pattern text))
                       st0 exhibit21_patterns)); [|exact Ef].
  intros seen records Hne. apply for_each_simulates. intros p _.
  apply for_each_simulates. intros m _.
  apply exhibit21_body_simulates. exact Hne.
Qed.

Lemma parse_def14a_directors_store text dirs (h : Store.store director) :
  parse_def14a_directors text = Ok dirs ->
  Store.returns_new_list h (Store.parse_def14a_directors text h) dirs.
Proof.
  intros E. unfold parse_def14a_directors in E.
  destruct (for_each _ ([], []) (finditer MI director_pattern text))
    as [st|e] eqn:Ef; [|discriminate].
  cbn [bind] in E. injection E as <-.
  apply (@call_returns_new_list _
           (fun seen records =>
              Store.for_each (Store.director_body text seen records)
                             (finditer MI director_pattern text))
           (fun st0 =>
              for_each (director_body text) st0
                       (finditer MI director_pattern text))); [|exact Ef].
  intros seen records Hne. apply for_each_simulates. intros m _.
  apply director_body_simulates. exact Hne.
Qed.

Lemma parse_def14a_beneficial_owners_store text owns (h : Store.store owner) :
  parse_def14a_beneficial_owners text = Ok owns ->
  Store.returns_new_list h (Store.parse_def14a_beneficial_owners text h) owns.
Proof.
  intros E. unfold parse_def14a_beneficial_owners in E.
  destruct (for_each _ ([], []) owner_patterns) as [st|e] eqn:Ef;
    [|discriminate].
  cbn [bind] in E. injection E as <-.
  apply (@call_returns_new_list _
           (fun seen records =>
              Store.for_each
                (fun pattern =>
                   Store.for_each (Store.owner_body text seen records)
                                  (finditer M pattern text))
                owner_patterns)
           (fun st0 =>
              for_each (fun st1 pattern =>
                          for_each (owner_body text) st1
                                   (finditer M pattern text))
                       st0 owner_patterns)); [|exact Ef].
  intros seen records Hne. apply for_each_simulates. intros p _.
  apply for_each_simulates. intros m _.
  apply owner_body_simulates. exact Hne.
Qed.

End StoreFacts.

(* ================================================================== *)
(** * The extractors *)

Module Extractors.
Import Py Re App Samples Order PyFacts ReFacts AppFacts OrderFacts StoreFacts.

Lemma subseq_map {X Y} (f : X -> Y) l1 l2 :
  subseq l1 l2 -> subseq (map f l1) (map f l2).
Proof. induction 1; simpl; constructor; assumption. Qed.

(** The records that a first-wins filter leaves: their lower-case names are
    distinct, they are the first valid candidates of their names, and every
    valid candidate has exactly one record of its name. *)
Lemma survivors {V R} (ok : str * V -> bool) (mk : str * V -> R)
      (name : R -> str) (cs : list (str * V)) :
  (forall c, name (mk c) = fst c) ->
  let l := map mk (dedup_by name_key ok [] cs) in
  NoDup (map (fun r => lower (name r)) l)
  /\ (forall r, In r l <->
                exists c, r = mk c /\ first_with_key name_key ok cs c)
  /\ (forall c, In c cs -> ok c = true ->
                exists r, In r l /\ lower (name r) = lower (fst c)
                          /\ forall r', In r' l ->
                                        lower (name r') = lower (fst c) ->
                                        r' = r).
Proof.
  intros Hname l.
  assert (Hnd : NoDup (map (fun r => lower (name r)) l)).
  { unfold l. rewrite map_map.
    rewrite (map_ext _ name_key); [apply dedup_by_NoDup|].
    intros c. rewrite Hname. reflexivity. }
  assert (Hiff : forall r, In r l <->
                   exists c, r = mk c /\ first_with_key name_key ok cs c).
  { intros r. unfold l. rewrite in_map_iff. split.
    - intros (c & <- & Hc). exists c. split; [reflexivity|].
      apply dedup_by_first_iff. exact Hc.
    - intros (c & -> & Hc). exists c. split; [reflexivity|].
      apply dedup_by_first_iff. exact Hc. }
  split; [exact Hnd|]. split; [exact Hiff|].
  intros c Hin Hok.
  destruct (first_with_key_exists name_key ok cs c Hin Hok) as (c' & Hk & Hf).
  exists (mk c'). split; [apply Hiff; eauto|]. split.
  - rewrite Hname. exact Hk.
  - intros r' Hr' Hk'.
    apply (NoDup_map_same (fun r => lower (name r)) l Hnd); auto.
    + apply Hiff. eauto.
    + rewrite Hk', Hname. symmetry. exact Hk.
Qed.

(** C7, as stated, fails.  In [two_spellings] the owner pattern meets the
    name as [Acme Corp] first and as [ACME CORP] second; the first candidate
    is dropped for its percentage, so the one record that survives has the
    second spelling, not the first-encountered one. *)
Lemma first_spelling_counterexample :
  map (owner_name two_spellings) (finditer M owner_dash two_spellings)
  = [lit "Acme Corp"; lit "ACME CORP"]
  /\ parse_def14a_beneficial_owners two_spellings
     = Ok [ {| o_name := lit "ACME CORP"; o_ownership := float_of_Z 5;
               o_type := lit "owner" |} ].
Proof. vm_compute. split; reflexivity. Qed.

(** C7, amended.  Within each list that an extractor returns the names are
    unique up to letter case.  Among the candidates that pass the
    extractor's own test (the length of the name; for directors the number
    of tokens; for owners also the range of the percentage), exactly one
    record per lower-case name survives, and it is the first such candidate
    in processing order, with its spelling. *)
Theorem names_unique_first_valid :
  forall text,
    (exists subs,
        parse_exhibit21 text = Ok subs
        /\ NoDup (map (fun r => lower (s_name r)) subs)
        /\ (forall r, In r subs <->
              exists c, r = subsidiary_of c
                        /\ first_with_key name_key exhibit21_ok
                                          (exhibit21_candidates text) c)
        /\ (forall c, In c (exhibit21_candidates text) ->
              exhibit21_ok c = true ->
              exists r, In r subs /\ lower (s_name r) = lower (fst c)
                        /\ forall r', In r' subs ->
                             lower (s_name r') = lower (fst c) -> r' = r))
    /\ (exists dirs,
          parse_def14a_directors text = Ok dirs
          /\ NoDup (map (fun r => lower (d_name r)) dirs)
          /\ (forall r, In r dirs <->
                exists c, r = director_of c
                          /\ first_with_key name_key director_ok
                                            (director_candidates text) c)
          /\ (forall c, In c (director_candidates text) ->
                director_ok c = true ->
                exists r, In r dirs /\ lower (d_name r) = lower (fst c)
                          /\ forall r', In r' dirs ->
                               lower (d_name r') = lower (fst c) -> r' = r))
    /\ (exists owns,
          parse_def14a_beneficial_owners text = Ok owns
          /\ NoDup (map (fun r => lower (o_name r)) owns)
          /\ (forall r, In r owns <->
                exists c, r = owner_of c
                          /\ first_with_key name_key owner_ok
                                            (owner_candidates text) c)
          /\ (forall c, In c (owner_candidates text) ->
                owner_ok c = true ->
                exists r, In r owns /\ lower (o_name r) = lower (fst c)
                          /\ forall r', In r' owns ->
                               lower (o_name r') = lower (fst c) -> r' = r)).
Proof.
  intros text. split; [|split].
  - eexists. split; [apply parse_exhibit21_spec|].
    apply (survivors exhibit21_ok subsidiary_of s_name). reflexivity.
  - eexists. split; [apply parse_def14a_directors_spec|].
    apply (survivors director_ok director_of d_name). reflexivity.
  - eexists. split; [apply parse_def14a_beneficial_owners_spec|].
    apply (survivors owner_ok owner_of o_name). reflexivity.
Qed.

(** On [two_spellings] the valid candidate [ACME CORP] has its record. *)
Lemma names_unique_first_valid_witness :
  exists r, o_name r = lit "ACME CORP"
            /\ parse_def14a_beneficial_owners two_spellings = Ok [r].
Proof.
  destruct (names_unique_first_valid two_spellings)
    as (_ & _ & owns & Hp & _ & _ & Hex).
  destruct (Hex (lit "ACME CORP", float_of_Z 5)) as (r & Hin & _ & _).
  - vm_compute. auto.
  - vm_compute. reflexivity.
  - exists r. vm_compute in Hp. injection Hp as <-.
    destruct Hin as [<-|[]]. split; reflexivity.
Defined.

(** C4, as stated, fails.  In [comma_then_paren] the name [Acme Corp]
    occurs first (offset 0) and [Beta Inc] second (offset 21), but
    [Beta Inc], found by the first pattern, comes first in the output. *)
Lemma text_order_counterexample :
  parse_exhibit21 comma_then_paren
  = Ok [ {| s_name := lit "Beta Inc"; s_jurisdiction := lit "Ireland";
            s_type := lit "subsidiary" |};
         {| s_name := lit "Acme Corp"; s_jurisdiction := lit "Delaware";
            s_type := lit "subsidiary" |} ]
  /\ find comma_then_paren (lit "Acme Corp") = Some 0
  /\ find comma_then_paren (lit "Beta Inc") = Some 21.
Proof. vm_compute. repeat split. Qed.

(** C4, amended.  The records of an extractor are in processing order.
    The candidates are processed pattern by pattern, in the order of the
    pattern list, and for one pattern match by match, by increasing offset.
    The list that is returned holds the candidates that are the first of
    their name to be accepted, each once and at its place in that sequence;
    no other list does.  So the order follows the text among the matches of
    one pattern, and not across the two patterns of the subsidiaries and of
    the owners: there the records of the first pattern come first, and a
    record of the second pattern comes after all of them. *)
Theorem records_in_processing_order :
  forall text,
    (let candidates :=
       flat_map (fun p => map (exhibit21_candidate text) (finditer M p text))
                [exhibit21_paren; exhibit21_comma] in
     exists kept,
       parse_exhibit21 text = Ok (map subsidiary_of kept)
       /\ first_accepted name_key exhibit21_ok candidates kept
       /\ (forall kept',
             first_accepted name_key exhibit21_ok candidates kept' ->
             kept' = kept)
       /\ exists kept1 kept2,
            kept = kept1 ++ kept2
            /\ first_accepted name_key exhibit21_ok
                 (map (exhibit21_candidate text)
                      (finditer M exhibit21_paren text)) kept1
            /\ forall c, In c kept2 ->
                           In c (map (exhibit21_candidate text)
                                     (finditer M exhibit21_comma text)))
    /\ (let candidates :=
          flat_map (director_candidate text)
                   (finditer MI director_pattern text) in
        exists kept,
          parse_def14a_directors text = Ok (map director_of kept)
          /\ first_accepted name_key director_ok candidates kept
          /\ forall kept',
               first_accepted name_key director_ok candidates kept' ->
               kept' = kept)
    /\ (let candidates :=
          flat_map (fun p => flat_map (owner_candidate text)
                                      (finditer M p text))
                   [owner_dash; owner_percent] in
        exists kept,
          parse_def14a_beneficial_owners text = Ok (map owner_of kept)
          /\ first_accepted name_key owner_ok candidates kept
          /\ (forall kept',
                first_accepted name_key owner_ok candidates kept' ->
                kept' = kept)
          /\ exists kept1 kept2,
               kept = kept1 ++ kept2
               /\ first_accepted name_key owner_ok
                    (flat_map (owner_candidate text)
                              (finditer M owner_dash text)) kept1
               /\ forall c, In c kept2 ->
                              In c (flat_map (owner_candidate text)
                                             (finditer M owner_percent text)))
    /\ (forall fl p,
          StronglySorted (fun m1 m2 => m_start m1 <= m_end m1
                                       /\ m_end m1 <= m_start m2)
                         (finditer fl p text)).
Proof.
  intros text. split; [|split; [|split]].
  - cbv zeta. eexists. split; [apply parse_exhibit21_spec|].
    split; [apply dedup_by_first_accepted|]. split.
    + intros kept' H.
      eapply first_accepted_unique; [exact H | apply dedup_by_first_accepted].
    + unfold exhibit21_candidates, exhibit21_patterns. cbn [flat_map].
      rewrite app_nil_r. apply dedup_by_two.
  - cbv zeta. eexists. split; [apply parse_def14a_directors_spec|].
    split; [apply dedup_by_first_accepted|]. intros kept' H.
    eapply first_accepted_unique; [exact H | apply dedup_by_first_accepted].
  - cbv zeta. eexists. split; [apply parse_def14a_beneficial_owners_spec|].
    split; [apply dedup_by_first_accepted|]. split.
    + intros kept' H.
      eapply first_accepted_unique; [exact H | apply dedup_by_first_accepted].
    + unfold owner_candidates, owner_patterns. cbn [flat_map].
      rewrite app_nil_r. apply dedup_by_two.
  - intros fl p.
    pose proof (finditer_sorted fl p text) as Hs.
    pose proof (finditer_sound fl p text) as Hf.
    induction Hs as [|m l Hs IH Hm]; [constructor|].
    inversion Hf as [|? ? [Hle _] Hf']; subst.
    constructor; [apply IH; exact Hf'|].
    eapply Forall_impl; [|exact Hm]. simpl. intros m' H. split; assumption.
Qed.

(** C9.  Every extractor is a function of its text alone.  A call makes
    its list and its [seen] set anew and changes no object that it did not
    make: in whatever store it runs, it returns without an exception a new
    list object whose records are those of the extractor as a function of
    the text, and the objects that were there stay as they were.  So two
    calls in a row on the same text return two list objects with the same
    records in the same order. *)
Theorem extractors_deterministic :
  forall text,
    (exists subs,
        parse_exhibit21 text = Ok subs
        /\ (forall h,
              Store.returns_new_list h (Store.parse_exhibit21 text h) subs)
        /\ (forall h,
              Store.returns_two_lists
                h (Store.twice Store.parse_exhibit21 text h) subs))
    /\ (exists dirs,
          parse_def14a_directors text = Ok dirs
          /\ (forall h,
                Store.returns_new_list
                  h (Store.parse_def14a_directors text h) dirs)
          /\ (forall h,
                Store.returns_two_lists
                  h (Store.twice Store.parse_def14a_directors text h) dirs))
    /\ (exists owns,
          parse_def14a_beneficial_owners text = Ok owns
          /\ (forall h,
                Store.returns_new_list
                  h (Store.parse_def14a_beneficial_owners text h) owns)
          /\ (forall h,
                Store.returns_two_lists
                  h (Store.twice Store.parse_def14a_beneficial_owners text h)
                  owns)).
Proof.
  intros text. split; [|split].
  - eexists. split; [apply parse_exhibit21_spec|]. split.
    + intros h. apply parse_exhibit21_store. apply parse_exhibit21_spec.
    + apply twice_returns. intros h. apply parse_exhibit21_store.
      apply parse_exhibit21_spec.
  - eexists. split; [apply parse_def14a_directors_spec|]. split.
    + intros h. apply parse_def14a_directors_store.
      apply parse_def14a_directors_spec.
    + apply twice_returns. intros h. apply parse_def14a_directors_store.
      apply parse_def14a_directors_spec.
  - eexists. split; [apply parse_def14a_beneficial_owners_spec|]. split.
    + intros h. apply parse_def14a_beneficial_owners_store.
      apply parse_def14a_beneficial_owners_spec.
    + apply twice_returns. intros h.
      apply parse_def14a_beneficial_owners_store.
      apply parse_def14a_beneficial_owners_spec.
Qed.

(** Two calls on [two_spellings] in a store that already holds a set with
    the name [acme corp]: both return the record of [ACME CORP]. *)
Lemma extractors_deterministic_witness :
  Store.returns_two_lists
    [Store.SetObject [lit "acme corp"]]
    (Store.twice Store.parse_def14a_beneficial_owners two_spellings
                 [Store.SetObject [lit "acme corp"]])
    [ {| o_name := lit "ACME CORP"; o_ownership := float_of_Z 5;
         o_type := lit "owner" |} ].
Proof.
  destruct (extractors_deterministic two_spellings)
    as (_ & _ & owns & Ho & _ & H).
  vm_compute in Ho. injection Ho as <-. apply H.
Defined.

End Extractors.

(* ================================================================== *)
(** * What the director patterns capture *)

Module DirectorFacts.
Import Py Re App Samples PyFacts ReFacts AppFacts.

Lemma upper_not_space x : is_ascii_upper x = true -> is_space x = false.
Proof.
  unfold is_ascii_upper, is_space, in_range. intros H.
  apply andb_prop in H. destruct H as [H1 H2].
  apply N.leb_le in H1. apply N.leb_le in H2. split_ranges.
Qed.

Lemma letter_not_space x : is_ascii_letter x = true -> is_space x = false.
Proof.
  unfold is_ascii_letter, is_ascii_upper, is_ascii_lower, is_space, in_range.
  intros H. apply orb_prop in H.
  destruct H as [H|H]; apply andb_prop in H; destruct H as [H1 H2];
    apply N.leb_le in H1; apply N.leb_le in H2; split_ranges.
Qed.

Lemma case_class_cases x y :
  In y (case_class x) ->
  is_ascii_letter x = true
  \/ x = 304%N \/ x = 305%N \/ x = 383%N \/ x = 8490%N.
Proof.
  unfold case_class, is_ascii_letter.
  destruct (is_ascii_upper x); [auto|].
  destruct (is_ascii_lower x); [auto|].
  destruct (N.eqb_spec x 304); [auto|].
  destruct (N.eqb_spec x 305); [auto|].
  destruct (N.eqb_spec x 383); [auto|].
  destruct (N.eqb_spec x 8490); [auto 6|].
  intros [].
Qed.

Lemma case_class_not_space x y : In y (case_class x) -> is_space x = false.
Proof.
  intros H. apply case_class_cases in H.
  destruct H as [H|[->|[->|[->| ->]]]]; try reflexivity.
  apply letter_not_space. exact H.
Qed.

Lemma accepts_letter ic y x :
  accepts ic y x -> is_ascii_letter y = true -> is_space x = false.
Proof.
  intros [->|[_ Hin]] H; [apply letter_not_space; exact H|].
  eapply case_class_not_space. exact Hin.
Qed.

Lemma lstrip_by_last drop l x :
  drop x = false -> lstrip_by drop (l ++ [x]) = lstrip_by drop l ++ [x].
Proof.
  intros H. induction l as [|y l IH]; simpl.
  - rewrite H. reflexivity.
  - destruct (drop y); [exact IH | reflexivity].
Qed.

(** [strip] keeps a first character that is not white space. *)
Lemma strip_head x tl :
  is_space x = false -> exists tl', strip (x :: tl) = x :: tl'.
Proof.
  intros H. unfold strip, rstrip_by. simpl lstrip_by. rewrite H.
  simpl rev. rewrite lstrip_by_last by exact H.
  rewrite rev_app_distr. simpl. eauto.
Qed.

(** [strip] leaves a string alone that neither starts nor ends with white
    space. *)
Lemma strip_id s :
  (forall x tl, s = x :: tl -> is_space x = false) ->
  (forall x tl, rev s = x :: tl -> is_space x = false) ->
  strip s = s.
Proof.
  intros Hh Hl. destruct s as [|x tl]; [reflexivity|].
  unfold strip, rstrip_by. simpl lstrip_by. rewrite (Hh x tl eq_refl).
  destruct (rev (x :: tl)) as [|y tl2] eqn:E.
  - apply (f_equal (@length N)) in E. rewrite length_rev in E. discriminate.
  - simpl. rewrite (Hl y tl2 eq_refl). rewrite <- E. apply rev_involutive.
Qed.

Lemma skipn_nth {X} (l : list X) :
  forall a x, nth_error l a = Some x -> exists rest, skipn a l = x :: rest.
Proof.
  induction l as [|y l IH]; intros [|a] x H; simpl in *; try discriminate.
  - inversion H; subst. eauto.
  - apply IH. exact H.
Qed.

Lemma substr_cons t a b x :
  nth_error t a = Some x -> a < b ->
  substr t a b = x :: substr t (S a) b.
Proof.
  intros H Hlt. unfold substr.
  destruct (skipn_nth t a H) as (rest & E).
  replace (b - a) with (S (b - S a)) by lia.
  assert (E' : skipn (S a) t = rest).
  { replace (S a) with (1 + a) by lia. rewrite <- skipn_skipn, E.
    reflexivity. }
  rewrite E, E'. reflexivity.
Qed.

Lemma substr_empty t a : substr t a a = [].
Proof. unfold substr. rewrite Nat.sub_diag. reflexivity. Qed.

Section Captures.
Variable fl : flags.
Variable t : str.

Lemma chr_matches y i c j c' :
  matches fl t (chr y) i c j c' ->
  exists x, nth_error t i = Some x /\ accepts (ignorecase fl) y x
            /\ j = S i /\ c' = c.
Proof.
  intros (x & Hn & Hm & -> & ->). exists x. split; [exact Hn|].
  split; [|auto]. unfold cls_mem in Hm. cbn [existsb item_mem] in Hm.
  rewrite orb_false_r in Hm. apply orb_prop in Hm.
  destruct Hm as [Hm|Hm].
  - left. apply N.eqb_eq. exact Hm.
  - right. apply andb_prop in Hm. destruct Hm as [-> Hm].
    split; [reflexivity|]. apply existsb_exists in Hm.
    destruct Hm as (z & Hz & E). apply N.eqb_eq in E. subst. exact Hz.
Qed.

(** A literal word matches its own length of text, character by
    character. *)
Lemma word_matches cs :
  cs <> [] ->
  forall i c j c',
    matches fl t (seqs (map chr cs)) i c j c' ->
    j = i + length cs /\ c' = c
    /\ Forall2 (fun x y => accepts (ignorecase fl) y x) (substr t i j) cs.
Proof.
  induction cs as [|y cs IH]; [congruence|]. intros _ i c j c' H.
  destruct cs as [|y2 cs].
  - simpl in H. apply chr_matches in H.
    destruct H as (x & Hn & Ha & -> & ->). simpl.
    split; [lia|]. split; [reflexivity|].
    rewrite (substr_cons t Hn) by lia. rewrite substr_empty.
    constructor; [exact Ha | constructor].
  - change (matches fl t (Seq (chr y) (seqs (map chr (y2 :: cs)))) i c j c')
      in H.
    destruct H as (l & c1 & Hy & Hrest).
    apply chr_matches in Hy. destruct Hy as (x & Hn & Ha & -> & ->).
    apply IH in Hrest; [|discriminate].
    destruct Hrest as (-> & -> & Hf).
    split; [simpl; lia|]. split; [reflexivity|].
    rewrite (substr_cons t Hn) by (simpl; lia).
    constructor; assumption.
Qed.

Lemma alts_matches rs :
  forall i c j c',
    matches fl t (alts rs) i c j c' ->
    exists r, In r rs /\ matches fl t r i c j c'.
Proof.
  induction rs as [|r rs IH]; intros i c j c' H.
  - simpl in H. destruct H as (x & _ & Hm & _). discriminate.
  - destruct rs as [|r2 rs].
    + exists r. simpl. auto.
    + change (matches fl t (Alt r (alts (r2 :: rs))) i c j c') in H.
      destruct H as [H|H].
      * exists r. simpl. auto.
      * apply IH in H. destruct H as (r' & Hin & Hm).
        exists r'. split; [right; exact Hin | exact Hm].
Qed.

(** The name shape starts on an upper-case letter (of either case under
    [IGNORECASE]) and is not empty. *)
Lemma name_shape_head i c j c' :
  matches fl t name_shape i c j c' ->
  exists x, nth_error t i = Some x
            /\ cls_mem (ignorecase fl) [CRange 65 90] x = true
            /\ i < j /\ c' = c.
Proof.
  intros H. pose proof (matches_groupless fl t name_shape eq_refl _ _ _ _ H)
    as Hc.
  unfold name_shape in H.
  change (matches fl t
            (Seq upper
                 (seqs [plus lower_;
                        opt (seqs [plus space; upper; opt (chr 46)]);
                        plus (seqs [plus space; upper; plus lower_])]))
            i c j c') in H.
  destruct H as (l & c1 & (x & Hn & Hm & -> & ->) & Hrest).
  apply matches_le in Hrest. exists x. repeat split; auto.
Qed.

End Captures.

Lemma Forall2_rev {X Y} (R : X -> Y -> Prop) l1 l2 :
  Forall2 R l1 l2 -> Forall2 R (rev l1) (rev l2).
Proof.
  induction 1 as [|x y l1 l2 Hxy _ IH]; simpl; [constructor|].
  apply Forall2_app; [exact IH | repeat constructor; exact Hxy].
Qed.

Lemma strip_accepted ic s k :
  lettered k = true ->
  Forall2 (fun x y => accepts ic y x) s k -> strip s = s.
Proof.
  intros Hk Hf. pose proof (Forall2_rev Hf) as Hr.
  unfold lettered in Hk.
  destruct k as [|y k]; [discriminate|].
  destruct (rev (y :: k)) as [|z rk]; [discriminate|].
  apply andb_prop in Hk. destruct Hk as [Hy Hz].
  apply strip_id.
  - intros x tl ->. inversion Hf; subst. eapply accepts_letter; eassumption.
  - intros x tl E. rewrite E in Hr. inversion Hr; subst.
    eapply accepts_letter; eassumption.
Qed.

Lemma cls_upper_sensitive x :
  cls_mem false [CRange 65 90] x = true -> is_ascii_upper x = true.
Proof.
  unfold cls_mem. cbn [existsb item_mem andb]. rewrite !orb_false_r.
  intros H. exact H.
Qed.

(** The name of a director candidate starts on an upper-case ASCII letter:
    the second search is case-sensitive. *)
Lemma candidate_name_capitalised text m c :
  In c (director_candidate text m) ->
  exists x tl, fst c = x :: tl /\ is_ascii_upper x = true.
Proof.
  unfold director_candidate.
  destruct (search no_flags director_name_pattern (director_window text m))
    as [nm|] eqn:E; [|intros []].
  intros [<-|[]]. simpl.
  apply search_sound in E. destruct E as (_ & _ & Hm).
  unfold director_name_pattern in Hm.
  destruct Hm as (c1 & Hn & Hc).
  apply name_shape_head in Hn. destruct Hn as (x & Hx & Hu & Hlt & _).
  apply cls_upper_sensitive in Hu.
  unfold group_text, group. rewrite Hc. simpl.
  rewrite (substr_cons _ Hx Hlt).
  destruct (@strip_head x (substr (director_window text m)
                                  (S (m_start nm)) (m_end nm))
                        (upper_not_space _ Hu)) as (tl' & Es).
  rewrite Es. eauto.
Qed.

Lemma keywords_lettered :
  Forall (fun k => lettered (lit k) = true) title_keywords.
Proof. repeat constructor. Qed.

(** The role of a director candidate is a title keyword up to the case of
    its letters: the line pattern is matched with [IGNORECASE]. *)
Lemma candidate_role_keyword text m c :
  In m (finditer MI director_pattern text) ->
  In c (director_candidate text m) ->
  exists k, In k title_keywords /\ same_letters (snd c) (lit k).
Proof.
  intros Hin Hc.
  pose proof (finditer_sound MI director_pattern text) as F.
  rewrite Forall_forall in F. destruct (F _ Hin) as (_ & Hm).
  unfold director_pattern in Hm.
  change (matches MI text
            (Seq Bol (Seq name_shape
                          (Seq (lazy_star Any) (Grp 1 title_pattern))))
            (m_start m) [] (m_end m) (m_caps m)) in Hm.
  destruct Hm as (l1 & c1 & _ & l2 & c2 & _ & l3 & c3 & _ & c4 & Ht & Hcaps).
  unfold title_pattern in Ht. apply alts_matches in Ht.
  destruct Ht as (r & Hr & Ht). apply in_map_iff in Hr.
  destruct Hr as (k & <- & Hk).
  pose proof keywords_lettered as L. rewrite Forall_forall in L.
  specialize (L k Hk).
  unfold word in Ht. apply word_matches in Ht.
  2:{ revert L. destruct (lit k); intros L E;
        [discriminate L | discriminate E]. }
  destruct Ht as (_ & _ & Hf).
  unfold director_candidate in Hc.
  destruct (search no_flags director_name_pattern (director_window text m));
    [|destruct Hc].
  destruct Hc as [<-|[]]. simpl.
  unfold group_text, group. rewrite Hcaps. simpl.
  exists k. split; [exact Hk|].
  rewrite (strip_accepted L Hf). exact Hf.
Qed.

End DirectorFacts.

(* ================================================================== *)
(** * What the owner patterns capture *)

Module OwnerFacts.
Import Py Re App Samples PyFacts ReFacts AppFacts DirectorFacts.

Lemma digit_not_space x : is_digit x = true -> is_space x = false.
Proof.
  unfold is_digit, is_space, in_range. intros H.
  apply andb_prop in H. destruct H as [H1 H2].
  apply N.leb_le in H1. apply N.leb_le in H2. split_ranges.
Qed.

Lemma digit_not_dot x : is_digit x = true -> (x =? 46)%N = false.
Proof.
  unfold is_digit, in_range. intros H.
  apply andb_prop in H. destruct H as [H1 H2].
  apply N.leb_le in H1. apply N.leb_le in H2. split_ranges.
Qed.

Lemma firstn_plus {X} n m :
  forall l : list X, firstn (n + m) l = firstn n l ++ firstn m (skipn n l).
Proof.
  induction n as [|n IH]; intros [|x l]; simpl; try reflexivity.
  - rewrite firstn_nil. reflexivity.
  - rewrite IH. reflexivity.
Qed.

Lemma substr_split t a l b :
  a <= l -> l <= b -> substr t a b = substr t a l ++ substr t l b.
Proof.
  intros Hal Hlb. unfold substr.
  replace (b - a) with ((l - a) + (b - l)) by lia.
  rewrite firstn_plus. f_equal. rewrite skipn_skipn.
  replace (l - a + a) with l by lia. reflexivity.
Qed.

Lemma take_digits_app ds rest :
  Forall (fun x => is_digit x = true) ds ->
  match rest with [] => True | x :: _ => is_digit x = false end ->
  take_digits (ds ++ rest) = (ds, rest).
Proof.
  intros Hd Hr. induction Hd as [|d ds Hx _ IH]; simpl.
  - destruct rest as [|x rest]; [reflexivity|]. simpl. rewrite Hr.
    reflexivity.
  - rewrite Hx, IH. reflexivity.
Qed.

(** [float] accepts [digits] and [digits.digits]. *)
Lemma py_float_digits ds :
  ds <> [] -> Forall (fun x => is_digit x = true) ds ->
  exists f, py_float ds = Ok f.
Proof.
  intros Hne Hd. unfold py_float.
  pose proof (@take_digits_app ds [] Hd Logic.I) as E.
  rewrite app_nil_r in E. rewrite E.
  destruct ds; [congruence | eauto].
Qed.

Lemma py_float_decimal ds fs :
  ds <> [] -> Forall (fun x => is_digit x = true) ds ->
  Forall (fun x => is_digit x = true) fs ->
  exists f, py_float (ds ++ 46%N :: fs) = Ok f.
Proof.
  intros Hne Hd Hf. unfold py_float.
  rewrite take_digits_app by (simpl; auto). rewrite N.eqb_refl.
  pose proof (@take_digits_app fs [] Hf Logic.I) as E.
  rewrite app_nil_r in E. rewrite E.
  destruct ds; [congruence|]. simpl. eauto.
Qed.

Section Numbers.
Variable t : str.

Lemma digit_matches i c j c' :
  matches M t digit i c j c' ->
  exists x, nth_error t i = Some x /\ is_digit x = true
            /\ j = S i /\ c' = c.
Proof.
  intros (x & Hn & Hm & -> & ->). exists x. repeat split; auto.
  unfold cls_mem in Hm. simpl in Hm. rewrite !orb_false_r in Hm. exact Hm.
Qed.

Lemma digits_iter n :
  forall i c j c',
    iter (matches M t digit) n i c j c' ->
    j = i + n /\ c' = c
    /\ Forall (fun x => is_digit x = true) (substr t i j)
    /\ length (substr t i j) = n.
Proof.
  induction n as [|n IH]; simpl; intros i c j c' H.
  - destruct H as [-> ->]. rewrite substr_empty.
    split; [lia|]. split; [reflexivity|]. split; [constructor|reflexivity].
  - destruct H as (l & c1 & Hd & _ & Hit).
    apply digit_matches in Hd. destruct Hd as (x & Hn & Hx & -> & ->).
    apply IH in Hit. destruct Hit as (-> & -> & Hf & Hlen).
    assert (Hlt : i < S i + n) by lia.
    rewrite (substr_cons t Hn Hlt).
    split; [lia|]. split; [reflexivity|].
    split; [constructor; assumption|]. cbn [length]. rewrite Hlen.
    reflexivity.
Qed.

Lemma plus_digit_matches i c j c' :
  matches M t (plus digit) i c j c' ->
  i <= j /\ c' = c /\ substr t i j <> []
  /\ Forall (fun x => is_digit x = true) (substr t i j).
Proof.
  intros (n & Hlo & _ & Hit). apply digits_iter in Hit.
  destruct Hit as (-> & -> & Hf & Hlen).
  split; [lia|]. split; [reflexivity|]. split; [|exact Hf].
  intros E. rewrite E in Hlen. simpl in Hlen. lia.
Qed.

(** A match of [\d+(?:\.\d+)?] spans a decimal number. *)
Lemma number_matches i c j c' :
  matches M t number_re i c j c' ->
  c' = c
  /\ exists ds, ds <> [] /\ Forall (fun x => is_digit x = true) ds
       /\ (substr t i j = ds
           \/ exists fs, fs <> []
                /\ Forall (fun x => is_digit x = true) fs
                /\ substr t i j = ds ++ 46%N :: fs).
Proof.
  unfold number_re.
  change (matches M t (Seq (plus digit) (opt (Seq (chr 46) (plus digit))))
                  i c j c' ->
          c' = c
          /\ exists ds, ds <> [] /\ Forall (fun x => is_digit x = true) ds
               /\ (substr t i j = ds
                   \/ exists fs, fs <> []
                        /\ Forall (fun x => is_digit x = true) fs
                        /\ substr t i j = ds ++ 46%N :: fs)).
  intros (l & c1 & Hint & n & _ & Hn & Hit).
  apply plus_digit_matches in Hint. destruct Hint as (Hil & -> & Hne & Hd).
  simpl in Hn. destruct n as [|[|n]]; [| |lia]; cbn [iter] in Hit.
  - destruct Hit as [-> ->]. split; [reflexivity|].
    exists (substr t i l). auto.
  - destruct Hit as (l2 & c2 & (l1 & c3 & Hdot & Hfrac) & _ & Hj & Hc).
    subst l2 c2.
    apply chr_matches in Hdot. destruct Hdot as (x & Hx & Ha & -> & ->).
    apply plus_digit_matches in Hfrac.
    destruct Hfrac as (Hlj & -> & Hfne & Hf).
    split; [reflexivity|]. exists (substr t i l).
    split; [exact Hne|]. split; [exact Hd|]. right.
    exists (substr t (S l) j). split; [exact Hfne|]. split; [exact Hf|].
    rewrite (@substr_split t i l j) by lia. f_equal.
    rewrite (substr_cons t Hx) by lia. f_equal.
    destruct Ha as [->|[Hic _]]; [reflexivity | discriminate].
Qed.

(** [float] accepts, after [strip], what [\d+(?:\.\d+)?] has matched. *)
Lemma number_parses i c j c' :
  matches M t number_re i c j c' ->
  exists f, py_float (strip (substr t i j)) = Ok f.
Proof.
  intros H. apply number_matches in H.
  destruct H as (_ & ds & Hne & Hd & [E|(fs & Hfne & Hf & E)]); rewrite E.
  - rewrite strip_id; [apply py_float_digits; assumption| |].
    + intros x tl ->. inversion Hd; subst. apply digit_not_space. assumption.
    + intros x tl Er. apply digit_not_space.
      assert (Hin : In x ds) by (apply in_rev; rewrite Er; left; reflexivity).
      rewrite Forall_forall in Hd. apply Hd. exact Hin.
  - rewrite strip_id; [apply py_float_decimal; assumption| |].
    + intros x tl Ex. destruct ds as [|d ds]; [congruence|].
      inversion Ex; subst. inversion Hd; subst.
      apply digit_not_space. assumption.
    + intros x tl Er. apply digit_not_space.
      assert (Hin : In x fs).
      { destruct fs as [|f0 fs] using rev_ind; [congruence|].
        rewrite app_comm_cons, app_assoc, rev_app_distr in Er.
        simpl in Er. inversion Er; subst. apply in_or_app. right. left.
        reflexivity. }
      rewrite Forall_forall in Hf. apply Hf. exact Hin.
Qed.

End Numbers.

(** Every percentage that the owner patterns capture parses: on the matches
    of [finditer] the owner loop never takes its [except ValueError]. *)
Lemma owner_capture_parses text p m :
  In p owner_patterns -> In m (finditer M p text) ->
  exists f, py_float (strip (group_text text m 2)) = Ok f.
Proof.
  intros Hp Hin.
  pose proof (finditer_sound M p text) as F.
  rewrite Forall_forall in F. destruct (F _ Hin) as (_ & Hm).
  destruct Hp as [<-|[<-|[]]].
  - unfold owner_dash in Hm.
    change (matches M text
              (Seq (Grp 1 (seqs [upper; lazy_range 2 80 name_char]))
                   (Seq (plus space)
                        (Seq (opt (alts [chr 8212; chr 8211; chr 45; chr 58]))
                             (Seq (star space)
                                  (Seq (Grp 2 number_re)
                                       (Seq (star space) (chr 37)))))))
              (m_start m) [] (m_end m) (m_caps m)) in Hm.
    destruct Hm as (l1 & c1 & _ & l2 & c2 & _ & l3 & c3 & _ & l4 & c4 & _
                    & l5 & c5 & (c6 & Hnum & ->) & l6 & c7 & Hs & Hpct).
    apply (matches_groupless M text (star space) eq_refl) in Hs. subst c7.
    apply (matches_groupless M text (chr 37) eq_refl) in Hpct.
    unfold group_text, group. rewrite Hpct. simpl.
    eapply number_parses. exact Hnum.
  - unfold owner_percent in Hm.
    change (matches M text
              (Seq (Grp 1 (seqs [upper; lazy_range 2 80 name_char]))
                   (Seq (plus space)
                        (Seq (Grp 2 number_re)
                             (Seq (star space)
                                  (alts [word "percent"; chr 37])))))
              (m_start m) [] (m_end m) (m_caps m)) in Hm.
    destruct Hm as (l1 & c1 & _ & l2 & c2 & _
                    & l3 & c3 & (c4 & Hnum & ->) & l4 & c5 & Hs & Hpct).
    apply (matches_groupless M text (star space) eq_refl) in Hs. subst c5.
    apply (matches_groupless M text (alts [word "percent"; chr 37]) eq_refl)
      in Hpct.
    unfold group_text, group. rewrite Hpct. simpl.
    eapply number_parses. exact Hnum.
Qed.

End OwnerFacts.

(* ================================================================== *)
(** * The director extractor *)

Module Directors.
Import Py Re App Samples PyFacts ReFacts AppFacts DirectorFacts.

(** C3.  The code at [lowercase_line].  The line starts with the
    lower-case words [ann lee]; the line pattern, which is matched with
    [IGNORECASE] as a whole, takes them for its capitalised name shape (the
    pattern has no match on this line when it is matched case-sensitively),
    and the extractor returns a director, whose name the case-sensitive
    inner search takes from the middle of the line. *)
Lemma lowercase_line_yields_director :
  map (fun m => (m_start m, m_end m))
      (finditer MI director_pattern lowercase_line) = [(0, 31)]
  /\ nth_error lowercase_line 0 = Some 97%N
  /\ is_ascii_upper 97 = false
  /\ finditer M director_pattern lowercase_line = []
  /\ parse_def14a_directors lowercase_line
     = Ok [ {| d_name := lit "Bob Stone"; d_role := lit "director";
               d_type := lit "director" |} ].
Proof. vm_compute. repeat split. Qed.

(** X23.  Every record that [parse_def14a_directors] returns has a name
    that starts on an ASCII capital and has at least 2 white-space
    separated tokens, and a role that is one of the title keywords up to
    what [IGNORECASE] holds equal. *)
Theorem director_records_shaped :
  forall text,
    exists dirs,
      parse_def14a_directors text = Ok dirs
      /\ forall d, In d dirs ->
           (exists x tl, d_name d = x :: tl /\ is_ascii_upper x = true)
           /\ (exists k, In k title_keywords
                         /\ same_letters (d_role d) (lit k))
           /\ 2 <= length (split (d_name d))
           /\ d_type d = lit "director".
Proof.
  intros text. eexists. split; [apply parse_def14a_directors_spec|].
  intros d Hd. apply in_map_iff in Hd. destruct Hd as (c & <- & Hc).
  apply dedup_by_in in Hc. destruct Hc as (Hin & Hok & _).
  unfold director_candidates in Hin. apply in_flat_map in Hin.
  destruct Hin as (m & Hm & Hcm). simpl.
  split; [eapply candidate_name_capitalised; exact Hcm|].
  split; [eapply candidate_role_keyword; eassumption|].
  split; [|reflexivity].
  unfold director_ok in Hok. apply Nat.leb_le in Hok. exact Hok.
Qed.

End Directors.

(* ================================================================== *)
(** * The pipeline *)

Module Pipeline.
Import Py Re App Samples PyFacts ReFacts AppFacts SectionFacts OwnerFacts.

Lemma if_text_total {A} (f : str -> result (list A)) :
  (forall t, exists l, f t = Ok l) ->
  forall t, exists l, if_text f t = Ok l.
Proof.
  intros H [|c t]; simpl; [eexists; reflexivity | apply H].
Qed.

Lemma parse_exhibit21_total text : exists l, parse_exhibit21 text = Ok l.
Proof. eexists. apply parse_exhibit21_spec. Qed.

Lemma parse_def14a_directors_total text :
  exists l, parse_def14a_directors text = Ok l.
Proof. eexists. apply parse_def14a_directors_spec. Qed.

Lemma parse_def14a_beneficial_owners_total text :
  exists l, parse_def14a_beneficial_owners text = Ok l.
Proof. eexists. apply parse_def14a_beneficial_owners_spec. Qed.

Lemma find_section_unmatched text sms ems mc :
  Forall (unmatched text) sms -> find_section text sms ems mc = [].
Proof.
  intros H. rewrite <- (app_nil_r sms). rewrite find_section_skip by exact H.
  reflexivity.
Qed.

(** [extract_from_filings] returns, and a section without a start marker
    gives the empty list. *)
Lemma extract_from_filings_total ten_k_text def14a_text :
  exists r,
    extract_from_filings ten_k_text def14a_text = Ok r
    /\ if_text parse_exhibit21
               (find_section ten_k_text exhibit21_start (Some exhibit21_end)
                             default_max_chars) = Ok (subsidiaries r)
    /\ (Forall (unmatched ten_k_text) exhibit21_start -> subsidiaries r = [])
    /\ (Forall (unmatched def14a_text) directors_start -> directors r = [])
    /\ (Forall (unmatched def14a_text) owners_start -> owners r = []).
Proof.
  unfold extract_from_filings.
  destruct (if_text_total parse_exhibit21 parse_exhibit21_total
              (find_section ten_k_text exhibit21_start (Some exhibit21_end)
                            default_max_chars)) as (subs & Es).
  destruct (if_text_total parse_def14a_directors parse_def14a_directors_total
              (find_section def14a_text directors_start (Some directors_end)
                            default_max_chars)) as (dirs & Ed).
  destruct (if_text_total parse_def14a_beneficial_owners
              parse_def14a_beneficial_owners_total
              (find_section def14a_text owners_start (Some owners_end)
                            default_max_chars)) as (owns & Eo).
  rewrite Es, Ed, Eo. simpl. eexists. split; [reflexivity|]. simpl.
  split; [reflexivity|]. split; [|split]; intros H.
  - rewrite find_section_unmatched in Es by exact H. simpl in Es. congruence.
  - rewrite find_section_unmatched in Ed by exact H. simpl in Ed. congruence.
  - rewrite find_section_unmatched in Eo by exact H. simpl in Eo. congruence.
Qed.

Lemma upload_extract_total ten_k_text def14a_text :
  exists r, upload_extract ten_k_text def14a_text = Ok r.
Proof.
  unfold upload_extract.
  destruct (extract_from_filings_total ten_k_text def14a_text) as (r & E & _).
  rewrite E. simpl. destruct (subsidiaries r); [|eauto].
  destruct ten_k_text; [eauto|].
  destruct (parse_exhibit21_total def14a_text) as (l & El). rewrite El.
  simpl. eauto.
Qed.

(** C2.  When the Exhibit 21 step on the 10-K text gives no subsidiary and
    that text is not empty, the subsidiaries of the analysis are those that
    [parse_exhibit21] returns on the whole DEF 14A text; directors and
    owners stay as extracted. *)
Theorem fallback_parses_whole_def14a :
  forall ten_k_text def14a_text r,
    ten_k_text <> [] ->
    extract_from_filings ten_k_text def14a_text = Ok r ->
    subsidiaries r = [] ->
    exists subs,
      parse_exhibit21 def14a_text = Ok subs
      /\ upload_extract ten_k_text def14a_text
         = Ok {| subsidiaries := subs; directors := directors r;
                 owners := owners r |}
      /\ (def14a_text <> [] ->
          exists m,
            upload_texts ten_k_text def14a_text
            = Analysis {| subsidiaries := subs; directors := directors r;
                          owners := owners r |} m).
Proof.
  intros ten_k_text def14a_text r Hne He Hs.
  destruct (parse_exhibit21_total def14a_text) as (subs & Ep).
  exists subs. split; [exact Ep|].
  assert (Hu : upload_extract ten_k_text def14a_text
               = Ok {| subsidiaries := subs; directors := directors r;
                       owners := owners r |}).
  { unfold upload_extract. rewrite He. simpl. rewrite Hs.
    destruct ten_k_text; [congruence|]. rewrite Ep. reflexivity. }
  split; [exact Hu|].
  intros Hb. unfold upload_texts. destruct def14a_text; [congruence|].
  rewrite Hu. eexists. reflexivity.
Qed.

(** A 10-K text without an Exhibit 21 and a DEF 14A text with two
    subsidiary lines. *)
Lemma fallback_parses_whole_def14a_witness :
  exists subs,
    map s_name subs = [lit "Acme Ireland Ltd"; lit "Acme Japan KK"]
    /\ upload_extract no_exhibit two_subsidiaries
       = Ok {| subsidiaries := subs; directors := []; owners := [] |}.
Proof.
  destruct (@fallback_parses_whole_def14a no_exhibit two_subsidiaries
              empty_result) as (subs & Hp & Hu & _).
  - discriminate.
  - vm_compute. reflexivity.
  - reflexivity.
  - exists subs. split; [|exact Hu].
    vm_compute in Hp. injection Hp as <-. reflexivity.
Defined.

(** C6.  The owner loop keeps the candidate of a match exactly when the
    captured percentage parses as a float [f] with [0.1 < f < 100], the
    normalised name has more than 3 characters and its lower-case form is
    not in [seen]; otherwise the state is left as it is.  The bounds are
    excluded: [0.1] and [100] are dropped, [50.0] is kept. *)
Theorem owner_kept_iff :
  forall text seen owns m g1 g2,
    group text m 1 = Some g1 ->
    group text m 2 = Some g2 ->
    let name := rstrip_chars (lit ".,") (collapse_spaces (strip g1)) in
    let passes f :=
      fltb one_tenth f = true /\ fltb f (float_of_Z 100) = true
      /\ 3 < length name /\ mem (lower name) seen = false in
    (forall f,
        py_float (strip g2) = Ok f -> passes f ->
        owner_body text (seen, owns) m
        = Ok (lower name :: seen,
              owns ++ [ {| o_name := name; o_ownership := f;
                           o_type := lit "owner" |} ]))
    /\ ((forall f, py_float (strip g2) = Ok f -> ~ passes f) ->
        owner_body text (seen, owns) m = Ok (seen, owns))
    /\ in_open_range one_tenth = false
    /\ in_open_range (float_of_Z 100) = false
    /\ in_open_range (float_of_Z 50) = true
    /\ parse_def14a_beneficial_owners (lit "Vanguard Group 0.1%") = Ok []
    /\ parse_def14a_beneficial_owners (lit "Vanguard Group 100%") = Ok []
    /\ parse_def14a_beneficial_owners (lit "Vanguard Group 50.0%")
       = Ok [ {| o_name := lit "Vanguard Group";
                 o_ownership := float_of_Z 50; o_type := lit "owner" |} ].
Proof.
  intros text seen owns m g1 g2 E1 E2 name passes.
  assert (Hbody :
    owner_body text (seen, owns) m
    = match py_float (strip g2) with
      | Ok f =>
          if fltb one_tenth f && fltb f (float_of_Z 100)
             && (3 <? length name) && negb (mem (lower name) seen)
          then Ok (lower name :: seen,
                   owns ++ [ {| o_name := name; o_ownership := f;
                                o_type := lit "owner" |} ])
          else Ok (seen, owns)
      | Raise _ => Ok (seen, owns)
      end).
  { unfold owner_body, group_strip. rewrite E1, E2. simpl.
    destruct (py_float (strip g2)) as [f|e] eqn:Ef; [reflexivity|].
    apply py_float_raises in Ef. subst. reflexivity. }
  split; [|split].
  - intros f Ef (H1 & H2 & H3 & H4). rewrite Hbody, Ef, H1, H2, H4.
    apply Nat.ltb_lt in H3. rewrite H3. reflexivity.
  - intros Hno. rewrite Hbody.
    destruct (py_float (strip g2)) as [f|e]; [|reflexivity].
    destruct (fltb one_tenth f) eqn:H1; [|reflexivity].
    destruct (fltb f (float_of_Z 100)) eqn:H2; [|reflexivity].
    destruct (3 <? length name) eqn:H3; [|reflexivity].
    destruct (mem (lower name) seen) eqn:H4; [reflexivity|].
    exfalso. apply (Hno f eq_refl). apply Nat.ltb_lt in H3.
    unfold passes. auto.
  - vm_compute. repeat split.
Qed.

(** The match of [Vanguard Group 50.0%] is kept, and a capture that does
    not parse leaves the state as it is. *)
Lemma owner_kept_iff_witness :
  owner_body vanguard_text ([], []) vanguard_match
  = Ok ([lit "vanguard group"],
        [ {| o_name := lit "Vanguard Group"; o_ownership := float_of_Z 50;
             o_type := lit "owner" |} ])
  /\ owner_body malformed_capture_text ([], []) malformed_capture
     = Ok ([], []).
Proof.
  split.
  - destruct (@owner_kept_iff vanguard_text [] [] vanguard_match
                (lit "Vanguard Group") (lit "50.0")
                eq_refl eq_refl) as (H & _).
    apply (H (float_of_Z 50)).
    + vm_compute. reflexivity.
    + vm_compute. repeat split. lia.
  - destruct (@owner_kept_iff malformed_capture_text [] [] malformed_capture
                (lit "Acme") (lit "abc")
                eq_refl eq_refl) as (_ & H & _).
    apply H. intros f Hf. vm_compute in Hf. discriminate.
Defined.

(** C8.  The extractors and the pipeline return for every text, never an
    exception: the three parsers, [extract_from_filings] and the analysis
    of [upload] all give [Ok].  A capture that [float] rejects leaves the
    state of the owner loop as it is and the loop goes on with the next
    match (the captures of the owner patterns themselves always parse).
    A text without a start marker, without a match, or empty gives
    empty lists, and the metrics of the empty result are complexity 0.0,
    governance 5.0 and risk MEDIUM. *)
Theorem extraction_never_raises :
  (forall text,
      (exists l, parse_exhibit21 text = Ok l)
      /\ (exists l, parse_def14a_directors text = Ok l)
      /\ (exists l, parse_def14a_beneficial_owners text = Ok l))
  /\ (forall ten_k_text def14a_text,
         exists r,
           extract_from_filings ten_k_text def14a_text = Ok r
           /\ (Forall (unmatched ten_k_text) exhibit21_start ->
               subsidiaries r = [])
           /\ (Forall (unmatched def14a_text) directors_start ->
               directors r = [])
           /\ (Forall (unmatched def14a_text) owners_start ->
               owners r = []))
  /\ (forall ten_k_text def14a_text,
         (exists r, upload_extract ten_k_text def14a_text = Ok r)
         /\ upload_texts ten_k_text def14a_text <> ServerError)
  /\ (forall text st m ms g1 g2 e,
         group text m 1 = Some g1 ->
         group text m 2 = Some g2 ->
         py_float (strip g2) = Raise e ->
         owner_body text st m = Ok st
         /\ for_each (owner_body text) st (m :: ms)
            = for_each (owner_body text) st ms)
  /\ (forall text p m,
         In p owner_patterns -> In m (finditer M p text) ->
         exists f, py_float (strip (group_text text m 2)) = Ok f)
  /\ (forall text,
         (forall p, In p exhibit21_patterns -> finditer M p text = []) ->
         parse_exhibit21 text = Ok [])
  /\ (forall text,
         finditer MI director_pattern text = [] ->
         parse_def14a_directors text = Ok [])
  /\ (forall text,
         (forall p, In p owner_patterns -> finditer M p text = []) ->
         parse_def14a_beneficial_owners text = Ok [])
  /\ (parse_exhibit21 [] = Ok []
      /\ parse_def14a_directors [] = Ok []
      /\ parse_def14a_beneficial_owners [] = Ok []
      /\ extract_from_filings [] [] = Ok empty_result)
  /\ (complexity_score (calculate_metrics empty_result)
      = PFloat (S754_zero false)
      /\ governance_score (calculate_metrics empty_result)
         = PFloat (float_of_Z 5)
      /\ risk_level (calculate_metrics empty_result) = lit "MEDIUM").
Proof.
  split; [|split; [|split; [|split; [|split; [|split; [|split; [|split;
    [|split]]]]]]]].
  - intros text. split; [apply parse_exhibit21_total|].
    split; [apply parse_def14a_directors_total
           | apply parse_def14a_beneficial_owners_total].
  - intros ten_k_text def14a_text.
    destruct (extract_from_filings_total ten_k_text def14a_text)
      as (r & E & _ & H). exists r. split; assumption.
  - intros ten_k_text def14a_text.
    destruct (upload_extract_total ten_k_text def14a_text) as (r & E).
    split; [eauto|]. unfold upload_texts.
    destruct def14a_text; [discriminate|]. rewrite E. discriminate.
  - intros text [seen owns] m ms g1 g2 e E1 E2 Ef.
    assert (Hb : owner_body text (seen, owns) m = Ok (seen, owns)).
    { unfold owner_body, group_strip. rewrite E1, E2. simpl. rewrite Ef.
      apply py_float_raises in Ef. subst. reflexivity. }
    split; [exact Hb|]. cbn [for_each]. rewrite Hb. reflexivity.
  - intros text p m Hp Hm. eapply owner_capture_parses; eassumption.
  - intros text H. rewrite parse_exhibit21_spec. unfold exhibit21_candidates.
    simpl. rewrite !H by (simpl; auto). reflexivity.
  - intros text H. rewrite parse_def14a_directors_spec.
    unfold director_candidates. rewrite H. reflexivity.
  - intros text H. rewrite parse_def14a_beneficial_owners_spec.
    unfold owner_candidates. simpl. rewrite !H by (simpl; auto). reflexivity.
  - vm_compute. repeat split.
  - vm_compute. repeat split.
Qed.

(** The hypotheses of the theorem on sample inputs: a capture that does not
    parse, a text without a match, and a text without a start marker. *)
Lemma extraction_never_raises_witness :
  owner_body malformed_capture_text ([], []) malformed_capture = Ok ([], [])
  /\ parse_exhibit21 no_exhibit = Ok []
  /\ parse_def14a_directors no_exhibit = Ok []
  /\ parse_def14a_beneficial_owners no_exhibit = Ok []
  /\ (exists r, extract_from_filings no_exhibit no_exhibit = Ok r
                /\ subsidiaries r = [] /\ directors r = []
                /\ owners r = []).
Proof.
  destruct extraction_never_raises
    as (_ & Hx & _ & Hskip & _ & Hs & Hd & Ho & _).
  split; [|split; [|split; [|split]]].
  - apply (Hskip malformed_capture_text ([], []) malformed_capture []
                 (lit "Acme") (lit "abc") ValueError); reflexivity.
  - apply Hs. intros p [<-|[<-|[]]]; vm_compute; reflexivity.
  - apply Hd. vm_compute. reflexivity.
  - apply Ho. intros p [<-|[<-|[]]]; vm_compute; reflexivity.
  - destruct (Hx no_exhibit no_exhibit) as (r & E & H1 & H2 & H3).
    exists r. split; [exact E|].
    split; [apply H1|split; [apply H2|apply H3]];
      repeat constructor; vm_compute; reflexivity.
Defined.

End Pipeline.

(* ================================================================== *)
(** * The upload route *)

Module WebFacts.
Import Py Re App Web PyFacts.

Lemma contains_In c s : contains c s = true <-> In c s.
Proof.
  unfold contains. rewrite existsb_exists. split.
  - intros (x & Hx & E). apply N.eqb_eq in E. subst. exact Hx.
  - intros H. exists c. split; [exact H | apply N.eqb_refl].
Qed.

Lemma rpartition_none c s : rpartition c s = None <-> ~ In c s.
Proof.
  induction s as [|x s IH]; simpl.
  - split; [intros _ []|reflexivity].
  - destruct (rpartition c s) as [[b a]|].
    + split; [discriminate|]. intros H. exfalso.
      assert (Hn : ~ In c s) by (intros Hc; apply H; right; exact Hc).
      apply IH in Hn. discriminate.
    + destruct (N.eqb_spec x c) as [->|Hx].
      * split; [discriminate|]. intros H. exfalso. apply H. left. reflexivity.
      * split; [|reflexivity]. intros _ [E|Hc]; [congruence|].
        destruct IH as [IH _]. apply (IH eq_refl). exact Hc.
Qed.

Lemma rpartition_some c s before after :
  rpartition c s = Some (before, after)
  <-> s = before ++ c :: after /\ ~ In c after.
Proof.
  revert before. induction s as [|x s IH]; intros before; simpl.
  - split; [discriminate|]. intros (E & _). destruct before; discriminate.
  - destruct (rpartition c s) as [[b a]|] eqn:R.
    + split.
      * intros E. injection E as <- <-.
        destruct (IH b) as [IH1 _]. destruct (IH1 eq_refl) as (-> & Ha).
        split; [reflexivity | exact Ha].
      * intros (E & Ha). destruct before as [|y before].
        -- simpl in E. injection E as -> ->.
           apply rpartition_none in Ha. congruence.
        -- simpl in E. injection E as -> ->.
           destruct (IH before) as [_ IH2].
           specialize (IH2 (conj eq_refl Ha)). injection IH2 as -> ->.
           reflexivity.
    + apply rpartition_none in R. destruct (N.eqb_spec x c) as [->|Hx].
      * split.
        -- intros E. injection E as <- <-. split; [reflexivity|exact R].
        -- intros (E & Ha). destruct before as [|y before].
           ++ simpl in E. injection E as ->. reflexivity.
           ++ simpl in E. injection E as -> ->. exfalso. apply R.
              apply in_or_app. right. left. reflexivity.
      * split; [discriminate|]. intros (E & Ha). exfalso.
        destruct before as [|y before]; simpl in E; injection E as -> ->.
        -- congruence.
        -- apply R. apply in_or_app. right. left. reflexivity.
Qed.

Lemma lower_char_plain x y l :
  plain_letter y = true ->
  (lower_char x = y :: l <-> l = [] /\ (x = y \/ (x + 32)%N = y)).
Proof.
  unfold plain_letter, lower_char, is_ascii_upper, is_ascii_lower, in_range.
  intros Hy.
  apply andb_prop in Hy. destruct Hy as (Hy & Hk).
  apply andb_prop in Hy. destruct Hy as (Hy & Hi).
  apply andb_prop in Hy. destruct Hy as (H1 & H2).
  apply N.leb_le in H1, H2.
  apply negb_true_iff in Hk, Hi. apply N.eqb_neq in Hk, Hi.
  destruct (N.leb_spec 65 x); destruct (N.leb_spec x 90);
    destruct (N.leb_spec 192 x); destruct (N.leb_spec x 222);
    destruct (N.eqb_spec x 215); destruct (N.eqb_spec x 8490);
    destruct (N.eqb_spec x 304); cbn [andb orb negb];
    (split; [intros E; injection E as E1 E2; split; [congruence | lia]
            | intros (-> & [E|E]); try (f_equal; lia); exfalso; lia ]).
Qed.

Lemma lower_plain k :
  Forall (fun y => plain_letter y = true) k ->
  forall ext,
    lower ext = k <-> Forall2 (fun x y => x = y \/ (x + 32)%N = y) ext k.
Proof.
  induction 1 as [|y k Hy Hk IH]; intros ext.
  - split.
    + destruct ext as [|x ext]; [constructor|].
      unfold lower. simpl. intros E. exfalso.
      unfold lower_char in E.
      destruct (is_ascii_upper x || _); [discriminate|].
      destruct (x =? 8490)%N; [discriminate|].
      destruct (x =? 304)%N; discriminate.
    + intros H. inversion H. reflexivity.
  - split.
    + destruct ext as [|x ext]; [discriminate|].
      unfold lower. simpl. fold (lower ext). intros E.
      destruct (lower_char x) as [|z l] eqn:L.
      * exfalso. unfold lower_char in L.
        destruct (is_ascii_upper x || _); [discriminate|].
        destruct (x =? 8490)%N; [discriminate|].
        destruct (x =? 304)%N; discriminate.
      * simpl in E. injection E as -> E.
        apply lower_char_plain in L; [|exact Hy]. destruct L as (-> & Hx).
        constructor; [exact Hx|]. apply IH. exact E.
    + intros H. inversion H as [|x y' ext' k' Hx Hr]; subst.
      unfold lower. simpl. fold (lower ext').
      assert (L : lower_char x = [y])
        by (apply lower_char_plain; [exact Hy | split; [reflexivity|exact Hx]]).
      rewrite L. simpl. f_equal. apply IH. exact Hr.
Qed.

Lemma allowed_file_cases filename :
  (~ In 46%N filename /\ allowed_file filename = Some false)
  \/ exists stem ext,
       filename = stem ++ 46%N :: ext /\ ~ In 46%N ext
       /\ allowed_file filename = Some (mem (lower ext) ALLOWED_EXTENSIONS).
Proof.
  unfold allowed_file, rsplit1.
  destruct (contains 46 filename) eqn:C.
  - right. apply contains_In in C.
    destruct (rpartition 46 filename) as [[b a]|] eqn:R.
    + apply rpartition_some in R. destruct R as (E & Ha).
      exists b, a. split; [exact E|]. split; [exact Ha|]. reflexivity.
    + apply rpartition_none in R. contradiction.
  - left. split; [|reflexivity]. intros H. apply contains_In in H. congruence.
Qed.

Lemma allowed_file_total filename : exists b, allowed_file filename = Some b.
Proof.
  destruct (allowed_file_cases filename) as [(_ & E)|(stem & ext & _ & _ & E)];
    rewrite E; eexists; reflexivity.
Qed.

Lemma join_empty sep xs :
  sep <> [] ->
  (join sep xs = [] <-> xs = [] \/ xs = [[]]).
Proof.
  intros Hsep. destruct xs as [|x xs]; simpl.
  - split; [left; reflexivity | reflexivity].
  - destruct xs as [|y xs].
    + split.
      * intros ->. right. reflexivity.
      * intros [E|E]; [discriminate|]. injection E as ->. reflexivity.
    + split.
      * intros E. exfalso. apply app_eq_nil in E. destruct E as (_ & E).
        apply app_eq_nil in E. destruct E as (E & _). contradiction.
      * intros [E|E]; discriminate.
Qed.

End WebFacts.

(* ================================================================== *)
(** * [utils.py] *)

Module UtilsFacts.
Import Py Utils PyFacts.

(** Structural induction on values, through lists and dictionaries. *)
Lemma value_induction (P : value -> Prop) :
  P VNone ->
  (forall b, P (VBool b)) ->
  (forall z, P (VInt z)) ->
  (forall f, P (VFloat f)) ->
  (forall s, P (VStr s)) ->
  (forall items, Forall P items -> P (VList items)) ->
  (forall entries, Forall (fun kv => P (snd kv)) entries -> P (VDict entries)) ->
  forall v, P v.
Proof.
  intros HN HB HI HF HS HL HD. fix IH 1. intros v. destruct v.
  - exact HN.
  - apply HB.
  - apply HI.
  - apply HF.
  - apply HS.
  - apply HL. induction items as [|x items IHl]; constructor;
      [apply IH | exact IHl].
  - apply HD. induction entries as [|[k x] entries IHl]; constructor;
      [apply IH | exact IHl].
Qed.

Lemma clean_list items : clean (VList items) <-> Forall clean items.
Proof.
  induction items as [|x items IH].
  - split; [constructor | intros _; exact Logic.I].
  - split.
    + intros (Hx & Hr). constructor; [exact Hx | apply IH; exact Hr].
    + intros H. inversion H; subst. split; [assumption | apply IH; assumption].
Qed.

Lemma clean_dict entries :
  clean (VDict entries) <-> Forall (fun kv => clean (snd kv)) entries.
Proof.
  induction entries as [|[k x] entries IH].
  - split; [constructor | intros _; exact Logic.I].
  - split.
    + intros (Hx & Hr). constructor; [exact Hx | apply IH; exact Hr].
    + intros H. inversion H; subst. split; [assumption | apply IH; assumption].
Qed.

Lemma replace_char_In old new s x :
  In x (replace_char old new s)
  <-> (In x s /\ x <> old) \/ (In old s /\ In x new).
Proof.
  unfold replace_char. rewrite in_flat_map. split.
  - intros (c & Hc & Hx). destruct (N.eqb_spec c old) as [->|Hn].
    + right. split; assumption.
    + destruct Hx as [<-|[]]. left. split; assumption.
  - intros [(Hx & Hn)|(Ho & Hx)].
    + exists x. split; [exact Hx|].
      destruct (N.eqb_spec x old); [contradiction | left; reflexivity].
    + exists old. split; [exact Ho|]. rewrite N.eqb_refl. exact Hx.
Qed.

Lemma replace_char_absent old new s :
  ~ In old s -> replace_char old new s = s.
Proof.
  unfold replace_char. induction s as [|c s IH]; intros H; simpl.
  - reflexivity.
  - destruct (N.eqb_spec c old) as [->|Hn].
    + exfalso. apply H. left. reflexivity.
    + simpl. f_equal. apply IH. intros Hc. apply H. right. exact Hc.
Qed.

Lemma sanitize_str_clean s :
  clean_str (replace_char 13 (lit " ") (replace_char 0 [] s)).
Proof.
  split; intros H; apply replace_char_In in H.
  - destruct H as [(H & _)|(_ & H)].
    + apply replace_char_In in H. destruct H as [(_ & H)|(_ & [])].
      apply H. reflexivity.
    + simpl in H. destruct H as [H|[]]. discriminate.
  - destruct H as [(_ & H)|(_ & H)].
    + apply H. reflexivity.
    + simpl in H. destruct H as [H|[]]. discriminate.
Qed.

Lemma sanitize_str_fixed s :
  clean_str s -> replace_char 13 (lit " ") (replace_char 0 [] s) = s.
Proof.
  intros (H0 & H13). rewrite (@replace_char_absent 0 [] s H0).
  apply replace_char_absent. exact H13.
Qed.

Lemma sanitize_clean v : clean (sanitize_json v).
Proof.
  induction v as [| | | |s|items IH|entries IH] using value_induction;
    try exact Logic.I.
  - apply sanitize_str_clean.
  - cbn [sanitize_json]. apply clean_list. rewrite Forall_map. exact IH.
  - cbn [sanitize_json]. apply clean_dict. rewrite Forall_map.
    eapply Forall_impl; [|exact IH]. intros [k x] H. exact H.
Qed.

Lemma sanitize_fixed v : clean v -> sanitize_json v = v.
Proof.
  induction v as [| | | |s|items IH|entries IH] using value_induction;
    intros Hc; try reflexivity.
  - cbn [sanitize_json]. f_equal. apply sanitize_str_fixed. exact Hc.
  - cbn [sanitize_json]. f_equal. apply clean_list in Hc.
    induction items as [|x items IHl]; [reflexivity|].
    inversion IH; inversion Hc; subst. simpl. f_equal; auto.
  - cbn [sanitize_json]. f_equal. apply clean_dict in Hc.
    induction entries as [|[k x] entries IHl]; [reflexivity|].
    inversion IH; inversion Hc; subst. simpl in *. f_equal; auto.
    f_equal. auto.
Qed.

(** The keys of the dictionaries and the kind of every value are kept. *)
Lemma dict_get_sanitize key (d : dict) :
  dict_get key (map (fun kv : str * value =>
                       let (k, v) := kv in (k, sanitize_json v)) d)
  = option_map sanitize_json (dict_get key d).
Proof.
  induction d as [|[k v] d IH]; [reflexivity|]. simpl.
  destruct (str_eqb key k); [reflexivity | exact IH].
Qed.

Lemma dict_has_sanitize key (d : dict) :
  dict_has key (map (fun kv : str * value =>
                       let (k, v) := kv in (k, sanitize_json v)) d)
  = dict_has key d.
Proof.
  unfold dict_has. rewrite dict_get_sanitize.
  destruct (dict_get key d); reflexivity.
Qed.

Lemma type_repr_sanitize v : type_repr (sanitize_json v) = type_repr v.
Proof. destruct v; reflexivity. Qed.

Lemma has_fields_sanitize fields v :
  has_fields fields (sanitize_json v) = has_fields fields v.
Proof.
  destruct v; try reflexivity. cbn [sanitize_json has_fields].
  induction fields as [|k fields IH]; [reflexivity|].
  simpl. rewrite dict_has_sanitize. rewrite IH. reflexivity.
Qed.

Lemma check_records_sanitize message fields items :
  check_records message fields (map sanitize_json items)
  = check_records message fields items.
Proof.
  induction items as [|x items IH]; [reflexivity|]. simpl.
  rewrite has_fields_sanitize. rewrite IH. reflexivity.
Qed.

Lemma check_required_sanitize (d : dict) keys :
  check_required (map (fun kv : str * value =>
                         let (k, v) := kv in (k, sanitize_json v)) d) keys
  = check_required d keys.
Proof.
  induction keys as [|k keys IH]; [reflexivity|]. simpl.
  rewrite dict_has_sanitize, dict_get_sanitize.
  destruct (dict_has k d); [|reflexivity]. cbn [negb].
  destruct (dict_get k d) as [v|]; [|reflexivity]. simpl.
  destruct v; try reflexivity. cbn [sanitize_json]. exact IH.
Qed.

(** The items that a loop visits, for a value that passed the first loop
    or is absent. *)
Lemma check_structure_sanitize (d : dict) key message fields :
  match dict_get key d with
  | Some (VList _) | None => True
  | _ => False
  end ->
  check_structure (map (fun kv : str * value =>
                          let (k, v) := kv in (k, sanitize_json v)) d)
                  key message fields
  = check_structure d key message fields.
Proof.
  unfold check_structure, dict_get_default. rewrite dict_get_sanitize.
  destruct (dict_get key d) as [v|]; [|reflexivity].
  destruct v; try contradiction. intros _. cbn [option_map sanitize_json iterate].
  apply check_records_sanitize.
Qed.

Lemma check_required_lists (d : dict) keys :
  check_required d keys = Returns tt ->
  forall k, In k keys -> exists items, dict_get k d = Some (VList items).
Proof.
  induction keys as [|key keys IH]; intros H k Hk; [destruct Hk|].
  simpl in H. destruct (dict_has key d); [|discriminate]. cbn [negb] in H.
  destruct (dict_get key d) as [v|] eqn:G; [|discriminate].
  destruct v; try discriminate.
  destruct Hk as [<-|Hk]; [eexists; exact G | apply IH; assumption].
Qed.

Lemma check_required_raises (d : dict) keys e :
  check_required d keys = Raises e -> exists message, e = ValueError message.
Proof.
  induction keys as [|key keys IH]; intros H; [discriminate|].
  simpl in H. unfold dict_has in H.
  destruct (dict_get key d) as [v|] eqn:G; cbn [negb] in H.
  - destruct v; try (injection H as <-; eexists; reflexivity).
    apply IH. exact H.
  - injection H as <-. eexists. reflexivity.
Qed.

Lemma check_required_iff (d : dict) keys :
  check_required d keys = Returns tt
  <-> forall k, In k keys -> exists items, dict_get k d = Some (VList items).
Proof.
  split; [apply check_required_lists|].
  induction keys as [|key keys IH]; intros H; [reflexivity|]. simpl.
  destruct (H key (or_introl eq_refl)) as (items & G).
  unfold dict_has. rewrite G. cbn [negb]. apply IH.
  intros k Hk. apply H. right. exact Hk.
Qed.

Lemma check_records_iff message fields items :
  check_records message fields items = Returns tt
  <-> Forall (fun item => has_fields fields item = true) items.
Proof.
  induction items as [|x items IH]; simpl.
  - split; [constructor | reflexivity].
  - destruct (has_fields fields x) eqn:E.
    + rewrite IH. split; [intros H; constructor; assumption|].
      intros H. inversion H; assumption.
    + split; [discriminate|]. intros H. inversion H; congruence.
Qed.

Lemma check_records_cases message fields items :
  check_records message fields items = Returns tt
  \/ check_records message fields items = Raises (ValueError message).
Proof.
  induction items as [|x items IH]; simpl; [left; reflexivity|].
  destruct (has_fields fields x); [exact IH | right; reflexivity].
Qed.

End UtilsFacts.

(* ================================================================== *)
(** * File names and requests *)

Module Upload.
Import Py Re App Web PyFacts WebFacts.

Lemma allowed_extension ext :
  mem (lower ext) ALLOWED_EXTENSIONS = true
  <-> same_extension ext (lit "pdf") \/ same_extension ext (lit "txt").
Proof.
  unfold ALLOWED_EXTENSIONS, same_extension. rewrite mem_In.
  assert (Hp : Forall (fun y => plain_letter y = true) (lit "pdf"))
    by (repeat constructor).
  assert (Ht : Forall (fun y => plain_letter y = true) (lit "txt"))
    by (repeat constructor).
  rewrite <- (lower_plain Hp ext), <- (lower_plain Ht ext).
  simpl. intuition congruence.
Qed.

(** X1.  [allowed_file] never raises.  It accepts a file name exactly when
    the text after the last dot of the name is [pdf] or [txt], in any
    letter case; a name without a dot is refused. *)
Theorem allowed_file_last_extension :
  forall filename,
    exists b,
      allowed_file filename = Some b
      /\ (b = true <->
          exists stem ext,
            filename = stem ++ 46%N :: ext
            /\ ~ In 46%N ext
            /\ (same_extension ext (lit "pdf")
                \/ same_extension ext (lit "txt"))).
Proof.
  intros filename.
  destruct (allowed_file_cases filename)
    as [(Hn & E)|(stem & ext & Ef & Hext & E)]; rewrite E; eexists;
    (split; [reflexivity|]).
  - split; [discriminate|]. intros (stem & ext & -> & _). exfalso.
    apply Hn. apply in_or_app. right. left. reflexivity.
  - rewrite allowed_extension. split.
    + intros H. exists stem, ext. auto.
    + intros (stem' & ext' & Ef' & Hext' & H).
      assert (R : rpartition 46 filename = Some (stem, ext))
        by (apply rpartition_some; auto).
      assert (R' : rpartition 46 filename = Some (stem', ext'))
        by (apply rpartition_some; auto).
      rewrite R in R'. injection R' as -> ->. exact H.
Qed.

Lemma upload_texts_answers ten_k_text def14a_text :
  upload_texts ten_k_text def14a_text <> ServerError
  /\ upload_texts ten_k_text def14a_text <> BadRequest "10-K file required".
Proof.
  unfold upload_texts. destruct def14a_text as [|c d].
  - split; discriminate.
  - destruct (Pipeline.upload_extract_total ten_k_text (c :: d)) as (r & E).
    rewrite E. split; discriminate.
Qed.

Lemma ten_k_choice (g : option file_storage) :
  ten_k_saved match g with
              | Some f => if has_name f && unnamed f then None else Some f
              | None => None
              end
  = Some match g with
         | Some f =>
             match allowed_file (filename f) with
             | Some true => Some f
             | _ => None
             end
         | None => None
         end.
Proof.
  destruct g as [f|]; [|reflexivity].
  assert (E : (if has_name f && unnamed f then None else Some f) = Some f)
    by (unfold has_name, unnamed; destruct (filename f); reflexivity).
  rewrite E. unfold ten_k_saved.
  destruct (allowed_file_total (filename f)) as (b & Eb). rewrite Eb.
  unfold has_name. destruct (filename f) as [|c n] eqn:En.
  - vm_compute in Eb. injection Eb as <-. reflexivity.
  - destruct b; reflexivity.
Qed.

Lemma upload_cases fs :
  upload fs
  = match files_get "def14a_file" fs with
    | None => BadRequest "DEF 14A file required"
    | Some def14a_file =>
        match filename def14a_file with
        | [] => BadRequest "Please select DEF 14A file"
        | _ :: _ =>
            upload_texts
              match files_get "10k_file" fs with
              | Some ten_k_file =>
                  match allowed_file (filename ten_k_file) with
                  | Some true => pdf_to_text (document ten_k_file)
                  | _ => []
                  end
              | None => []
              end
              (pdf_to_text (document def14a_file))
        end
    end.
Proof.
  unfold upload, files_has.
  destruct (files_get "def14a_file" fs) as [f|] eqn:Ef; cbn [negb];
    [|reflexivity].
  assert (Hn : negb (has_name f) || unnamed f
               = match filename f with [] => true | _ :: _ => false end)
    by (unfold has_name, unnamed; destruct (filename f); reflexivity).
  rewrite Hn. destruct (filename f) as [|c name]; [reflexivity|].
  rewrite ten_k_choice. cbv zeta. f_equal.
  destruct (files_get "10k_file" fs) as [g|]; [|reflexivity].
  destruct (allowed_file (filename g)) as [[|]|]; reflexivity.
Qed.

(** X2.  The decisions of [upload].  Without a [def14a_file] field the
    answer is 400 [DEF 14A file required], and for an empty file name 400
    [Please select DEF 14A file].  Otherwise the DEF 14A text is analysed,
    whatever the extension of its file name, together with the text of the
    10-K file when there is one and [allowed_file] accepts its name, and
    with the empty text otherwise.  The answer [10-K file required] is never
    given, and neither [allowed_file] nor the analysis raises an exception
    for the handler that answers 500. *)
Theorem upload_decisions :
  forall fs,
    upload fs <> BadRequest "10-K file required"
    /\ upload fs <> ServerError
    /\ match files_get "def14a_file" fs with
       | None => upload fs = BadRequest "DEF 14A file required"
       | Some def14a_file =>
           match filename def14a_file with
           | [] => upload fs = BadRequest "Please select DEF 14A file"
           | _ :: _ =>
               let ten_k_text :=
                 match files_get "10k_file" fs with
                 | Some ten_k_file =>
                     match allowed_file (filename ten_k_file) with
                     | Some true => pdf_to_text (document ten_k_file)
                     | _ => []
                     end
                 | None => []
                 end in
               upload fs
               = upload_texts ten_k_text (pdf_to_text (document def14a_file))
           end
       end.
Proof.
  intros fs. rewrite upload_cases.
  destruct (files_get "def14a_file" fs) as [f|].
  2:{ repeat split; discriminate. }
  destruct (filename f) as [|c name].
  1:{ repeat split; discriminate. }
  split; [apply upload_texts_answers|].
  split; [apply upload_texts_answers|]. reflexivity.
Qed.

End Upload.

(* ================================================================== *)
(** * Validation and sanitising of JSON data *)

Module Validation.
Import Py Utils PyFacts UtilsFacts.

Lemma check_structure_listed (d : dict) key message fields items :
  dict_get key d = Some (VList items) ->
  (check_structure d key message fields = Returns tt
   /\ listed fields d key)
  \/ (check_structure d key message fields = Raises (ValueError message)
      /\ ~ listed fields d key).
Proof.
  intros G. unfold check_structure, dict_get_default, listed. rewrite G.
  cbn [iterate].
  destruct (check_records_cases message fields items) as [E|E].
  - left. split; [exact E|]. exists items. split; [reflexivity|].
    apply (check_records_iff message). exact E.
  - right. split; [exact E|]. intros (items' & E' & H).
    injection E' as <-. apply (check_records_iff message) in H. congruence.
Qed.

Lemma validate_extraction_data_accepts_aux :
  forall data,
    (well_formed data /\ validate_extraction_data data = Returns true)
    \/ (~ well_formed data
        /\ exists message,
             validate_extraction_data data = Raises (ValueError message)).
Proof.
  intros data. destruct data as [| | | | | |d];
    try (right; split; [intros []|eexists; reflexivity]).
  unfold validate_extraction_data, well_formed.
  destruct (check_required d required_keys) as [[]|e] eqn:R.
  - pose proof (check_required_lists d required_keys R) as L.
    destruct (L (lit "subsidiaries")) as (ss & Gs); [simpl; auto|].
    destruct (L (lit "directors")) as (ds & Gd); [simpl; auto|].
    destruct (L (lit "owners")) as (os & Go); [simpl; auto|].
    cbn [and_then].
    destruct (@check_structure_listed d _
                (lit "Invalid subsidiary structure") subsidiary_fields _ Gs)
      as [(-> & Hs)|(-> & Hs)];
      cbn [and_then]; [|right; split; [tauto|eexists; reflexivity]].
    destruct (@check_structure_listed d _
                (lit "Invalid director structure") director_fields _ Gd)
      as [(-> & Hd)|(-> & Hd)];
      cbn [and_then]; [|right; split; [tauto|eexists; reflexivity]].
    destruct (@check_structure_listed d _
                (lit "Invalid owner structure") owner_fields _ Go)
      as [(-> & Ho)|(-> & Ho)];
      cbn [and_then]; [|right; split; [tauto|eexists; reflexivity]].
    left. auto.
  - right. cbn [and_then]. split.
    + intros ((ss & Gs & _) & (ds & Gd & _) & (os & Go & _)).
      assert (R' : check_required d required_keys = Returns tt).
      { apply check_required_iff. intros k [<-|[<-|[<-|[]]]]; eauto. }
      congruence.
    + destruct (check_required_raises d required_keys R) as (message & ->).
      eexists. reflexivity.
Qed.

(** X3.  [validate_extraction_data] returns [True] exactly on a dictionary
    whose entries [subsidiaries], [directors] and [owners] are lists of
    dictionaries with the keys [name] and, in turn, [jurisdiction], [role]
    and [ownership]; on every other value it raises [ValueError].  It never
    returns [False], and it looks at no other entry, at no [type] field and
    at no value of a field. *)
Theorem validate_extraction_data_accepts :
  forall data,
    (well_formed data /\ validate_extraction_data data = Returns true)
    \/ (~ well_formed data
        /\ exists message,
             validate_extraction_data data = Raises (ValueError message)).
Proof. exact validate_extraction_data_accepts_aux. Qed.

(** X4.  [sanitize_json] leaves no NUL and no carriage return in any string
    that is an item of a list or the value of an entry, at any depth.  It
    changes nothing in data that has none, so sanitising twice is
    sanitising once.  The keys of a dictionary are kept as they are, clean
    or not. *)
Theorem sanitize_json_cleans :
  forall data,
    clean (sanitize_json data)
    /\ sanitize_json (sanitize_json data) = sanitize_json data
    /\ (clean data <-> sanitize_json data = data)
    /\ (forall entries,
          data = VDict entries ->
          exists entries',
            sanitize_json data = VDict entries'
            /\ map fst entries' = map fst entries).
Proof.
  intros data. split; [apply sanitize_clean|].
  split; [apply sanitize_fixed; apply sanitize_clean|].
  split.
  - split; [apply sanitize_fixed|]. intros E. rewrite <- E.
    apply sanitize_clean.
  - intros entries ->. eexists. split; [reflexivity|].
    rewrite map_map. apply map_ext. intros [k v]. reflexivity.
Qed.

Lemma validate_sanitize :
  forall data,
    validate_extraction_data (sanitize_json data)
    = validate_extraction_data data.
Proof.
  intros data. destruct data as [| | | | | |d]; try reflexivity.
  cbn [sanitize_json]. unfold validate_extraction_data.
  rewrite check_required_sanitize.
  destruct (check_required d required_keys) as [[]|e] eqn:R; [|reflexivity].
  pose proof (check_required_lists d required_keys R) as L.
  cbn [and_then].
  rewrite !check_structure_sanitize; [reflexivity| | |].
  - destruct (L (lit "owners")) as (l & ->); [simpl; auto|exact Logic.I].
  - destruct (L (lit "directors")) as (l & ->); [simpl; auto|exact Logic.I].
  - destruct (L (lit "subsidiaries")) as (l & ->); [simpl; auto|exact Logic.I].
Qed.

(** X5.  Sanitising does not change what [validate_extraction_data]
    answers: the same return value or the same error message, before and
    after. *)
Theorem validation_survives_sanitizing :
  forall data,
    validate_extraction_data (sanitize_json data)
    = validate_extraction_data data.
Proof. exact validate_sanitize. Qed.

Lemma ensure_list_is_list v : exists items, ensure_list v = VList items.
Proof. destruct v; eexists; reflexivity. Qed.

(** X6.  [format_json_response] wraps each of its three arguments with
    [ensure_list] ([None] becomes the empty list, a list stays, any other
    value becomes a list of one item) and adds [metrics] as a fourth entry
    only when it is true.  It returns this dictionary when the items are
    dictionaries with the required keys, and otherwise raises [ValueError]
    with the message of a structure loop, never that of a missing key or of
    a value that is not a list. *)
Theorem format_json_response_wraps :
  forall subsidiaries directors owners metrics,
    let data :=
      [(lit "subsidiaries", ensure_list subsidiaries);
       (lit "directors", ensure_list directors);
       (lit "owners", ensure_list owners)]
      ++ (if truthy metrics then [(lit "metrics", metrics)] else []) in
    (well_formed (VDict data)
     /\ format_json_response subsidiaries directors owners metrics
        = Returns (VDict data))
    \/ (~ well_formed (VDict data)
        /\ exists message,
             In message structure_messages
             /\ format_json_response subsidiaries directors owners metrics
                = Raises (ValueError message)).
Proof.
  intros s d o m data. unfold format_json_response.
  assert (Ed : (if truthy m
                then dict_set (lit "metrics") m
                       [(lit "subsidiaries", ensure_list s);
                        (lit "directors", ensure_list d);
                        (lit "owners", ensure_list o)]
                else [(lit "subsidiaries", ensure_list s);
                      (lit "directors", ensure_list d);
                      (lit "owners", ensure_list o)]) = data).
  { unfold data. destruct (truthy m); reflexivity. }
  rewrite Ed. clear Ed.
  destruct (ensure_list_is_list s) as (ss & Es).
  destruct (ensure_list_is_list d) as (ds & Eds).
  destruct (ensure_list_is_list o) as (os & Eo).
  assert (Gs : dict_get (lit "subsidiaries") data = Some (VList ss))
    by (unfold data; rewrite Es; reflexivity).
  assert (Gd : dict_get (lit "directors") data = Some (VList ds))
    by (unfold data; rewrite Eds; reflexivity).
  assert (Go : dict_get (lit "owners") data = Some (VList os))
    by (unfold data; rewrite Eo; reflexivity).
  assert (R : check_required data required_keys = Returns tt).
  { apply check_required_iff. intros k [<-|[<-|[<-|[]]]]; eauto. }
  unfold validate_extraction_data, well_formed. rewrite R. cbn [and_then].
  destruct (@check_structure_listed data _
                (lit "Invalid subsidiary structure") subsidiary_fields _ Gs)
      as [(-> & Hs)|(-> & Hs)]; cbn [and_then].
  2:{ right. split; [tauto|]. eexists. split; [|reflexivity]. simpl. auto. }
  destruct (@check_structure_listed data _
                (lit "Invalid director structure") director_fields _ Gd)
      as [(-> & Hd)|(-> & Hd)]; cbn [and_then].
  2:{ right. split; [tauto|]. eexists. split; [|reflexivity]. simpl. auto. }
  destruct (@check_structure_listed data _
                (lit "Invalid owner structure") owner_fields _ Go)
      as [(-> & Ho)|(-> & Ho)]; cbn [and_then].
  2:{ right. split; [tauto|]. eexists. split; [|reflexivity]. simpl. auto. }
  left. auto.
Qed.

Lemma listed_records {R} (to_value : R -> value) fields (d : dict) key
      (records : list R) :
  dict_get key d = Some (VList (map to_value records)) ->
  (forall r, has_fields fields (to_value r) = true) ->
  listed fields d key.
Proof.
  intros G H. exists (map to_value records). split; [exact G|].
  rewrite Forall_map. apply Forall_forall. intros r _. apply H.
Qed.

(** X7.  The dictionaries that [app.py] builds have the format that
    [utils.py] expects: the response data of [upload] passes
    [validate_extraction_data], before and after [sanitize_json], and
    [format_json_response] on its three lists and its metrics returns the
    four entries without raising. *)
Theorem analysis_is_well_formed :
  forall (r : App.extraction) (m : App.metrics) extracted_at,
    validate_extraction_data (response_data r m extracted_at) = Returns true
    /\ validate_extraction_data
         (sanitize_json (response_data r m extracted_at)) = Returns true
    /\ format_json_response (subsidiaries_value r) (directors_value r)
                            (owners_value r) (metrics_value m)
       = Returns (VDict [(lit "subsidiaries", subsidiaries_value r);
                         (lit "directors", directors_value r);
                         (lit "owners", owners_value r);
                         (lit "metrics", metrics_value m)]).
Proof.
  intros r m ts.
  assert (W : forall rest,
             well_formed (VDict ([(lit "subsidiaries", subsidiaries_value r);
                                  (lit "directors", directors_value r);
                                  (lit "owners", owners_value r)] ++ rest))).
  { intros rest. split; [|split].
    - eapply (listed_records subsidiary_value); [reflexivity|].
      intros s. reflexivity.
    - eapply (listed_records director_value); [reflexivity|].
      intros s. reflexivity.
    - eapply (listed_records owner_value); [reflexivity|].
      intros s. reflexivity. }
  assert (V : validate_extraction_data (response_data r m ts) = Returns true).
  { destruct (validate_extraction_data_accepts_aux (response_data r m ts))
      as [(_ & E)|(H & _)]; [exact E|]. exfalso. apply H.
    apply (W [(lit "metrics", metrics_value m);
              (lit "extracted_at", VStr ts)]). }
  split; [exact V|]. split.
  - rewrite validate_sanitize. exact V.
  - unfold format_json_response.
    change (truthy (metrics_value m)) with true. cbv iota.
    change (dict_set (lit "metrics") (metrics_value m)
              [(lit "subsidiaries", ensure_list (subsidiaries_value r));
               (lit "directors", ensure_list (directors_value r));
               (lit "owners", ensure_list (owners_value r))])
      with ([(lit "subsidiaries", subsidiaries_value r);
             (lit "directors", directors_value r);
             (lit "owners", owners_value r)]
              ++ [(lit "metrics", metrics_value m)]).
    destruct (validate_extraction_data_accepts_aux
                (VDict ([(lit "subsidiaries", subsidiaries_value r);
                         (lit "directors", directors_value r);
                         (lit "owners", owners_value r)]
                          ++ [(lit "metrics", metrics_value m)])))
      as [(_ & E)|(H & _)]; [rewrite E; reflexivity|].
    exfalso. apply H. apply W.
Qed.

End Validation.

(* ================================================================== *)
(** * The matcher on character runs, and [re.sub] as one pass *)

Module ScanFacts.
Import Py Re Scan ReFacts.

Lemma skipn_cons_nth {X} (l : list X) i x rest :
  skipn i l = x :: rest -> nth_error l i = Some x /\ skipn (S i) l = rest.
Proof.
  revert i. induction l as [|y l IH]; intros [|i] H; simpl in *;
    try discriminate.
  - injection H as -> ->. auto.
  - apply IH. exact H.
Qed.

Lemma skipn_nil_nth {X} (l : list X) i :
  skipn i l = [] -> nth_error l i = None.
Proof.
  revert i. induction l as [|y l IH]; intros [|i] H; simpl in *;
    try reflexivity; try discriminate.
  apply IH. exact H.
Qed.

Lemma skipn_length_le {X} (l : list X) i s :
  skipn i l = s -> i <= length l -> length s = length l - i.
Proof. intros <- _. apply length_skipn. Qed.

Section Greedy.
Variable fl : flags.
Variable t : str.
Variable A : Type.
Variable items : list citem.

(** The loop of a greedy repetition of a class is [greedy] on the text
    that is left. *)
Lemma rep_loop_greedy lo (k : cont A) :
  forall s fuel count i c,
    skipn i t = s -> length s < fuel ->
    rep_loop (run fl t (Cls items)) lo None true k fuel count i c
    = greedy (cls_mem (ignorecase fl) items) lo k s count i c.
Proof.
  set (body := run fl t (Cls items)).
  assert (Hb : forall i c (K : cont A),
             body i c K
             = match nth_error t i with
               | Some x =>
                   if cls_mem (ignorecase fl) items x then K (S i) c else None
               | None => None
               end) by reflexivity.
  induction s as [|x s IH]; intros fuel count i c Hs Hf;
    (destruct fuel as [|fuel]; [simpl in Hf; lia|]).
  - apply skipn_nil_nth in Hs. cbn [rep_loop below greedy].
    rewrite Hb, Hs. reflexivity.
  - apply skipn_cons_nth in Hs. destruct Hs as (Hn & Hs).
    cbn [rep_loop below greedy]. rewrite Hb, Hn.
    destruct (cls_mem (ignorecase fl) items x); [|reflexivity].
    assert (E : (i <? S i) = true) by (apply Nat.ltb_lt; lia). rewrite E.
    rewrite (IH fuel (S count) (S i) c Hs) by (simpl in Hf; lia).
    reflexivity.
Qed.

End Greedy.

(** With a continuation that accepts everywhere, a greedy repetition takes
    the whole run. *)
Lemma greedy_final {A} (P : N -> bool) lo (mk : nat -> caps -> A) :
  forall s count i c,
    greedy P lo (fun j c' => Some (mk j c')) s count i c
    = if lo <=? count + run_length P s
      then Some (mk (i + run_length P s) c)
      else None.
Proof.
  induction s as [|x s IH]; intros count i c; cbn [greedy run_length].
  - rewrite !Nat.add_0_r. reflexivity.
  - destruct (P x).
    + rewrite IH. replace (count + S (run_length P s))
        with (S count + run_length P s) by lia.
      replace (i + S (run_length P s)) with (S i + run_length P s) by lia.
      destruct (lo <=? S count + run_length P s) eqn:E; [reflexivity|].
      apply Nat.leb_gt in E.
      destruct (Nat.leb_spec lo count); [lia | reflexivity].
    + rewrite !Nat.add_0_r. reflexivity.
Qed.

Lemma cls_space ic x : cls_mem ic [CSpace] x = is_space x.
Proof.
  unfold cls_mem. cbn [existsb item_mem]. rewrite orb_false_r.
  destruct (is_space x) eqn:E; [reflexivity|]. cbn [orb].
  destruct ic; [|reflexivity]. cbn [andb].
  apply not_true_is_false. intros H. apply existsb_exists in H.
  destruct H as (y & Hy & Hs). cbn [item_mem] in Hs.
  unfold case_class in Hy.
  destruct (is_ascii_upper x) eqn:U.
  { destruct Hy as [<-|[]]. unfold is_ascii_upper, in_range in U.
    apply andb_prop in U. destruct U as (U1 & U2).
    apply N.leb_le in U1, U2. unfold is_space, in_range in Hs.
    repeat (apply orb_prop in Hs; destruct Hs as [Hs|Hs]);
      repeat (apply andb_prop in Hs; destruct Hs as (? & ?));
      repeat match goal with
             | H : (_ <=? _)%N = true |- _ => apply N.leb_le in H
             | H : (_ =? _)%N = true |- _ => apply N.eqb_eq in H
             end; lia. }
  destruct (is_ascii_lower x) eqn:L.
  { destruct Hy as [<-|[]]. unfold is_ascii_lower, in_range in L.
    apply andb_prop in L. destruct L as (L1 & L2).
    apply N.leb_le in L1, L2. unfold is_space, in_range in Hs.
    repeat (apply orb_prop in Hs; destruct Hs as [Hs|Hs]);
      repeat (apply andb_prop in Hs; destruct Hs as (? & ?));
      repeat match goal with
             | H : (_ <=? _)%N = true |- _ => apply N.leb_le in H
             | H : (_ =? _)%N = true |- _ => apply N.eqb_eq in H
             end; lia. }
  destruct ((x =? 304)%N || (x =? 305)%N).
  { destruct Hy as [<-|[<-|[]]]; discriminate. }
  destruct (x =? 383)%N.
  { destruct Hy as [<-|[<-|[]]]; discriminate. }
  destruct (x =? 8490)%N; [|destruct Hy].
  destruct Hy as [<-|[<-|[]]]; discriminate.
Qed.

Lemma cls_char x y : cls_mem false [CChar y] x = (x =? y)%N.
Proof.
  unfold cls_mem. cbn [existsb item_mem andb]. rewrite !orb_false_r.
  reflexivity.
Qed.

Section Patterns.
Variable fl : flags.
Variable t : str.

(** [[...]+] at an offset: the longest run of the class, when it is not
    empty. *)
Lemma match_at_plus items j :
  j <= length t ->
  option_map span (match_at fl t (plus (Cls items)) j)
  = option_map (fun n => (j, j + n))
               (run_head (cls_mem (ignorecase fl) items) (skipn j t)).
Proof.
  intros Hj. unfold match_at, plus. cbn [run].
  rewrite (@rep_loop_greedy fl t rmatch items 1 _ (skipn j t))
    by (try reflexivity; rewrite length_skipn; lia).
  rewrite (greedy_final (cls_mem (ignorecase fl) items) 1
             (fun j0 c => {| m_start := j; m_end := j0; m_caps := c |})).
  unfold run_head. cbn [Nat.add].
  destruct (run_length (cls_mem (ignorecase fl) items) (skipn j t));
    reflexivity.
Qed.

End Patterns.

(** [\n\s*\n] at an offset. *)
Lemma greedy_blank (t : str) (mk : nat -> caps -> rmatch) :
  forall s count i c,
    skipn i t = s ->
    greedy is_space 0
           (fun l c' =>
              match nth_error t l with
              | Some x => if (x =? 10)%N then Some (mk (S l) c') else None
              | None => None
              end) s count i c
    = option_map (fun n => mk (i + n) c) (blank_end s).
Proof.
  induction s as [|x s IH]; intros count i c Hs; cbn [greedy blank_end].
  - apply skipn_nil_nth in Hs. rewrite Hs. reflexivity.
  - apply skipn_cons_nth in Hs. destruct Hs as (Hn & Hs). rewrite Hn.
    cbn [Nat.leb].
    destruct (is_space x) eqn:Ex.
    + rewrite (IH (S count) (S i) c Hs).
      destruct (blank_end s) as [n|]; cbn [option_map].
      * f_equal. f_equal. lia.
      * destruct (x =? 10)%N; cbn [option_map]; [|reflexivity].
        f_equal. f_equal. lia.
    + destruct (N.eqb_spec x 10) as [->|_]; [discriminate|reflexivity].
Qed.

Lemma greedy_ext {A} (P1 P2 : N -> bool) lo (k1 k2 : cont A) :
  (forall x, P1 x = P2 x) -> (forall l c, k1 l c = k2 l c) ->
  forall s count i c,
    greedy P1 lo k1 s count i c = greedy P2 lo k2 s count i c.
Proof.
  intros HP Hk. induction s as [|x s IH]; intros count i c; cbn [greedy].
  - rewrite Hk. reflexivity.
  - rewrite HP, IH, Hk. reflexivity.
Qed.

Lemma match_at_blank (t : str) j :
  j <= length t ->
  option_map span (match_at no_flags t PdfExtractor.blank_lines j)
  = option_map (fun n => (j, j + n)) (blank_head (skipn j t)).
Proof.
  intros Hj. unfold match_at, PdfExtractor.blank_lines, blank_head.
  change (seqs [chr 10; star space; chr 10])
    with (Seq (Cls [CChar 10]) (Seq (Rep 0 None true (Cls [CSpace]))
                                    (Cls [CChar 10]))).
  cbn [run ignorecase no_flags].
  destruct (skipn j t) as [|x s] eqn:Hs.
  - apply skipn_nil_nth in Hs. rewrite Hs. reflexivity.
  - apply skipn_cons_nth in Hs. destruct Hs as (Hn & Hs). rewrite Hn.
    rewrite cls_char. destruct (x =? 10)%N; [|reflexivity].
    rewrite (@rep_loop_greedy no_flags t rmatch [CSpace] 0 _ s)
      by (try exact Hs; rewrite <- Hs, length_skipn; lia).
    cbn [ignorecase no_flags].
    rewrite (@greedy_ext rmatch _ is_space 0 _
               (fun l c' =>
                  match nth_error t l with
                  | Some x0 =>
                      if (x0 =? 10)%N
                      then Some ((fun e c0 => {| m_start := j; m_end := e;
                                                 m_caps := c0 |}) (S l) c')
                      else None
                  | None => None
                  end)).
    + rewrite (@greedy_blank t (fun e c0 => {| m_start := j; m_end := e;
                                                m_caps := c0 |}) s 0 (S j) []
                 Hs).
      destruct (blank_end s) as [n|]; cbn [option_map]; [|reflexivity].
      unfold span. cbn [m_start m_end]. f_equal. f_equal. lia.
    + intros y. apply cls_space.
    + intros l c'. destruct (nth_error t l) as [x0|]; [|reflexivity].
      rewrite cls_char. reflexivity.
Qed.

(** ** [re.sub] with a pattern whose matches are known at every offset *)

Section SubScan.
Variable fl : flags.
Variable t : str.
Variable p : regex.
Variable h : head_match.
Variable repl : str.

Hypothesis matched :
  forall j, j <= length t ->
    option_map span (match_at fl t p j)
    = option_map (fun n => (j, j + n)) (h (skipn j t)).
Hypothesis not_empty : forall s n, h s = Some n -> 0 < n <= length s.

Lemma search_at_first_match :
  forall s i,
    skipn i t = s -> i <= length t ->
    option_map span (search_at fl t p (length s) i) = first_match h s i.
Proof.
  induction s as [|x s IH]; intros i Hs Hi.
  - cbn [length search_at first_match].
    pose proof (matched Hi) as M. rewrite Hs in M.
    destruct (h []) as [n|] eqn:E.
    + apply not_empty in E. simpl in E. lia.
    + destruct (match_at fl t p i); [discriminate|reflexivity].
  - cbn [length search_at first_match].
    pose proof (matched Hi) as M. rewrite Hs in M.
    destruct (match_at fl t p i) as [m|].
    + destruct (h (x :: s)) as [n|]; [exact M|discriminate].
    + destruct (h (x :: s)) as [n|]; [discriminate|].
      destruct (skipn_cons_nth _ _ Hs) as (Hn & Hs').
      apply IH; [exact Hs'|].
      assert (length (x :: s) = length t - i)
        by (rewrite <- Hs; apply length_skipn).
      simpl in *. lia.
Qed.

Lemma search_from_first_match i :
  i <= length t ->
  option_map span (search_from fl t p i) = first_match h (skipn i t) i.
Proof.
  intros Hi. unfold search_from.
  destruct (Nat.leb_spec i (length t)); [|lia].
  rewrite <- (length_skipn i t). apply search_at_first_match;
    [reflexivity | exact Hi].
Qed.

Lemma first_match_bounds :
  forall s i a b, first_match h s i = Some (a, b) ->
                  i <= a /\ a < b /\ b <= i + length s.
Proof.
  induction s as [|x s IH]; intros i a b H; cbn [first_match] in H.
  - destruct (h []) as [n|] eqn:E; [|discriminate].
    apply not_empty in E. simpl in E. lia.
  - destruct (h (x :: s)) as [n|] eqn:E.
    + injection H as <- <-. apply not_empty in E. lia.
    + apply IH in H. simpl. lia.
Qed.

Lemma scan_sub_skip :
  forall s k, k <= length s ->
              scan_sub h repl s k = scan_sub h repl (skipn k s) 0.
Proof.
  induction s as [|x s IH]; intros [|k] Hk; try reflexivity.
  cbn [scan_sub skipn]. apply IH. simpl in Hk. lia.
Qed.

Lemma scan_sub_unmatched :
  forall s i, first_match h s i = None -> scan_sub h repl s 0 = s.
Proof.
  induction s as [|x s IH]; intros i H; [reflexivity|].
  cbn [first_match] in H. cbn [scan_sub].
  destruct (h (x :: s)) as [n|]; [discriminate|].
  f_equal. eapply IH. exact H.
Qed.

Lemma scan_sub_first :
  forall s i a b,
    first_match h s i = Some (a, b) ->
    scan_sub h repl s 0
    = firstn (a - i) s ++ repl ++ scan_sub h repl (skipn (b - i) s) 0.
Proof.
  induction s as [|x s IH]; intros i a b H.
  - apply first_match_bounds in H. simpl in H. lia.
  - pose proof (first_match_bounds _ _ H) as B.
    cbn [first_match] in H. cbn [scan_sub].
    destruct (h (x :: s)) as [n|] eqn:E.
    + injection H as <- <-. apply not_empty in E.
      destruct n as [|n]; [lia|].
      rewrite Nat.sub_diag. cbn [firstn app].
      replace (i + S n - i) with (S n) by lia. cbn [skipn].
      rewrite scan_sub_skip by (simpl in E; lia). reflexivity.
    + pose proof (first_match_bounds _ _ H) as B'.
      rewrite (IH (S i) a b H).
      replace (a - i) with (S (a - S i)) by lia.
      replace (b - i) with (S (b - S i)) by lia. reflexivity.
Qed.

Lemma sub_pieces_scan :
  forall n i fuel,
    length t - i <= n -> i <= length t -> length t + 2 - i <= fuel ->
    sub_pieces t repl i (finditer_from fl t p fuel i)
    = scan_sub h repl (skipn i t) 0.
Proof.
  induction n as [|n IH]; intros i fuel Hn Hi Hf;
    (destruct fuel as [|fuel]; [lia|]); cbn [finditer_from];
    pose proof (search_from_first_match Hi) as S;
    destruct (search_from fl t p i) as [m|] eqn:Es.
  - cbn [option_map] in S. symmetry in S. apply first_match_bounds in S.
    rewrite length_skipn in S. unfold span in S. simpl in S. lia.
  - cbn [option_map sub_pieces] in *. symmetry.
    eapply scan_sub_unmatched. symmetry. exact S.
  - cbn [option_map] in S. symmetry in S. unfold span in S.
    pose proof (first_match_bounds _ _ S) as B. rewrite length_skipn in B.
    destruct (Nat.ltb_spec (m_start m) (m_end m)); [|lia].
    cbn [sub_pieces]. rewrite (scan_sub_first _ _ S).
    rewrite IH by lia. rewrite skipn_skipn.
    replace (m_end m - i + i) with (m_end m) by lia.
    reflexivity.
  - cbn [option_map sub_pieces] in *. symmetry.
    eapply scan_sub_unmatched. symmetry. exact S.
Qed.

(** [re.sub] is the pass [scan_sub]. *)
Lemma sub_scan : sub fl p repl t = scan_sub h repl t 0.
Proof.
  unfold sub, finditer.
  apply (@sub_pieces_scan (length t) 0 (S (S (length t)))); lia.
Qed.

End SubScan.

End ScanFacts.

(* ================================================================== *)
(** * Squeezing runs of characters *)

Module SqueezeFacts.
Import Py Re Scan ReFacts ScanFacts.

Lemma run_length_le P s : run_length P s <= length s.
Proof.
  induction s as [|x s IH]; simpl; [lia|]. destruct (P x); simpl; lia.
Qed.

Lemma run_head_not_empty P s n : run_head P s = Some n -> 0 < n <= length s.
Proof.
  unfold run_head. pose proof (run_length_le P s) as L.
  destruct (run_length P s); [discriminate|]. intros E. injection E as <-.
  lia.
Qed.

Lemma run_length_skipn P s : run_length P (skipn (run_length P s) s) = 0.
Proof.
  induction s as [|x s IH]; [reflexivity|]. cbn [run_length].
  destruct (P x) eqn:E; cbn [skipn]; [exact IH|].
  cbn [run_length]. rewrite E. reflexivity.
Qed.

Lemma run_length_ext P1 P2 s :
  (forall x, P1 x = P2 x) -> run_length P1 s = run_length P2 s.
Proof.
  intros H. induction s as [|x s IH]; [reflexivity|]. cbn [run_length].
  rewrite H, IH. reflexivity.
Qed.

Lemma scan_sub_ext h1 h2 repl :
  (forall s, h1 s = h2 s) ->
  forall s k, scan_sub h1 repl s k = scan_sub h2 repl s k.
Proof.
  intros H. induction s as [|x s IH]; intros k; [reflexivity|].
  cbn [scan_sub]. destruct k as [|k]; [|apply IH].
  rewrite H. destruct (h2 (x :: s)) as [[|n]|]; rewrite ?IH; reflexivity.
Qed.

(** [re.sub] with the pattern [[...]+]. *)
Lemma sub_plus_cls fl items repl t :
  sub fl (plus (Cls items)) repl t
  = scan_sub (run_head (cls_mem (ignorecase fl) items)) repl t 0.
Proof.
  apply sub_scan.
  - intros j Hj. apply match_at_plus. exact Hj.
  - apply run_head_not_empty.
Qed.

Section Squeeze.
Variable P : N -> bool.
Variable r : N.

Local Abbreviation squeeze := (Scan.squeeze P r).

Lemma squeeze_keep x s : P x = false -> squeeze (x :: s) = x :: squeeze s.
Proof.
  intros H. unfold squeeze. cbn [scan_sub]. unfold run_head.
  cbn [run_length]. rewrite H. reflexivity.
Qed.

Lemma squeeze_run x s :
  P x = true ->
  squeeze (x :: s) = r :: squeeze (skipn (run_length P s) s).
Proof.
  intros H. unfold squeeze. cbn [scan_sub]. unfold run_head.
  cbn [run_length]. rewrite H. cbn [app].
  rewrite scan_sub_skip by apply run_length_le. reflexivity.
Qed.

Lemma squeeze_induction (Q : str -> str -> Prop) :
  Q [] [] ->
  (forall x s, P x = false -> Q s (squeeze s) -> Q (x :: s) (x :: squeeze s)) ->
  (forall x s rest,
      P x = true -> rest = skipn (run_length P s) s ->
      run_length P rest = 0 ->
      Q rest (squeeze rest) -> Q (x :: s) (r :: squeeze rest)) ->
  forall s, Q s (squeeze s).
Proof.
  intros Hnil Hkeep Hrun s.
  assert (H : forall n s, length s <= n -> Q s (squeeze s)).
  { clear s. induction n as [|n IH]; intros s Hn.
    - destruct s; [exact Hnil | simpl in Hn; lia].
    - destruct s as [|x s]; [exact Hnil|].
      destruct (P x) eqn:E.
      + rewrite (squeeze_run s E).
        apply Hrun; [exact E | reflexivity | apply run_length_skipn|].
        apply IH. rewrite length_skipn. simpl in Hn. lia.
      + rewrite (squeeze_keep s E). apply Hkeep; [exact E|].
        apply IH. simpl in Hn. lia. }
  apply (H (length s)). lia.
Qed.

Lemma run_length_zero s :
  run_length P s = 0 ->
  s = [] \/ exists y s', s = y :: s' /\ P y = false.
Proof.
  destruct s as [|y s]; [auto|]. cbn [run_length].
  destruct (P y) eqn:E; [discriminate|]. right. eauto.
Qed.

Lemma squeeze_no_pair s : no_pair P (squeeze s).
Proof.
  apply squeeze_induction with (Q := fun _ o => no_pair P o).
  - exact Logic.I.
  - intros x s0 Hx IH. cbn [no_pair].
    destruct (squeeze s0); [exact Logic.I|]. rewrite Hx. auto.
  - intros x s0 rest Hx _ Hz IH. cbn [no_pair].
    destruct (run_length_zero _ Hz) as [->|(y & s' & -> & Hy)].
    + exact Logic.I.
    + rewrite (squeeze_keep s' Hy) in *. rewrite Hy, andb_false_r. auto.
Qed.

Lemma squeeze_In s y :
  In y (squeeze s) -> (In y s /\ P y = false) \/ (y = r /\ exists x, In x s /\ P x = true).
Proof.
  apply squeeze_induction
    with (Q := fun s o => In y o -> (In y s /\ P y = false)
                                    \/ (y = r /\ exists x, In x s /\ P x = true)).
  - intros [].
  - intros x s0 Hx IH [<-|H].
    + left. split; [left; reflexivity | exact Hx].
    + destruct (IH H) as [(Hin & Hy)|(-> & z & Hz & Pz)].
      * left. split; [right; exact Hin | exact Hy].
      * right. split; [reflexivity|]. exists z. split; [right|]; assumption.
  - intros x s0 rest Hx -> _ IH [<-|H].
    + right. split; [reflexivity|]. exists x. split; [left; reflexivity|exact Hx].
    + destruct (IH H) as [(Hin & Hy)|(-> & z & Hz & Pz)].
      * left. split; [|exact Hy]. right.
        rewrite <- (firstn_skipn (run_length P s0) s0).
        apply in_or_app. right. exact Hin.
      * right. split; [reflexivity|]. exists x.
        split; [left; reflexivity | exact Hx].
Qed.

Lemma squeeze_length s : length (squeeze s) <= length s.
Proof.
  apply squeeze_induction with (Q := fun s o => length o <= length s).
  - simpl. lia.
  - intros x s0 _ IH. simpl. lia.
  - intros x s0 rest _ -> _ IH. rewrite length_skipn in IH. simpl. lia.
Qed.

Lemma run_length_last s x :
  P x = false -> run_length P (s ++ [x]) = run_length P s.
Proof.
  intros H. induction s as [|y s IH]; cbn [run_length app].
  - rewrite H. reflexivity.
  - rewrite IH. reflexivity.
Qed.

Lemma squeeze_last s x :
  P x = false -> squeeze (s ++ [x]) = squeeze s ++ [x].
Proof.
  intros Hx.
  apply squeeze_induction
    with (Q := fun s o => squeeze (s ++ [x]) = o ++ [x]).
  - cbn [app]. rewrite (squeeze_keep [] Hx). reflexivity.
  - intros y s0 Hy IH. cbn [app]. rewrite (squeeze_keep _ Hy), IH.
    reflexivity.
  - intros y s0 rest Hy -> _ IH. cbn [app]. rewrite (squeeze_run _ Hy).
    rewrite run_length_last by exact Hx.
    rewrite skipn_app.
    replace (run_length P s0 - length s0) with 0
      by (pose proof (run_length_le P s0); lia).
    cbn [skipn]. rewrite IH. reflexivity.
Qed.

Lemma squeeze_fixed s :
  no_pair P s -> (forall y, In y s -> P y = true -> y = r) -> squeeze s = s.
Proof.
  induction s as [|x s IH]; intros Hp Hr; [reflexivity|].
  assert (Hp' : no_pair P s)
    by (cbn [no_pair] in Hp; destruct s; [exact Logic.I | tauto]).
  assert (Hr' : forall y, In y s -> P y = true -> y = r)
    by (intros y Hy; apply Hr; right; exact Hy).
  destruct (P x) eqn:E.
  - rewrite (squeeze_run s E).
    assert (Z : run_length P s = 0).
    { destruct s as [|y s]; [reflexivity|]. cbn [no_pair] in Hp.
      destruct Hp as (Hxy & _). rewrite E in Hxy. cbn [andb] in Hxy.
      cbn [run_length]. rewrite Hxy. reflexivity. }
    rewrite Z. cbn [skipn]. rewrite (IH Hp' Hr').
    f_equal. symmetry. apply Hr; [left; reflexivity | exact E].
  - rewrite (squeeze_keep s E). f_equal. apply IH; assumption.
Qed.

End Squeeze.

End SqueezeFacts.

(* ================================================================== *)
(** * Blank lines *)

Module BlankFacts.
Import Py Re Scan ReFacts ScanFacts SqueezeFacts PdfExtractor.

Lemma blank_end_bounds s : forall n, blank_end s = Some n -> 0 < n <= length s.
Proof.
  induction s as [|x s IH]; intros n H; cbn [blank_end] in H; [discriminate|].
  destruct (is_space x); [|discriminate].
  destruct (blank_end s) as [m|].
  - injection H as <-. specialize (IH m eq_refl). simpl. lia.
  - destruct (x =? 10)%N; [|discriminate]. injection H as <-. simpl. lia.
Qed.

Lemma blank_head_not_empty s n : blank_head s = Some n -> 0 < n <= length s.
Proof.
  unfold blank_head. destruct s as [|x s]; [discriminate|].
  destruct (x =? 10)%N; [|discriminate].
  destruct (blank_end s) as [m|] eqn:E; [|discriminate].
  intros H. injection H as <-. apply blank_end_bounds in E. simpl. lia.
Qed.

(** [re.sub] with the pattern [\n\s*\n]. *)
Lemma sub_blank_lines repl t :
  sub no_flags blank_lines repl t = scan_sub blank_head repl t 0.
Proof.
  apply sub_scan.
  - intros j Hj. apply match_at_blank. exact Hj.
  - apply blank_head_not_empty.
Qed.

(** After the last newline of a run of white space, the run has no
    newline. *)
Lemma blank_end_skipn s : forall n, blank_end s = Some n -> blank_end (skipn n s) = None.
Proof.
  induction s as [|x s IH]; intros n H; cbn [blank_end] in H; [discriminate|].
  destruct (is_space x) eqn:Ex; [|discriminate].
  destruct (blank_end s) as [m|] eqn:E.
  - injection H as <-. cbn [skipn]. apply IH. reflexivity.
  - destruct (x =? 10)%N; [|discriminate]. injection H as <-. exact E.
Qed.

Lemma blank_end_space x s :
  is_space x = true -> (x =? 10)%N = false ->
  blank_end (x :: s) = option_map S (blank_end s).
Proof.
  intros Hs Hn. cbn [blank_end]. rewrite Hs, Hn.
  destruct (blank_end s); reflexivity.
Qed.

Lemma blank_end_newline s : blank_end (10%N :: s) <> None.
Proof. cbn [blank_end]. destruct (blank_end s); discriminate. Qed.

Lemma newline_eq x : (x =? 10)%N = true -> x = 10%N.
Proof. apply N.eqb_eq. Qed.

(** The result of [re.sub] with [\n\s*\n] is tidy. *)
Lemma tidy_scan :
  forall n s q,
    length s <= n ->
    q = NoNewline \/ blank_end s = None ->
    tidy q (scan_sub blank_head [10%N; 10%N] s 0) = true.
Proof.
  induction n as [|n IH]; intros s q Hn Hq.
  - destruct s; [reflexivity | simpl in Hn; lia].
  - destruct s as [|x s]; [reflexivity|].
    assert (Hl : length s <= n) by (simpl in Hn; lia).
    cbn [scan_sub]. unfold blank_head.
    destruct (x =? 10)%N eqn:Ex.
    + apply newline_eq in Ex. subst x.
      destruct Hq as [->|Hq]; [|exfalso; exact (blank_end_newline _ Hq)].
      destruct (blank_end s) as [m|] eqn:E; cbn [option_map app].
      * pose proof (blank_end_bounds _ E) as B.
        rewrite scan_sub_skip by lia.
        change (tidy TwoNewlines
                     (scan_sub blank_head [10%N; 10%N] (skipn m s) 0) = true).
        apply IH; [rewrite length_skipn; lia|].
        right. apply blank_end_skipn. exact E.
      * change (tidy OneNewline (scan_sub blank_head [10%N; 10%N] s 0) = true).
        apply IH; [exact Hl | right; exact E].
    + cbn [tidy]. unfold blank_step. rewrite Ex.
      destruct (is_space x) eqn:Es; cbn [negb].
      * assert (Hq' : q = NoNewline \/ blank_end s = None).
        { destruct Hq as [->|Hq]; [left; reflexivity|]. right.
          rewrite blank_end_space in Hq by assumption.
          destruct (blank_end s); [discriminate|reflexivity]. }
        destruct q; apply IH; try exact Hl; auto;
          destruct Hq' as [Hq'|Hq']; auto; discriminate.
      * apply IH; [exact Hl | left; reflexivity].
Qed.

Lemma blank_step_weaker q1 q2 x q2' :
  weaker q1 q2 = true -> blank_step q2 x = Some q2' ->
  exists q1', blank_step q1 x = Some q1' /\ weaker q1' q2' = true.
Proof.
  unfold blank_step. destruct (is_space x), (x =? 10)%N, q1, q2;
    cbn [negb weaker]; intros W H; try discriminate;
    injection H as <-; eexists; split; reflexivity.
Qed.

Lemma tidy_weaker s :
  forall q1 q2, weaker q1 q2 = true -> tidy q2 s = true -> tidy q1 s = true.
Proof.
  induction s as [|x s IH]; intros q1 q2 W H; [reflexivity|].
  cbn [tidy] in *. destruct (blank_step q2 x) as [q2'|] eqn:E; [|discriminate].
  destruct (@blank_step_weaker q1 q2 x q2' W E) as (q1' & -> & W').
  eapply IH; eassumption.
Qed.

Lemma tidy_skipn k :
  forall s q, tidy q s = true -> tidy NoNewline (skipn k s) = true.
Proof.
  induction k as [|k IH]; intros s q H.
  - cbn [skipn]. eapply tidy_weaker; [|exact H]. reflexivity.
  - destruct s as [|x s]; [reflexivity|]. cbn [skipn]. cbn [tidy] in H.
    destruct (blank_step q x) as [q'|]; [|discriminate].
    eapply IH. exact H.
Qed.

Lemma tidy_firstn k :
  forall s q, tidy q s = true -> tidy q (firstn k s) = true.
Proof.
  induction k as [|k IH]; intros s q H; [reflexivity|].
  destruct s as [|x s]; [reflexivity|]. cbn [firstn tidy] in *.
  destruct (blank_step q x) as [q'|]; [|discriminate]. apply IH. exact H.
Qed.

(** A space moves every state to one that further spaces keep. *)
Lemma blank_step_space q :
  exists q', blank_step q 32 = Some q' /\ blank_step q' 32 = Some q'.
Proof. destruct q; eexists; split; reflexivity. Qed.

Lemma tidy_spaces s :
  forall q, blank_step q 32 = Some q ->
            tidy q s = tidy q (skipn (run_length (N.eqb 32) s) s).
Proof.
  induction s as [|x s IH]; intros q Hq; [reflexivity|].
  cbn [run_length]. destruct (N.eqb_spec 32 x) as [<-|Hx]; [|reflexivity].
  cbn [skipn]. cbn [tidy]. rewrite Hq. apply IH. exact Hq.
Qed.

Lemma tidy_squeeze s :
  forall q, tidy q s = true -> tidy q (squeeze (N.eqb 32) 32 s) = true.
Proof.
  apply (@squeeze_induction (N.eqb 32) 32)
    with (Q := fun s o => forall q, tidy q s = true -> tidy q o = true).
  - intros q _. reflexivity.
  - intros x s0 Hx IH q H. cbn [tidy] in *.
    destruct (blank_step q x) as [q'|]; [|discriminate]. apply IH. exact H.
  - intros x s0 rest Hx -> _ IH q H. apply N.eqb_eq in Hx. subst x.
    cbn [tidy] in *.
    destruct (blank_step_space q) as (q' & E & Hq'). rewrite E in *.
    apply IH. rewrite <- tidy_spaces by exact Hq'. exact H.
Qed.

Lemma tidy_late_newline m post :
  forall q, q = NewlineSpace \/ q = TwoNewlines ->
            Forall (fun x => is_space x = true) m ->
            tidy q (m ++ 10%N :: post) = false.
Proof.
  induction m as [|x m IH]; intros q Hq Hm.
  - destruct Hq as [->| ->]; reflexivity.
  - inversion Hm as [|? ? Hx Hm']; subst. cbn [app tidy]. unfold blank_step.
    rewrite Hx. cbn [negb].
    destruct (x =? 10)%N; destruct Hq as [->| ->]; try reflexivity;
      apply IH; auto.
Qed.

(** In a tidy text, two newlines with nothing but white space between them
    are neighbours. *)
Lemma tidy_separated pre mid post :
  forall q,
    tidy q (pre ++ 10%N :: mid ++ 10%N :: post) = true ->
    Forall (fun x => is_space x = true) mid -> mid = [].
Proof.
  induction pre as [|x pre IH]; intros q H Hm.
  - cbn [app tidy] in H.
    destruct (blank_step q 10) as [q'|] eqn:E; [|discriminate].
    destruct mid as [|y mid]; [reflexivity|]. exfalso.
    inversion Hm as [|? ? Hy Hm']; subst.
    cbn [app tidy] in H. unfold blank_step in H. rewrite Hy in H.
    cbn [negb] in H.
    destruct q; try discriminate; injection E as <-;
      destruct (y =? 10)%N; try discriminate;
      rewrite tidy_late_newline in H by auto; discriminate.
  - cbn [app tidy] in H. destruct (blank_step q x) as [q'|]; [|discriminate].
    eapply IH; eassumption.
Qed.

Lemma tidy_late s :
  forall q, q = NewlineSpace \/ q = TwoNewlines ->
            tidy q s = true -> blank_end s = None.
Proof.
  induction s as [|x s IH]; intros q Hq H; [reflexivity|].
  cbn [tidy] in H. unfold blank_step in H. cbn [blank_end].
  destruct (is_space x); [|reflexivity]. cbn [negb] in H.
  destruct (x =? 10)%N.
  - destruct Hq as [->| ->]; discriminate.
  - rewrite (IH q); [reflexivity | exact Hq|].
    destruct Hq as [->| ->]; exact H.
Qed.

Lemma tidy_one s :
  tidy OneNewline s = true ->
  blank_end s = None
  \/ exists s', s = 10%N :: s' /\ blank_end s' = None.
Proof.
  destruct s as [|x s]; [left; reflexivity|]. intros H.
  cbn [tidy] in H. unfold blank_step in H. cbn [blank_end].
  destruct (is_space x); [|left; reflexivity]. cbn [negb] in H.
  destruct (N.eqb_spec x 10) as [->|Hx].
  - right. exists s. split; [reflexivity|].
    apply (@tidy_late s TwoNewlines); auto.
  - left. rewrite (@tidy_late s NewlineSpace); auto.
Qed.

(** [re.sub] with [\n\s*\n] changes nothing in a tidy text. *)
Lemma scan_blank_fixed :
  forall n s q,
    length s <= n -> tidy q s = true ->
    scan_sub blank_head [10%N; 10%N] s 0 = s.
Proof.
  induction n as [|n IH]; intros s q Hn H.
  - destruct s; [reflexivity | simpl in Hn; lia].
  - destruct s as [|x s]; [reflexivity|].
    assert (Hl : length s <= n) by (simpl in Hn; lia).
    cbn [scan_sub]. unfold blank_head. cbn [tidy] in H.
    destruct (blank_step q x) as [q'|] eqn:E; [|discriminate].
    destruct (N.eqb_spec x 10) as [->|Hx].
    + assert (Hq' : q' = OneNewline \/ q' = TwoNewlines)
        by (destruct q; try discriminate; injection E as <-; auto).
      destruct Hq' as [->| ->].
      * destruct (tidy_one _ H) as [B|(s' & -> & B)].
        -- rewrite B. cbn [option_map]. f_equal. eapply IH; eassumption.
        -- cbn [blank_end]. rewrite B. cbn [is_space in_range N.leb N.compare
             andb orb N.eqb Pos.eqb option_map app scan_sub].
           change (is_space 10) with true. cbn [option_map app scan_sub].
           f_equal. f_equal. apply (IH s' TwoNewlines).
           ++ simpl in Hl. lia.
           ++ exact H.
      * rewrite (@tidy_late s TwoNewlines) by auto. cbn [option_map].
        f_equal. eapply IH; eassumption.
    + f_equal. eapply IH; eassumption.
Qed.

Lemma scan_blank_length :
  forall n s, length s <= n ->
              length (scan_sub blank_head [10%N; 10%N] s 0) <= length s.
Proof.
  induction n as [|n IH]; intros s Hn.
  - destruct s; [simpl; lia | simpl in Hn; lia].
  - destruct s as [|x s]; [simpl; lia|].
    assert (Hl : length s <= n) by (simpl in Hn; lia).
    cbn [scan_sub].
    change (blank_head (x :: s))
      with (if (x =? 10)%N then option_map S (blank_end s) else None).
    destruct (x =? 10)%N.
    + destruct (blank_end s) as [m|] eqn:E; cbn [option_map].
      * pose proof (blank_end_bounds _ E) as B.
        rewrite scan_sub_skip by lia. cbn [app length].
        assert (L : length (scan_sub blank_head [10%N; 10%N] (skipn m s) 0)
                    <= length (skipn m s))
          by (apply IH; rewrite length_skipn; lia).
        rewrite length_skipn in L. lia.
      * cbn [length]. specialize (IH s Hl). lia.
    + cbn [length]. specialize (IH s Hl). lia.
Qed.

End BlankFacts.

(* ================================================================== *)
(** * Stripping and cutting *)

Module StripFacts.
Import Py Scan.

Lemma lstrip_by_skipn drop s : exists k, lstrip_by drop s = skipn k s.
Proof.
  induction s as [|x s (k & IH)]; [exists 0; reflexivity|]. cbn [lstrip_by].
  destruct (drop x); [exists (S k); exact IH | exists 0; reflexivity].
Qed.

Lemma rstrip_by_firstn drop s : exists k, rstrip_by drop s = firstn k s.
Proof.
  unfold rstrip_by. destruct (lstrip_by_skipn drop (rev s)) as (k & ->).
  exists (length s - k). rewrite skipn_rev. apply rev_involutive.
Qed.

Lemma lstrip_by_head drop s x tl :
  lstrip_by drop s = x :: tl -> drop x = false.
Proof.
  induction s as [|y s IH]; cbn [lstrip_by]; [discriminate|].
  destruct (drop y) eqn:E; [exact IH|]. intros H. injection H as <- _.
  exact E.
Qed.

Lemma rstrip_by_last drop s l x :
  rstrip_by drop s = l ++ [x] -> drop x = false.
Proof.
  unfold rstrip_by. intros H. apply (f_equal (@rev N)) in H.
  rewrite rev_involutive, rev_app_distr in H. cbn [rev app] in H.
  eapply lstrip_by_head. exact H.
Qed.

Lemma strip_first s x tl : strip s = x :: tl -> is_space x = false.
Proof.
  unfold strip. destruct (rstrip_by_firstn is_space (lstrip_by is_space s))
    as (k & ->).
  destruct (lstrip_by is_space s) as [|y u] eqn:E.
  - rewrite firstn_nil. discriminate.
  - destruct k; [discriminate|]. cbn [firstn]. intros H. injection H as <- _.
    eapply lstrip_by_head. exact E.
Qed.

Lemma strip_last s l x : strip s = l ++ [x] -> is_space x = false.
Proof. unfold strip. apply rstrip_by_last. Qed.

Lemma strip_segment s : exists a b, strip s = firstn a (skipn b s).
Proof.
  unfold strip. destruct (lstrip_by_skipn is_space s) as (b & ->).
  destruct (rstrip_by_firstn is_space (skipn b s)) as (a & ->).
  exists a, b. reflexivity.
Qed.

Lemma strip_fixed s :
  (forall x tl, s = x :: tl -> is_space x = false) ->
  (forall l x, s = l ++ [x] -> is_space x = false) ->
  strip s = s.
Proof.
  intros Hh Hl. apply DirectorFacts.strip_id; [exact Hh|].
  intros x tl E. apply (Hl (rev tl) x).
  rewrite <- (rev_involutive s), E. reflexivity.
Qed.

Lemma no_pair_tail P x s : no_pair P (x :: s) -> no_pair P s.
Proof. cbn [no_pair]. destruct s; [intros _; exact Logic.I | tauto]. Qed.

Lemma no_pair_skipn P k : forall s, no_pair P s -> no_pair P (skipn k s).
Proof.
  induction k as [|k IH]; intros s H; [exact H|].
  destruct s as [|x s]; [exact Logic.I|]. cbn [skipn]. apply IH.
  eapply no_pair_tail. exact H.
Qed.

Lemma no_pair_firstn P k : forall s, no_pair P s -> no_pair P (firstn k s).
Proof.
  induction k as [|k IH]; intros s H; [exact Logic.I|].
  destruct s as [|x s]; [exact Logic.I|]. cbn [firstn].
  pose proof (IH s (@no_pair_tail P x s H)) as T.
  destruct s as [|y s]; [destruct k; exact Logic.I|].
  destruct k as [|k]; [exact Logic.I|]. cbn [firstn] in *. cbn [no_pair] in *.
  split; [tauto | exact T].
Qed.

Lemma no_pair_infix P pre a b post :
  no_pair P (pre ++ a :: b :: post) -> (P a && P b) = false.
Proof.
  induction pre as [|x pre IH]; cbn [app].
  - cbn [no_pair]. tauto.
  - intros H. apply IH. eapply no_pair_tail. exact H.
Qed.

(** [s[:n]] is a prefix of [s], of length [n] at most when [n] is not
    negative. *)
Lemma slice_to s n : slice s 0 n = firstn (clip (length s) n) s.
Proof.
  unfold slice. change (clip (length s) 0) with (Nat.min (length s) 0).
  rewrite Nat.min_0_r, Nat.sub_0_r. reflexivity.
Qed.

End StripFacts.

(* ================================================================== *)
(** * [clean_text] *)

Module CleanText.
Import Py Re Scan ReFacts ScanFacts SqueezeFacts BlankFacts StripFacts
       PdfExtractor.

(** [clean_text] through the one-pass substitutions. *)
Lemma clean_text_scan text max_length :
  let stripped :=
    strip (squeeze (N.eqb 32) 32
                   (scan_sub blank_head [10%N; 10%N] text 0)) in
  clean_text text max_length
  = if (max_length <? Z.of_nat (length stripped))%Z
    then firstn (clip (length stripped) max_length) stripped
    else stripped.
Proof.
  unfold clean_text, spaces, chr. rewrite sub_blank_lines, sub_plus_cls.
  rewrite (@scan_sub_ext _ (run_head (N.eqb 32)) [32%N]).
  - cbv zeta. fold (squeeze (N.eqb 32) 32
                            (scan_sub blank_head [10%N; 10%N] text 0)).
    rewrite slice_to. reflexivity.
  - intros s. unfold run_head. cbn [ignorecase no_flags].
    rewrite (@run_length_ext _ (N.eqb 32)); [reflexivity|].
    intros x. rewrite cls_char. apply N.eqb_sym.
Qed.

(** The text after the two substitutions and [strip], and how it is
    cut. *)
Lemma clean_text_steps text max_length :
  let stripped :=
    strip (squeeze (N.eqb 32) 32
                   (scan_sub blank_head [10%N; 10%N] text 0)) in
  exists k,
    clean_text text max_length = firstn k stripped
    /\ ((0 <= max_length)%Z ->
        (Z.of_nat (Nat.min k (length stripped)) <= max_length)%Z)
    /\ ((Z.of_nat (length stripped) <= max_length)%Z ->
        clean_text text max_length = stripped).
Proof.
  rewrite clean_text_scan. cbv zeta. set (stripped := strip _).
  destruct (Z.ltb_spec max_length (Z.of_nat (length stripped))) as [H|H].
  - exists (clip (length stripped) max_length). split; [reflexivity|].
    split; [|lia]. intros H0. unfold clip.
    destruct (Z.ltb_spec max_length 0); lia.
  - exists (length stripped). split; [symmetry; apply firstn_all|].
    split; [lia | reflexivity].
Qed.

Lemma stripped_properties text :
  let stripped :=
    strip (squeeze (N.eqb 32) 32
                   (scan_sub blank_head [10%N; 10%N] text 0)) in
  length stripped <= length text
  /\ no_pair (N.eqb 32) stripped
  /\ tidy NoNewline stripped = true.
Proof.
  cbv zeta.
  destruct (strip_segment
              (squeeze (N.eqb 32) 32
                       (scan_sub blank_head [10%N; 10%N] text 0)))
    as (a & b & ->).
  split; [|split].
  - rewrite length_firstn, length_skipn.
    pose proof (squeeze_length (N.eqb 32) 32
                  (scan_sub blank_head [10%N; 10%N] text 0)).
    pose proof (@scan_blank_length (length text) text (Nat.le_refl _)). lia.
  - apply no_pair_firstn, no_pair_skipn, squeeze_no_pair.
  - apply tidy_firstn. apply (@tidy_skipn b _ NoNewline).
    apply tidy_squeeze. apply (@tidy_scan (length text)); auto.
Qed.

(** X8.  [clean_text] never returns more than it was given, and no more
    than [max_length] characters when [max_length] is not negative.  Its
    result does not start with white space and, when the whole text fits
    into [max_length], does not end with white space either. *)
Theorem clean_text_bounds :
  forall text max_length,
    let cleaned := clean_text text max_length in
    length cleaned <= length text
    /\ ((0 <= max_length)%Z -> (Z.of_nat (length cleaned) <= max_length)%Z)
    /\ (forall x rest, cleaned = x :: rest -> is_space x = false)
    /\ ((Z.of_nat (length text) <= max_length)%Z ->
        forall rest x, cleaned = rest ++ [x] -> is_space x = false).
Proof.
  intros text max_length. cbv zeta.
  destruct (clean_text_steps text max_length) as (k & E & Hk & Hfit).
  destruct (stripped_properties text) as (Hlen & _ & _).
  cbv zeta in E, Hk, Hfit, Hlen.
  set (stripped := strip (squeeze (N.eqb 32) 32
                            (scan_sub blank_head [10%N; 10%N] text 0))) in *.
  split; [|split; [|split]].
  - rewrite E, length_firstn. lia.
  - intros H0. rewrite E, length_firstn. specialize (Hk H0). lia.
  - rewrite E. intros x rest Ex. destruct stripped as [|y u] eqn:Es.
    + rewrite firstn_nil in Ex. discriminate.
    + destruct k; [discriminate|]. cbn [firstn] in Ex. injection Ex as <- _.
      eapply strip_first. exact Es.
  - intros Hfit' rest x Ex. rewrite Hfit in Ex by lia.
    eapply strip_last. exact Ex.
Qed.

(** X9.  The result of [clean_text] has no two spaces side by side, and two
    of its newlines with nothing but white space between them are
    neighbours: a run of blank lines is one empty line. *)
Theorem clean_text_spacing :
  forall text max_length,
    let cleaned := clean_text text max_length in
    (forall pre post, cleaned <> pre ++ 32%N :: 32%N :: post)
    /\ (forall pre mid post,
          cleaned = pre ++ 10%N :: mid ++ 10%N :: post ->
          Forall (fun x => is_space x = true) mid -> mid = []).
Proof.
  intros text max_length. cbv zeta.
  destruct (clean_text_steps text max_length) as (k & E & _ & _).
  destruct (stripped_properties text) as (_ & Hp & Ht).
  cbv zeta in E, Hp, Ht. rewrite E.
  split.
  - intros pre post Ex.
    pose proof (@no_pair_firstn (N.eqb 32) k _ Hp) as N. rewrite Ex in N.
    apply no_pair_infix in N. discriminate.
  - intros pre mid post Ex Hm.
    pose proof (@tidy_firstn k _ _ Ht) as T. rewrite Ex in T.
    eapply tidy_separated; eassumption.
Qed.

(** X10.  Cleaning a text that fits is idempotent: when the whole text fits
    into [max_length], cleaning the result again changes nothing. *)
Theorem clean_text_idempotent :
  forall text max_length,
    (Z.of_nat (length text) <= max_length)%Z ->
    clean_text (clean_text text max_length) max_length
    = clean_text text max_length.
Proof.
  intros text max_length Hfit.
  destruct (clean_text_steps text max_length) as (_ & _ & _ & E).
  destruct (stripped_properties text) as (Hlen & Hp & Ht).
  cbv zeta in E, Hlen, Hp, Ht.
  set (stripped := strip (squeeze (N.eqb 32) 32
                            (scan_sub blank_head [10%N; 10%N] text 0))) in *.
  rewrite E by lia.
  destruct (clean_text_steps stripped max_length) as (_ & _ & _ & E2).
  cbv zeta in E2.
  rewrite (@scan_blank_fixed (length stripped) stripped NoNewline) in E2
    by (try exact Ht; lia).
  rewrite squeeze_fixed in E2.
  - assert (S : strip stripped = stripped).
    { apply strip_fixed.
      - intros x tl Ex. eapply strip_first. exact Ex.
      - intros l x Ex. eapply strip_last. exact Ex. }
    rewrite S in E2. apply E2. lia.
  - exact Hp.
  - intros y _ Hy. apply N.eqb_eq in Hy. symmetry. exact Hy.
Qed.

(** A short text with two spaces in a row. *)
Lemma clean_text_idempotent_witness :
  clean_text (clean_text (lit "a  b") 1500) 1500 = lit "a b".
Proof.
  rewrite (@clean_text_idempotent (lit "a  b") 1500).
  - vm_compute. reflexivity.
  - vm_compute. discriminate.
Defined.

End CleanText.

(* ================================================================== *)
(** * The JSON object of a response *)

Module JsonFacts.
Import Py Re Scan Utils ReFacts ScanFacts SqueezeFacts PdfExtractor.

Lemma greedy_ext_in {A} (P1 P2 : N -> bool) lo (k1 k2 : cont A) :
  (forall l c, k1 l c = k2 l c) ->
  forall s count i c,
    Forall (fun x => P1 x = P2 x) s ->
    greedy P1 lo k1 s count i c = greedy P2 lo k2 s count i c.
Proof.
  intros Hk. induction s as [|x s IH]; intros count i c Hs; cbn [greedy].
  - rewrite Hk. reflexivity.
  - inversion Hs as [|? ? Hx Hs']; subst. rewrite Hx, IH, Hk by exact Hs'.
    reflexivity.
Qed.

Lemma no_brace_class x :
  (x <= 1114111)%N ->
  cls_mem false [CRange 0 122; CChar 124; CRange 126 1114111] x = not_brace x.
Proof.
  intros Hx. unfold cls_mem, not_brace. cbn [existsb item_mem andb].
  rewrite !orb_false_r. unfold in_range.
  destruct (N.leb_spec 0 x); destruct (N.leb_spec x 122);
    destruct (N.eqb_spec x 124); destruct (N.leb_spec 126 x);
    destruct (N.leb_spec x 1114111); destruct (N.eqb_spec x 123);
    destruct (N.eqb_spec x 125); cbn [andb orb negb]; try reflexivity; lia.
Qed.

Lemma greedy_brace (t : str) (mk : nat -> caps -> rmatch) :
  forall s count i c,
    skipn i t = s ->
    greedy not_brace 0
           (fun l c' =>
              match nth_error t l with
              | Some y => if (y =? 125)%N then Some (mk (S l) c') else None
              | None => None
              end) s count i c
    = match skipn (run_length not_brace s) s with
      | y :: _ =>
          if (y =? 125)%N
          then Some (mk (S (i + run_length not_brace s)) c)
          else None
      | [] => None
      end.
Proof.
  induction s as [|x s IH]; intros count i c Hs; cbn [greedy run_length].
  - apply skipn_nil_nth in Hs. rewrite Hs. reflexivity.
  - apply skipn_cons_nth in Hs. destruct Hs as (Hn & Hs). rewrite Hn.
    cbn [Nat.leb]. destruct (not_brace x) eqn:Ex.
    + rewrite (IH (S count) (S i) c Hs). cbn [skipn].
      replace (S i + run_length not_brace s)
        with (i + S (run_length not_brace s)) by lia.
      destruct (skipn (run_length not_brace s) s) as [|y u].
      * unfold not_brace in Ex. destruct (x =? 125)%N; [|reflexivity].
        rewrite orb_true_r in Ex. discriminate.
      * destruct (y =? 125)%N; [reflexivity|].
        unfold not_brace in Ex. destruct (x =? 125)%N; [|reflexivity].
        rewrite orb_true_r in Ex. discriminate.
    + cbn [skipn]. rewrite Nat.add_0_r. reflexivity.
Qed.

Lemma code_points_skipn k s : code_points s -> code_points (skipn k s).
Proof.
  unfold code_points. intros H. rewrite <- (firstn_skipn k s) in H.
  apply Forall_app in H. tauto.
Qed.

Lemma match_at_json (t : str) j :
  code_points t -> j <= length t ->
  option_map span (match_at no_flags t json_object j)
  = option_map (fun n => (j, j + n)) (json_head (skipn j t)).
Proof.
  intros Ht Hj. unfold match_at, json_object, json_head, no_brace.
  change (seqs [chr 123; star (Cls [CRange 0 122; CChar 124;
                                    CRange 126 1114111]); chr 125])
    with (Seq (Cls [CChar 123])
              (Seq (Rep 0 None true (Cls [CRange 0 122; CChar 124;
                                          CRange 126 1114111]))
                   (Cls [CChar 125]))).
  cbn [run ignorecase no_flags].
  destruct (skipn j t) as [|x s] eqn:Hs.
  - apply skipn_nil_nth in Hs. rewrite Hs. reflexivity.
  - pose proof (code_points_skipn (S j) Ht) as Hc.
    apply skipn_cons_nth in Hs. destruct Hs as (Hn & Hs). rewrite Hn.
    rewrite cls_char. destruct (x =? 123)%N; [|reflexivity].
    rewrite (@rep_loop_greedy no_flags t rmatch
               [CRange 0 122; CChar 124; CRange 126 1114111] 0 _ s)
      by (try exact Hs; rewrite <- Hs, length_skipn; lia).
    cbn [ignorecase no_flags].
    rewrite (@greedy_ext_in rmatch _ not_brace 0 _
               (fun l c' =>
                  match nth_error t l with
                  | Some y =>
                      if (y =? 125)%N
                      then Some ((fun e c0 => {| m_start := j; m_end := e;
                                                 m_caps := c0 |}) (S l) c')
                      else None
                  | None => None
                  end)).
    + rewrite (@greedy_brace t (fun e c0 => {| m_start := j; m_end := e;
                                                m_caps := c0 |}) s 0 (S j) []
                 Hs).
      cbv zeta.
      destruct (skipn (run_length not_brace s) s) as [|y u]; [reflexivity|].
      destruct (y =? 125)%N; cbn [option_map]; [|reflexivity].
      unfold span. cbn [m_start m_end]. f_equal. f_equal. lia.
    + intros l c'. destruct (nth_error t l) as [y|]; [|reflexivity].
      rewrite cls_char. reflexivity.
    + rewrite Hs in Hc. unfold code_points in Hc.
      eapply Forall_impl; [|exact Hc]. intros y Hy. apply no_brace_class.
      exact Hy.
Qed.

Lemma run_length_all P s rest :
  Forall (fun x => P x = true) s ->
  match rest with [] => True | y :: _ => P y = false end ->
  run_length P (s ++ rest) = length s.
Proof.
  intros Hs Hr. induction Hs as [|x s Hx Hs IH]; cbn [app run_length length].
  - destruct rest as [|y rest]; [reflexivity|]. cbn [run_length].
    rewrite Hr. reflexivity.
  - rewrite Hx, IH. reflexivity.
Qed.

Lemma run_length_split P s :
  exists run rest,
    s = run ++ rest /\ Forall (fun x => P x = true) run
    /\ length run = run_length P s.
Proof.
  induction s as [|x s (run & rest & E & Hr & Hl)].
  - exists [], []. repeat split. constructor.
  - cbn [run_length]. destruct (P x) eqn:Ex.
    + exists (x :: run), rest. rewrite E at 1. split; [reflexivity|].
      split; [constructor; assumption | simpl; lia].
    + exists [], (x :: s). repeat split. constructor.
Qed.

(** [json_head] finds the objects of a text. *)
Lemma json_head_object s n :
  json_head s = Some n
  <-> exists body post,
        s = 123%N :: body ++ 125%N :: post
        /\ Forall (fun x => not_brace x = true) body
        /\ n = length body + 2.
Proof.
  unfold json_head. destruct s as [|x s].
  { split; [discriminate|]. intros (body & post & E & _). discriminate. }
  destruct (N.eqb_spec x 123) as [->|Hx].
  2:{ split; [discriminate|]. intros (body & post & E & _).
      injection E as -> _. congruence. }
  cbv zeta. split.
  - intros H. destruct (run_length_split not_brace s)
      as (run & rest & E & Hr & Hl).
    rewrite <- Hl in H. rewrite E in H.
    rewrite skipn_app, Nat.sub_diag, skipn_all in H. cbn [app skipn] in H.
    destruct rest as [|y rest]; [discriminate|].
    destruct (N.eqb_spec y 125) as [->|Hy]; [|discriminate].
    injection H as <-. exists run, rest. rewrite E. auto.
  - intros (body & post & E & Hb & ->). injection E as ->.
    rewrite (@run_length_all not_brace body (125%N :: post) Hb)
      by reflexivity.
    rewrite skipn_app, Nat.sub_diag, skipn_all. cbn [app skipn].
    reflexivity.
Qed.

Lemma json_head_not_empty s n : json_head s = Some n -> 0 < n <= length s.
Proof.
  intros H. apply json_head_object in H.
  destruct H as (body & post & -> & _ & ->).
  cbn [length]. rewrite length_app. cbn [length]. lia.
Qed.

Section FirstMatch.
Variable h : head_match.

Lemma first_match_found :
  forall a s i n,
    h (skipn a s) = Some n ->
    (forall k, k < a -> h (skipn k s) = None) ->
    first_match h s i = Some (i + a, i + a + n).
Proof.
  induction a as [|a IH]; intros s i n Ha Hk.
  - cbn [skipn] in Ha. destruct s; cbn [first_match]; rewrite Ha;
      rewrite Nat.add_0_r; reflexivity.
  - pose proof (Hk 0 (Nat.lt_0_succ a)) as H0. cbn [skipn] in H0.
    destruct s as [|x s].
    + cbn [skipn] in Ha. congruence.
    + cbn [first_match]. rewrite H0. cbn [skipn] in Ha.
      rewrite (IH s (S i) n Ha).
      * f_equal. f_equal; lia.
      * intros k Hlt. apply (Hk (S k)). lia.
Qed.

Lemma first_match_none :
  forall s i, first_match h s i = None -> forall k, h (skipn k s) = None.
Proof.
  induction s as [|x s IH]; intros i H k; cbn [first_match] in H.
  - destruct (h []) eqn:E; [discriminate|]. destruct k; exact E.
  - destruct (h (x :: s)) eqn:E; [discriminate|].
    destruct k as [|k]; [exact E|]. cbn [skipn]. eapply IH. exact H.
Qed.

Lemma first_match_some :
  forall s i a b,
    first_match h s i = Some (a, b) ->
    i <= a /\ h (skipn (a - i) s) = Some (b - a).
Proof.
  induction s as [|x s IH]; intros i a b H; cbn [first_match] in H.
  - destruct (h []) as [n|] eqn:E; [|discriminate]. injection H as <- <-.
    rewrite Nat.sub_diag. cbn [skipn]. rewrite E. split; [lia|].
    f_equal. lia.
  - destruct (h (x :: s)) as [n|] eqn:E.
    + injection H as <- <-. rewrite Nat.sub_diag. cbn [skipn]. rewrite E.
      split; [lia|]. f_equal. lia.
    + apply IH in H. destruct H as (Hle & H). split; [lia|].
      replace (a - i) with (S (a - S i)) by lia. exact H.
Qed.

Lemma first_match_least :
  forall s i a b,
    first_match h s i = Some (a, b) ->
    forall k, k < a - i -> h (skipn k s) = None.
Proof.
  induction s as [|x s IH]; intros i a b H k Hk; cbn [first_match] in H.
  - destruct (h []) as [n|] eqn:E; [|discriminate]. injection H as <- <-.
    lia.
  - destruct (h (x :: s)) as [n|] eqn:E.
    + injection H as <- <-. lia.
    + destruct k as [|k]; [exact E|]. cbn [skipn].
      apply (IH (S i) a b H). lia.
Qed.

End FirstMatch.

End JsonFacts.

(* ================================================================== *)
(** * [pdf_extractor.py]: reading and parsing *)

Module Reading.
Import Py Re Scan Utils ReFacts ScanFacts SqueezeFacts StripFacts JsonFacts
       PdfExtractor.

Lemma search_json json_loads response :
  code_points response ->
  parse_json_response json_loads response
  = match first_match json_head response 0 with
    | Some (a, b) => parsed_fields json_loads (substr response a b)
    | None => Parsed null_result
    end.
Proof.
  intros Hc. unfold parse_json_response, search.
  pose proof (@search_from_first_match no_flags response json_object
                json_head (fun j Hj => match_at_json Hc Hj)
                json_head_not_empty 0 (Nat.le_0_l _)) as S.
  cbn [skipn] in S.
  destruct (search_from no_flags response json_object 0) as [m|];
    cbn [option_map] in S; rewrite <- S; reflexivity.
Qed.

Lemma parsed_fields_keys json_loads json_str fields :
  parsed_fields json_loads json_str = Parsed fields ->
  map fst fields = [lit "name"; lit "designation"].
Proof.
  unfold parsed_fields. destruct (json_loads json_str) as [data| |name];
    [| |discriminate].
  - destruct (_ && _); intros E; injection E as <-; reflexivity.
  - intros E. injection E as <-. reflexivity.
Qed.

(** X11.  [parse_json_response] hands to the JSON parser the first text in
    braces that has no brace inside: of an object that holds another
    object, or a string with a brace, only an inner part is parsed.  What
    it returns has the keys [name] and [designation]: the two fields of
    the parsed object when both are there, and null values when the
    response has no such text, when the parser raises
    [json.JSONDecodeError], or when one of the fields is missing.  Any
    other exception of the parser is not caught: it leaves
    [parse_json_response], and nothing else does. *)
Theorem parse_json_response_first_object :
  forall (json_loads : str -> loaded) response,
    code_points response ->
    (forall fields,
        parse_json_response json_loads response = Parsed fields ->
        map fst fields = [lit "name"; lit "designation"])
    /\ ((forall pre body post, ~ object_at response pre body post) ->
        parse_json_response json_loads response = Parsed null_result)
    /\ (forall pre body post,
          object_at response pre body post ->
          (forall pre' body' post',
              object_at response pre' body' post' ->
              length pre <= length pre') ->
          parse_json_response json_loads response
          = parsed_fields json_loads (123%N :: body ++ [125%N]))
    /\ (forall name,
          parse_json_response json_loads response = Uncaught name ->
          exists pre body post,
            object_at response pre body post
            /\ (forall pre' body' post',
                  object_at response pre' body' post' ->
                  length pre <= length pre')
            /\ json_loads (123%N :: body ++ [125%N]) = OtherException name).
Proof.
  intros json_loads response Hc. rewrite (search_json json_loads Hc).
  split; [|split; [|split]].
  - intros fields.
    destruct (first_match json_head response 0) as [[a b]|].
    + apply parsed_fields_keys.
    + intros E. injection E as <-. reflexivity.
  - intros Hno. destruct (first_match json_head response 0) as [[a b]|] eqn:E;
      [|reflexivity].
    exfalso. apply first_match_some in E. destruct E as (_ & E).
    apply json_head_object in E. destruct E as (body & post & E & Hb & _).
    apply (Hno (firstn (a - 0) response) body post). split; [|exact Hb].
    rewrite <- E. symmetry. apply firstn_skipn.
  - intros pre body post (E & Hb) Hfirst.
    assert (Ha : json_head (skipn (length pre) response)
                 = Some (length body + 2)).
    { apply json_head_object. exists body, post. split; [|auto].
      rewrite E, skipn_app, Nat.sub_diag, skipn_all. reflexivity. }
    assert (Hk : forall k, k < length pre ->
                           json_head (skipn k response) = None).
    { intros k Hk. destruct (json_head (skipn k response)) as [n|] eqn:En;
        [|reflexivity].
      exfalso. apply json_head_object in En.
      destruct En as (body' & post' & E' & Hb' & _).
      assert (O : object_at response (firstn k response) body' post').
      { split; [|exact Hb']. rewrite <- E'. symmetry. apply firstn_skipn. }
      apply Hfirst in O. rewrite length_firstn in O. lia. }
    rewrite (@first_match_found json_head (length pre) response 0 _ Ha Hk).
    cbn [Nat.add]. f_equal. unfold substr.
    replace (length pre + (length body + 2) - length pre)
      with (length body + 2) by lia.
    rewrite E, skipn_app, Nat.sub_diag, skipn_all. cbn [app skipn].
    replace (length body + 2) with (S (length body + 1)) by lia.
    cbn [firstn]. f_equal. rewrite firstn_app.
    replace (length body + 1 - length body) with 1 by lia.
    rewrite firstn_all2 by lia. reflexivity.
  - intros name.
    destruct (first_match json_head response 0) as [[a b]|] eqn:E;
      [|discriminate].
    pose proof (first_match_least _ _ _ E) as Hleast.
    apply first_match_some in E. destruct E as (_ & E).
    rewrite Nat.sub_0_r in E, Hleast.
    apply json_head_object in E. destruct E as (body & post & E & Hb & Hn).
    intros Hu. exists (firstn a response), body, post.
    split; [|split].
    + split; [|exact Hb]. rewrite <- E. symmetry. apply firstn_skipn.
    + intros pre' body' post' (E' & Hb').
      destruct (Nat.le_gt_cases a (length pre')) as [Hle|Hgt];
        [rewrite length_firstn; lia|].
      exfalso.
      assert (J : json_head (skipn (length pre') response)
                  = Some (length body' + 2)).
      { apply json_head_object. exists body', post'. split; [|auto].
        rewrite E' at 1. rewrite skipn_app, Nat.sub_diag, skipn_all.
        reflexivity. }
      rewrite (Hleast _ Hgt) in J. discriminate.
    + unfold parsed_fields in Hu.
      assert (Es : substr response a b = 123%N :: body ++ [125%N]).
      { unfold substr. rewrite E, Hn.
        replace (length body + 2) with (S (length body + 1)) by lia.
        cbn [firstn]. f_equal. rewrite firstn_app.
        replace (length body + 1 - length body) with 1 by lia.
        rewrite firstn_all2 by lia. reflexivity. }
      rewrite Es in Hu.
      destruct (json_loads (123%N :: body ++ [125%N])) as [data| |name'];
        [destruct (_ && _); discriminate | discriminate|].
      injection Hu as ->. reflexivity.
Qed.

(** An object within an object: the inner one is what is parsed. *)
Lemma parse_json_response_first_object_witness :
  parse_json_response Fixtures.one_object_parser Fixtures.nested_response
  = Parsed [(lit "name", VStr (lit "Ann Lee"));
            (lit "designation", VStr (lit "CFO"))].
Proof.
  assert (Hc : code_points Fixtures.nested_response)
    by (repeat constructor; vm_compute; discriminate).
  destruct (@parse_json_response_first_object Fixtures.one_object_parser
              _ Hc) as (_ & _ & H & _).
  rewrite (H (lit "x {a ") (lit "b") (lit " c} y")).
  - reflexivity.
  - split; [reflexivity|]. repeat constructor.
  - intros pre' body' post' (E & Hb).
    destruct (Nat.le_gt_cases 5 (length pre')) as [Hle|Hgt]; [exact Hle|].
    exfalso.
    assert (J : json_head (skipn (length pre') Fixtures.nested_response)
                = Some (length body' + 2)).
    { apply json_head_object. exists body', post'. split; [|auto].
      rewrite E at 1. rewrite skipn_app, Nat.sub_diag, skipn_all.
      reflexivity. }
    destruct (length pre') as [|[|[|[|[|k]]]]];
      try (vm_compute in J; discriminate).
    lia.
Defined.

Lemma lstrip_by_empty drop s :
  lstrip_by drop s = [] <-> Forall (fun x => drop x = true) s.
Proof.
  induction s as [|x s IH]; cbn [lstrip_by].
  - split; [constructor | reflexivity].
  - destruct (drop x) eqn:E.
    + rewrite IH. split; [intros H; constructor; assumption|].
      intros H. inversion H; assumption.
    + split; [discriminate|]. intros H. inversion H; congruence.
Qed.

Lemma strip_empty s :
  strip s = [] <-> Forall (fun x => is_space x = true) s.
Proof.
  unfold strip, rstrip_by. split.
  - intros H. apply (f_equal (@rev N)) in H. rewrite rev_involutive in H.
    cbn [rev] in H. apply lstrip_by_empty in H.
    apply Forall_rev in H. rewrite rev_involutive in H.
    destruct (lstrip_by is_space s) as [|y u] eqn:E.
    + apply lstrip_by_empty. exact E.
    + apply lstrip_by_head in E. inversion H; congruence.
  - intros H. apply lstrip_by_empty in H. rewrite H. reflexivity.
Qed.

Lemma page_texts_In pages x :
  In x (page_texts pages)
  <-> (exists page, In (Some page) pages /\ In x page)
      \/ (x = 10%N /\ exists page, In (Some page) pages /\ page <> []).
Proof.
  induction pages as [|p pages IH]; cbn [page_texts].
  - split; [intros [] | intros [(page & [] & _)|(_ & page & [] & _)]].
  - destruct p as [[|c page_text]|].
    + rewrite IH. split.
      * intros [(page & Hp & Hx)|(-> & page & Hp & Hn)].
        -- left. exists page. split; [right|]; assumption.
        -- right. split; [reflexivity|]. exists page.
           split; [right|]; assumption.
      * intros [(page & [E|Hp] & Hx)|(-> & page & [E|Hp] & Hn)].
        -- injection E as <-. destruct Hx.
        -- left. eauto.
        -- injection E as <-. congruence.
        -- right. eauto.
    + split.
      * intros H. apply in_app_or in H. destruct H as [H|H].
        -- left. exists (c :: page_text). split; [left; reflexivity|exact H].
        -- apply in_app_or in H. destruct H as [[<-|[]]|H].
           ++ right. split; [reflexivity|]. exists (c :: page_text).
              split; [left; reflexivity | discriminate].
           ++ apply IH in H.
              destruct H as [(page & Hp & Hx)|(-> & page & Hp & Hn)].
              ** left. exists page. split; [right|]; assumption.
              ** right. split; [reflexivity|]. exists page.
                 split; [right|]; assumption.
      * intros H. apply in_or_app.
        destruct H as [(page & [E|Hp] & Hx)|(-> & page & Hp & Hn)].
        -- injection E as <-. left. exact Hx.
        -- right. apply in_or_app. right. apply IH. left. eauto.
        -- right. apply in_or_app. left. left. reflexivity.
    + rewrite IH. split.
      * intros [(page & Hp & Hx)|(-> & page & Hp & Hn)].
        -- left. exists page. split; [right|]; assumption.
        -- right. split; [reflexivity|]. exists page.
           split; [right|]; assumption.
      * intros [(page & [E|Hp] & Hx)|(-> & page & [E|Hp] & Hn)];
          try discriminate.
        -- left. eauto.
        -- right. eauto.
Qed.

Lemma page_texts_end pages :
  page_texts pages = [] \/ exists body, page_texts pages = body ++ [10%N].
Proof.
  induction pages as [|p pages IH]; [left; reflexivity|].
  cbn [page_texts]. destruct p as [[|c page_text]|]; try exact IH.
  right. destruct IH as [->|(body & ->)].
  - exists (c :: page_text). reflexivity.
  - exists ((c :: page_text) ++ [10%N] ++ body).
    rewrite <- !app_assoc. reflexivity.
Qed.

(** X12.  [extract_text_from_pdf] returns a text exactly when the file
    exists, can be read, and some page has a character that is not white
    space.  The text is then the text of the pages that have some, each
    followed by a newline, in page order.  A missing file, a file that
    cannot be read, and pages with nothing but white space each raise their
    own exception. *)
Theorem extract_text_from_pdf_outcomes :
  forall path_exists doc,
    match extract_text_from_pdf path_exists doc with
    | inl FileNotFoundError => path_exists = false
    | inl ReadFailed => path_exists = true /\ doc = None
    | inl NoText =>
        path_exists = true
        /\ exists pages,
             doc = Some pages
             /\ forall page x,
                  In (Some page) pages -> In x page -> is_space x = true
    | inr text =>
        path_exists = true
        /\ exists pages,
             doc = Some pages
             /\ text = page_texts pages
             /\ (exists page x,
                    In (Some page) pages /\ In x page /\ is_space x = false)
             /\ exists body, text = body ++ [10%N]
    end.
Proof.
  intros path_exists doc. unfold extract_text_from_pdf.
  destruct path_exists; cbn [negb]; [|reflexivity].
  destruct doc as [pages|]; [|auto].
  destruct (strip (page_texts pages)) as [|y u] eqn:E.
  - split; [reflexivity|]. exists pages. split; [reflexivity|].
    intros page x Hp Hx. apply strip_empty in E.
    rewrite Forall_forall in E. apply E. apply page_texts_In. left. eauto.
  - split; [reflexivity|]. exists pages. split; [reflexivity|].
    split; [reflexivity|]. split.
    + assert (H : ~ Forall (fun x => is_space x = true) (page_texts pages)).
      { intros H. apply strip_empty in H. congruence. }
      apply neg_Forall_Exists_neg in H.
      2:{ intros x. destruct (is_space x); [left|right]; congruence. }
      apply Exists_exists in H. destruct H as (x & Hx & Hs).
      apply page_texts_In in Hx.
      destruct Hx as [(page & Hp & Hin)|(-> & _)].
      * exists page, x. split; [exact Hp|]. split; [exact Hin|].
        destruct (is_space x); congruence.
      * exfalso. apply Hs. reflexivity.
    + destruct (page_texts_end pages) as [H|H]; [|exact H].
      rewrite H in E. discriminate.
Qed.

End Reading.

(* ================================================================== *)
(** * What the groups of the record patterns capture *)

Module CaptureFacts.
Import Py Re App Scan Shape ReFacts PyFacts AppFacts DirectorFacts ScanFacts
       SqueezeFacts StripFacts.

Section Classes.
Variable fl : flags.
Variable t : str.

Lemma cls_iter items n :
  forall i c j c',
    iter (matches fl t (Cls items)) n i c j c' ->
    j = i + n /\ c' = c
    /\ Forall (fun x => cls_mem (ignorecase fl) items x = true) (substr t i j)
    /\ length (substr t i j) = n.
Proof.
  induction n as [|n IH]; cbn [iter]; intros i c j c' H.
  - destruct H as [-> ->]. rewrite substr_empty.
    split; [lia|]. split; [reflexivity|]. split; [constructor|reflexivity].
  - destruct H as (l & c1 & (x & Hn & Hx & -> & ->) & _ & Hit).
    apply IH in Hit. destruct Hit as (-> & -> & Hf & Hlen).
    assert (Hlt : i < S i + n) by lia.
    rewrite (substr_cons t Hn Hlt).
    split; [lia|]. split; [reflexivity|].
    split; [constructor; assumption|]. cbn [length]. rewrite Hlen.
    reflexivity.
Qed.

Lemma rep_cls_matches lo hi greedy items i c j c' :
  matches fl t (Rep lo hi greedy (Cls items)) i c j c' ->
  i <= j /\ c' = c
  /\ Forall (fun x => cls_mem (ignorecase fl) items x = true) (substr t i j)
  /\ lo <= length (substr t i j).
Proof.
  intros (n & Hlo & _ & Hit). apply cls_iter in Hit.
  destruct Hit as (-> & -> & Hf & Hlen).
  split; [lia|]. split; [reflexivity|]. split; [exact Hf | lia].
Qed.

End Classes.

Lemma name_class x :
  cls_mem false [CRange 65 90; CRange 97 122; CRange 48 57;
                 CChar 45; CChar 44; CChar 38; CChar 46; CSpace] x
  = name_character x.
Proof.
  unfold cls_mem, name_character, is_ascii_letter, is_ascii_upper,
    is_ascii_lower, is_digit. cbn [existsb item_mem andb].
  rewrite !orb_false_r, !orb_assoc. reflexivity.
Qed.

Lemma upper_class x : cls_mem false [CRange 65 90] x = is_ascii_upper x.
Proof.
  unfold cls_mem. cbn [existsb item_mem andb]. rewrite !orb_false_r.
  reflexivity.
Qed.

Lemma lower_class x : cls_mem false [CRange 97 122] x = is_ascii_lower x.
Proof.
  unfold cls_mem. cbn [existsb item_mem andb]. rewrite !orb_false_r.
  reflexivity.
Qed.

Lemma Forall_ext_in {X} (P Q : X -> Prop) l :
  (forall x, P x -> Q x) -> Forall P l -> Forall Q l.
Proof. intros H. apply Forall_impl. exact H. Qed.

Section Groups.
Variable t : str.

(** [[A-Z][A-Za-z0-9\-,&\.\s]{2,hi}?] *)
Lemma name_group_matches hi i c j c' :
  matches M t (seqs [upper; lazy_range 2 hi name_char]) i c j c' ->
  c' = c
  /\ exists x rest,
       substr t i j = x :: rest
       /\ is_ascii_upper x = true
       /\ Forall (fun y => name_character y = true) rest
       /\ 2 <= length rest.
Proof.
  change (matches M t (Seq (Cls [CRange 65 90])
                           (Rep 2 (Some hi) false
                                (Cls [CRange 65 90; CRange 97 122;
                                      CRange 48 57; CChar 45; CChar 44;
                                      CChar 38; CChar 46; CSpace])))
                  i c j c' -> c' = c
          /\ exists x rest,
               substr t i j = x :: rest
               /\ is_ascii_upper x = true
               /\ Forall (fun y => name_character y = true) rest
               /\ 2 <= length rest).
  intros (l & c1 & (x & Hn & Hx & -> & ->) & Hrest).
  apply rep_cls_matches in Hrest. destruct Hrest as (Hle & -> & Hf & Hlen).
  split; [reflexivity|]. exists x, (substr t (S i) j).
  assert (Hlt : i < j).
  { destruct (Nat.eq_dec (S i) j) as [<-|]; [|lia].
    rewrite substr_empty in Hlen. simpl in Hlen. lia. }
  split; [apply substr_cons; assumption|].
  cbn [ignorecase M] in *. rewrite upper_class in Hx.
  split; [exact Hx|]. split; [|exact Hlen].
  eapply Forall_ext_in; [|exact Hf]. intros y Hy. rewrite <- name_class.
  exact Hy.
Qed.

(** [[A-Z][a-z]+(?:\s+[A-Z]{2})?] *)
Lemma jurisdiction_matches i c j c' :
  matches M t jurisdiction_re i c j c' ->
  c' = c /\ jurisdiction_shape (substr t i j).
Proof.
  unfold jurisdiction_re.
  change (matches M t
            (Seq (Cls [CRange 65 90])
                 (Seq (Rep 1 None true (Cls [CRange 97 122]))
                      (Rep 0 (Some 1) true
                           (Seq (Rep 1 None true (Cls [CSpace]))
                                (Rep 2 (Some 2) true (Cls [CRange 65 90]))))))
            i c j c' -> c' = c /\ jurisdiction_shape (substr t i j)).
  intros (l1 & c1 & (x & Hn & Hx & -> & ->) & l2 & c2 & Hlow & n & _ & Hn1 & Hit).
  apply rep_cls_matches in Hlow. destruct Hlow as (Hle & -> & Hlf & Hll).
  cbn [ignorecase M] in *. rewrite upper_class in Hx.
  assert (Hlow : Forall (fun y => is_ascii_lower y = true) (substr t (S i) l2)).
  { eapply Forall_ext_in; [|exact Hlf]. intros y Hy.
    rewrite <- lower_class. exact Hy. }
  assert (Hne : substr t (S i) l2 <> []).
  { intros E. rewrite E in Hll. simpl in Hll. lia. }
  simpl in Hn1. destruct n as [|[|n]]; [| |lia]; cbn [iter] in Hit.
  - destruct Hit as [-> ->]. split; [reflexivity|].
    exists x, (substr t (S i) l2), [].
    rewrite app_nil_r. split; [apply substr_cons; [exact Hn | lia]|].
    auto.
  - destruct Hit as (l3 & c3 & (l4 & c4 & Hsp & m & Hm2 & Hm2' & Hup) & _
                     & -> & ->).
    apply rep_cls_matches in Hsp. destruct Hsp as (Hle2 & -> & Hsf & Hsl).
    apply cls_iter in Hup. destruct Hup as (-> & -> & Huf & Hul).
    simpl in Hm2'. assert (m = 2) by lia. subst m.
    split; [reflexivity|].
    exists x, (substr t (S i) l2), (substr t l2 (l4 + 2)).
    split.
    { rewrite (substr_cons t Hn) by lia. f_equal.
      apply OwnerFacts.substr_split; lia. }
    split; [exact Hx|]. split; [exact Hne|]. split; [exact Hlow|].
    right.
    destruct (substr t l4 (l4 + 2)) as [|u1 [|u2 [|u3 us]]] eqn:Eu;
      try (simpl in Hul; lia).
    exists (substr t l2 l4), u1, u2.
    split; [rewrite <- Eu; apply OwnerFacts.substr_split; lia|].
    split; [intros E; rewrite E in Hsl; simpl in Hsl; lia|].
    split.
    { eapply Forall_ext_in; [|exact Hsf]. intros y Hy.
      cbv beta in Hy. rewrite cls_space in Hy. exact Hy. }
    inversion Huf as [|? ? H1 Huf']; subst.
    inversion Huf' as [|? ? H2 _]; subst.
    cbn [ignorecase M] in *. rewrite upper_class in H1, H2. auto.
Qed.

End Groups.

(** The two groups of a subsidiary match. *)
Lemma exhibit21_groups text p m :
  In p exhibit21_patterns -> In m (finditer M p text) ->
  (exists x rest,
      group_text text m 1 = x :: rest
      /\ is_ascii_upper x = true
      /\ Forall (fun y => name_character y = true) rest
      /\ 2 <= length rest)
  /\ jurisdiction_shape (group_text text m 2).
Proof.
  intros Hp Hin.
  pose proof (finditer_sound M p text) as F.
  rewrite Forall_forall in F. destruct (F _ Hin) as (_ & Hm).
  destruct Hp as [<-|[<-|[]]].
  - unfold exhibit21_paren in Hm.
    change (matches M text
              (Seq Bol
                 (Seq (star space)
                    (Seq (Grp 1 (seqs [upper; lazy_range 2 90 name_char]))
                       (Seq (star space)
                          (Seq (Cls [CChar 40; CChar 45; CChar 8211;
                                     CChar 8212])
                             (Seq (star space)
                                (Seq (Grp 2 jurisdiction_re)
                                   (Seq (star space) (opt (chr 41))))))))))
              (m_start m) [] (m_end m) (m_caps m)) in Hm.
    destruct Hm as (l1 & c1 & (_ & _ & ->) & l2 & c2 & Hs1
                    & l3 & c3 & (c4 & Hname & ->) & l4 & c5 & Hs2
                    & l5 & c6 & Hsep & l6 & c7 & Hs3
                    & l7 & c8 & (c9 & Hjur & ->) & l8 & c10 & Hs4 & Hclose).
    apply (matches_groupless M text (star space) eq_refl) in Hs1. subst c2.
    apply name_group_matches in Hname. destruct Hname as (-> & Hname).
    apply (matches_groupless M text (star space) eq_refl) in Hs2. subst c5.
    apply (matches_groupless M text (Cls [CChar 40; CChar 45; CChar 8211;
                                          CChar 8212]) eq_refl) in Hsep.
    subst c6.
    apply (matches_groupless M text (star space) eq_refl) in Hs3. subst c7.
    apply jurisdiction_matches in Hjur. destruct Hjur as (-> & Hjur).
    apply (matches_groupless M text (star space) eq_refl) in Hs4. subst c10.
    apply (matches_groupless M text (opt (chr 41)) eq_refl) in Hclose.
    unfold group_text, group. rewrite Hclose. cbn [lookup Nat.eqb].
    split; assumption.
  - unfold exhibit21_comma in Hm.
    change (matches M text
              (Seq Bol
                 (Seq (star space)
                    (Seq (Grp 1 (seqs [upper; lazy_range 2 90 name_char]))
                       (Seq (chr 44)
                          (Seq (plus space) (Grp 2 jurisdiction_re))))))
              (m_start m) [] (m_end m) (m_caps m)) in Hm.
    destruct Hm as (l1 & c1 & (_ & _ & ->) & l2 & c2 & Hs1
                    & l3 & c3 & (c4 & Hname & ->) & l4 & c5 & Hcomma
                    & l5 & c6 & Hs2 & (c7 & Hjur & Hcaps)).
    apply (matches_groupless M text (star space) eq_refl) in Hs1. subst c2.
    apply name_group_matches in Hname. destruct Hname as (-> & Hname).
    apply (matches_groupless M text (chr 44) eq_refl) in Hcomma. subst c5.
    apply (matches_groupless M text (plus space) eq_refl) in Hs2. subst c6.
    apply jurisdiction_matches in Hjur. destruct Hjur as (-> & Hjur).
    unfold group_text, group. rewrite Hcaps. cbn [lookup Nat.eqb].
    split; assumption.
Qed.

(** The first group of an owner match. *)
Lemma owner_group text p m :
  In p owner_patterns -> In m (finditer M p text) ->
  exists x rest,
    group_text text m 1 = x :: rest
    /\ is_ascii_upper x = true
    /\ Forall (fun y => name_character y = true) rest
    /\ 2 <= length rest.
Proof.
  intros Hp Hin.
  pose proof (finditer_sound M p text) as F.
  rewrite Forall_forall in F. destruct (F _ Hin) as (_ & Hm).
  destruct Hp as [<-|[<-|[]]].
  - unfold owner_dash in Hm.
    change (matches M text
              (Seq (Grp 1 (seqs [upper; lazy_range 2 80 name_char]))
                   (Seq (plus space)
                        (Seq (opt (alts [chr 8212; chr 8211; chr 45; chr 58]))
                             (Seq (star space)
                                  (Seq (Grp 2 number_re)
                                       (Seq (star space) (chr 37)))))))
              (m_start m) [] (m_end m) (m_caps m)) in Hm.
    destruct Hm as (l1 & c1 & (c0 & Hname & ->) & l2 & c2 & Hs1
                    & l3 & c3 & Hsep & l4 & c4 & Hs2
                    & l5 & c5 & (c6 & Hnum & ->) & l6 & c7 & Hs & Hpct).
    apply name_group_matches in Hname. destruct Hname as (-> & Hname).
    apply (matches_groupless M text (plus space) eq_refl) in Hs1. subst c2.
    apply (matches_groupless M text
             (opt (alts [chr 8212; chr 8211; chr 45; chr 58])) eq_refl)
      in Hsep.
    subst c3.
    apply (matches_groupless M text (star space) eq_refl) in Hs2. subst c4.
    apply (matches_groupless M text number_re eq_refl) in Hnum. subst c6.
    apply (matches_groupless M text (star space) eq_refl) in Hs. subst c7.
    apply (matches_groupless M text (chr 37) eq_refl) in Hpct.
    unfold group_text, group. rewrite Hpct. cbn [lookup Nat.eqb].
    exact Hname.
  - unfold owner_percent in Hm.
    change (matches M text
              (Seq (Grp 1 (seqs [upper; lazy_range 2 80 name_char]))
                   (Seq (plus space)
                        (Seq (Grp 2 number_re)
                             (Seq (star space)
                                  (alts [word "percent"; chr 37])))))
              (m_start m) [] (m_end m) (m_caps m)) in Hm.
    destruct Hm as (l1 & c1 & (c0 & Hname & ->) & l2 & c2 & Hs1
                    & l3 & c3 & (c4 & Hnum & ->) & l4 & c5 & Hs & Hpct).
    apply name_group_matches in Hname. destruct Hname as (-> & Hname).
    apply (matches_groupless M text (plus space) eq_refl) in Hs1. subst c2.
    apply (matches_groupless M text number_re eq_refl) in Hnum. subst c4.
    apply (matches_groupless M text (star space) eq_refl) in Hs. subst c5.
    apply (matches_groupless M text (alts [word "percent"; chr 37]) eq_refl)
      in Hpct.
    unfold group_text, group. rewrite Hpct. cbn [lookup Nat.eqb].
    exact Hname.
Qed.

(** [re.sub(r'\s+', ' ', name)] squeezes the runs of white space. *)
Lemma collapse_spaces_squeeze name :
  collapse_spaces name = squeeze is_space 32 name.
Proof.
  unfold collapse_spaces, space, squeeze. rewrite sub_plus_cls.
  apply scan_sub_ext. intros s. unfold run_head.
  rewrite (@run_length_ext _ is_space); [reflexivity|].
  intros x. apply cls_space.
Qed.

Lemma name_character_upper x : is_ascii_upper x = true -> name_character x = true.
Proof.
  intros H. unfold name_character, is_ascii_letter. rewrite H. reflexivity.
Qed.

Lemma Forall_firstn {X} (P : X -> Prop) k l : Forall P l -> Forall P (firstn k l).
Proof.
  intros H. rewrite <- (firstn_skipn k l) in H. apply Forall_app in H. tauto.
Qed.

Lemma Forall_skipn {X} (P : X -> Prop) k l : Forall P l -> Forall P (skipn k l).
Proof.
  intros H. rewrite <- (firstn_skipn k l) in H. apply Forall_app in H. tauto.
Qed.

(** The name that the extractors make of a first group. *)
Lemma normalised_name g x rest :
  g = x :: rest -> is_ascii_upper x = true ->
  Forall (fun y => name_character y = true) rest ->
  normal_name (collapse_spaces (strip g))
  /\ (forall l y, collapse_spaces (strip g) = l ++ [y] -> is_space y = false).
Proof.
  intros -> Hx Hrest. rewrite collapse_spaces_squeeze.
  pose proof (upper_not_space _ Hx) as Hsx.
  destruct (@strip_head x rest Hsx) as (tl & Es).
  assert (Hall : Forall (fun y => name_character y = true) (strip (x :: rest))).
  { destruct (strip_segment (x :: rest)) as (a & b & ->).
    apply Forall_firstn, Forall_skipn. constructor;
      [apply name_character_upper; exact Hx | exact Hrest]. }
  split; [split; [|split; [|split]]|].
  - rewrite Es. rewrite (squeeze_keep is_space 32 x tl Hsx). eauto.
  - apply Forall_forall. intros y Hy. apply squeeze_In in Hy.
    destruct Hy as [(Hy & _)|(-> & _)]; [|reflexivity].
    rewrite Forall_forall in Hall. apply Hall. exact Hy.
  - intros y Hy Hs. apply squeeze_In in Hy.
    destruct Hy as [(_ & Hn)|(-> & _)]; [congruence | reflexivity].
  - apply squeeze_no_pair.
  - intros l y E.
    destruct (strip (x :: rest)) as [|z u] eqn:Est using rev_ind;
      [discriminate|].
    clear IHu. pose proof (strip_last _ _ _ Est) as Hz.
    rewrite (squeeze_last is_space 32 u z Hz) in E.
    apply app_inj_tail in E. destruct E as (_ & <-). exact Hz.
Qed.

End CaptureFacts.

(* ================================================================== *)
(** * The records of the extractors *)

Module Records.
Import Py Re App Scan Shape ReFacts PyFacts AppFacts DirectorFacts ScanFacts
       SqueezeFacts StripFacts CaptureFacts.

Lemma lower_not_space x : is_ascii_lower x = true -> is_space x = false.
Proof.
  intros H. apply letter_not_space. unfold is_ascii_letter. rewrite H.
  apply orb_true_r.
Qed.

(** [strip] leaves a captured jurisdiction as it is. *)
Lemma jurisdiction_strip j : jurisdiction_shape j -> strip j = j.
Proof.
  intros (x & lowers & tail & -> & Hx & Hne & Hl & Ht).
  apply strip_fixed.
  - intros y tl E. injection E as <- _. apply upper_not_space. exact Hx.
  - intros l y E. destruct Ht as [->|(sp & u1 & u2 & -> & _ & _ & _ & Hu2)].
    + rewrite app_nil_r in E.
      destruct lowers as [|z lowers] using rev_ind; [congruence|].
      rewrite app_comm_cons in E. apply app_inj_tail in E.
      destruct E as (_ & <-). apply lower_not_space.
      rewrite Forall_forall in Hl. apply Hl. apply in_or_app. right.
      left. reflexivity.
    + change [u1; u2] with ([u1] ++ [u2]) in E.
      rewrite !app_assoc, app_comm_cons in E. apply app_inj_tail in E.
      destruct E as (_ & <-). apply upper_not_space. exact Hu2.
Qed.

Lemma jurisdiction_second j :
  jurisdiction_shape j ->
  exists x y tl, j = x :: y :: tl /\ is_ascii_lower y = true.
Proof.
  intros (x & lowers & tail & -> & _ & Hne & Hl & _).
  destruct lowers as [|y lowers]; [congruence|].
  inversion Hl; subst. exists x, y, (lowers ++ tail). auto.
Qed.

Lemma lower_char_upper x : is_ascii_upper x = true -> lower_char x = [(x + 32)%N].
Proof. intros H. unfold lower_char. rewrite H. reflexivity. Qed.

Lemma lower_lowers l :
  Forall (fun y => is_ascii_lower y = true) l -> lower l = l.
Proof.
  unfold lower. induction 1 as [|y l Hy _ IH]; [reflexivity|].
  cbn [flat_map]. rewrite IH. unfold is_ascii_lower, in_range in Hy.
  apply andb_prop in Hy. destruct Hy as (H1 & H2).
  apply N.leb_le in H1, H2. unfold lower_char, is_ascii_upper, in_range.
  replace (y <=? 90)%N with false by (symmetry; apply N.leb_gt; lia).
  replace (192 <=? y)%N with false by (symmetry; apply N.leb_gt; lia).
  rewrite andb_false_r. cbn [orb andb].
  replace (y =? 8490)%N with false by (symmetry; apply N.eqb_neq; lia).
  replace (y =? 304)%N with false by (symmetry; apply N.eqb_neq; lia).
  reflexivity.
Qed.

Lemma lower_length s : length s <= length (lower s).
Proof.
  unfold lower. induction s as [|x s IH]; [apply Nat.le_refl|].
  cbn [flat_map]. rewrite length_app. cbn [length].
  assert (1 <= length (lower_char x)).
  { unfold lower_char. repeat destruct (_ : bool); simpl; lia. }
  lia.
Qed.

(** The jurisdictions that lower to [us] or [usa]. *)
Lemma lower_jurisdiction j :
  jurisdiction_shape j ->
  mem (lower j) [lit "us"; lit "usa"] = true
  <-> j = lit "Us" \/ j = lit "Usa".
Proof.
  intros (x & lowers & tail & -> & Hx & Hne & Hl & Ht). rewrite mem_In.
  split.
  - assert (E : lower (x :: lowers ++ tail)
                = (x + 32)%N :: lowers ++ lower tail).
    { unfold lower. cbn [flat_map]. rewrite (@lower_char_upper x Hx).
      rewrite flat_map_app. fold (lower lowers). rewrite (@lower_lowers lowers Hl).
      reflexivity. }
    rewrite E. clear E.
    assert (Ht' : tail = [] \/ 3 <= length (lower tail)).
    { destruct Ht as [->|(sp & u1 & u2 & -> & Hsp & _)]; [left; reflexivity|].
      right. pose proof (lower_length (sp ++ [u1; u2])) as L.
      rewrite length_app in L. destruct sp; [congruence|].
      cbn [length] in L. lia. }
    destruct lowers as [|y lowers]; [congruence|].
    intros [E|[E|[]]].
    + change (lit "us") with [117%N; 115%N] in E. injection E as Ex Ey E.
      left. destruct lowers; [|discriminate]. cbn [app] in E.
      destruct Ht' as [->|L]; [|rewrite <- E in L; simpl in L; lia].
      replace x with 85%N by lia. subst y. reflexivity.
    + change (lit "usa") with [117%N; 115%N; 97%N] in E.
      injection E as Ex Ey E. right. destruct lowers as [|z lowers].
      * cbn [app] in E. destruct Ht' as [->|L]; [discriminate|].
        rewrite <- E in L. simpl in L. lia.
      * injection E as Ez E. destruct lowers; [|discriminate].
        cbn [app] in E.
        destruct Ht' as [->|L]; [|rewrite <- E in L; simpl in L; lia].
        replace x with 85%N by lia. subst y z. reflexivity.
  - intros [->| ->]; vm_compute; auto.
Qed.

(** X13.  Every record that [parse_exhibit21] returns has a normalised
    name: it starts on an ASCII capital, has more than 2 characters, all of
    the name class, and its white space is single spaces, none at the end.
    The jurisdiction is a capital followed by lower-case letters and then
    nothing or white space and two capitals.  So it is never written [US]
    or [USA], and the offshore count of the complexity score, which lowers
    the jurisdiction first, leaves a record out only when its jurisdiction
    is written [Us] or [Usa]. *)
Theorem subsidiary_records_normalised :
  forall text,
    exists subs,
      parse_exhibit21 text = Ok subs
      /\ forall s, In s subs ->
           normal_name (s_name s)
           /\ 2 < length (s_name s)
           /\ (forall l y, s_name s = l ++ [y] -> is_space y = false)
           /\ jurisdiction_shape (s_jurisdiction s)
           /\ s_jurisdiction s <> lit "US"
           /\ s_jurisdiction s <> lit "USA"
           /\ (mem (lower (s_jurisdiction s)) [lit "us"; lit "usa"] = true
               <-> s_jurisdiction s = lit "Us"
                   \/ s_jurisdiction s = lit "Usa")
           /\ s_type s = lit "subsidiary".
Proof.
  intros text. eexists. split; [apply parse_exhibit21_spec|].
  intros s Hs. apply in_map_iff in Hs. destruct Hs as (c & <- & Hc).
  apply dedup_by_in in Hc. destruct Hc as (Hin & Hok & _).
  unfold exhibit21_candidates in Hin. apply in_flat_map in Hin.
  destruct Hin as (p & Hp & Hin). apply in_map_iff in Hin.
  destruct Hin as (m & <- & Hm).
  destruct (@exhibit21_groups text p m Hp Hm)
    as ((x & rest & Eg & Hx & Hrest & _) & Hj).
  unfold subsidiary_of, exhibit21_candidate in *.
  cbn [s_name s_jurisdiction s_type fst snd] in *.
  destruct (normalised_name Eg Hx Hrest) as (Hnorm & Hlast).
  rewrite (jurisdiction_strip Hj).
  split; [exact Hnorm|]. split.
  { unfold exhibit21_ok in Hok. cbn [fst] in Hok. apply Nat.ltb_lt in Hok.
    exact Hok. }
  split; [exact Hlast|]. split; [exact Hj|].
  split; [|split; [|split; [apply lower_jurisdiction; exact Hj|reflexivity]]];
    destruct (jurisdiction_second Hj) as (a & b & tl & Ej & Hb);
    rewrite Ej; intros E; vm_compute in E; injection E as _ Eb _; subst b;
    discriminate.
Qed.

Lemma rstrip_chars_firstn chars s : exists k, rstrip_chars chars s = firstn k s.
Proof. unfold rstrip_chars. apply rstrip_by_firstn. Qed.

Lemma normal_name_firstn k name :
  normal_name name -> firstn k name <> [] -> normal_name (firstn k name).
Proof.
  intros ((x & tl & -> & Hx) & Hall & Hsp & Hnp) Hne.
  split; [|split; [|split]].
  - destruct k as [|k]; [exfalso; apply Hne; reflexivity|].
    cbn [firstn]. eauto.
  - apply Forall_firstn. exact Hall.
  - intros y Hy. apply Hsp.
    rewrite <- (firstn_skipn k (x :: tl)). apply in_or_app. left. exact Hy.
  - apply no_pair_firstn. exact Hnp.
Qed.

Lemma open_range_finite f :
  in_open_range f = true -> exists m e, f = S754_finite false m e.
Proof.
  unfold in_open_range. intros H. apply andb_prop in H.
  destruct H as (H1 & H2).
  destruct f as [s|s| |s m e]; try discriminate.
  - destruct s; discriminate.
  - destruct s; [discriminate | eauto].
Qed.

(** X14.  Every record that [parse_def14a_beneficial_owners] returns has an
    ownership strictly between 0.1 and 100, a finite positive number, and
    a normalised name of more than 3 characters that ends neither with a
    dot nor with a comma. *)
Theorem owner_records_in_range :
  forall text,
    exists owns,
      parse_def14a_beneficial_owners text = Ok owns
      /\ forall o, In o owns ->
           in_open_range (o_ownership o) = true
           /\ (exists m e, o_ownership o = S754_finite false m e)
           /\ normal_name (o_name o)
           /\ 3 < length (o_name o)
           /\ (forall l y, o_name o = l ++ [y] -> y <> 46%N /\ y <> 44%N)
           /\ o_type o = lit "owner".
Proof.
  intros text. eexists. split; [apply parse_def14a_beneficial_owners_spec|].
  intros o Ho. apply in_map_iff in Ho. destruct Ho as (c & <- & Hc).
  apply dedup_by_in in Hc. destruct Hc as (Hin & Hok & _).
  unfold owner_candidates in Hin. apply in_flat_map in Hin.
  destruct Hin as (p & Hp & Hin). apply in_flat_map in Hin.
  destruct Hin as (m & Hm & Hin). unfold owner_candidate in Hin.
  destruct (py_float (strip (group_text text m 2))) as [f|e]; [|destruct Hin].
  destruct Hin as [<-|[]].
  unfold owner_ok in Hok. cbn [fst snd] in Hok. apply andb_prop in Hok.
  destruct Hok as (Hrange & Hlen). apply Nat.ltb_lt in Hlen.
  unfold owner_of. cbn [o_name o_ownership o_type fst snd].
  split; [exact Hrange|]. split; [apply open_range_finite; exact Hrange|].
  destruct (@owner_group text p m Hp Hm) as (x & rest & Eg & Hx & Hrest & _).
  destruct (normalised_name Eg Hx Hrest) as (Hnorm & _).
  unfold owner_name in *.
  split.
  { destruct (rstrip_chars_firstn (lit ".,")
                (collapse_spaces (strip (group_text text m 1)))) as (k & E).
    rewrite E in *. apply normal_name_firstn; [exact Hnorm|].
    intros E0. rewrite E0 in Hlen. simpl in Hlen. lia. }
  split; [exact Hlen|]. split; [|reflexivity].
  intros l y E. unfold rstrip_chars in E. apply rstrip_by_last in E.
  cbn [existsb lit map list_ascii_of_string] in E.
  change (N_of_ascii "."%char) with 46%N in E.
  change (N_of_ascii ","%char) with 44%N in E.
  rewrite orb_false_r in E. apply orb_false_elim in E.
  destruct E as (E1 & E2). apply N.eqb_neq in E1, E2. auto.
Qed.

End Records.

(* ================================================================== *)
(** * Requests without a usable text *)

Module Textless.
Import Py Re App Web Shape ReFacts PyFacts AppFacts DirectorFacts SectionFacts
       WebFacts.

(** X15.  Without a 10-K text (no 10-K file in the request, or one whose
    name [allowed_file] refuses) the analysis has no subsidiary, whatever
    the DEF 14A text holds: the fallback of [upload] needs a 10-K text that
    is not empty.  The complexity score is then 0.0. *)
Theorem no_ten_k_no_subsidiaries :
  forall def14a_text,
    exists r,
      extract_from_filings [] def14a_text = Ok r
      /\ upload_extract [] def14a_text = Ok r
      /\ subsidiaries r = []
      /\ total_subsidiaries (calculate_metrics r) = 0
      /\ countries (calculate_metrics r) = 0
      /\ complexity_score (calculate_metrics r) = PFloat (S754_zero false).
Proof.
  intros def14a_text.
  destruct (Pipeline.extract_from_filings_total [] def14a_text)
    as (r & E & _ & Hs & _).
  assert (S : subsidiaries r = []).
  { apply Hs. repeat constructor. }
  exists r. split; [exact E|]. split.
  { unfold upload_extract. rewrite E. cbn [bind]. rewrite S. reflexivity. }
  split; [exact S|].
  unfold calculate_metrics, calculate_complexity_score.
  cbn [total_subsidiaries countries complexity_score]. rewrite S.
  repeat split.
Qed.

Section Blank.
Variable text : str.
Hypothesis blank : Forall (fun x => is_space x = true) text.

Lemma blank_nth i x : nth_error text i = Some x -> is_space x = true.
Proof.
  intros H. apply nth_error_In in H. rewrite Forall_forall in blank.
  apply blank. exact H.
Qed.

Lemma marker_prefix fl ws r0 :
  forall i c j c',
    matches fl text
            (fold_left (fun r w' => Seq r (Seq (plus space) (word w'))) ws r0)
            i c j c' ->
    exists l c1, matches fl text r0 i c l c1.
Proof.
  revert r0. induction ws as [|w ws IH]; intros r0 i c j c' H.
  - eauto.
  - cbn [fold_left] in H. apply IH in H.
    destruct H as (l & c1 & l0 & c0 & H & _). eauto.
Qed.

Lemma substr_In (t : str) a b x : In x (substr t a b) -> In x t.
Proof.
  unfold substr. intros H.
  rewrite <- (firstn_skipn a t). apply in_or_app. right.
  rewrite <- (firstn_skipn (b - a) (skipn a t)). apply in_or_app. left.
  exact H.
Qed.

(** A marker that starts with a letter matches nowhere in a text of white
    space. *)
Lemma blank_unmatched a w ws :
  is_ascii_letter (N_of_ascii a) = true ->
  unmatched text (marker (String a w :: ws)).
Proof.
  intros Ha. apply unmatched_iff. intros i j c' Hi H.
  unfold marker in H. apply marker_prefix in H.
  destruct H as (l & c1 & H). unfold word in H.
  apply word_matches in H; [|discriminate].
  destruct H as (_ & _ & Hf).
  change (lit (String a w)) with (N_of_ascii a :: lit w) in Hf.
  inversion Hf as [|x y u cs Hx _ Eu]; subst.
  assert (Hin : In x text).
  { apply (@substr_In text i l). rewrite <- Eu. left. reflexivity. }
  rewrite Forall_forall in blank. specialize (blank x Hin).
  pose proof (accepts_letter Hx Ha). congruence.
Qed.

Lemma blank_sections :
  Forall (unmatched text) exhibit21_start
  /\ Forall (unmatched text) directors_start
  /\ Forall (unmatched text) owners_start.
Proof.
  repeat split; repeat constructor; apply blank_unmatched; reflexivity.
Qed.

End Blank.

Lemma join_blank pages :
  Forall (fun p => text_or_empty p = []) pages ->
  Forall (fun x => is_space x = true)
         (join [10%N; 10%N] (map text_or_empty pages))
  /\ (length pages <= 1 -> join [10%N; 10%N] (map text_or_empty pages) = [])
  /\ (2 <= length pages -> join [10%N; 10%N] (map text_or_empty pages) <> []).
Proof.
  induction 1 as [|p pages Hp Hps (IH1 & IH2 & IH3)].
  - split; [constructor|]. split; [reflexivity | simpl; lia].
  - cbn [map join length]. rewrite Hp.
    destruct pages as [|q pages].
    + split; [constructor|]. split; [reflexivity | simpl; lia].
    + split; [|split].
      * cbn [app]. repeat (constructor; [reflexivity|]). exact IH1.
      * simpl. lia.
      * intros _. discriminate.
Qed.

(** X16.  A DEF 14A whose pages have no text is refused with 400 only
    when it has at most one page.  The texts of two or more pages are
    joined by newlines into a text that is not empty: [upload] then
    answers with an analysis that has no director and no owner, a
    governance score of 5.0 and the risk level [MEDIUM], and without a
    10-K file no subsidiary either. *)
Theorem textless_def14a_pages :
  forall fs def14a_file pages,
    files_get "def14a_file" fs = Some def14a_file ->
    filename def14a_file <> [] ->
    document def14a_file = Some pages ->
    Forall (fun p => text_or_empty p = []) pages ->
    (length pages <= 1 ->
     upload fs = BadRequest "Could not extract text from DEF 14A")
    /\ (2 <= length pages ->
        exists r m,
          upload fs = Analysis r m
          /\ directors r = [] /\ owners r = []
          /\ governance_score m = PFloat (float_of_Z 5)
          /\ risk_level m = lit "MEDIUM"
          /\ (files_get "10k_file" fs = None -> subsidiaries r = [])).
Proof.
  intros fs f pages Hf Hname Hdoc Hpages.
  rewrite (Upload.upload_cases fs), Hf.
  destruct (filename f) as [|c name]; [congruence|].
  assert (Ep : pdf_to_text (document f)
               = join [10%N; 10%N] (map text_or_empty pages))
    by (rewrite Hdoc; reflexivity).
  rewrite Ep.
  destruct (join_blank Hpages) as (Hblank & Hshort & Hlong).
  split.
  - intros Hl. rewrite (Hshort Hl). reflexivity.
  - intros Hl. specialize (Hlong Hl).
    set (def14a_text := join [10%N; 10%N] (map text_or_empty pages)) in *.
    set (ten_k_text := match files_get "10k_file" fs with
                       | Some g =>
                           match allowed_file (filename g) with
                           | Some true => pdf_to_text (document g)
                           | _ => []
                           end
                       | None => []
                       end).
    destruct (blank_sections Hblank) as (_ & Hd & Ho).
    destruct (Pipeline.extract_from_filings_total ten_k_text def14a_text)
      as (r0 & E & _ & Hs & Hdirs & Howns).
    specialize (Hdirs Hd). specialize (Howns Ho).
    destruct (Pipeline.upload_extract_total ten_k_text def14a_text)
      as (r & Er).
    assert (Hr : directors r = [] /\ owners r = []
                 /\ (ten_k_text = [] -> subsidiaries r = [])).
    { unfold upload_extract in Er. rewrite E in Er. cbn [bind] in Er.
      destruct (subsidiaries r0) as [|s0 ss] eqn:Es0.
      - destruct ten_k_text as [|c0 t0] eqn:Et.
        + injection Er as <-. auto.
        + destruct (parse_exhibit21 def14a_text) as [subs|e];
            cbn [bind] in Er; [|discriminate].
          injection Er as <-. cbn [directors owners]. repeat split; auto.
          discriminate.
      - injection Er as <-. repeat split; auto. intros Et.
        destruct (Pipeline.extract_from_filings_total [] def14a_text)
          as (r1 & E1 & _ & Hs1 & _).
        assert (S1 : subsidiaries r1 = []) by (apply Hs1; repeat constructor).
        rewrite Et in E. rewrite E in E1. injection E1 as <-. congruence. }
    destruct Hr as (Hrd & Hro & Hrs).
    exists r, (calculate_metrics r). unfold upload_texts.
    destruct def14a_text as [|c0 d0] eqn:Ed; [congruence|].
    rewrite Er. split; [reflexivity|]. split; [exact Hrd|].
    split; [exact Hro|].
    unfold calculate_metrics, calculate_governance_score, calculate_risk_level.
    cbn [governance_score risk_level]. rewrite Hrd, Hro.
    split; [reflexivity|]. split; [reflexivity|].
    intros H10. apply Hrs. unfold ten_k_text. rewrite H10. reflexivity.
Qed.

(** Two pages without text and no 10-K file: the answer is the analysis of
    nothing. *)
Lemma textless_def14a_pages_witness :
  exists m,
    upload Fixtures.two_blank_pages = Analysis Samples.empty_result m
    /\ governance_score m = PFloat (float_of_Z 5)
    /\ risk_level m = lit "MEDIUM".
Proof.
  destruct (@textless_def14a_pages Fixtures.two_blank_pages
              {| filename := lit "proxy.pdf";
                 document := Some [None; Some []] |}
              [None; Some []] eq_refl)
    as (_ & H).
  - discriminate.
  - reflexivity.
  - repeat constructor.
  - destruct (H (Nat.le_refl 2)) as (r & m & E & Hd & Ho & Hg & Hr & Hs).
    exists m. split; [|split; assumption].
    rewrite E. f_equal. destruct r as [subs dirs owns].
    cbn [directors owners subsidiaries] in *.
    rewrite Hd, Ho, (Hs eq_refl). reflexivity.
Defined.

End Textless.

(* ================================================================== *)
(** * Counting countries *)

Module Counting.
Import Py App PyFacts.

Lemma distinct_fold xs :
  forall acc,
    NoDup acc ->
    NoDup (fold_left (fun acc x => if mem x acc then acc else x :: acc) xs acc)
    /\ forall x,
         In x (fold_left (fun acc x => if mem x acc then acc else x :: acc)
                         xs acc)
         <-> In x acc \/ In x xs.
Proof.
  induction xs as [|y xs IH]; intros acc Hacc; cbn [fold_left].
  - split; [exact Hacc|]. intros x. simpl. tauto.
  - destruct (mem y acc) eqn:E.
    + destruct (IH acc Hacc) as (Hn & Hi). split; [exact Hn|].
      intros x. rewrite Hi. apply mem_In in E. simpl.
      split; [tauto|]. intros [H|[<-|H]]; auto.
    + apply mem_false_not_In in E.
      destruct (IH (y :: acc)) as (Hn & Hi); [constructor; assumption|].
      split; [exact Hn|]. intros x. rewrite Hi. simpl. tauto.
Qed.

(** X17.  The metric [countries] is the number of different jurisdiction
    strings among the subsidiaries, compared as they are written: it is at
    most the number of subsidiaries, and 0 only when there is none. *)
Theorem countries_counts_jurisdictions :
  forall data,
    exists js,
      NoDup js
      /\ (forall j, In j js <->
                    exists s, In s (subsidiaries data) /\ s_jurisdiction s = j)
      /\ countries (calculate_metrics data) = length js
      /\ countries (calculate_metrics data)
         <= total_subsidiaries (calculate_metrics data)
      /\ (countries (calculate_metrics data) = 0 <-> subsidiaries data = []).
Proof.
  intros data. unfold calculate_metrics. cbn [countries total_subsidiaries].
  unfold distinct.
  destruct (@distinct_fold (map s_jurisdiction (subsidiaries data)) []
              (NoDup_nil _)) as (Hn & Hi).
  set (js := fold_left (fun acc x => if mem x acc then acc else x :: acc)
                       (map s_jurisdiction (subsidiaries data)) []) in *.
  assert (Hin : forall j, In j js <->
                          exists s, In s (subsidiaries data)
                                    /\ s_jurisdiction s = j).
  { intros j. rewrite Hi, in_map_iff. simpl. split.
    - intros [[]|(s & E & Hs)]. eauto.
    - intros (s & Hs & E). right. eauto. }
  exists js. split; [exact Hn|]. split; [exact Hin|].
  split; [reflexivity|]. split.
  - rewrite <- (length_map s_jurisdiction (subsidiaries data)).
    apply NoDup_incl_length; [exact Hn|]. intros j Hj. apply Hi in Hj.
    destruct Hj as [[]|Hj]. exact Hj.
  - split.
    + intros E. destruct (subsidiaries data) as [|s ss] eqn:Es;
        [reflexivity|].
      exfalso. assert (Hj : In (s_jurisdiction s) js).
      { apply Hin. exists s. split; [left; reflexivity | reflexivity]. }
      destruct js; [destruct Hj | discriminate].
    + intros E. unfold js. rewrite E. reflexivity.
Qed.

(** X18.  The [metrics] entry that [sample_data] returns is not what
    [calculate_metrics] computes from the three lists beside it.  The
    totals, the ownership concentration and the risk level agree; the entry
    says 6 countries, a complexity score of 6.8 and a governance score of
    8.1, where the lists give 5, 9.0 and 7.3. *)
Theorem sample_metrics_differ :
  let computed := calculate_metrics Web.sample_data in
  let written := Web.sample_metrics in
  total_subsidiaries computed = total_subsidiaries written
  /\ total_directors computed = total_directors written
  /\ total_owners computed = total_owners written
  /\ ownership_concentration computed = ownership_concentration written
  /\ risk_level computed = risk_level written
  /\ countries computed = 5 /\ countries written = 6
  /\ complexity_score computed = PFloat (Web.decimal "9.0")
  /\ complexity_score written = PFloat (Web.decimal "6.8")
  /\ complexity_score computed <> complexity_score written
  /\ governance_score computed = PFloat (Web.decimal "7.3")
  /\ governance_score written = PFloat (Web.decimal "8.1")
  /\ governance_score computed <> governance_score written.
Proof.
  vm_compute. repeat split; discriminate.
Qed.

End Counting.

(* ================================================================== *)
(** * What cleaning keeps *)

Module Content.
Import Py Re Scan Web PdfExtractor ReFacts SectionFacts ScanFacts SqueezeFacts
       BlankFacts StripFacts CleanText Reading.

Lemma visible_app a b : visible (a ++ b) = visible a ++ visible b.
Proof. apply filter_app. Qed.

Lemma visible_blank s :
  Forall (fun x => is_space x = true) s -> visible s = [].
Proof.
  induction 1 as [|x s Hx _ IH]; [reflexivity|].
  unfold visible in *. cbn [filter]. rewrite Hx. exact IH.
Qed.

Lemma visible_space x s : is_space x = true -> visible (x :: s) = visible s.
Proof. intros H. unfold visible. cbn [filter]. rewrite H. reflexivity. Qed.

(** A substitution that replaces white space by white space keeps the
    other characters. *)
Lemma scan_sub_visible h repl :
  Forall (fun x => is_space x = true) repl ->
  (forall s n, h s = Some n ->
               Forall (fun x => is_space x = true) (firstn n s)) ->
  forall s skip,
    Forall (fun x => is_space x = true) (firstn skip s) ->
    visible (scan_sub h repl s skip) = visible s.
Proof.
  intros Hr Hh. induction s as [|x s IH]; intros skip Hs; [reflexivity|].
  cbn [scan_sub]. destruct skip as [|k].
  - destruct (h (x :: s)) as [[|n]|] eqn:E.
    + unfold visible in *. cbn [filter]. rewrite (IH 0); [reflexivity|].
      constructor.
    + apply Hh in E. cbn [firstn] in E. inversion E as [|? ? Hx Hn]; subst.
      rewrite visible_app, (visible_blank Hr), (@visible_space _ _ Hx).
      apply IH. exact Hn.
    + unfold visible in *. cbn [filter]. rewrite (IH 0); [reflexivity|].
      constructor.
  - cbn [firstn] in Hs. inversion Hs as [|? ? Hx Hk]; subst.
    rewrite (@visible_space _ _ Hx). apply IH. exact Hk.
Qed.

Lemma blank_end_blank s :
  forall n, blank_end s = Some n ->
            Forall (fun x => is_space x = true) (firstn n s).
Proof.
  induction s as [|x s IH]; intros n E; [discriminate|].
  cbn [blank_end] in E. destruct (is_space x) eqn:Hx; [|discriminate].
  destruct (blank_end s) as [m|].
  - injection E as <-. cbn [firstn]. constructor; [exact Hx|].
    apply IH. reflexivity.
  - destruct (x =? 10)%N; [|discriminate]. injection E as <-.
    cbn [firstn]. constructor; [exact Hx | constructor].
Qed.

Lemma blank_head_blank s n :
  blank_head s = Some n -> Forall (fun x => is_space x = true) (firstn n s).
Proof.
  unfold blank_head. destruct s as [|x s]; [discriminate|].
  destruct (x =? 10)%N eqn:Hx; [|discriminate].
  apply N.eqb_eq in Hx. subst x.
  destruct (blank_end s) as [m|] eqn:E; [|discriminate].
  intros H. injection H as <-. cbn [firstn].
  constructor; [reflexivity|]. apply blank_end_blank. exact E.
Qed.

Lemma run_length_prefix P s : Forall (fun x => P x = true) (firstn (run_length P s) s).
Proof.
  induction s as [|x s IH]; [constructor|]. cbn [run_length].
  destruct (P x) eqn:Hx; [|constructor]. cbn [firstn].
  constructor; assumption.
Qed.

Lemma visible_lstrip s : visible (lstrip_by is_space s) = visible s.
Proof.
  induction s as [|x s IH]; [reflexivity|]. cbn [lstrip_by].
  destruct (is_space x) eqn:Hx; [|reflexivity].
  rewrite (@visible_space _ _ Hx). exact IH.
Qed.

Lemma visible_rev s : visible (rev s) = rev (visible s).
Proof.
  unfold visible. induction s as [|x s IH]; [reflexivity|].
  cbn [rev filter]. rewrite filter_app, IH. cbn [filter].
  destruct (negb (is_space x)); [reflexivity | apply app_nil_r].
Qed.

Lemma visible_strip s : visible (strip s) = visible s.
Proof.
  unfold strip, rstrip_by.
  rewrite visible_rev, visible_lstrip, visible_rev, rev_involutive.
  apply visible_lstrip.
Qed.

Lemma visible_firstn k :
  forall s, exists k', visible (firstn k s) = firstn k' (visible s).
Proof.
  induction k as [|k IH]; intros s; [exists 0; reflexivity|].
  destruct s as [|x s]; [exists 0; reflexivity|].
  destruct (IH s) as (k' & E). cbn [firstn]. unfold visible in *.
  cbn [filter]. destruct (negb (is_space x)).
  - exists (S k'). cbn [firstn]. rewrite E. reflexivity.
  - exists k'. exact E.
Qed.

(** The two substitutions and [strip] keep what is not white space. *)
Lemma visible_stripped text :
  visible (strip (squeeze (N.eqb 32) 32
                          (scan_sub blank_head [10%N; 10%N] text 0)))
  = visible text.
Proof.
  rewrite visible_strip. unfold squeeze.
  rewrite scan_sub_visible.
  - apply scan_sub_visible.
    + repeat constructor.
    + intros s n. apply blank_head_blank.
    + constructor.
  - repeat constructor.
  - intros s n. unfold run_head.
    pose proof (run_length_prefix (N.eqb 32) s) as H.
    destruct (run_length (N.eqb 32) s) as [|m]; [discriminate|].
    intros E. injection E as <-. eapply Forall_impl; [|exact H].
    intros x Hx. apply N.eqb_eq in Hx. subst x. reflexivity.
  - constructor.
Qed.

(** X19.  [clean_text] changes white space only: the characters of its
    result that are not white space are those of the text, in their order,
    up to where the result is cut; when the whole text fits into
    [max_length] they are all there. *)
Theorem clean_text_keeps_text :
  forall text max_length,
    (exists k,
        visible (clean_text text max_length) = firstn k (visible text))
    /\ ((Z.of_nat (length text) <= max_length)%Z ->
        visible (clean_text text max_length) = visible text).
Proof.
  intros text max_length.
  destruct (clean_text_steps text max_length) as (k & E & _ & Hfit).
  destruct (stripped_properties text) as (Hlen & _).
  cbv zeta in E, Hfit, Hlen. split.
  - rewrite E. destruct (visible_firstn k
      (strip (squeeze (N.eqb 32) 32
                      (scan_sub blank_head [10%N; 10%N] text 0))))
      as (k' & ->).
    rewrite visible_stripped. exists k'. reflexivity.
  - intros H. rewrite Hfit by lia. apply visible_stripped.
Qed.

(** X20.  In [extract] the text that [extract_text_from_pdf] returns goes
    through [clean_text] with the default length.  What comes out is never
    empty: it starts with the first character of the document that is not
    white space, and has at most 1500 characters. *)
Theorem extracted_text_cleans :
  forall path_exists doc text,
    extract_text_from_pdf path_exists doc = inr text ->
    exists x rest more,
      clean_text text default_max_length = x :: rest
      /\ visible text = x :: more
      /\ length (x :: rest) <= 1500.
Proof.
  intros path_exists doc text E.
  assert (Hv : visible text <> []).
  { unfold extract_text_from_pdf in E.
    destruct path_exists; [|discriminate]. destruct doc as [pages|];
      [|discriminate]. cbn [negb] in E.
    destruct (strip (page_texts pages)) as [|y tl] eqn:Es; [discriminate|].
    injection E as <-. rewrite <- visible_strip, Es.
    pose proof (strip_first _ Es) as Hy. unfold visible. cbn [filter].
    rewrite Hy. discriminate. }
  rewrite <- visible_stripped in Hv |- *. rewrite clean_text_scan. cbv zeta.
  set (stripped := strip _) in *.
  destruct stripped as [|x tl] eqn:Es; [exfalso; apply Hv; reflexivity|].
  pose proof (strip_first _ Es) as Hx.
  assert (Ev : visible (x :: tl) = x :: visible tl).
  { unfold visible. cbn [filter]. rewrite Hx. reflexivity. }
  unfold default_max_length.
  destruct (Z.ltb_spec 1500 (Z.of_nat (length (x :: tl)))) as [H|H].
  - change 1500%Z with (Z.of_nat 1500) at 1. rewrite clip_nat.
    rewrite Nat.min_r by lia.
    exists x, (firstn 1499 tl), (visible tl). split; [reflexivity|].
    split; [exact Ev|]. cbn [length]. rewrite length_firstn. lia.
  - exists x, tl, (visible tl). split; [reflexivity|].
    split; [exact Ev | lia].
Qed.

(** A page that starts and ends with spaces. *)
Lemma extracted_text_cleans_witness :
  exists x rest more,
    clean_text (lit "  Ann Lee,  CFO  " ++ [10%N]) default_max_length
    = x :: rest
    /\ visible (lit "  Ann Lee,  CFO  " ++ [10%N]) = x :: more
    /\ length (x :: rest) <= 1500.
Proof.
  apply (@extracted_text_cleans true (Some [Some (lit "  Ann Lee,  CFO  ")])).
  reflexivity.
Defined.

End Content.

(* ================================================================== *)
(** * The sections of [extract_from_filings] *)

Module Located.
Import Py Re App Markers ReFacts PyFacts SectionFacts DirectorFacts ScanFacts
       CaptureFacts Textless.

Lemma accepted_accepts y x : accepts true y x <-> accepted y x = true.
Proof.
  unfold accepts, accepted. rewrite orb_true_iff, N.eqb_eq, existsb_exists.
  split.
  - intros [H|[_ H]]; [left; exact H|]. right. exists y.
    split; [exact H | apply N.eqb_refl].
  - intros [H|(z & Hz & E)]; [left; exact H|]. apply N.eqb_eq in E. subst z.
    right. split; [reflexivity | exact Hz].
Qed.

Lemma cased_complete x y : In y (case_class x) -> In x cased.
Proof.
  intros H. apply case_class_cases in H. unfold cased.
  destruct H as [H|H].
  - unfold is_ascii_letter, is_ascii_upper, is_ascii_lower, in_range in H.
    apply orb_prop in H. destruct H as [H|H]; apply andb_prop in H;
      destruct H as (H1 & H2); apply N.leb_le in H1, H2.
    + apply in_or_app. left. apply in_map_iff. exists (N.to_nat x).
      split; [apply N2Nat.id|]. apply in_seq. lia.
    + apply in_or_app. right. apply in_or_app. left. apply in_map_iff.
      exists (N.to_nat x). split; [apply N2Nat.id|]. apply in_seq. lia.
  - apply in_or_app. right. apply in_or_app. right. simpl.
    destruct H as [->|[->|[->| ->]]]; auto.
Qed.

Lemma compatible_sound y1 y2 x :
  accepts true y1 x -> accepts true y2 x -> compatible y1 y2 = true.
Proof.
  intros H1 H2. unfold compatible. apply existsb_exists. exists x. split.
  - destruct H1 as [->|[_ H1]]; [left; reflexivity|]. right.
    eapply cased_complete. exact H1.
  - apply accepted_accepts in H1, H2. rewrite H1, H2. reflexivity.
Qed.

(** Two words at the head of the same text agree. *)
Lemma words_agree_sound w1 :
  forall w2 u,
    Forall2 (fun x y => accepts true y x) (firstn (length w1) u) w1 ->
    Forall2 (fun x y => accepts true y x) (firstn (length w2) u) w2 ->
    words_agree w1 w2 = true.
Proof.
  induction w1 as [|y1 w1 IH]; intros w2 u H1 H2; [reflexivity|].
  destruct w2 as [|y2 w2]; [reflexivity|]. cbn [words_agree length] in *.
  destruct u as [|x u]; [inversion H1|]. cbn [firstn] in H1, H2.
  inversion H1 as [|? ? ? ? Hx1 Hr1]; subst.
  inversion H2 as [|? ? ? ? Hx2 Hr2]; subst.
  rewrite (compatible_sound Hx1 Hx2). cbn [andb].
  apply (IH w2 u); assumption.
Qed.

Lemma accepts_solid ic y x :
  accepts ic y x -> is_space y = false -> is_space x = false.
Proof.
  intros [->|[_ H]] Hy; [exact Hy|]. eapply case_class_not_space. exact H.
Qed.

Section Words.
Variable fl : flags.
Variable t : str.

(** A word, empty or not, matches its own length of text. *)
Lemma word_text cs i c j c' :
  matches fl t (seqs (map chr cs)) i c j c' ->
  j = i + length cs
  /\ Forall2 (fun x y => accepts (ignorecase fl) y x)
             (firstn (length cs) (skipn i t)) cs.
Proof.
  intros H. destruct cs as [|y cs].
  - destruct H as [-> _]. split; [cbn [length]; lia | constructor].
  - apply word_matches in H; [|discriminate].
    destruct H as (-> & _ & Hf). split; [reflexivity|].
    unfold substr in Hf.
    replace (i + length (y :: cs) - i) with (length (y :: cs)) in Hf by lia.
    exact Hf.
Qed.

(** What the text holds where a marker matches: the first word and, for
    a marker of more words, white space and the second word. *)
Lemma marker_words w ws i c j c' :
  matches fl t (marker (w :: ws)) i c j c' ->
  let u := skipn i t in
  Forall2 (fun x y => accepts (ignorecase fl) y x)
          (firstn (length (lit w)) u) (lit w)
  /\ match ws with
     | [] => True
     | v :: _ =>
         exists n,
           Forall (fun x => is_space x = true)
                  (firstn n (skipn (length (lit w)) u))
           /\ Forall2 (fun x y => accepts (ignorecase fl) y x)
                      (firstn (length (lit v))
                              (skipn n (skipn (length (lit w)) u)))
                      (lit v)
     end.
Proof.
  intros H u. unfold u. destruct ws as [|v ws].
  - apply word_text in H. tauto.
  - change (marker (w :: v :: ws))
      with (fold_left (fun r w' => Seq r (Seq (plus space) (word w'))) ws
                      (Seq (word w) (Seq (plus space) (word v)))) in H.
    apply marker_prefix in H.
    destruct H as (l & c1 & l1 & c2 & Hw & l2 & c3 & Hs & Hv).
    apply word_text in Hw. destruct Hw as (-> & Hw).
    apply word_text in Hv. destruct Hv as (_ & Hv).
    apply rep_cls_matches in Hs. destruct Hs as (Hle & _ & Hs & _).
    split; [exact Hw|]. exists (l2 - (i + length (lit w))).
    rewrite !skipn_skipn.
    replace (length (lit w) + i) with (i + length (lit w)) by lia. split.
    + unfold substr in Hs. eapply Forall_impl; [|exact Hs].
      intros x Hx. cbv beta in Hx. rewrite cls_space in Hx. exact Hx.
    + replace (l2 - (i + length (lit w)) + (i + length (lit w))) with l2
        by lia.
      exact Hv.
Qed.
End Words.

(** The first character of a word that is found in a text. *)
Lemma word_head (w u : str) ic :
  Forall2 (fun x y => accepts ic y x) (firstn (length w) u) w ->
  solid w = true ->
  exists x rest, u = x :: rest /\ is_space x = false.
Proof.
  destruct w as [|y w]; [discriminate|]. intros H Hs.
  destruct u as [|x u]; [inversion H|]. cbn [length firstn] in H.
  inversion H as [|? ? ? ? Hx _]; subst. exists x, u.
  split; [reflexivity|]. eapply accepts_solid; [exact Hx|].
  unfold solid in Hs. apply negb_true_iff in Hs. exact Hs.
Qed.

(** A run of white space that a solid word follows ends where the word
    starts. *)
Lemma gap_end (v : str) n1 n2 x rest :
  Forall (fun x => is_space x = true) (firstn n2 v) ->
  skipn n1 v = x :: rest -> is_space x = false -> n2 <= n1.
Proof.
  intros Hsp E Hx. destruct (Nat.le_gt_cases n2 n1) as [H|H]; [exact H|].
  exfalso. apply skipn_cons_nth in E. destruct E as (E & _).
  assert (Hin : In x (firstn n2 v)).
  { apply (@nth_error_In _ _ n1). rewrite nth_error_firstn.
    apply Nat.ltb_lt in H. rewrite H. exact E. }
  rewrite Forall_forall in Hsp. apply Hsp in Hin. congruence.
Qed.

(** Two markers that clash do not match at the head of the same text. *)
Lemma clash_sound t1 t2 ws1 ws2 i1 i2 c1 j1 c1' c2 j2 c2' :
  clash ws1 ws2 = true ->
  skipn i1 t1 = skipn i2 t2 ->
  matches I t1 (marker ws1) i1 c1 j1 c1' ->
  matches I t2 (marker ws2) i2 c2 j2 c2' ->
  False.
Proof.
  intros Hc Eu H1 H2. destruct ws1 as [|w1 r1]; [discriminate|].
  destruct ws2 as [|w2 r2]; [discriminate|].
  apply marker_words in H1, H2. cbn [ignorecase I] in H1, H2.
  cbv zeta in H1, H2. rewrite <- Eu in H2.
  set (u := skipn i1 t1) in *.
  destruct H1 as (Hw1 & Hr1). destruct H2 as (Hw2 & Hr2).
  cbn [clash] in Hc. rewrite (@words_agree_sound _ _ _ Hw1 Hw2) in Hc.
  cbn [negb orb] in Hc. apply andb_prop in Hc. destruct Hc as (Hlen & Hc).
  apply Nat.eqb_eq in Hlen.
  destruct r1 as [|v1 r1]; [discriminate|].
  destruct r2 as [|v2 r2]; [discriminate|].
  apply andb_prop in Hc. destruct Hc as (Hc & Hv).
  apply andb_prop in Hc. destruct Hc as (Hs1 & Hs2).
  destruct Hr1 as (n1 & Hsp1 & Hv1). destruct Hr2 as (n2 & Hsp2 & Hv2).
  rewrite <- Hlen in Hsp2, Hv2.
  set (v := skipn (length (lit w1)) u) in *.
  destruct (word_head _ Hv1 Hs1) as (x1 & q1 & E1 & Hx1).
  destruct (word_head _ Hv2 Hs2) as (x2 & q2 & E2 & Hx2).
  assert (n1 = n2).
  { pose proof (@gap_end _ _ _ _ _ Hsp1 E2 Hx2).
    pose proof (@gap_end _ _ _ _ _ Hsp2 E1 Hx1). lia. }
  subst n2. rewrite (@words_agree_sound _ _ _ Hv1 Hv2) in Hv. discriminate.
Qed.

(** A section whose end markers all clash with its start markers is empty
    only when no start marker is found. *)
Lemma section_empty_iff text starts ends :
  all_clash starts ends = true ->
  find_section text (map marker starts) (Some (map marker ends))
               default_max_chars = []
  <-> Forall (unmatched text) (map marker starts).
Proof.
  intros Hc. split; [|apply Pipeline.find_section_unmatched].
  intros He.
  destruct (find_section_cases text (map marker starts)
              (Some (map marker ends)) default_max_chars)
    as [(_ & H)|(pre & p & post & mt & Es & _ & Hs & E)]; [exact H|].
  exfalso. rewrite He in E.
  assert (Hp : exists ws, In ws starts /\ p = marker ws).
  { assert (Hin : In p (map marker starts))
      by (rewrite Es; apply in_or_app; right; left; reflexivity).
    apply in_map_iff in Hin. destruct Hin as (ws & <- & Hin). eauto. }
  destruct Hp as (ws & Hws & ->).
  apply search_sound in Hs. destruct Hs as (_ & _ & Hm).
  unfold all_clash in Hc. rewrite forallb_forall in Hc.
  specialize (Hc _ Hws). apply andb_prop in Hc. destruct Hc as (Hw & Hc).
  rewrite forallb_forall in Hc.
  assert (Hne : exists x rest, skipn (m_start mt) text = x :: rest).
  { destruct ws as [|w r]; [discriminate|]. cbn [worded] in Hw.
    pose proof (marker_words _ _ _ _ _ _ _ _ Hm) as (Hf & _).
    destruct (lit w) as [|y cs]; [discriminate|].
    destruct (skipn (m_start mt) text) as [|x rest]; [inversion Hf|].
    eauto. }
  destruct Hne as (x & rest & Ex).
  destruct (find_section_end_cases text (m_start mt) (map marker ends))
    as [(En & _)|(epre & em & epost & emt & Ee & _ & Hse & En)];
    rewrite En in E.
  - rewrite slice_nat_Z, Ex in E by (unfold default_max_chars; lia).
    discriminate.
  - rewrite Ex in E. destruct (m_start emt) as [|k] eqn:Ek; [|discriminate].
    assert (Hin : In em (map marker ends))
      by (rewrite Ee; apply in_or_app; right; left; reflexivity).
    apply in_map_iff in Hin. destruct Hin as (we & <- & Hin).
    apply search_sound in Hse. destruct Hse as (_ & _ & Hme).
    rewrite Ek in Hme.
    eapply (@clash_sound text (skipn (m_start mt) text) ws we
              (m_start mt) 0); [apply Hc; exact Hin|reflexivity| |];
      eassumption.
Qed.

(** X21.  In [extract_from_filings] a section is empty exactly when none
    of its start markers is found in the text: a section that is found
    begins with the text of its marker, where no end marker matches, so
    the end markers never cut it down to nothing.  Each extractor is thus
    run exactly when a start marker of its section is found. *)
Theorem located_sections_not_empty :
  forall pdf_10k_text pdf_14a_text,
    (find_section pdf_10k_text exhibit21_start (Some exhibit21_end)
                  default_max_chars = []
     <-> Forall (unmatched pdf_10k_text) exhibit21_start)
    /\ (find_section pdf_14a_text directors_start (Some directors_end)
                     default_max_chars = []
        <-> Forall (unmatched pdf_14a_text) directors_start)
    /\ (find_section pdf_14a_text owners_start (Some owners_end)
                     default_max_chars = []
        <-> Forall (unmatched pdf_14a_text) owners_start).
Proof.
  intros pdf_10k_text pdf_14a_text. split; [|split].
  - apply (@section_empty_iff pdf_10k_text exhibit21_start_words
             exhibit21_end_words). reflexivity.
  - apply (@section_empty_iff pdf_14a_text directors_start_words
             directors_end_words). reflexivity.
  - apply (@section_empty_iff pdf_14a_text owners_start_words
             owners_end_words). reflexivity.
Qed.

End Located.

(* ================================================================== *)
(** * Markers that differ in the case of their letters *)

Module Spelling.
Import Py Re App Markers ReFacts.

Section SameClasses.
Variable fl : flags.
Variable t : str.

Lemma rep_loop_same {A} (body1 body2 : nat -> caps -> cont A -> option A)
      lo hi greedy (k : cont A) :
  (forall i c k', body1 i c k' = body2 i c k') ->
  (forall i c (k1 k2 : cont A),
      agree t i k1 k2 -> body2 i c k1 = body2 i c k2) ->
  forall fuel count i c,
    rep_loop body1 lo hi greedy k fuel count i c
    = rep_loop body2 lo hi greedy k fuel count i c.
Proof.
  intros Hb Hext. induction fuel as [|fuel IH]; intros count i c;
    [reflexivity|].
  cbn [rep_loop]. rewrite Hb.
  assert (E : body2 i c (fun j c' =>
                if i <? j
                then rep_loop body1 lo hi greedy k fuel (S count) j c'
                else None)
              = body2 i c (fun j c' =>
                if i <? j
                then rep_loop body2 lo hi greedy k fuel (S count) j c'
                else None)).
  { apply Hext. intros j c' _ _. destruct (i <? j); [apply IH | reflexivity]. }
  rewrite E. reflexivity.
Qed.

(** Patterns with the same classes run alike. *)
Lemma run_same {A} r1 :
  forall r2, same_classes (ignorecase fl) r1 r2 ->
  forall i c (k : cont A), run fl t r1 i c k = run fl t r2 i c k.
Proof.
  induction r1 as [| | items | | a IHa b IHb | a IHa b IHb
                   | lo hi greedy a IHa | n a IHa];
    intros r2 H; destruct r2; cbn [same_classes] in H; try contradiction;
    intros i c k; cbn [run].
  - reflexivity.
  - reflexivity.
  - destruct (nth_error t i) as [x|]; [|reflexivity]. rewrite H.
    reflexivity.
  - reflexivity.
  - destruct H as (Ha & Hb). rewrite (IHa _ Ha). apply run_ext.
    intros j c' _ _. apply IHb. exact Hb.
  - destruct H as (Ha & Hb). rewrite (IHa _ Ha), (IHb _ Hb). reflexivity.
  - destruct H as (<- & <- & <- & Ha). apply rep_loop_same.
    + intros j c' k'. apply IHa. exact Ha.
    + intros j c' k1 k2. apply run_ext.
  - destruct H as (<- & Ha). apply IHa. exact Ha.
Qed.

Lemma search_at_same p1 p2 :
  same_classes (ignorecase fl) p1 p2 ->
  forall fuel i, search_at fl t p1 fuel i = search_at fl t p2 fuel i.
Proof.
  intros H. induction fuel as [|fuel IH]; intros i; cbn [search_at];
    unfold match_at; rewrite (@run_same _ _ _ H); [reflexivity|].
  rewrite IH. reflexivity.
Qed.
End SameClasses.

Lemma search_same fl p1 p2 t :
  same_classes (ignorecase fl) p1 p2 -> search fl p1 t = search fl p2 t.
Proof.
  intros H. unfold search, search_from. rewrite (@search_at_same fl t _ _ H).
  reflexivity.
Qed.

(** When case is ignored, a capital and its small letter accept the same
    characters. *)
Lemma letter_classes y x :
  is_ascii_upper y = true ->
  cls_mem true [CChar (y + 32)] x = cls_mem true [CChar y] x.
Proof.
  intros Hy. unfold is_ascii_upper, in_range in Hy. apply andb_prop in Hy.
  destruct Hy as (H1 & H2). apply N.leb_le in H1, H2.
  unfold cls_mem. cbn [existsb item_mem andb]. rewrite !orb_false_r.
  unfold case_class, is_ascii_upper, is_ascii_lower, in_range.
  destruct (N.leb_spec 65 x), (N.leb_spec x 90), (N.leb_spec 97 x),
    (N.leb_spec x 122); cbn [andb orb existsb item_mem];
    rewrite ?orb_false_r;
    repeat match goal with
           | |- context [(?a =? ?b)%N] => destruct (N.eqb_spec a b)
           end; cbn [andb orb existsb item_mem];
    repeat match goal with
           | |- context [(?a =? ?b)%N] => destruct (N.eqb_spec a b)
           end; try reflexivity; try lia.
Qed.

(** X22.  The second start marker of the Exhibit 21 section,
    [exhibit\s+21], never decides.  The search ignores case, so it finds
    this marker exactly where it finds [EXHIBIT\s+21], the first one: with
    the first marker alone [find_section] returns the same section, for
    every text, whatever the end markers and the bound are. *)
Theorem second_exhibit21_marker_unused :
  forall text end_markers max_chars,
    search I (marker ["exhibit"; "21"]%string) text
    = search I (marker ["EXHIBIT"; "21"]%string) text
    /\ find_section text exhibit21_start end_markers max_chars
       = find_section text [marker ["EXHIBIT"; "21"]%string] end_markers
                      max_chars.
Proof.
  intros text end_markers max_chars.
  assert (E : search I (marker ["exhibit"; "21"]%string) text
              = search I (marker ["EXHIBIT"; "21"]%string) text).
  { apply search_same. cbn [ignorecase I].
    cbv [marker fold_left word seqs map lit list_ascii_of_string chr plus
         space same_classes].
    repeat split; intros x; try reflexivity;
      match goal with
      | |- cls_mem true [CChar ?a] x = cls_mem true [CChar ?b] x =>
          exact (@letter_classes b x eq_refl)
      end. }
  split; [exact E|]. unfold exhibit21_start. cbn [find_section].
  rewrite E. destruct (search I (marker ["EXHIBIT"; "21"]%string) text);
    reflexivity.
Qed.

End Spelling.
